(** * Yuclid: algebraic reasoning core, solver driver, matcher bucketing and
    statement normalisation, embedded from the C++ sources.

    Conventions of the embedding.
    - [Rat] ([boost::rational<Int>], always stored in lowest terms) is the
      type [Qc] of canonical rationals; integer overflow is outside the
      model.
    - A variable of an AR domain ([Dist], [SquaredDist], [SinOrDist],
      [SlopeAngle]) is identified with its rank in the domain's total
      order, a [nat]; an [EqnIndex] is its insertion number, a prime base
      of a [RootRat] is the number itself.  [LinearCombination<VarT>] only
      ever uses [<] and [==] of [VarT].
    - C++ exceptions are the [Throw] outcome of [result]; dereferencing an
      end iterator is [Undefined]; loops with no syntactic bound run on
      fuel and the fuel reaching zero is [OutOfFuel].
    - A [double] is a [float], the binary64 numbers of the kernel: the keys
      of the buckets are compared as the program compares them, after the
      same roundings.
    - [static_cast] between [Int] and [Nat] is the conversion modulo
      [2^64].
    - Whether the program was compiled with [NDEBUG] is a field of the
      environment of the solver.  The assertion of
      [generate_suspected_ratio_squared_dist] is checked when it was not;
      a failed assertion stops the program, which is the outcome [Throw]
      with the text of the assertion.  The assertions of
      [add_reduced_equation] and of [is_solved] are not checked: what
      these two functions do is what the program compiled with [NDEBUG]
      does.  Where the assertion of line 100, 103 or 115 of
      [linear_system.cpp] fails, that is [Undefined] or the exception of
      line 107; the assertion of line 99 holds in the domains other than
      [Ang] ([add_reduced_equation_assertion]). *)

From Stdlib Require Import QArith Qcanon String Lqa PrimFloat.
From stdpp Require Import functions gmap list numbers sorting.

Open Scope Qc_scope.

(** ** Outcomes of fallible code *)

Inductive result (A : Type) : Type :=
| Ok (a : A)
| Throw (msg : string)
| Undefined
| OutOfFuel.
Arguments Ok {A} a.
Arguments Throw {A} msg.
Arguments Undefined {A}.
Arguments OutOfFuel {A}.

Definition rbind {A B} (r : result A) (k : A → result B) : result B :=
  match r with
  | Ok a => k a
  | Throw m => Throw m
  | Undefined => Undefined
  | OutOfFuel => OutOfFuel
  end.

(** ** ar/linear_combination.cpp *)

Module LC.

(** [TermsVectorType]: a vector of (variable, coefficient) pairs. *)
Definition t := list (nat * Qc).

(** [LinearCombination(var, coeff)]. *)
Definition single (var : nat) (coeff : Qc) : t :=
  if decide (coeff = 0) then [] else [(var, coeff)].

(** [LinearCombination(var)]: coefficient one. *)
Definition of_var (var : nat) : t := single var 1.

(** [merge_terms]: one pass over two sorted term vectors. *)
Fixpoint merge_terms (op_left op_right : Qc → Qc) (binop : Qc → Qc → Qc)
    (l1 : t) : t → t :=
  fix go (l2 : t) : t :=
    match l1, l2 with
    | [], [] => []
    | (v1, c1) :: t1, [] =>
        (v1, op_left c1) :: merge_terms op_left op_right binop t1 []
    | [], (v2, c2) :: t2 => (v2, op_right c2) :: go t2
    | (v1, c1) :: t1, (v2, c2) :: t2 =>
        if decide (v1 < v2)%nat then
          (v1, op_left c1) :: merge_terms op_left op_right binop t1 l2
        else if decide (v2 < v1)%nat then
          (v2, op_right c2) :: go t2
        else if decide (binop c1 c2 = 0) then
          merge_terms op_left op_right binop t1 t2
        else
          (v1, binop c1 c2) :: merge_terms op_left op_right binop t1 t2
    end.

(** [operator+], [operator-]. *)
Definition add (a b : t) : t := merge_terms id id Qcplus a b.
Definition sub (a b : t) : t := merge_terms id Qcopp Qcminus a b.

(** [operator*=] and [operator*(const Rat&)]. *)
Definition scale (multiplier : Qc) (a : t) : t :=
  if decide (multiplier = 0) then []
  else map (λ term, (term.1, term.2 * multiplier)) a.

(** Unary [operator-]. *)
Definition neg (a : t) : t := map (λ term, (term.1, - term.2)) a.

(** [common_denominator]: the lcm of the coefficients' denominators. *)
Definition common_denominator (a : t) : Z :=
  fold_left (λ res term, Z.lcm res (Zpos (Qden (this term.2)))) a 1%Z.

(** Coefficient of a variable (zero when absent). *)
Fixpoint coeff (a : t) (v : nat) : Qc :=
  match a with
  | [] => 0
  | (w, c) :: rest => if decide (w = v) then c else coeff rest v
  end.

(** Every variable of [a] is above [v]. *)
Definition above (v : nat) (a : t) : Prop :=
  Forall (λ term, (v < term.1)%nat) a.

(** Canonical form: strictly increasing variables, no zero coefficient.
    Every value built with the constructors and operators is canonical. *)
Inductive wf : t → Prop :=
| wf_nil : wf []
| wf_cons v c rest : c ≠ 0 → above v rest → wf rest → wf ((v, c) :: rest).

Fixpoint wfb (a : t) : bool :=
  match a with
  | [] => true
  | (v, c) :: rest =>
      bool_decide (c ≠ 0)
      && forallb (λ term, bool_decide (v < term.1)%nat) rest
      && wfb rest
  end.

End LC.

(** ** ar/equation_traits.hpp: the right-hand-side carrier of a domain *)

Class Rhs (R : Type) := {
  rzero : R;                 (* [RHSType()] *)
  radd : R → R → R;          (* [operator+=] *)
  rsub : R → R → R;          (* [operator-=] *)
  rneg : R → R;              (* unary [operator-] *)
  rmul : Qc → R → R;         (* [operator*=(const Rat&)] *)
  is_add_circle : bool;      (* [is_same_v<RHSType, AddCircle<Rat>>] *)
  rvalid : R → Prop;         (* values the constructors can build *)
  rhs_eq_dec :: EqDecision R
}.

(** [Len] and [Len²]: the right-hand side is a [Rat]. *)
#[export] Instance Rat_Rhs : Rhs Qc := {|
  rzero := 0;
  radd := Qcplus;
  rsub := Qcminus;
  rneg := Qcopp;
  rmul := λ c r, r * c;
  is_add_circle := false;
  rvalid := λ _, True
|}.

(** ** numbers/root_rat.cpp *)

Record RootRat := mkRootRat { m_data : LC.t }.

#[export] Instance RootRat_eq_dec : EqDecision RootRat.
Proof. solve_decision. Defined.

(** [Ratio]: "addition" multiplies, "scaling" exponentiates. *)
#[export] Instance RootRat_Rhs : Rhs RootRat := {|
  rzero := mkRootRat [];
  radd := λ x y, mkRootRat (LC.add (m_data x) (m_data y));
  rsub := λ x y, mkRootRat (LC.sub (m_data x) (m_data y));
  rneg := λ x, mkRootRat (LC.neg (m_data x));
  rmul := λ c x, mkRootRat (LC.scale c (m_data x));
  is_add_circle := false;
  rvalid := λ x, LC.wf (m_data x)
|}.

(** ** numbers/add_circle.cpp *)

(** [mod1_reduce] on [Rat]: [%] truncates towards zero. *)
Definition mod1_reduce (val : Qc) : Qc :=
  let result := Q2Qc (Z.rem (Qnum (this val)) (Zpos (Qden (this val)))
                      # Qden (this val)) in
  if decide (result < 0) then result + 1 else result.

Record AddCircle := mkAddCircle { number : Qc }.

#[export] Instance AddCircle_eq_dec : EqDecision AddCircle.
Proof. solve_decision. Defined.

(** [AddCircle(const NumberType&)]. *)
Definition AddCircle_of (r : Qc) : AddCircle := mkAddCircle (mod1_reduce r).

(** [Ang]: arithmetic modulo one. *)
#[export] Instance AddCircle_Rhs : Rhs AddCircle := {|
  rzero := mkAddCircle 0;
  radd := λ x y, mkAddCircle (mod1_reduce (number x + number y));
  rsub := λ x y, mkAddCircle (mod1_reduce (number x - number y));
  rneg := λ x, AddCircle_of (- number x);
  rmul := λ c x, mkAddCircle (mod1_reduce (number x * c));
  is_add_circle := true;
  rvalid := λ x, 0 ≤ number x ∧ number x < 1
|}.

(** ** ar/equation.cpp *)

Record Equation (R : Type) := mkEquation { lhs : LC.t; rhs : R }.
Arguments mkEquation {R} lhs rhs.
Arguments lhs {R} e.
Arguments rhs {R} e.

#[export] Instance Equation_eq_dec {R} `{EqDecision R} : EqDecision (Equation R).
Proof. solve_decision. Defined.

Section equation.
Context {R : Type} `{Rhs R}.

(** [Equation()]: the equation [0 = 0]. *)
Definition eq_zero : Equation R := mkEquation [] rzero.

Definition eq_add (a b : Equation R) : Equation R :=
  mkEquation (LC.add (lhs a) (lhs b)) (radd (rhs a) (rhs b)).

Definition eq_sub (a b : Equation R) : Equation R :=
  mkEquation (LC.sub (lhs a) (lhs b)) (rsub (rhs a) (rhs b)).

Definition eq_mul (multiplier : Qc) (a : Equation R) : Equation R :=
  mkEquation (LC.scale multiplier (lhs a)) (rmul multiplier (rhs a)).

Definition eq_neg (a : Equation R) : Equation R :=
  mkEquation (LC.neg (lhs a)) (rneg (rhs a)).

(** [is_empty]. *)
Definition is_empty (a : Equation R) : bool :=
  bool_decide (lhs a = []) && bool_decide (rhs a = rzero).

Definition eq_valid (a : Equation R) : Prop := LC.wf (lhs a) ∧ rvalid (rhs a).

End equation.

(** [EquationTraits<EqnIndex<VarT>>]: equations are themselves right-hand
    sides, of the equations over equation indices. *)
#[export] Instance Equation_Rhs {R} `{Rhs R} : Rhs (Equation R) := {|
  rzero := eq_zero;
  radd := eq_add;
  rsub := eq_sub;
  rneg := eq_neg;
  rmul := eq_mul;
  is_add_circle := false;
  rvalid := eq_valid
|}.


(** ** ar/linear_system.hpp, ar/reduced_equation.hpp: the data *)

(** [LinearSystem<VarT>].  [LinearCombinationType = Equation<EqnIndex<VarT>>]
    is [Equation (Equation R)]; a [StatementProof *] is the number of the
    proof record. *)
Record LinearSystem (R : Type) := mkLinearSystem {
  m_equations : list (Equation R * nat);
  m_echelon_form : gmap nat (Equation (Equation R));
  m_pivot_by_next : gmap nat (gset nat);
  m_found_variables : gset nat
}.
Arguments mkLinearSystem {R} _ _ _ _.
Arguments m_equations {R} _.
Arguments m_echelon_form {R} _.
Arguments m_pivot_by_next {R} _.
Arguments m_found_variables {R} _.

(** [ReducedEquation<VarT>]; the system it is bound to is passed to its
    methods. *)
Record ReducedEquation (R : Type) := mkReducedEquation {
  m_original_eq : Equation R;
  m_linear_combination : Equation (Equation R);
  m_remainder : Equation R
}.
Arguments mkReducedEquation {R} _ _ _.
Arguments m_original_eq {R} _.
Arguments m_linear_combination {R} _.
Arguments m_remainder {R} _.

(** Iteration over a [std::set]: ascending. *)
Definition set_in_order (s : gset nat) : list nat := merge_sort Nat.le (elements s).

Section linear_system.
Context {R : Type} `{Rhs R}.

Definition empty_system : LinearSystem R := mkLinearSystem [] ∅ ∅ ∅.

(** [LinearSystem::pair_at], [LinearSystem::at] and [EqnIndex::equation]. *)
Definition pair_at (eqs : list (Equation R * nat)) (i : nat)
    : result (Equation R * nat) :=
  match eqs !! i with
  | Some p => Ok p
  | None => Throw "Equation index out of bounds"
  end.

Definition equation_at (eqs : list (Equation R * nat)) (i : nat)
    : result (Equation R) :=
  match pair_at eqs i with
  | Ok p => Ok p.1
  | Throw m => Throw m
  | Undefined => Undefined
  | OutOfFuel => OutOfFuel
  end.

(** [LinearCombination<EqnIndex<VarT>>::evaluate]: the sum, from
    [Equation()], of [coeff * index.equation()] over the terms. *)
Fixpoint evaluate_from (eqs : list (Equation R * nat)) (sum_val : Equation R)
    (terms : LC.t) : result (Equation R) :=
  match terms with
  | [] => Ok sum_val
  | (k, v) :: rest =>
      match equation_at eqs k with
      | Ok e => evaluate_from eqs (eq_add sum_val (eq_mul v e)) rest
      | Throw m => Throw m
      | Undefined => Undefined
      | OutOfFuel => OutOfFuel
      end
  end.

Definition evaluate (eqs : list (Equation R * nat)) (terms : LC.t)
    : result (Equation R) :=
  evaluate_from eqs eq_zero terms.

(** [LinearSystem::reduce_next].  [find e w] is [m_echelon_form.find(w)]
    while the row being rewritten holds [e]: the row is a local variable
    when a new row is inserted, an entry of the echelon itself during
    back substitution. *)
Fixpoint reduce_next_loop (fuel : nat)
    (find : Equation (Equation R) → nat → option (Equation (Equation R)))
    (pbn : gmap nat (gset nat)) (found : gset nat) (e : Equation (Equation R))
    : result (gmap nat (gset nat) * gset nat * Equation (Equation R)) :=
  match fuel with
  | O => OutOfFuel
  | S fuel' =>
      match lhs (rhs e) with
      | [] => Undefined
      | (head_var, _) :: tail =>
          match tail with
          | [] => Ok (pbn, {[head_var]} ∪ found, e)
          | (next_var, next_coeff) :: _ =>
              match find e next_var with
              | None =>
                  Ok (<[next_var := {[head_var]} ∪ default ∅ (pbn !! next_var)]> pbn,
                      found, e)
              | Some row =>
                  reduce_next_loop fuel' find pbn found
                    (eq_sub e (eq_mul next_coeff row))
              end
          end
      end
  end.

(** Every pass of the loop that does not leave it eliminates the pivot of
    another echelon row. *)
Definition reduce_next_fuel (ech : gmap nat (Equation (Equation R))) : nat :=
  S (size ech).

(** [reduce_next(lc)] on a local row. *)
Definition reduce_next_local (sys : LinearSystem R) (e : Equation (Equation R))
    : result (LinearSystem R * Equation (Equation R)) :=
  match reduce_next_loop (reduce_next_fuel (m_echelon_form sys))
          (λ _ w, m_echelon_form sys !! w)
          (m_pivot_by_next sys) (m_found_variables sys) e with
  | Ok (pbn, found, e') =>
      Ok (mkLinearSystem (m_equations sys) (m_echelon_form sys) pbn found, e')
  | Throw m => Throw m
  | Undefined => Undefined
  | OutOfFuel => OutOfFuel
  end.

(** [reduce_next(it_pivot->second)] on the echelon row of [pivot]. *)
Definition reduce_next_in_place (sys : LinearSystem R) (pivot : nat)
    : result (LinearSystem R) :=
  match m_echelon_form sys !! pivot with
  | None => Undefined
  | Some e =>
      match reduce_next_loop (reduce_next_fuel (m_echelon_form sys))
              (λ e' w, <[pivot := e']> (m_echelon_form sys) !! w)
              (m_pivot_by_next sys) (m_found_variables sys) e with
      | Ok (pbn, found, e') =>
          Ok (mkLinearSystem (m_equations sys)
                (<[pivot := e']> (m_echelon_form sys)) pbn found)
      | Throw m => Throw m
      | Undefined => Undefined
      | OutOfFuel => OutOfFuel
      end
  end.

(** The loop of the partial back substitution.  A C++ exception or an
    undefined step leaves the system as it was mutated so far. *)
Fixpoint back_substitute (sys : LinearSystem R) (pivots : list nat)
    : LinearSystem R * result unit :=
  match pivots with
  | [] => (sys, Ok ())
  | pivot :: rest =>
      match reduce_next_in_place sys pivot with
      | Ok sys' => back_substitute sys' rest
      | Throw m => (sys, Throw m)
      | Undefined => (sys, Undefined)
      | OutOfFuel => (sys, OutOfFuel)
      end
  end.

(** [ReducedEquation(original_eq, sys)]. *)
Definition ReducedEquation_new (original_eq : Equation R) : ReducedEquation R :=
  mkReducedEquation original_eq eq_zero original_eq.

(** [ReducedEquation::reduce]. *)
Fixpoint reduce_loop (fuel : nat) (ech : gmap nat (Equation (Equation R)))
    (re : ReducedEquation R) : result (ReducedEquation R) :=
  match fuel with
  | O => OutOfFuel
  | S fuel' =>
      match lhs (m_remainder re) with
      | [] => Ok re
      | (var, coeff) :: _ =>
          match ech !! var with
          | Some pivot_eq_lc =>
              reduce_loop fuel' ech
                (mkReducedEquation (m_original_eq re)
                   (eq_add (m_linear_combination re) (eq_mul coeff pivot_eq_lc))
                   (eq_sub (m_remainder re) (eq_mul coeff (rhs pivot_eq_lc))))
          | None => Ok re
          end
      end
  end.

Definition reduce (sys : LinearSystem R) (re : ReducedEquation R)
    : result (ReducedEquation R) :=
  reduce_loop (S (size (m_echelon_form sys))) (m_echelon_form sys) re.

(** The loop of the [AddCircle] branch of [is_solved]:
    [rhs -= (c * v) * k.equation().rhs()] for every term [(k, v)]. *)
Fixpoint subtract_rows (eqs : list (Equation R * nat)) (c : Qc) (acc : R)
    (terms : LC.t) : result R :=
  match terms with
  | [] => Ok acc
  | (k, v) :: rest =>
      match equation_at eqs k with
      | Ok e => subtract_rows eqs c (rsub acc (rmul (c * v) (rhs e))) rest
      | Throw m => Throw m
      | Undefined => Undefined
      | OutOfFuel => OutOfFuel
      end
  end.

Definition angle_warning : string :=
  "Angle equation reduced to 0 = nonzero, even after multiplication by denominators".

(** [ReducedEquation::is_solved]: the answer and the warnings logged. *)
Definition is_solved (sys : LinearSystem R) (re : ReducedEquation R)
    : result (bool * list string) :=
  if is_add_circle then
    if negb (bool_decide (lhs (m_remainder re) = [])) then Ok (false, [])
    else if bool_decide (rhs (m_remainder re) = rzero) then Ok (true, [])
    else
      let c : Qc :=
        Q2Qc (inject_Z (LC.common_denominator (lhs (m_linear_combination re)))) in
      match subtract_rows (m_equations sys) c (rmul c (rhs (m_original_eq re)))
              (lhs (m_linear_combination re)) with
      | Ok r =>
          if bool_decide (r = rzero) then Ok (true, [])
          else Ok (false, [angle_warning])
      | Throw m => Throw m
      | Undefined => Undefined
      | OutOfFuel => OutOfFuel
      end
  else Ok (is_empty (m_remainder re), []).

(** [LinearSystem::add_reduced_equation(pf)], with [eq] the value of
    [pf->reduced_equation<VarT>()].  The result is the system as the call
    leaves it and how the call ended. *)
Definition add_reduced_equation (sys : LinearSystem R) (pf : nat)
    (eq : option (ReducedEquation R)) : LinearSystem R * result unit :=
  match eq with
  | None => (sys, Ok ())
  | Some eq =>
      match is_solved sys eq with
      | Throw m => (sys, Throw m)
      | Undefined => (sys, Undefined)
      | OutOfFuel => (sys, OutOfFuel)
      | Ok (true, _) => (sys, Ok ())
      | Ok (false, _) =>
          if bool_decide (lhs (m_remainder eq) = []) then
            (sys, Throw "Proved contradiction in AR")
          else
            let n := length (m_equations sys) in
            let sys1 :=
              mkLinearSystem (m_equations sys ++ [(m_original_eq eq, pf)])
                (m_echelon_form sys) (m_pivot_by_next sys)
                (m_found_variables sys) in
            let lc :=
              eq_add (eq_neg (m_linear_combination eq))
                (mkEquation (LC.of_var n) (m_original_eq eq)) in
            match lhs (rhs lc) with
            | [] => (sys1, Undefined)
            | (v, c) :: _ =>
                if decide (c = 0) then (sys1, Throw "bad rational: zero denominator")
                else
                  match reduce_next_local sys1 (eq_mul (1 / c) lc) with
                  | Throw m => (sys1, Throw m)
                  | Undefined => (sys1, Undefined)
                  | OutOfFuel => (sys1, OutOfFuel)
                  | Ok (sys2, lc') =>
                      match m_echelon_form sys2 !! v with
                      | Some _ =>
                          (sys2, Throw "Trying to inssert a non-reduced equation")
                      | None =>
                          let sys3 :=
                            mkLinearSystem (m_equations sys2)
                              (<[v := lc']> (m_echelon_form sys2))
                              (m_pivot_by_next sys2) (m_found_variables sys2) in
                          match m_pivot_by_next sys3 !! v with
                          | None => (sys3, Ok ())
                          | Some pivots =>
                              match back_substitute sys3 (set_in_order pivots) with
                              | (sys4, Ok _) =>
                                  (mkLinearSystem (m_equations sys4)
                                     (m_echelon_form sys4)
                                     (delete v (m_pivot_by_next sys4))
                                     (m_found_variables sys4), Ok ())
                              | (sys4, r) => (sys4, r)
                              end
                          end
                      end
                  end
            end
      end
  end.

End linear_system.

(** The laws of a vector space over the rationals, on the values the
    constructors can build.  [Len], [Len²] and [Ratio] satisfy them;
    [AddCircle] does not: [rmul] by a fraction picks one of several
    preimages, so [rmul_plus] and [rmul_rmul] fail there. *)
Class RhsLaws (R : Type) `{Rhs R} : Prop := {
  rvalid_zero : rvalid rzero;
  rvalid_add a b : rvalid a → rvalid b → rvalid (radd a b);
  rvalid_neg a : rvalid a → rvalid (rneg a);
  rvalid_mul c a : rvalid a → rvalid (rmul c a);
  radd_assoc a b c :
    rvalid a → rvalid b → rvalid c → radd a (radd b c) = radd (radd a b) c;
  radd_comm a b : rvalid a → rvalid b → radd a b = radd b a;
  radd_zero_r a : rvalid a → radd a rzero = a;
  rsub_add_neg a b : rvalid a → rvalid b → rsub a b = radd a (rneg b);
  radd_neg_r a : rvalid a → radd a (rneg a) = rzero;
  rmul_one a : rvalid a → rmul 1 a = a;
  rmul_rmul c d a : rvalid a → rmul c (rmul d a) = rmul (d * c) a;
  rmul_plus c d a : rvalid a → rmul (c + d) a = radd (rmul c a) (rmul d a);
  rmul_radd c a b :
    rvalid a → rvalid b → rmul c (radd a b) = radd (rmul c a) (rmul c b)
}.

(** ** The life of a system and of the reduced equations bound to it

    The solver keeps one [LinearSystem] per domain and many
    [ReducedEquation]s bound to it (one per equation of a statement).
    A history interleaves three operations: a [ReducedEquation] is
    constructed, one is reduced, one is handed to
    [add_reduced_equation]. *)

Record world (R : Type) := mkWorld {
  w_sys : LinearSystem R;
  w_reds : list (ReducedEquation R)
}.
Arguments mkWorld {R} _ _.
Arguments w_sys {R} _.
Arguments w_reds {R} _.

Inductive step {R} `{Rhs R} : world R → world R → Prop :=
| step_new sys reds original_eq :
    eq_valid original_eq →
    step (mkWorld sys reds) (mkWorld sys (reds ++ [ReducedEquation_new original_eq]))
| step_reduce sys reds i re re' :
    reds !! i = Some re →
    reduce sys re = Ok re' →
    step (mkWorld sys reds) (mkWorld sys (<[i := re']> reds))
| step_add sys reds i re pf sys' r :
    reds !! i = Some re →
    add_reduced_equation sys pf (Some re) = (sys', r) →
    step (mkWorld sys reds) (mkWorld sys' reds).

Definition reachable {R} `{Rhs R} (w : world R) : Prop :=
  rtc step (mkWorld empty_system []) w.

(** The sum of [coeff * equation] over the terms, total: an index out of
    range contributes nothing. *)
Definition row_or_zero {R} `{Rhs R} (eqs : list (Equation R * nat)) (k : nat)
    : Equation R :=
  match eqs !! k with
  | Some p => p.1
  | None => eq_zero
  end.

Fixpoint combine {R} `{Rhs R} (eqs : list (Equation R * nat)) (terms : LC.t)
    : Equation R :=
  match terms with
  | [] => eq_zero
  | (k, v) :: rest => eq_add (eq_mul v (row_or_zero eqs k)) (combine eqs rest)
  end.

(** All variables (indices) of a combination are below [n]. *)
Definition in_range (n : nat) (a : LC.t) : Prop :=
  Forall (λ term : nat * Qc, (term.1 < n)%nat) a.

(** The leading term of an equation's left-hand side. *)
Definition leads {R} (v : nat) (e : Equation R) : Prop :=
  LC.wf (lhs e) ∧ ∃ rest, lhs e = (v, 1) :: rest.

(** The number of echelon pivots at or above [w]: what bounds the passes
    of the elimination loops. *)
Definition pivots_from {A} (ech : gmap nat A) (w : nat) : nat :=
  size (filter (λ k, (w ≤ k)%nat) (dom ech)).

(** The structural part of what a combination of equations, an echelon row
    and a reduced equation keep true: canonical forms, indices of rows that
    exist, and the reduction identity on the left-hand sides. *)
Definition combo_S {R} (eqs : list (Equation R * nat)) (e : Equation (Equation R))
    : Prop :=
  LC.wf (lhs e) ∧ in_range (length eqs) (lhs e) ∧ LC.wf (lhs (rhs e)).

Definition row_S {R} (eqs : list (Equation R * nat)) (v : nat)
    (row : Equation (Equation R)) : Prop :=
  combo_S eqs row ∧ ∃ rest, lhs (rhs row) = (v, 1) :: rest.

Definition red_S {R} (eqs : list (Equation R * nat)) (re : ReducedEquation R)
    : Prop :=
  combo_S eqs (m_linear_combination re)
  ∧ LC.wf (lhs (m_original_eq re))
  ∧ LC.wf (lhs (m_remainder re))
  ∧ lhs (m_original_eq re) =
    LC.add (lhs (rhs (m_linear_combination re))) (lhs (m_remainder re)).

Definition pbn_ok (D : gset nat) (pbn : gmap nat (gset nat)) : Prop :=
  ∀ w s p, pbn !! w = Some s → p ∈ s → p ∈ D.

(** The invariant of a system and of a world, with room for a property [E]
    of the stored equations, [J] of every combination of equations and [K]
    of every reduced equation (all trivial for the structural facts, the
    reduction identity for the lawful domains). *)
Definition sys_inv {R}
    (E : list (Equation R * nat) → Prop)
    (J : list (Equation R * nat) → Equation (Equation R) → Prop)
    (sys : LinearSystem R) : Prop :=
  E (m_equations sys)
  ∧ (∀ v row, m_echelon_form sys !! v = Some row →
       row_S (m_equations sys) v row ∧ J (m_equations sys) row)
  ∧ pbn_ok (dom (m_echelon_form sys)) (m_pivot_by_next sys).

Definition world_inv {R}
    (E : list (Equation R * nat) → Prop)
    (J : list (Equation R * nat) → Equation (Equation R) → Prop)
    (K : list (Equation R * nat) → ReducedEquation R → Prop)
    (w : world R) : Prop :=
  sys_inv E J (w_sys w)
  ∧ Forall (λ re, red_S (m_equations (w_sys w)) re ∧ K (m_equations (w_sys w)) re)
      (w_reds w).

(** The pivot of an echelon row: the leading variable of its concrete
    equation. *)
Definition pivot_of {R} (row : Equation (Equation R)) : option nat :=
  fst <$> head (lhs (rhs row)).

(** The structural invariant alone. *)
Definition world_S {R} (w : world R) : Prop :=
  world_inv (λ _, True) (λ _ _, True) (λ _ _, True) w.

(** The stored equations are all well formed. *)
Definition eqs_valid {R} `{Rhs R} (eqs : list (Equation R * nat)) : Prop :=
  Forall (λ p : Equation R * nat, eq_valid p.1) eqs.

(** The reduction identity, as the extra properties of [world_inv]: a
    combination of equations carries as right-hand side the sum it denotes,
    a reduced equation satisfies
    [original = linear_combination.rhs + remainder]. *)
Definition sem_J {R} `{Rhs R} (eqs : list (Equation R * nat))
    (e : Equation (Equation R)) : Prop :=
  eq_valid (rhs e) ∧ rhs e = combine eqs (lhs e).

Definition sem_K {R} `{Rhs R} (eqs : list (Equation R * nat))
    (re : ReducedEquation R) : Prop :=
  sem_J eqs (m_linear_combination re)
  ∧ eq_valid (m_original_eq re)
  ∧ eq_valid (m_remainder re)
  ∧ m_original_eq re = eq_add (rhs (m_linear_combination re)) (m_remainder re).

Definition world_sem {R} `{Rhs R} (w : world R) : Prop :=
  world_inv eqs_valid sem_J sem_K w.

(** The reduction invariant as the specification words it: the original
    equation is the sum over the recorded terms of coefficient times the
    equation of that row, plus the remainder. *)
Definition reduction_identity {R} `{Rhs R} (sys : LinearSystem R)
    (re : ReducedEquation R) : Prop :=
  ∃ s, evaluate (m_equations sys) (lhs (m_linear_combination re)) = Ok s
       ∧ m_original_eq re = eq_add s (m_remainder re).

(** ** Concrete systems used as witnesses and counterexamples *)

Definition q (n : Z) (d : positive) : Qc := Q2Qc (n # d).

(** [Ang]: the system holds [(1/2) x = 1/2]; the same equation is then
    reduced against it. *)
Definition ang_eq0 : Equation AddCircle :=
  mkEquation [(0%nat, q 1 2)] (mkAddCircle (q 1 2)).
Definition ang_re0 : ReducedEquation AddCircle := ReducedEquation_new ang_eq0.
Definition ang_sys1 : LinearSystem AddCircle :=
  (add_reduced_equation empty_system 0 (Some ang_re0)).1.
Definition ang_re1 : ReducedEquation AddCircle :=
  match reduce ang_sys1 ang_re0 with
  | Ok re => re
  | _ => ang_re0
  end.
Definition ang_world : world AddCircle := mkWorld ang_sys1 [ang_re1].

(** [Len]: [x + 2 y = 3] then [y = 1] enter the system; [2 x + 4 y = 6]
    is a pending equation reduced against it. *)
Definition len_eq0 : Equation Qc := mkEquation [(0%nat, q 1 1); (1%nat, q 2 1)] (q 3 1).
Definition len_eq1 : Equation Qc := mkEquation [(0%nat, q 2 1); (1%nat, q 4 1)] (q 6 1).
Definition len_re0 : ReducedEquation Qc := ReducedEquation_new len_eq0.
Definition len_sys1 : LinearSystem Qc :=
  (add_reduced_equation empty_system 0 (Some len_re0)).1.
Definition len_eq2 : Equation Qc := mkEquation [(1%nat, q 1 1)] (q 1 1).
Definition len_re2 : ReducedEquation Qc := ReducedEquation_new len_eq2.
Definition len_sys2 : LinearSystem Qc :=
  (add_reduced_equation len_sys1 1 (Some len_re2)).1.
Definition len_world : world Qc :=
  mkWorld len_sys2 [len_re0; ReducedEquation_new len_eq1; len_re2].

(** The ways a call of [add_reduced_equation] on a reachable world ends. *)
Definition add_shape {R} (sys : LinearSystem R) (pf : nat) (re : ReducedEquation R)
    (sys' : LinearSystem R) (r : result unit) : Prop :=
  (sys' = sys ∧ (r = Ok () ∨ r = Throw "Proved contradiction in AR"))
  ∨ (m_equations sys' = m_equations sys ++ [(m_original_eq re, pf)]
     ∧ ∃ v c tail, lhs (m_remainder re) = (v, c) :: tail
         ∧ ((is_Some (m_echelon_form sys !! v)
             ∧ m_echelon_form sys' = m_echelon_form sys
             ∧ r = Throw "Trying to inssert a non-reduced equation")
            ∨ (m_echelon_form sys !! v = None
               ∧ dom (m_echelon_form sys') = {[v]} ∪ dom (m_echelon_form sys)
               ∧ r = Ok ()))).

(** The value the [Ang] branch of [is_solved] tests, written as a sum:
    [c * original.rhs - Σ (c * v) * rhs (row k)] over the terms [(k, v)] of
    the recorded combination, with [c] the common denominator of its
    coefficients. *)
Definition common_multiplier {R} (re : ReducedEquation R) : Qc :=
  Q2Qc (inject_Z (LC.common_denominator (lhs (m_linear_combination re)))).

Definition recomputed_rhs {R} `{Rhs R} (sys : LinearSystem R)
    (re : ReducedEquation R) : R :=
  fold_left
    (λ acc term,
       rsub acc (rmul (common_multiplier re * term.2)
                   (rhs (row_or_zero (m_equations sys) term.1))))
    (lhs (m_linear_combination re))
    (rmul (common_multiplier re) (rhs (m_original_eq re))).

(** [Ang]: the system holds [(1/2) x = 1/2] and [(1/2) x = 0] is reduced
    against it. *)
Definition ang_eq2 : Equation AddCircle :=
  mkEquation [(0%nat, q 1 2)] (mkAddCircle (q 0 1)).
Definition ang_re2 : ReducedEquation AddCircle :=
  match reduce ang_sys1 (ReducedEquation_new ang_eq2) with
  | Ok re => re
  | _ => ang_re0
  end.

(** [Ang]: the system holds [2 x = 1/2]; [x = 3/4] and [x = 1/2] are
    reduced against it. *)
Definition ang_eq3 : Equation AddCircle :=
  mkEquation [(0%nat, q 2 1)] (mkAddCircle (q 1 2)).
Definition ang_sys3 : LinearSystem AddCircle :=
  (add_reduced_equation empty_system 0 (Some (ReducedEquation_new ang_eq3))).1.
Definition ang_re4 : ReducedEquation AddCircle :=
  match reduce ang_sys3
          (ReducedEquation_new (mkEquation [(0%nat, q 1 1)] (mkAddCircle (q 3 4)))) with
  | Ok re => re
  | _ => ang_re0
  end.
Definition ang_re5 : ReducedEquation AddCircle :=
  match reduce ang_sys3
          (ReducedEquation_new (mkEquation [(0%nat, q 1 1)] (mkAddCircle (q 1 2)))) with
  | Ok re => re
  | _ => ang_re0
  end.

(** [Len]: [2 x + 4 y = 6] and [x + 2 y = 4] reduced against the system
    holding [x + 2 y = 3]. *)
Definition len_dup : ReducedEquation Qc :=
  match reduce len_sys1 (ReducedEquation_new len_eq1) with
  | Ok re => re
  | _ => len_re0
  end.
Definition len_bad : ReducedEquation Qc :=
  match reduce len_sys1
          (ReducedEquation_new (mkEquation [(0%nat, q 1 1); (1%nat, q 2 1)] (q 4 1))) with
  | Ok re => re
  | _ => len_re0
  end.

(** * The solver driver: solver/ *)

(** ** Stateful code that can throw

    A method of the solver is a function from the solver's state to the
    state it leaves and the way it ended.  An exception keeps the changes
    made before it was thrown. *)

Definition SR (S A : Type) : Type := S → S * result A.

Definition sr_ret {S A} (a : A) : SR S A := λ s, (s, Ok a).

Definition sr_bind {S A B} (k : A → SR S B) (m : SR S A) : SR S B := λ s,
  match m s with
  | (s', Ok a) => k a s'
  | (s', Throw msg) => (s', Throw msg)
  | (s', Undefined) => (s', Undefined)
  | (s', OutOfFuel) => (s', OutOfFuel)
  end.

#[export] Instance SR_ret {S} : MRet (SR S) := λ A, sr_ret.
#[export] Instance SR_bind {S} : MBind (SR S) := λ A B, sr_bind.

Definition sr_throw {S A} (msg : string) : SR S A := λ s, (s, Throw msg).
Definition sr_undefined {S A} : SR S A := λ s, (s, Undefined).
Definition sr_get {S A} (f : S → A) : SR S A := λ s, (s, Ok (f s)).
Definition sr_modify {S} (f : S → S) : SR S unit := λ s, (f s, Ok ()).
Definition sr_lift {S A} (r : result A) : SR S A := λ s, (s, r).

(** A range-based [for] over a container that the body does not change. *)
Fixpoint for_each {S A} (body : A → SR S unit) (l : list A) : SR S unit :=
  match l with
  | [] => mret ()
  | x :: rest => body x ;; for_each body rest
  end.

(** ** solver/statement_proof.hpp, solver/theorem_application.hpp: the data *)

Inductive StatementProofState :=
| NOT_PROVED
| PROVED_BY_REFL
| PROVED_BY_ASSUMPTION
| PROVED_NUMERICALLY
| PROVED_AR_DIST
| PROVED_AR_SQUARE_DIST
| PROVED_AR_RATIO
| PROVED_AR_ANGLE
| PROVED_BY_THEOREM.

#[export] Instance StatementProofState_eq_dec : EqDecision StatementProofState.
Proof. solve_decision. Defined.

Inductive TheoremApplicationState := PENDING | PROVED | DISCARDED.

#[export] Instance TheoremApplicationState_eq_dec :
  EqDecision TheoremApplicationState.
Proof. solve_decision. Defined.

(** [YUCLID_EQN_VARIABLE_TYPES]: the template parameter [VarT] of the four
    engines, with [EquationTraits<VarT>::RHSType]. *)
Inductive VarT := Dist | SquaredDist | SinOrDist | SlopeAngle.

#[export] Instance VarT_eq_dec : EqDecision VarT.
Proof. solve_decision. Defined.

Definition RHSType (v : VarT) : Type :=
  match v with
  | Dist | SquaredDist => Qc
  | SinOrDist => RootRat
  | SlopeAngle => AddCircle
  end.

#[export] Instance RHSType_Rhs (v : VarT) : Rhs (RHSType v) :=
  match v with
  | Dist => Rat_Rhs
  | SquaredDist => Rat_Rhs
  | SinOrDist => RootRat_Rhs
  | SlopeAngle => AddCircle_Rhs
  end.

(** [StatementProof]: the state, the index of the proving theorem, and for
    each engine the pointer [m_*_eqn.second] to the reduced equation of the
    statement in the solver's table [m_eqns_*] ([None] is [nullptr]).
    The statement itself is seen through
    [m_statement->as_ratio_squared_dist()], reduced to the [minmax] pair
    that [set_proved] stores. *)
Module StatementProof.
Record t := mk {
  m_state : StatementProofState;
  m_theorem : option nat;
  reduced_equation : VarT → option nat;
  as_ratio_squared_dist : option (nat * nat)
}.

Definition is_proved (pf : t) : bool :=
  negb (bool_decide (m_state pf = NOT_PROVED)).

Definition with_state (st : StatementProofState) (pf : t) : t :=
  mk st (m_theorem pf) (reduced_equation pf) (as_ratio_squared_dist pf).

Definition with_theorem (ind : nat) (pf : t) : t :=
  mk (m_state pf) (Some ind) (reduced_equation pf) (as_ratio_squared_dist pf).
End StatementProof.

(** [TheoremApplication]: hypotheses and conclusions are pointers to
    statement proofs; a point is its index. *)
Module TheoremApplication.
Record t := mk {
  m_state : TheoremApplicationState;
  m_hypotheses : list nat;
  m_conclusions : list nat;
  m_max_point : Z
}.

Definition with_state (st : TheoremApplicationState) (thm : t) : t :=
  mk st (m_hypotheses thm) (m_conclusions thm) (m_max_point thm).
End TheoremApplication.

(** [RatioSquaredDist(d1, d2, r)]: squared distances are their ranks. *)
Record RatioSquaredDist := mkRatioSquaredDist {
  left_squared_dist : nat;
  right_squared_dist : nat;
  ratio : Qc
}.

(** What the solver reads of [Problem]. *)
Record Problem (Statement : Type) := mkProblem {
  goals : list Statement;
  num_points : nat
}.
Arguments mkProblem {Statement} _ _.
Arguments goals {Statement} _.
Arguments num_points {Statement} _.

(** The four engines: [m_system_*] with the table [m_eqns_*] of the reduced
    equations bound to it, by [VarT]. *)
Definition AR : Type := ∀ v : VarT, world (RHSType v).

Definition set_world (v : VarT) (w : world (RHSType v)) (ar : AR) : AR :=
  λ v',
    match VarT_eq_dec v v' with
    | left e => eq_rect v (λ x, world (RHSType x)) w v' e
    | right _ => ar v'
    end.

(** [DDARSolver].  A [StatementProof *] is the address of a node of
    [m_statement_proofs], which never moves: the store of proofs is a
    total map from addresses. *)
Record DDARSolver (Statement : Type) := mkDDARSolver {
  m_problem : Problem Statement;
  m_theorem_applications : list TheoremApplication.t;
  m_statement_proofs : nat → StatementProof.t;
  m_goals : list nat;
  m_ratio_squared_dist_found : gset (nat * nat);
  m_established_statements : list nat;
  m_solved : bool;
  m_level : nat;
  m_ar : AR
}.
Arguments mkDDARSolver {Statement} _ _ _ _ _ _ _ _ _.
Arguments m_problem {Statement} _.
Arguments m_theorem_applications {Statement} _.
Arguments m_statement_proofs {Statement} _ _.
Arguments m_goals {Statement} _.
Arguments m_ratio_squared_dist_found {Statement} _.
Arguments m_established_statements {Statement} _.
Arguments m_solved {Statement} _.
Arguments m_level {Statement} _.
Arguments m_ar {Statement} _ _.

(** What the driver uses of the rest of the program: the statements it
    builds, the numerical check of a candidate, [insert_statement] (which
    returns the address of the proof), the three functions between the
    ranks of [SinOrDist] and of [SquaredDist], how a squared distance
    prints, and whether the program was compiled with [NDEBUG], which
    removes its assertions. *)
Class SolverEnv (Statement : Type) := {
  SquaredDistEq : nat → Qc → Statement;
  normalize2 : RatioSquaredDist → Statement;
  check_numerically : RatioSquaredDist → bool;
  insert_statement : Statement → SR (DDARSolver Statement) nat;
  is_sin : nat → bool;
  get_squared_dist : nat → nat;
  SinOrDist_of_SquaredDist : nat → nat;
  print_SquaredDist : nat → string;
  NDEBUG : bool
}.

#[export] Instance result_ret : MRet result := λ A, Ok.
#[export] Instance result_bind : MBind result := λ A B k r, rbind r k.
#[export] Instance result_fmap : FMap result := λ A B f r, rbind r (λ a, Ok (f a)).

(** ** numbers/util.hpp, numbers/root_rat.cpp: conversions *)

(** [rat2nnrat]: the two [static_cast<Nat>]; a negative numerator wraps
    around. *)
Definition rat2nnrat (r : Qc) : Qc :=
  if decide (0 ≤ r) then r
  else Q2Qc ((2 ^ 64 + Qnum (this r))%Z # Qden (this r)).

(** [static_cast<Int>] of a [Nat]: the number of [[-2^63, 2^63)] that is
    equal to it modulo [2^64]. *)
Definition Int_of_Nat (n : Z) : Z := ((n + 2 ^ 63) `mod` 2 ^ 64 - 2 ^ 63)%Z.

(** [nnrat2rat]: the two [static_cast<Int>], a numerator or a denominator
    from [2^63] on coming out negative, then the constructor of [Rat],
    which moves the sign of the denominator to the numerator.  (The
    denominator of an [NNRat] is below [2^64], so that its cast is not
    zero.) *)
Definition nnrat2rat (r : Qc) : Qc :=
  let numer := Int_of_Nat (Qnum (this r)) in
  let denom := Int_of_Nat (Zpos (Qden (this r))) in
  Q2Qc ((Z.sgn denom * numer)%Z # Z.to_pos (Z.abs denom)).

(** [zpower<size_t>]: [size_t] arithmetic wraps around and [/] is the
    division of integers. *)
Definition zpower_size_t (base exp : Z) : result Z :=
  if (0 <=? exp)%Z then Ok ((base ^ exp) `mod` 2 ^ 64)%Z
  else
    let d := ((base ^ (- exp)) `mod` 2 ^ 64)%Z in
    if (d =? 0)%Z then Undefined else Ok (1 `div` d)%Z.

(** [RootRat::as_nnrat]. *)
Fixpoint as_nnrat_loop (terms : LC.t) (acc : Qc) : result Qc :=
  match terms with
  | [] => Ok acc
  | (base, exp) :: rest =>
      if negb (Pos.eqb (Qden (this exp)) 1) then Ok 0
      else
        p ← zpower_size_t (Z.of_nat base) (Qnum (this exp));
        as_nnrat_loop rest (acc * Q2Qc (inject_Z p))
  end.

Definition as_nnrat (x : RootRat) : result Qc := as_nnrat_loop (m_data x) 1.

(** [RootRat::RootRat(const NNRat&)]: the two inner loops that divide a
    factor out, and the loop over the bases. *)
Fixpoint divide_out (fuel : nat) (n base exp step : Z) : result (Z * Z) :=
  if negb (n `mod` base =? 0)%Z then Ok (n, exp)
  else
    match fuel with
    | O => OutOfFuel
    | S fuel' => divide_out fuel' (n `div` base)%Z base (exp + step)%Z step
    end.

Fixpoint RootRat_loop (fuel : nat) (numer denom base : Z) (data : LC.t)
    : result LC.t :=
  if (numer =? 1)%Z && (denom =? 1)%Z then Ok data
  else
    match fuel with
    | O => OutOfFuel
    | S fuel' =>
        '(numer', exp1) ← divide_out (Z.to_nat numer) numer base 0 1;
        '(denom', exp) ← divide_out (Z.to_nat denom) denom base exp1 (-1);
        RootRat_loop fuel' numer' denom' (base + 1)%Z
          (if (exp =? 0)%Z then data
           else LC.add data (LC.single (Z.to_nat base) (Q2Qc (inject_Z exp))))
    end.

Definition RootRat_of_NNRat (number : Qc) : result RootRat :=
  if decide (number = 0) then
    Throw "The `RootRat` class is for positive numbers only"
  else
    let numer := Qnum (this number) in
    let denom := Zpos (Qden (this number)) in
    data ← RootRat_loop (Z.to_nat (Z.max numer denom)) numer denom 2 [];
    Ok (mkRootRat data).

Section solver.
Context {Statement : Type} `{SolverEnv Statement}.
#[local] Abbreviation Solver := (DDARSolver Statement).
#[local] Abbreviation M := (SR Solver).

(** *** Field updates *)

Definition update_proof (pf : nat) (f : StatementProof.t → StatementProof.t)
    (s : Solver) : Solver :=
  mkDDARSolver (m_problem s) (m_theorem_applications s)
    (<[pf := f (m_statement_proofs s pf)]> (m_statement_proofs s))
    (m_goals s) (m_ratio_squared_dist_found s) (m_established_statements s)
    (m_solved s) (m_level s) (m_ar s).

Definition update_theorem_application (ind : nat)
    (f : TheoremApplication.t → TheoremApplication.t) (s : Solver) : Solver :=
  mkDDARSolver (m_problem s) (alter f ind (m_theorem_applications s))
    (m_statement_proofs s)
    (m_goals s) (m_ratio_squared_dist_found s) (m_established_statements s)
    (m_solved s) (m_level s) (m_ar s).

(** [push_established_statement]. *)
Definition push_established_statement (pf : nat) (s : Solver) : Solver :=
  mkDDARSolver (m_problem s) (m_theorem_applications s) (m_statement_proofs s)
    (m_goals s) (m_ratio_squared_dist_found s)
    (m_established_statements s ++ [pf])
    (m_solved s) (m_level s) (m_ar s).

(** [insert_ratio_squared_dist_cache]. *)
Definition insert_ratio_squared_dist_cache (p : nat * nat) (s : Solver) : Solver :=
  mkDDARSolver (m_problem s) (m_theorem_applications s) (m_statement_proofs s)
    (m_goals s) ({[p]} ∪ m_ratio_squared_dist_found s)
    (m_established_statements s)
    (m_solved s) (m_level s) (m_ar s).

Definition set_solved (b : bool) (s : Solver) : Solver :=
  mkDDARSolver (m_problem s) (m_theorem_applications s) (m_statement_proofs s)
    (m_goals s) (m_ratio_squared_dist_found s) (m_established_statements s)
    b (m_level s) (m_ar s).

Definition increment_level (s : Solver) : Solver :=
  mkDDARSolver (m_problem s) (m_theorem_applications s) (m_statement_proofs s)
    (m_goals s) (m_ratio_squared_dist_found s) (m_established_statements s)
    (m_solved s) (S (m_level s)) (m_ar s).

Definition update_engine (v : VarT)
    (f : world (RHSType v) → world (RHSType v)) (s : Solver) : Solver :=
  mkDDARSolver (m_problem s) (m_theorem_applications s) (m_statement_proofs s)
    (m_goals s) (m_ratio_squared_dist_found s) (m_established_statements s)
    (m_solved s) (m_level s) (set_world v (f (m_ar s v)) (m_ar s)).

(** [m_system_dist], ..., and [m_eqns_dist], ... *)
Definition m_system (v : VarT) (s : Solver) : LinearSystem (RHSType v) :=
  w_sys (m_ar s v).
Definition m_eqns (v : VarT) (s : Solver) : list (ReducedEquation (RHSType v)) :=
  w_reds (m_ar s v).

Definition is_proved (pf : nat) : M bool :=
  sr_get (λ s, StatementProof.is_proved (m_statement_proofs s pf)).

(** *** The reduced equation of a statement in an engine *)

(** [ptr->reduce()], for the entry [i] of the table of [v]. *)
Definition reduce_at (v : VarT) (i : nat) : M unit := λ s,
  match m_eqns v s !! i with
  | None => (s, Undefined)
  | Some re =>
      match reduce (m_system v s) re with
      | Ok re' =>
          (update_engine v (λ w, mkWorld (w_sys w) (<[i := re']> (w_reds w))) s,
           Ok ())
      | Throw msg => (s, Throw msg)
      | Undefined => (s, Undefined)
      | OutOfFuel => (s, OutOfFuel)
      end
  end.

(** [ptr->is_solved()]; the warning goes to the log. *)
Definition is_solved_at (v : VarT) (i : nat) : M bool := λ s,
  match m_eqns v s !! i with
  | None => (s, Undefined)
  | Some re => (s, fst <$> is_solved (m_system v s) re)
  end.

(** [m_system_*.add_reduced_equation(pf)]. *)
Definition add_reduced_equation_at (v : VarT) (pf : nat) : M unit := λ s,
  match StatementProof.reduced_equation (m_statement_proofs s pf) v with
  | None => (s, Ok ())
  | Some i =>
      match m_eqns v s !! i with
      | None => (s, Undefined)
      | Some re =>
          let r := add_reduced_equation (m_system v s) pf (Some re) in
          (update_engine v (λ w, mkWorld r.1 (w_reds w)) s, r.2)
      end
  end.

(** [DDARSolver::add_established_equations]. *)
Definition add_established_equations (pf : nat) : M unit :=
  add_reduced_equation_at Dist pf;;
  add_reduced_equation_at SquaredDist pf;;
  add_reduced_equation_at SinOrDist pf;;
  add_reduced_equation_at SlopeAngle pf.

(** *** solver/statement_proof.cpp *)

(** [if (m_*_eqn.second != nullptr) m_*_eqn.second->reduce();] *)
Definition reduce_if_present (pf : nat) (v : VarT) : M unit :=
  ptr ← sr_get (λ s, StatementProof.reduced_equation (m_statement_proofs s pf) v);
  match ptr with
  | None => mret ()
  | Some i => reduce_at v i
  end.

(** [StatementProof::set_proved]; the log line and the point dependencies
    are left out. *)
Definition set_proved (pf : nat) (state : StatementProofState) : M unit :=
  if decide (state = NOT_PROVED) then mret ()
  else
    st ← sr_get (λ s, StatementProof.m_state (m_statement_proofs s pf));
    if decide (st = NOT_PROVED) then
      sr_modify (update_proof pf (StatementProof.with_state state));;
      sr_modify (push_established_statement pf);;
      opt_r ← sr_get (λ s,
        StatementProof.as_ratio_squared_dist (m_statement_proofs s pf));
      match opt_r with
      | Some p => sr_modify (insert_ratio_squared_dist_cache p)
      | None => mret ()
      end;;
      reduce_if_present pf Dist;;
      reduce_if_present pf SquaredDist;;
      reduce_if_present pf SinOrDist;;
      reduce_if_present pf SlopeAngle;;
      add_established_equations pf
    else sr_throw "Trying to re-prove a statement".

Definition proved_by (v : VarT) : StatementProofState :=
  match v with
  | Dist => PROVED_AR_DIST
  | SquaredDist => PROVED_AR_SQUARE_DIST
  | SinOrDist => PROVED_AR_RATIO
  | SlopeAngle => PROVED_AR_ANGLE
  end.

(** The four blocks of [make_progress], one per engine: when the block
    does not prove the statement, [next] is the rest of the function. *)
Definition try_engine (pf : nat) (v : VarT) (next : M unit) : M unit :=
  ptr ← sr_get (λ s, StatementProof.reduced_equation (m_statement_proofs s pf) v);
  match ptr with
  | None => next
  | Some i =>
      reduce_at v i;;
      solved ← is_solved_at v i;
      if solved : bool then set_proved pf (proved_by v) else next
  end.

(** [StatementProof::make_progress]. *)
Definition make_progress (pf : nat) : M unit :=
  st ← sr_get (λ s, StatementProof.m_state (m_statement_proofs s pf));
  if decide (st = NOT_PROVED) then
    try_engine pf Dist
      (try_engine pf SquaredDist
         (try_engine pf SinOrDist
            (try_engine pf SlopeAngle (mret ()))))
  else mret ().

(** [StatementProof::set_theorem]. *)
Definition set_theorem (pf ind : nat) : M unit :=
  sr_modify (update_proof pf (StatementProof.with_theorem ind));;
  set_proved pf PROVED_BY_THEOREM.

(** *** solver/theorem_application.cpp *)

(** The loop over [m_conclusions]: no [break]. *)
Fixpoint conclusions_loop (pfs : list nat) (conclusions_proved : bool) : M bool :=
  match pfs with
  | [] => mret conclusions_proved
  | pf :: rest =>
      make_progress pf;;
      p ← is_proved pf;
      conclusions_loop rest (conclusions_proved && p)
  end.

(** The loop over [m_hypotheses]: it stops at the first hypothesis that is
    not proved. *)
Fixpoint hypotheses_loop (pfs : list nat) : M bool :=
  match pfs with
  | [] => mret true
  | pf :: rest =>
      make_progress pf;;
      p ← is_proved pf;
      if p : bool then hypotheses_loop rest else mret false
  end.

(** [TheoremApplication::advance_proof], on the application number [ind]. *)
Definition advance_proof (ind : nat) : M unit := λ s,
  match m_theorem_applications s !! ind with
  | None => (s, Undefined)
  | Some thm =>
      if decide (TheoremApplication.m_state thm = PENDING) then
        (conclusions_proved ←
           conclusions_loop (TheoremApplication.m_conclusions thm) true;
         if conclusions_proved : bool then
           sr_modify
             (update_theorem_application ind
                (TheoremApplication.with_state DISCARDED))
         else
           hypotheses_proved ←
             hypotheses_loop (TheoremApplication.m_hypotheses thm);
           if hypotheses_proved : bool then
             sr_modify
               (update_theorem_application ind
                  (TheoremApplication.with_state PROVED))
           else mret ()) s
      else (s, Ok ())
  end.

(** *** solver/ddar_solver.cpp *)

(** [DDARSolver::establish_statement]. *)
Definition establish_statement (pf thm_index : nat) : M bool :=
  p ← is_proved pf;
  if p : bool then mret false
  else
    make_progress pf;;
    p' ← is_proved pf;
    (if p' : bool then mret () else set_theorem pf thm_index);;
    mret true.

(** [m_theorem_applications.at(ind)]. *)
Definition theorem_application_at (ind : nat) : M TheoremApplication.t := λ s,
  match m_theorem_applications s !! ind with
  | Some thm => (s, Ok thm)
  | None => (s, Throw "vector::_M_range_check")
  end.

(** [DDARSolver::advance_theorem]. *)
Definition advance_theorem (ind : nat) : M unit :=
  thm ← theorem_application_at ind;
  if decide (TheoremApplication.m_state thm = PENDING) then
    advance_proof ind;;
    thm' ← theorem_application_at ind;
    if decide (TheoremApplication.m_state thm' = PROVED) then
      for_each (λ p, establish_statement p ind;; mret ())
        (TheoremApplication.m_conclusions thm')
    else mret ()
  else mret ().

End solver.

(** ** ar/linear_system.cpp: [generate_suspected_ratio_squared_dist] *)

(** What a failed [assert] reports before it stops the program. *)
Definition assertion_failed (text : string) : string :=
  ("Assertion `" ++ text ++ "' failed.")%string.

Section generate_suspected.
Context {Statement : Type} `{SolverEnv Statement}.

(** [v.get_squared_dist()]: [std::get] throws on a sine. *)
Definition get_squared_dist_checked (v : nat) : result nat :=
  if is_sin v then Throw "bad_variant_access" else Ok (get_squared_dist v).

(** [m_echelon_form.at(v)]. *)
Definition echelon_at {R} (sys : LinearSystem R) (v : nat)
    : result (Equation (Equation R)) :=
  match m_echelon_form sys !! v with
  | Some row => Ok row
  | None => Throw "map::at"
  end.

(** [std::next(row.rhs().lhs().begin())->second]. *)
Definition next_coeff {R} (row : Equation (Equation R)) : result Qc :=
  match lhs (rhs row) with
  | _ :: (_, c) :: _ => Ok c
  | _ => Undefined
  end.

(** [assert(condition)]: nothing in a program compiled with [NDEBUG];
    otherwise a condition that fails stops the program. *)
Definition assert_that (condition : bool) (text : string) : result unit :=
  if NDEBUG || condition then Ok () else Throw (assertion_failed text).

(** The proposal from one pivot whose row has two terms: for [Dist] the
    assertion is inside the test of the right-hand side, for [SquaredDist]
    it is before it. *)
Definition single_proposal (v : VarT) (i_var next_var : nat)
    (rhs_is_zero : bool) (eq_i_coeff : Qc) : result (list RatioSquaredDist) :=
  match v with
  | Dist =>
      if rhs_is_zero then
        _ ← assert_that (bool_decide (eq_i_coeff < 0)) "eq_i_coeff < 0";
        Ok [mkRatioSquaredDist i_var next_var (rat2nnrat (eq_i_coeff * eq_i_coeff))]
      else Ok []
  | SquaredDist =>
      _ ← assert_that (bool_decide (eq_i_coeff < 0)) "eq_i_coeff < 0";
      if rhs_is_zero then
        Ok [mkRatioSquaredDist i_var next_var (rat2nnrat (- eq_i_coeff))]
      else Ok []
  | SinOrDist =>
      if decide (eq_i_coeff = -1) then
        l ← get_squared_dist_checked i_var;
        r ← get_squared_dist_checked next_var;
        Ok [mkRatioSquaredDist l r 1]
      else Ok []
  | SlopeAngle => Ok []
  end.

(** The proposal from two pivots that share their next variable. *)
Definition pair_proposal (v : VarT) (i_var j_var : nat)
    (eq_i_coeff eq_j_coeff : Qc) : result (list RatioSquaredDist) :=
  match v with
  | Dist =>
      if decide (eq_j_coeff * eq_j_coeff = 0) then
        Throw "bad rational: zero denominator"
      else
        Ok [mkRatioSquaredDist i_var j_var
              (rat2nnrat ((eq_i_coeff * eq_i_coeff) / (eq_j_coeff * eq_j_coeff)))]
  | SquaredDist =>
      if decide (eq_j_coeff = 0) then Throw "bad rational: zero denominator"
      else if decide (eq_i_coeff / eq_j_coeff < 0) then Ok []
      else Ok [mkRatioSquaredDist i_var j_var (rat2nnrat (eq_i_coeff / eq_j_coeff))]
  | SinOrDist =>
      if decide (eq_i_coeff = eq_j_coeff) then
        l ← get_squared_dist_checked i_var;
        r ← get_squared_dist_checked j_var;
        Ok [mkRatioSquaredDist l r 1]
      else Ok []
  | SlopeAngle => Ok []
  end.

(** The loop over [it_j]. *)
Fixpoint proposals_with (v : VarT) (sys : LinearSystem (RHSType v))
    (i_var : nat) (eq_i_coeff : Qc) (js : list nat)
    : result (list RatioSquaredDist) :=
  match js with
  | [] => Ok []
  | j_var :: rest =>
      eq_j_lc ← echelon_at sys j_var;
      eq_j_coeff ← next_coeff eq_j_lc;
      here ← pair_proposal v i_var j_var eq_i_coeff eq_j_coeff;
      later ← proposals_with v sys i_var eq_i_coeff rest;
      Ok (here ++ later)
  end.

(** The loop over [it_i], for one entry of [m_pivot_by_next]. *)
Fixpoint proposals_of_bucket (v : VarT) (sys : LinearSystem (RHSType v))
    (next_var : nat) (pivots : list nat) : result (list RatioSquaredDist) :=
  match pivots with
  | [] => Ok []
  | i_var :: rest =>
      if bool_decide (v = SinOrDist) && is_sin i_var then
        proposals_of_bucket v sys next_var rest
      else
        eq_i_lc ← echelon_at sys i_var;
        eq_i_coeff ← next_coeff eq_i_lc;
        single ←
          (if decide (length (lhs (rhs eq_i_lc)) = 2%nat) then
             single_proposal v i_var next_var
               (bool_decide (rhs (rhs eq_i_lc) = rzero)) eq_i_coeff
           else Ok []);
        pairs ← proposals_with v sys i_var eq_i_coeff rest;
        later ← proposals_of_bucket v sys next_var rest;
        Ok (single ++ pairs ++ later)
  end.

(** The loop over [m_pivot_by_next], in the order of its keys. *)
Fixpoint proposals_of_buckets (v : VarT) (sys : LinearSystem (RHSType v))
    (next_vars : list nat) : result (list RatioSquaredDist) :=
  match next_vars with
  | [] => Ok []
  | next_var :: rest =>
      here ←
        proposals_of_bucket v sys next_var
          (set_in_order (default ∅ (m_pivot_by_next sys !! next_var)));
      later ← proposals_of_buckets v sys rest;
      Ok (here ++ later)
  end.

Definition generate_suspected_ratio_squared_dist (v : VarT)
    (sys : LinearSystem (RHSType v)) : result (list RatioSquaredDist) :=
  match v with
  | SlopeAngle => Ok []
  | _ => proposals_of_buckets v sys (set_in_order (dom (m_pivot_by_next sys)))
  end.

End generate_suspected.

(** ** solver/ddar_solver.cpp: the passes of a level *)

Section solver_level.
Context {Statement : Type} `{SolverEnv Statement}.
#[local] Abbreviation Solver := (DDARSolver Statement).
#[local] Abbreviation M := (SR Solver).

(** The lambda [f] of [process_squared_dist_eq]. *)
Definition prove_generated (p : Statement) : M unit :=
  pf ← insert_statement p;
  make_progress pf;;
  proved ← is_proved pf;
  if proved : bool then mret ()
  else sr_throw "Failed to prove a generated `squared_dist_eq`".

(** [m_system_*.echelon_form().find(v)->second.rhs().rhs()]. *)
Definition found_value (v : VarT) (var : nat) : M (RHSType v) := λ s,
  match m_echelon_form (m_system v s) !! var with
  | Some row => (s, Ok (rhs (rhs row)))
  | None => (s, Undefined)
  end.

(** [new_found_variables()] returns a copy of the set. *)
Definition new_found_variables (v : VarT) : M (list nat) :=
  sr_get (λ s, set_in_order (m_found_variables (m_system v s))).

Definition clear_new_found_variables (v : VarT) : M unit :=
  sr_modify
    (update_engine v (λ w,
       mkWorld
         (mkLinearSystem (m_equations (w_sys w)) (m_echelon_form (w_sys w))
            (m_pivot_by_next (w_sys w)) ∅)
         (w_reds w))).

(** The bodies of the three loops of [process_squared_dist_eq]; the rank
    of [SquaredDist(v)] is the rank of the distance [v]. *)
Definition found_dist (var : nat) : M unit :=
  r ← found_value Dist var;
  if decide ((r : Qc) = 0) then sr_throw "Found zero distance"
  else prove_generated (SquaredDistEq var (rat2nnrat (r * r))).

Definition found_squared_dist (var : nat) : M unit :=
  r ← found_value SquaredDist var;
  if decide ((r : Qc) = 0) then
    sr_throw ("Found zero squared distance: " ++ print_SquaredDist var ++ " = 0")
  else prove_generated (SquaredDistEq var (rat2nnrat r)).

Definition found_sin_or_dist (var : nat) : M unit :=
  if is_sin var then mret ()
  else
    value ← found_value SinOrDist var;
    r ← sr_lift (as_nnrat value);
    if decide (r = 0) then mret ()
    else prove_generated (SquaredDistEq (get_squared_dist var) r).

(** One loop of [process_squared_dist_eq] with the call of
    [clear_new_found_variables] that follows it. *)
Definition drain (v : VarT) (body : nat → M unit) : M unit :=
  vars ← new_found_variables v;
  for_each body vars;;
  clear_new_found_variables v.

(** [DDARSolver::process_squared_dist_eq]. *)
Definition process_squared_dist_eq : M unit :=
  drain Dist found_dist;;
  drain SquaredDist found_squared_dist;;
  drain SinOrDist found_sin_or_dist.

(** [m_ratio_squared_dist_found.contains(make_pair(...))]. *)
Definition in_ratio_cache (r : RatioSquaredDist) : M bool :=
  sr_get (λ s,
    bool_decide ((left_squared_dist r, right_squared_dist r)
                 ∈ m_ratio_squared_dist_found s)).

(** [ReducedEquation red_eq(eq, &sys); red_eq.reduce();] on a local
    object. *)
Definition reduce_fresh (v : VarT) (eq : Equation (RHSType v))
    : M (ReducedEquation (RHSType v)) := λ s,
  (s, reduce (m_system v s) (ReducedEquation_new eq)).

Definition is_solved_fresh (v : VarT) (red_eq : ReducedEquation (RHSType v))
    : M bool := λ s,
  (s, fst <$> is_solved (m_system v s) red_eq).

(** The body of the loop over the proposals of [m_system_dist]:
    [RatioSquaredDist] does not override [as_equation_dist], so
    [r.as_equation<Dist>()] is [nullopt]. *)
Definition candidate_dist (r : RatioSquaredDist) : M unit :=
  cached ← in_ratio_cache r;
  if cached : bool then mret ()
  else if negb (check_numerically r) then mret ()
  else mret ().

(** [RatioSquaredDist::as_equation_squared_dist]. *)
Definition as_equation_squared_dist (r : RatioSquaredDist) : Equation Qc :=
  mkEquation
    (LC.sub (LC.of_var (left_squared_dist r))
       (LC.single (right_squared_dist r) (nnrat2rat (ratio r))))
    0.

(** [RatioSquaredDist::as_equation_sin_or_dist]. *)
Definition as_equation_sin_or_dist (r : RatioSquaredDist)
    : result (Equation RootRat) :=
  value ← RootRat_of_NNRat (ratio r);
  Ok (mkEquation
        (LC.sub (LC.of_var (SinOrDist_of_SquaredDist (left_squared_dist r)))
           (LC.of_var (SinOrDist_of_SquaredDist (right_squared_dist r))))
        value).

(** The body of the loop over the proposals of [m_system_squared_dist]. *)
Definition candidate_squared_dist (r : RatioSquaredDist) : M unit :=
  cached ← in_ratio_cache r;
  if cached : bool then mret ()
  else if negb (check_numerically r) then mret ()
  else
    red_eq ← reduce_fresh SquaredDist (as_equation_squared_dist r);
    solved ← is_solved_fresh SquaredDist red_eq;
    if solved : bool then
      pf ← insert_statement (normalize2 r);
      make_progress pf
    else mret ().

(** The body of the loop over the proposals of [m_system_sin_or_dist]. *)
Definition candidate_sin_or_dist (r : RatioSquaredDist) : M unit :=
  cached ← in_ratio_cache r;
  if cached : bool then mret ()
  else
    eq ← sr_lift (as_equation_sin_or_dist r);
    red_eq ← reduce_fresh SinOrDist eq;
    if bool_decide (lhs (m_remainder red_eq) = []) then
      c ← sr_lift (as_nnrat (rhs (m_remainder red_eq)));
      if decide (c = 0) then mret ()
      else
        pf ← insert_statement
               (normalize2
                  (mkRatioSquaredDist (left_squared_dist r)
                     (right_squared_dist r) (1 / c)));
        make_progress pf
    else mret ().

(** One loop of [process_ratio_squared_dist]: the proposals are generated
    once, before the loop. *)
Definition process_proposals (v : VarT) (body : RatioSquaredDist → M unit)
    : M unit :=
  proposals ← (λ s, (s, generate_suspected_ratio_squared_dist v (m_system v s)));
  for_each body proposals.

(** [DDARSolver::process_ratio_squared_dist]. *)
Definition process_ratio_squared_dist : M unit :=
  process_proposals Dist candidate_dist;;
  process_proposals SquaredDist candidate_squared_dist;;
  process_proposals SinOrDist candidate_sin_or_dist.

(** The loop over [m_goals] of [run_level]. *)
Fixpoint goals_loop (gs : list nat) (b : bool) : M bool :=
  match gs with
  | [] => mret b
  | g :: rest =>
      proved ← is_proved g;
      if proved : bool then goals_loop rest b
      else
        make_progress g;;
        proved' ← is_proved g;
        goals_loop rest (if proved' : bool then b else false)
  end.

(** [DDARSolver::run_level]. *)
Definition run_level (max_pt : Z) : M bool :=
  num_statements ← sr_get (λ s, length (m_established_statements s));
  n ← sr_get (λ s, length (m_theorem_applications s));
  for_each
    (λ i,
       thm ← (λ s, match m_theorem_applications s !! i with
                   | Some thm => (s, Ok thm)
                   | None => (s, Undefined)
                   end);
       if (TheoremApplication.m_max_point thm <=? max_pt)%Z
       then advance_theorem i else mret ())
    (seq 0 n);;
  process_squared_dist_eq;;
  process_ratio_squared_dist;;
  problem_goals ← sr_get (λ s, goals (m_problem s));
  match problem_goals with
  | [] => mret ()
  | _ :: _ =>
      gs ← sr_get m_goals;
      b ← goals_loop gs true;
      sr_modify (set_solved b)
  end;;
  sr_modify increment_level;;
  sr_get (λ s, (num_statements <? length (m_established_statements s))%nat).

(** The inner loop of [run] for a problem without goals. *)
Fixpoint saturate (levels : nat) (max_pt : Z) : M unit :=
  match levels with
  | O => mret ()
  | S levels' =>
      progress ← run_level max_pt;
      if progress : bool then saturate levels' max_pt else mret ()
  end.

(** The loop of [run] for a problem with goals. *)
Fixpoint solve (levels : nat) (max_pt : Z) : M unit :=
  match levels with
  | O => mret ()
  | S levels' =>
      progress ← run_level max_pt;
      if progress : bool then
        solved ← sr_get m_solved;
        if solved : bool then mret () else solve levels' max_pt
      else mret ()
  end.

(** [Problem::all_points]. *)
Definition all_points (p : Problem Statement) : list Z :=
  Z.of_nat <$> seq 0 (num_points p).

(** [DDARSolver::run]; [num_points() - 1] is computed in [size_t]. *)
Definition run (max_levels : nat) : M bool :=
  problem ← sr_get m_problem;
  match goals problem with
  | [] =>
      for_each (saturate max_levels) (all_points problem);;
      sr_modify (set_solved true)
  | _ :: _ =>
      solve max_levels ((Z.of_nat (num_points problem) - 1) `mod` 2 ^ 64)%Z
  end;;
  sr_get m_solved.

(** The [status] member of the value that [print_json] serialises. *)
Definition json_status (s : Solver) : string :=
  if m_solved s then "solved" else "saturated".

End solver_level.

(** ** How the solver's state evolves *)

Section solver_evolution.
Context {Statement : Type} `{SolverEnv Statement}.
#[local] Abbreviation Solver := (DDARSolver Statement).
#[local] Abbreviation M := (SR Solver).

(** A computation moves every state along the relation [R], however it
    ends. *)
Definition respects {A} (R : relation Solver) (m : M A) : Prop :=
  ∀ s, R s (m s).1.

(** Nothing but the engines and the cache changes. *)
Definition keeps_core (s s' : Solver) : Prop :=
  m_problem s' = m_problem s
  ∧ m_theorem_applications s' = m_theorem_applications s
  ∧ m_statement_proofs s' = m_statement_proofs s
  ∧ m_goals s' = m_goals s
  ∧ m_established_statements s' = m_established_statements s
  ∧ m_solved s' = m_solved s
  ∧ m_level s' = m_level s.

Definition proved (s : Solver) (pf : nat) : Prop :=
  StatementProof.m_state (m_statement_proofs s pf) ≠ NOT_PROVED.

(** How a proof record gets proved: by one of the engines, or by the
    theorem application [ind]. *)
Definition marks (ind : option nat) (old new : StatementProof.t) : Prop :=
  (∃ v, new = StatementProof.with_state (proved_by v) old)
  ∨ (∃ i, ind = Some i
       ∧ new = StatementProof.with_state PROVED_BY_THEOREM
                 (StatementProof.with_theorem i old)).

(** From [s] to [s'] the problem, the theorem applications and the goals
    are the same, and a proof record is the same unless it was not proved,
    is among [P] and got proved. *)
Definition evolves (ind : option nat) (P : nat → Prop) (s s' : Solver) : Prop :=
  m_problem s' = m_problem s
  ∧ m_theorem_applications s' = m_theorem_applications s
  ∧ m_goals s' = m_goals s
  ∧ ∀ pf, m_statement_proofs s' pf = m_statement_proofs s pf
          ∨ (P pf
             ∧ StatementProof.m_state (m_statement_proofs s pf) = NOT_PROVED
             ∧ marks ind (m_statement_proofs s pf) (m_statement_proofs s' pf)).

(** The state of the application [ind]. *)
Definition application_state (s : Solver) (ind : nat)
    : option TheoremApplicationState :=
  TheoremApplication.m_state <$> m_theorem_applications s !! ind.

End solver_evolution.

(** ** A small instance of the driver, for the examples

    The statements are the two kinds that the driver builds itself; the
    proof of a statement lives at an address computed from its distances;
    a squared distance and its rank among [SinOrDist] are the same number
    (no angle around); the numerical check rejects every proposal. *)

Inductive example_statement :=
| example_squared_dist_eq (d : nat) (value : Qc)
| example_ratio_squared_dist (r : RatioSquaredDist).

Definition example_address (p : example_statement) : nat :=
  match p with
  | example_squared_dist_eq d _ => 2 * d
  | example_ratio_squared_dist r =>
      2 * (left_squared_dist r + 16 * right_squared_dist r) + 1
  end.

(** [eqns->insert({eqn, red_eq}).first->second]: the entry of the table
    for [eqn], created if there is none. *)
Definition insert_equation {R} `{Rhs R} (eqn : Equation R)
    (table : list (ReducedEquation R)) : list (ReducedEquation R) * nat :=
  match list_find (λ re, m_original_eq re = eqn) table with
  | Some (i, _) => (table, i)
  | None => (table ++ [ReducedEquation_new eqn], length table)
  end.

(** The equations of a statement over [SquaredDist] and over
    [SinOrDist]. *)
Definition example_equations (p : example_statement)
    : result (Equation Qc * Equation RootRat) :=
  match p with
  | example_squared_dist_eq d value =>
      v ← RootRat_of_NNRat value;
      Ok (mkEquation (LC.of_var d) (nnrat2rat value), mkEquation (LC.of_var d) v)
  | example_ratio_squared_dist r =>
      v ← RootRat_of_NNRat (ratio r);
      Ok (as_equation_squared_dist r,
          mkEquation
            (LC.sub (LC.of_var (left_squared_dist r))
               (LC.of_var (right_squared_dist r))) v)
  end.

Definition example_insert_statement (p : example_statement)
    : SR (DDARSolver example_statement) nat := λ s,
  let addr := example_address p in
  match StatementProof.reduced_equation (m_statement_proofs s addr) SquaredDist with
  | Some _ => (s, Ok addr)
  | None =>
      match example_equations p with
      | Ok (eq2, eqr) =>
          let t2 := insert_equation eq2 (m_eqns SquaredDist s) in
          let tr := insert_equation eqr (m_eqns SinOrDist s) in
          (update_proof addr
             (λ _, StatementProof.mk NOT_PROVED None
                     (λ v, match v with
                           | SquaredDist => Some t2.2
                           | SinOrDist => Some tr.2
                           | _ => None
                           end)
                     match p with
                     | example_squared_dist_eq _ _ => None
                     | example_ratio_squared_dist r =>
                         Some (left_squared_dist r `min` right_squared_dist r,
                               left_squared_dist r `max` right_squared_dist r)
                     end)
             (update_engine SinOrDist (λ w, mkWorld (w_sys w) tr.1)
                (update_engine SquaredDist (λ w, mkWorld (w_sys w) t2.1) s)),
           Ok addr)
      | Throw msg => (s, Throw msg)
      | Undefined => (s, Undefined)
      | OutOfFuel => (s, OutOfFuel)
      end
  end.

#[export] Instance example_env : SolverEnv example_statement := {|
  SquaredDistEq := example_squared_dist_eq;
  normalize2 := example_ratio_squared_dist;
  check_numerically := λ _, false;
  insert_statement := example_insert_statement;
  is_sin := λ _, false;
  get_squared_dist := id;
  SinOrDist_of_SquaredDist := id;
  print_SquaredDist := λ _, "d"%string;
  NDEBUG := false
|}.

(** The same program compiled with [NDEBUG]. *)
Definition example_env_ndebug : SolverEnv example_statement := {|
  SquaredDistEq := example_squared_dist_eq;
  normalize2 := example_ratio_squared_dist;
  check_numerically := λ _, false;
  insert_statement := example_insert_statement;
  is_sin := λ _, false;
  get_squared_dist := id;
  SinOrDist_of_SquaredDist := id;
  print_SquaredDist := λ _, "d"%string;
  NDEBUG := true
|}.

(** A solver with three points, no goal, no theorem and nothing known. *)
Definition example_empty : DDARSolver example_statement :=
  mkDDARSolver (mkProblem [] 3) []
    (λ _, StatementProof.mk NOT_PROVED None (λ _, None) None)
    [] ∅ [] false 0 (λ v, mkWorld empty_system []).

(** The body of the first loop of the constructor of [DDARSolver]:
    [insert_statement(hyp)->prove_by_assumption()]. *)
Definition example_assume (p : example_statement)
    : SR (DDARSolver example_statement) unit :=
  pf ← insert_statement p;
  set_proved pf PROVED_BY_ASSUMPTION.

(** The squared distances [d0], [d1], [d2] with [d0 = 2 d2] and
    [d1 = 6 d2] assumed. *)
Definition example_two_ratios : DDARSolver example_statement :=
  (for_each example_assume
     [example_ratio_squared_dist (mkRatioSquaredDist 0 2 (q 2 1));
      example_ratio_squared_dist (mkRatioSquaredDist 1 2 (q 6 1))]
     example_empty).1.

(** The same with one theorem application: from the two assumed
    statements, a statement that no engine knows of (at the address 7). *)
Definition example_with_theorem : DDARSolver example_statement :=
  mkDDARSolver (m_problem example_two_ratios)
    [TheoremApplication.mk PENDING [65; 67] [7] 2]
    (m_statement_proofs example_two_ratios)
    (m_goals example_two_ratios)
    (m_ratio_squared_dist_found example_two_ratios)
    (m_established_statements example_two_ratios)
    (m_solved example_two_ratios) (m_level example_two_ratios)
    (m_ar example_two_ratios).

(** The [Ratio] engine after [2 d0 = log 2] was handed to it: [d0] is
    found, with the value [2^(1/2)]. *)
Definition example_root : DDARSolver example_statement :=
  update_engine SinOrDist
    (λ w,
       mkWorld
         (add_reduced_equation (w_sys w) 9
            (Some (ReducedEquation_new
                     (mkEquation [(0%nat, q 2 1)] (mkRootRat [(2%nat, q 1 1)]))))).1
         (w_reds w))
    example_empty.


#[export] Instance result_eq_dec {A} `{EqDecision A} : EqDecision (result A).
Proof.
  intros [a|m| |] [b|n| |]; try (right; discriminate); try (left; reflexivity).
  - destruct (decide (a = b)); [left; congruence | right; congruence].
  - destruct (String.string_dec m n); [left; congruence | right; congruence].
Defined.

#[export] Instance RatioSquaredDist_eq_dec : EqDecision RatioSquaredDist.
Proof. solve_decision. Defined.


(** * matcher.cpp: [foreach_bucket]

    A [double] is a [float]: the binary64 numbers of IEEE 754, with the
    rounded sum and product and the comparisons of the processor (false
    when an operand is not a number). *)

Module Bucket.

(** [numbers/util.hpp]: [const double EPS = 1E-7], the [double] nearest to
    [10^-7], which is below it. *)
Definition EPS : float := 0x1.ad7f29abcaf48p-24%float.

(** What a call does, in order: the calls of [callback] with the span
    passed, and the warnings logged. *)
Inductive event (Item : Type) :=
| Callback (bucket : list Item)
| Warning.
Arguments Callback {Item} bucket.
Arguments Warning {Item}.

(** [key < last_key + EPS]. *)
Definition within (last_key key : float) : bool :=
  (key <? last_key + EPS)%float.

(** [key >= start_bucket_key + 10 * EPS]. *)
Definition overflow (start_bucket_key key : float) : bool :=
  (start_bucket_key + 10 * EPS <=? key)%float.

Section foreach_bucket.
Context {Item : Type} (key_fun : Item → float).

(** The loop: [rest] is [items] from [ind] on. *)
Fixpoint walk (items rest : list Item) (ind start_bucket_index : nat)
    (start_bucket_key last_key : float) : list (event Item) :=
  match rest with
  | [] => [Callback (drop start_bucket_index items)]
  | item :: rest' =>
      let key := key_fun item in
      if within last_key key then
        (if overflow start_bucket_key key then [Warning] else [])
        ++ walk items rest' (S ind) start_bucket_index start_bucket_key key
      else
        Callback (take (ind - start_bucket_index) (drop start_bucket_index items))
        :: walk items rest' (S ind) ind key key
  end.

Definition foreach_bucket (items : list Item) : list (event Item) :=
  match items with
  | [] => []
  | first :: rest => walk items rest 1 0 (key_fun first) (key_fun first)
  end.

(** The spans passed to [callback], and the number of warnings. *)
Definition callbacks (events : list (event Item)) : list (list Item) :=
  omap (λ e, match e with Callback b => Some b | Warning => None end) events.

Definition is_warning (e : event Item) : bool :=
  match e with Callback _ => false | Warning => true end.

Definition warnings (events : list (event Item)) : nat :=
  length (filter (λ e, is_warning e = true) events).

(** [b] can follow [a] in a bucket. *)
Definition linked (a b : Item) : Prop :=
  within (key_fun a) (key_fun b) = true.

(** The bucket [b2] starts where the bucket [b1] could not go on. *)
Definition split_at (b1 b2 : list Item) : Prop :=
  ∀ a b, last b1 = Some a → head b2 = Some b → ¬ linked a b.

(** The items of a bucket, after the first, whose key is at least
    [10 * EPS] above the key of the first. *)
Definition overflows (bucket : list Item) : nat :=
  match bucket with
  | [] => 0
  | first :: others =>
      length (filter (λ x, overflow (key_fun first) (key_fun x) = true) others)
  end.

(** The loop without the indices: [current] is the bucket being built. *)
Fixpoint group (current rest : list Item) (start_bucket_key last_key : float)
    : list (event Item) :=
  match rest with
  | [] => [Callback current]
  | item :: rest' =>
      let key := key_fun item in
      if within last_key key then
        (if overflow start_bucket_key key then [Warning] else [])
        ++ group (current ++ [item]) rest' start_bucket_key key
      else Callback current :: group [item] rest' key key
  end.

End foreach_bucket.

(** The [double] nearest to [n * 10^-8], as the compiler reads
    [n e-8]. *)
Definition e8 (n : float) : float := (n / 100000000)%float.

(** Three keys, each within [EPS] of the one before, the third not within
    [EPS] of the first. *)
Definition drifting : list float := [e8 0; e8 6; e8 12]%float.

(** The keys [0.0] and [1e-7]: the second is not below the first plus
    [EPS]. *)
Definition at_the_bound : list float := [e8 0; e8 10]%float.

End Bucket.

(** * statement/: normalisation of [cong] and [rconst] *)

(** [Dist]: two points, the smaller index first; [operator<=>] is the
    defaulted one. *)
Module Dist.
Record t := mk { m_left : nat; m_right : nat }.

#[global] Instance eq_dec : EqDecision t.
Proof. solve_decision. Defined.

Definition make (p1 p2 : nat) : t := mk (p1 `min` p2) (p1 `max` p2).

Definition lt (a b : t) : Prop :=
  (m_left a < m_left b)%nat ∨ (m_left a = m_left b ∧ (m_right a < m_right b)%nat).

#[global] Instance lt_dec a b : Decision (lt a b).
Proof. unfold lt. apply _. Defined.
End Dist.

(** [DistEqDist], the statement [cong]. *)
Module DistEqDist.
Record t := mk { m_left : Dist.t; m_right : Dist.t }.

#[global] Instance eq_dec : EqDecision t.
Proof. solve_decision. Defined.

(** [DistEqDist::normalize]: [m_left > m_right] is [m_right < m_left]. *)
Definition normalize (p : t) : t :=
  if decide (Dist.lt (m_right p) (m_left p)) then mk (m_right p) (m_left p)
  else mk (m_left p) (m_right p).
End DistEqDist.

(** [RatioDistEquals], the statement [rconst]. *)
Module RatioDistEquals.
Record t := mk { m_left : Dist.t; m_right : Dist.t; m_ratio : Qc }.

#[global] Instance eq_dec : EqDecision t.
Proof. solve_decision. Defined.

(** [swap]: [NNRat(1) / m_ratio] throws [bad_rational] on zero. *)
Definition swap (p : t) : result t :=
  if decide (m_ratio p = 0) then Throw "bad rational: zero denominator"
  else Ok (mk (m_right p) (m_left p) (1 / m_ratio p)).

(** [RatioDistEquals::normalize]. *)
Definition normalize (p : t) : result t :=
  if decide (Dist.lt (m_left p) (m_right p)) then Ok p else swap p.

(** [rconst A B A B 2]. *)
Definition same_atoms : t := mk (Dist.make 0 1) (Dist.make 0 1) (q 2 1).
End RatioDistEquals.

(** [Len]: the world of [len_world] after [2 x + 4 y = 6] was reduced. *)
Definition len_solved : ReducedEquation Qc :=
  match reduce len_sys2 (ReducedEquation_new len_eq1) with
  | Ok re => re
  | _ => len_re0
  end.
Definition len_world_reduced : world Qc :=
  mkWorld len_sys2 [len_re0; len_solved; len_re2].

(** ** The list of the established statements *)

Section solver_ledger.
Context {Statement : Type} `{SolverEnv Statement}.
#[local] Abbreviation Solver := (DDARSolver Statement).

(** The established statements are listed once each, and are proved. *)
Definition ledger (s : Solver) : Prop :=
  NoDup (m_established_statements s)
  ∧ Forall (proved s) (m_established_statements s).

(** From [s] to [s'] the list of the established statements grows at its
    end, by statements that were not proved; a proved statement stays
    proved and a statement that gets proved is listed. *)
Definition grows (s s' : Solver) : Prop :=
  m_established_statements s `prefix_of` m_established_statements s'
  ∧ (∀ pf, proved s pf → proved s' pf)
  ∧ (∀ pf, proved s' pf → ¬ proved s pf → pf ∈ m_established_statements s')
  ∧ (∀ pf, pf ∈ m_established_statements s' →
           pf ∈ m_established_statements s ∨ ¬ proved s pf)
  ∧ (ledger s → ledger s').

(** The problem is the same. *)
Definition same_problem (s s' : Solver) : Prop := m_problem s' = m_problem s.

End solver_ledger.

(** The solver of [example_two_ratios] with the goal [d1 = 3 d0]: the
    last loop of the constructor of [DDARSolver]. *)
Definition example_goal : example_statement :=
  example_ratio_squared_dist (mkRatioSquaredDist 1 0 (q 3 1)).

Definition example_with_goal : DDARSolver example_statement :=
  let s := (insert_statement example_goal example_two_ratios).1 in
  mkDDARSolver (mkProblem [example_goal] 3)
    (m_theorem_applications s) (m_statement_proofs s)
    [example_address example_goal]
    (m_ratio_squared_dist_found s) (m_established_statements s)
    (m_solved s) (m_level s) (m_ar s).

(** ** ar/equation.cpp: [Equation::normalize] *)

(** [1 / m_lhs.begin()->second] throws [bad_rational] on a zero
    coefficient. *)
Definition Equation_normalize {R} `{Rhs R} (a : Equation R)
    : result (Qc * Equation R) :=
  match lhs a with
  | [] => Ok (1, a)
  | (_, c) :: _ =>
      if is_add_circle then
        if decide (0 < c) then Ok (1, a) else Ok (-1, eq_neg a)
      else if decide (c = 0) then Throw "bad rational: zero denominator"
      else Ok (1 / c, eq_mul (1 / c) a)
  end.

(** ** Numbers modulo one *)

(** [x] is an integer. *)
Definition is_integer (x : Qc) : Prop := ∃ k : Z, x = Q2Qc (inject_Z k).

(** ** matcher.cpp: [foreach_pair] *)

(** The two loops of the callback that [foreach_pair] gives to
    [foreach_bucket]: the calls [callback(bucket[i].second,
    bucket[j].second)] for [i < j], in order. *)
Fixpoint bucket_pairs {V} (bucket : list (float * V)) : list (V * V) :=
  match bucket with
  | [] => []
  | x :: rest => map (λ y, (x.2, y.2)) rest ++ bucket_pairs rest
  end.

(** [foreach_pair]: the calls of [callback], in order. *)
Definition foreach_pair {V} (items : list (float * V)) : list (V * V) :=
  concat (bucket_pairs <$> Bucket.callbacks (Bucket.foreach_bucket fst items)).

(** From the position [i] to the position [j], every item can follow the
    one before it in a bucket. *)
Definition chained {Item} (key_fun : Item → float) (items : list Item)
    (i j : nat) : Prop :=
  ∀ m, (i ≤ m < j)%nat →
    ∃ a b, items !! m = Some a ∧ items !! S m = Some b
           ∧ Bucket.linked key_fun a b.

(** Four items: the keys step by [0.6 * 10^-7] from the first to the
    third, and by [10^-7] from the third to the fourth. *)
Definition example_pairs : list (float * nat) :=
  [(Bucket.e8 0, 10%nat); (Bucket.e8 6, 11%nat); (Bucket.e8 12, 12%nat);
   (Bucket.e8 22, 13%nat)]%float.

(** ** What an echelon form entails *)

Section echelon_span.
Context {R : Type} `{Rhs R}.

(** The rows of an echelon form as a table indexed by their pivots (where
    there is no row: the equation [0 = 0]). *)
Definition rows_of (ech : gmap nat (Equation (Equation R)))
    : list (Equation R * nat) :=
  (λ v, (from_option rhs eq_zero (ech !! v), 0%nat))
  <$> seq 0 (S (max_list (elements (dom ech)))).

(** [e] is a sum of multiples of rows of the echelon form. *)
Definition in_span (ech : gmap nat (Equation (Equation R))) (e : Equation R)
    : Prop :=
  ∃ terms : LC.t,
    LC.wf terms
    ∧ Forall (λ term : nat * Qc, is_Some (ech !! term.1)) terms
    ∧ e = combine (rows_of ech) terms.

(** Every row is a valid equation that starts with its pivot, with the
    coefficient one. *)
Definition rows_ok (ech : gmap nat (Equation (Equation R))) : Prop :=
  ∀ v row, ech !! v = Some row → eq_valid (rhs row) ∧ leads v (rhs row).

(** What every reduced equation has subtracted so far is entailed by the
    echelon form. *)
Definition world_span (w : world R) : Prop :=
  Forall (λ re, in_span (m_echelon_form (w_sys w)) (rhs (m_linear_combination re)))
    (w_reds w).

End echelon_span.

(** [Len]: the world of [len_world] before [y = 1] enters the system. *)
Definition len_world_before : world Qc :=
  mkWorld len_sys1 [len_re0; ReducedEquation_new len_eq1; len_re2].

(** ** The engines of the solver as worlds *)

Section solver_engines.
Context {Statement : Type} `{SolverEnv Statement}.

(** From [s] to [s'] every engine is moved by steps of its world:
    equations constructed, reduced or added. *)
Definition engines_step (s s' : DDARSolver Statement) : Prop :=
  ∀ v, rtc step (m_ar s v) (m_ar s' v).

End solver_engines.

(** ** Histories without exceptions *)

(** A step of a world in which [add_reduced_equation], if called,
    returns. *)
Inductive quiet_step {R} `{Rhs R} : world R → world R → Prop :=
| quiet_new sys reds original_eq :
    eq_valid original_eq →
    quiet_step (mkWorld sys reds)
      (mkWorld sys (reds ++ [ReducedEquation_new original_eq]))
| quiet_reduce sys reds i re re' :
    reds !! i = Some re →
    reduce sys re = Ok re' →
    quiet_step (mkWorld sys reds) (mkWorld sys (<[i := re']> reds))
| quiet_add sys reds i re pf sys' :
    reds !! i = Some re →
    add_reduced_equation sys pf (Some re) = (sys', Ok ()) →
    quiet_step (mkWorld sys reds) (mkWorld sys' reds).

Definition quiet {R} `{Rhs R} (w : world R) : Prop :=
  rtc quiet_step (mkWorld empty_system []) w.

(** The cache [m_pivot_by_next] is right: a pivot listed under [w] has a
    row whose second variable is [w]. *)
Definition pivot_by_next_ok {R} (sys : LinearSystem R) : Prop :=
  ∀ w s p, m_pivot_by_next sys !! w = Some s → p ∈ s →
    ∃ row c tail,
      m_echelon_form sys !! p = Some row
      ∧ lhs (rhs row) = (p, 1) :: (w, c) :: tail
      ∧ c ≠ 0.

(** Every row starts with its pivot, with the coefficient one. *)
Definition rows_lead {R} (ech : gmap nat (Equation (Equation R))) : Prop :=
  ∀ v row, ech !! v = Some row → leads v (rhs row).

(** The cache during the partial back substitution for the new pivot
    [v]: right but for the entry of [v], whose pivots still to come have
    [v] as their second variable. *)
Definition cache_during {R} (v : nat) (todo : list nat) (sys : LinearSystem R)
    : Prop :=
  rows_lead (m_echelon_form sys)
  ∧ is_Some (m_echelon_form sys !! v)
  ∧ (∀ w s p, w ≠ v → m_pivot_by_next sys !! w = Some s → p ∈ s →
       ∃ row c tail,
         m_echelon_form sys !! p = Some row
         ∧ lhs (rhs row) = (p, 1) :: (w, c) :: tail ∧ c ≠ 0)
  ∧ (∀ p, p ∈ todo →
       ∃ row c tail,
         m_echelon_form sys !! p = Some row
         ∧ lhs (rhs row) = (p, 1) :: (v, c) :: tail).

(** How [generate_suspected_ratio_squared_dist] may end: it returns, or
    the [Ratio] engine throws on [get_squared_dist] of a sine, or, in a
    program with its assertions, [assert(eq_i_coeff < 0)] fails in the
    [Len] or the [Len²] engine. *)
Definition ends_well {Statement} `{SolverEnv Statement} {A}
    (v : VarT) (r : result A) : Prop :=
  match r with
  | Ok _ => True
  | Throw msg =>
      (v = SinOrDist ∧ msg = "bad_variant_access"%string)
      ∨ (NDEBUG = false ∧ (v = Dist ∨ v = SquaredDist)
         ∧ msg = assertion_failed "eq_i_coeff < 0")
  | Undefined | OutOfFuel => False
  end.

(** No assertion has failed. *)
Definition no_assertion {A} (v : VarT) (r : result A) : Prop :=
  ∀ msg, r = Throw msg → v = SinOrDist.

(** In every row of two terms the second coefficient is negative. *)
Definition negative_next {R} (sys : LinearSystem R) : Prop :=
  ∀ p row first w c,
    m_echelon_form sys !! p = Some row → lhs (rhs row) = [first; (w, c)] →
    c < 0.

(** [Len²]: the one equation [d0 + d2 = 25]. *)
Definition positive_eq : Equation Qc :=
  mkEquation [(0%nat, q 1 1); (2%nat, q 1 1)] (q 25 1).
Definition positive_sys : LinearSystem Qc :=
  (add_reduced_equation empty_system 0
     (Some (ReducedEquation_new positive_eq))).1.
Definition positive_world : world Qc :=
  mkWorld positive_sys [ReducedEquation_new positive_eq].

(** [Len]: [x = 1] is in the system; [x + y = 2], never reduced, is
    handed to [add_reduced_equation], which throws. *)
Definition stale_sys1 : LinearSystem Qc :=
  (add_reduced_equation empty_system 0
     (Some (ReducedEquation_new (mkEquation [(0%nat, q 1 1)] (q 1 1))))).1.
Definition stale_re : ReducedEquation Qc :=
  ReducedEquation_new (mkEquation [(0%nat, q 1 1); (1%nat, q 1 1)] (q 2 1)).
Definition stale_sys2 : LinearSystem Qc :=
  (add_reduced_equation stale_sys1 1 (Some stale_re)).1.

(** The pivot [j] has a row with a second term. *)
Definition has_next {R} (sys : LinearSystem R) (j : nat) : Prop :=
  ∃ row x w c tail,
    m_echelon_form sys !! j = Some row
    ∧ lhs (rhs row) = x :: (w, c) :: tail ∧ c ≠ 0.

(** ** What a [RootRat] built from a number holds *)

(** The exponent of a term, when it is an integer. *)
Definition term_int (term : nat * Qc) : Z := Qnum (this term.2).

(** The product of the powers with a positive exponent. *)
Definition pos_prod (data : LC.t) : Z :=
  foldr (λ term acc,
    ((if (0 <? term_int term)%Z then Z.of_nat term.1 ^ term_int term else 1)
     * acc)%Z) 1%Z data.

(** The product [as_nnrat] computes when nothing overflows: a power with
    a negative exponent counts as zero, [1 / d] being a division of
    integers. *)
Definition zp_prod (data : LC.t) : Z :=
  foldr (λ term acc,
    ((if (0 <=? term_int term)%Z then Z.of_nat term.1 ^ term_int term else 0)
     * acc)%Z) 1%Z data.

(** A term of the factorisation of [N0 / D0]. *)
Definition term_ok (N0 D0 : Z) (term : nat * Qc) : Prop :=
  Qden (this term.2) = 1%positive
  ∧ term_int term ≠ 0%Z
  ∧ (2 ≤ term.1)%nat
  ∧ ((0 < term_int term)%Z → (Z.of_nat term.1 ^ term_int term ≤ N0)%Z)
  ∧ ((term_int term < 0)%Z → (Z.of_nat term.1 ^ (- term_int term) ≤ D0)%Z).

(** The invariant of the loop over the bases in the constructor. *)
Record factoring (N0 D0 numer denom base : Z) (data : LC.t) : Prop := {
  fa_numer : (1 ≤ numer)%Z;
  fa_denom : (1 ≤ denom)%Z;
  fa_base : (2 ≤ base)%Z;
  fa_coprime : Z.gcd numer denom = 1%Z;
  fa_N0 : N0 = (numer * pos_prod data)%Z;
  fa_D0 : (denom | D0)%Z;
  fa_no_neg : denom = D0 → zp_prod data = pos_prod data;
  fa_neg : denom ≠ D0 → zp_prod data = 0%Z;
  fa_terms : Forall (term_ok N0 D0) data;
  fa_wf : LC.wf data;
  fa_below : Forall (λ term, (Z.of_nat term.1 < base)%Z) data;
  fa_divided : ∀ d, (2 ≤ d < base)%Z → ¬ (d | numer)%Z ∧ ¬ (d | denom)%Z
}.

(** * Properties of the embedding *)

(** ** Linear combinations: canonical form and the module laws *)

Section merge_terms_facts.
Variables (opl opr : Qc → Qc) (bin : Qc → Qc → Qc).

Lemma merge_nil_nil : LC.merge_terms opl opr bin [] [] = [].
Proof. reflexivity. Qed.

Lemma merge_cons_nil v c a :
  LC.merge_terms opl opr bin ((v, c) :: a) [] =
  (v, opl c) :: LC.merge_terms opl opr bin a [].
Proof. reflexivity. Qed.

Lemma merge_nil_cons v c b :
  LC.merge_terms opl opr bin [] ((v, c) :: b) =
  (v, opr c) :: LC.merge_terms opl opr bin [] b.
Proof. reflexivity. Qed.

Lemma merge_cons_cons v1 c1 a v2 c2 b :
  LC.merge_terms opl opr bin ((v1, c1) :: a) ((v2, c2) :: b) =
  if decide (v1 < v2)%nat then
    (v1, opl c1) :: LC.merge_terms opl opr bin a ((v2, c2) :: b)
  else if decide (v2 < v1)%nat then
    (v2, opr c2) :: LC.merge_terms opl opr bin ((v1, c1) :: a) b
  else if decide (bin c1 c2 = 0) then LC.merge_terms opl opr bin a b
  else (v1, bin c1 c2) :: LC.merge_terms opl opr bin a b.
Proof. reflexivity. Qed.

Lemma merge_nil_l b :
  LC.merge_terms opl opr bin [] b = map (λ term, (term.1, opr term.2)) b.
Proof.
  induction b as [|[v c] b IH]; [done|].
  rewrite merge_nil_cons, IH. done.
Qed.

Lemma merge_nil_r a :
  LC.merge_terms opl opr bin a [] = map (λ term, (term.1, opl term.2)) a.
Proof.
  induction a as [|[v c] a IH]; [done|].
  rewrite merge_cons_nil, IH. done.
Qed.

End merge_terms_facts.

Lemma above_weaken v w a : (v ≤ w)%nat → LC.above w a → LC.above v a.
Proof.
  intros Hle Hab. unfold LC.above in *. eapply Forall_impl; [exact Hab|].
  intros [u c] Hu. simpl in *. lia.
Qed.

Lemma above_map v f a :
  LC.above v a → LC.above v (map (λ term : nat * Qc, (term.1, f term.2)) a).
Proof.
  unfold LC.above. intros Hab. apply Forall_map.
  eapply Forall_impl; [exact Hab|]. done.
Qed.

Lemma wf_above_tail v c a : LC.wf ((v, c) :: a) → LC.above v a.
Proof. by inversion 1. Qed.

Lemma wf_tail v c a : LC.wf ((v, c) :: a) → LC.wf a.
Proof. by inversion 1. Qed.

Lemma wf_head_nonzero v c a : LC.wf ((v, c) :: a) → c ≠ 0.
Proof. by inversion 1. Qed.

Lemma wf_above_cons v w c a :
  (v < w)%nat → LC.wf ((w, c) :: a) → LC.above v ((w, c) :: a).
Proof.
  intros Hlt Hwf. constructor; [done|].
  apply (above_weaken v w); [lia | by eapply wf_above_tail].
Qed.

Lemma wfb_wf a : LC.wfb a = true ↔ LC.wf a.
Proof.
  induction a as [|[v c] rest IH]; simpl.
  - split; [constructor | done].
  - rewrite !andb_true_iff, bool_decide_eq_true, IH. split.
    + intros [[Hc Hab] Hw]. constructor; [done | | done].
      apply Forall_forall. intros x Hx.
      rewrite forallb_forall in Hab. specialize (Hab x).
      rewrite bool_decide_eq_true in Hab. apply Hab. by apply list_elem_of_In.
    + intros Hwf. inversion Hwf as [|? ? ? Hc Hab Hw]; subst.
      split_and!; [done | | done].
      apply forallb_forall. intros x Hx. rewrite bool_decide_eq_true.
      unfold LC.above in Hab. rewrite Forall_forall in Hab. apply Hab.
      by apply list_elem_of_In.
Qed.

Lemma coeff_above v a : LC.above v a → ∀ w, (w ≤ v)%nat → LC.coeff a w = 0.
Proof.
  induction 1 as [|[u c] rest Hu _ IH]; intros w Hw; simpl; [done|].
  simpl in Hu. case_decide; [lia | by apply IH].
Qed.

Lemma coeff_map f a v :
  f 0 = 0 →
  LC.coeff (map (λ term : nat * Qc, (term.1, f term.2)) a) v = f (LC.coeff a v).
Proof.
  intros Hf. induction a as [|[w c] a IH]; simpl; [done|].
  case_decide; done.
Qed.

(** Two canonical combinations with the same coefficients are the same
    vector: [operator==] is equality of the linear forms. *)
Lemma wf_ext a : LC.wf a → ∀ b, LC.wf b →
  (∀ v, LC.coeff a v = LC.coeff b v) → a = b.
Proof.
  induction 1 as [|v c a Hc Hab Hwf IH]; intros b Hb Heq.
  - destruct Hb as [|w d b Hd Hbb Hwb]; [done|].
    specialize (Heq w). simpl in Heq. rewrite decide_True in Heq by done.
    congruence.
  - destruct Hb as [|w d b Hd Hbb Hwb].
    { specialize (Heq v). simpl in Heq. rewrite decide_True in Heq by done.
      congruence. }
    assert (v = w) as ->.
    { destruct (Nat.lt_trichotomy v w) as [Hlt | [-> | Hlt]]; [|done|].
      - specialize (Heq v). simpl in Heq.
        rewrite decide_True, decide_False in Heq by lia.
        rewrite (coeff_above w b) in Heq by (done || lia). congruence.
      - specialize (Heq w). simpl in Heq.
        rewrite decide_False, decide_True in Heq by lia.
        rewrite (coeff_above v a) in Heq by (done || lia). congruence. }
    assert (c = d) as ->.
    { specialize (Heq w). simpl in Heq. by rewrite !decide_True in Heq. }
    f_equal. apply IH; [done|]. intros u.
    destruct (decide (w = u)) as [<- | Hne].
    + by rewrite (coeff_above w a), (coeff_above w b).
    + specialize (Heq u). simpl in Heq. by rewrite !decide_False in Heq.
Qed.

Section merge_terms_canonical.
Variables (opl opr : Qc → Qc) (bin : Qc → Qc → Qc).
Hypothesis opl_bin : ∀ c, opl c = bin c 0.
Hypothesis opr_bin : ∀ c, opr c = bin 0 c.
Hypothesis bin_zero : bin 0 0 = 0.
Hypothesis opl_nonzero : ∀ c, c ≠ 0 → opl c ≠ 0.
Hypothesis opr_nonzero : ∀ c, c ≠ 0 → opr c ≠ 0.

Lemma above_merge v a : LC.above v a → ∀ b, LC.above v b →
  LC.above v (LC.merge_terms opl opr bin a b).
Proof.
  induction a as [|[v1 c1] a IHa]; intros Ha b Hb.
  - rewrite merge_nil_l. by apply above_map.
  - induction b as [|[v2 c2] b IHb].
    + rewrite merge_nil_r. by apply (above_map v opl).
    + rewrite merge_cons_cons.
      inversion Ha as [|? ? Hv1 Ha']; subst.
      inversion Hb as [|? ? Hv2 Hb']; subst.
      repeat case_decide.
      * constructor; [done|]. by apply IHa.
      * constructor; [done|]. by apply IHb.
      * by apply IHa.
      * constructor; [done|]. by apply IHa.
Qed.

Lemma wf_merge a : LC.wf a → ∀ b, LC.wf b →
  LC.wf (LC.merge_terms opl opr bin a b).
Proof.
  induction 1 as [|v1 c1 a Hc1 Hab1 Hwf1 IHa]; intros b Hb.
  - rewrite merge_nil_l. induction Hb as [|v c b Hc Hab Hwf IH]; simpl.
    + constructor.
    + constructor; [by apply opr_nonzero | by apply (above_map v opr) | done].
  - induction Hb as [|v2 c2 b Hc2 Hab2 Hwf2 IHb].
    + rewrite merge_cons_nil. constructor; [by apply opl_nonzero | | ].
      * apply above_merge; [done | constructor].
      * apply IHa. constructor.
    + rewrite merge_cons_cons. repeat case_decide.
      * constructor; [by apply opl_nonzero | | ].
        -- apply above_merge; [done|]. apply wf_above_cons; [done|].
           by constructor.
        -- apply IHa. by constructor.
      * constructor; [by apply opr_nonzero | | done].
        apply above_merge; [|done]. apply wf_above_cons; [done|].
        by constructor.
      * by apply IHa.
      * assert (v1 = v2) as -> by lia.
        constructor; [done | | by apply IHa].
        by apply above_merge.
Qed.

Lemma coeff_merge a : LC.wf a → ∀ b, LC.wf b → ∀ v,
  LC.coeff (LC.merge_terms opl opr bin a b) v = bin (LC.coeff a v) (LC.coeff b v).
Proof.
  induction 1 as [|v1 c1 a Hc1 Hab1 Hwf1 IHa]; intros b Hb v.
  - rewrite merge_nil_l. simpl. rewrite <- opr_bin. apply coeff_map.
    by rewrite opr_bin.
  - induction Hb as [|v2 c2 b Hc2 Hab2 Hwf2 IHb].
    + rewrite merge_nil_r.
      rewrite (coeff_map opl) by (by rewrite opl_bin). by rewrite opl_bin.
    + rewrite merge_cons_cons. repeat case_decide.
      * simpl. rewrite IHa by (by constructor). simpl.
        repeat case_decide; subst; try lia; try done.
        rewrite (coeff_above v2 b) by (done || lia). apply opl_bin.
      * simpl. simpl in IHb. rewrite IHb.
        repeat case_decide; subst; try lia; try done.
        rewrite (coeff_above v1 a) by (done || lia). apply opr_bin.
      * assert (v1 = v2) as -> by lia.
        rewrite IHa by done. simpl. case_decide; [subst|done].
        by rewrite (coeff_above v a), (coeff_above v b), bin_zero.
      * assert (v1 = v2) as -> by lia.
        simpl. rewrite IHa by done. by case_decide.
Qed.

End merge_terms_canonical.

Lemma wf_add a b : LC.wf a → LC.wf b → LC.wf (LC.add a b).
Proof. intros Ha Hb. by apply wf_merge. Qed.

Lemma wf_sub a b : LC.wf a → LC.wf b → LC.wf (LC.sub a b).
Proof.
  intros Ha Hb. apply wf_merge; [done | | done | done].
  intros c Hc Hz. apply Hc. rewrite <- (Qcopp_involutive c), Hz. ring.
Qed.

Lemma wf_neg a : LC.wf a → LC.wf (LC.neg a).
Proof.
  induction 1 as [|v c a Hc Hab Hwf IH]; simpl; constructor; [ | | done].
  - intros Hz. apply Hc. rewrite <- (Qcopp_involutive c), Hz. ring.
  - by apply (above_map v Qcopp).
Qed.

Lemma wf_scale m a : LC.wf a → LC.wf (LC.scale m a).
Proof.
  unfold LC.scale. intros Hwf. case_decide as Hm; [constructor|].
  induction Hwf as [|v c a Hc Hab Hwf IH]; simpl; constructor; [ | | done].
  - intros Hz. apply Qcmult_integral in Hz. tauto.
  - by apply (above_map v (λ x, x * m)).
Qed.

Lemma wf_single v c : LC.wf (LC.single v c).
Proof. unfold LC.single. case_decide; repeat constructor; done. Qed.

Lemma coeff_add a b v :
  LC.wf a → LC.wf b → LC.coeff (LC.add a b) v = LC.coeff a v + LC.coeff b v.
Proof.
  intros Ha Hb. unfold LC.add. apply coeff_merge; try done; intros; unfold id; ring.
Qed.

Lemma coeff_sub a b v :
  LC.wf a → LC.wf b → LC.coeff (LC.sub a b) v = LC.coeff a v - LC.coeff b v.
Proof.
  intros Ha Hb. unfold LC.sub. apply coeff_merge; try done; intros; unfold id; ring.
Qed.

Lemma coeff_neg a v : LC.coeff (LC.neg a) v = - LC.coeff a v.
Proof. unfold LC.neg. apply (coeff_map Qcopp). ring. Qed.

Lemma coeff_scale m a v : LC.coeff (LC.scale m a) v = LC.coeff a v * m.
Proof.
  unfold LC.scale. case_decide as Hm.
  - subst. simpl. ring.
  - apply (coeff_map (λ x, x * m)). ring.
Qed.

Lemma coeff_single v c w :
  LC.coeff (LC.single v c) w = if decide (v = w) then c else 0.
Proof. unfold LC.single. repeat case_decide; simpl; repeat case_decide; done. Qed.

(** Closes an equation between canonical combinations coefficient by
    coefficient. *)
Ltac lc_ext :=
  apply wf_ext;
  [ repeat first [ apply wf_add | apply wf_sub | apply wf_neg | apply wf_scale
                 | apply wf_single | apply LC.wf_nil | assumption ]
  | repeat first [ apply wf_add | apply wf_sub | apply wf_neg | apply wf_scale
                 | apply wf_single | apply LC.wf_nil | assumption ]
  | intros ?;
    repeat first
      [ rewrite coeff_scale | rewrite coeff_neg
      | rewrite coeff_add by
          (repeat first [ apply wf_add | apply wf_sub | apply wf_neg
                        | apply wf_scale | apply LC.wf_nil | assumption ])
      | rewrite coeff_sub by
          (repeat first [ apply wf_add | apply wf_sub | apply wf_neg
                        | apply wf_scale | apply LC.wf_nil | assumption ]) ];
    simpl; try ring ].

Lemma lc_add_assoc a b c :
  LC.wf a → LC.wf b → LC.wf c → LC.add a (LC.add b c) = LC.add (LC.add a b) c.
Proof. intros. lc_ext. Qed.

Lemma lc_add_comm a b : LC.wf a → LC.wf b → LC.add a b = LC.add b a.
Proof. intros. lc_ext. Qed.

Lemma lc_add_nil_r a : LC.add a [] = a.
Proof.
  unfold LC.add. rewrite merge_nil_r. induction a as [|[v c] a IH]; simpl; [done|].
  f_equal. exact IH.
Qed.

Lemma lc_add_nil_l a : LC.add [] a = a.
Proof.
  unfold LC.add. rewrite merge_nil_l. induction a as [|[v c] a IH]; simpl; [done|].
  f_equal. exact IH.
Qed.

Lemma lc_sub_add_neg a b : LC.wf a → LC.wf b → LC.sub a b = LC.add a (LC.neg b).
Proof. intros. lc_ext. Qed.

Lemma lc_add_neg a : LC.wf a → LC.add a (LC.neg a) = [].
Proof. intros. lc_ext. Qed.

Lemma lc_scale_one a : LC.scale 1 a = a.
Proof.
  unfold LC.scale. rewrite decide_False by done.
  induction a as [|[v c] a IH]; simpl; [done|]. rewrite IH. do 2 f_equal. ring.
Qed.

Lemma lc_scale_zero a : LC.scale 0 a = [].
Proof. unfold LC.scale. by rewrite decide_True. Qed.

Lemma lc_scale_scale c d a : LC.wf a → LC.scale c (LC.scale d a) = LC.scale (d * c) a.
Proof. intros. lc_ext. Qed.

Lemma lc_scale_plus c d a :
  LC.wf a → LC.scale (c + d) a = LC.add (LC.scale c a) (LC.scale d a).
Proof. intros. lc_ext. Qed.

Lemma lc_scale_add c a b :
  LC.wf a → LC.wf b → LC.scale c (LC.add a b) = LC.add (LC.scale c a) (LC.scale c b).
Proof. intros. lc_ext. Qed.

(** ** The lawful domains *)

#[export] Instance Rat_RhsLaws : RhsLaws Qc.
Proof. split; simpl; intros; try done; ring. Qed.

#[export] Instance RootRat_RhsLaws : RhsLaws RootRat.
Proof.
  split; simpl.
  - constructor.
  - intros. by apply wf_add.
  - intros. by apply wf_neg.
  - intros. by apply wf_scale.
  - intros. f_equal. by apply lc_add_assoc.
  - intros. f_equal. by apply lc_add_comm.
  - intros [a] _. simpl. f_equal. apply lc_add_nil_r.
  - intros. f_equal. by apply lc_sub_add_neg.
  - intros. f_equal. by apply lc_add_neg.
  - intros [a] _. simpl. f_equal. apply lc_scale_one.
  - intros. f_equal. by apply lc_scale_scale.
  - intros. f_equal. by apply lc_scale_plus.
  - intros. f_equal. by apply lc_scale_add.
Qed.

#[export] Instance Equation_RhsLaws {R} `{RhsLaws R} : RhsLaws (Equation R).
Proof.
  split; simpl; unfold eq_valid, eq_zero, eq_add, eq_sub, eq_neg, eq_mul; simpl.
  - split; [constructor | apply rvalid_zero].
  - intros a b [? ?] [? ?]. split; [by apply wf_add | by apply rvalid_add].
  - intros a [? ?]. split; [by apply wf_neg | by apply rvalid_neg].
  - intros c a [? ?]. split; [by apply wf_scale | by apply rvalid_mul].
  - intros a b c [? ?] [? ?] [? ?]. f_equal; [by apply lc_add_assoc | by apply radd_assoc].
  - intros a b [? ?] [? ?]. f_equal; [by apply lc_add_comm | by apply radd_comm].
  - intros [a r] [? ?]. simpl in *. f_equal; [apply lc_add_nil_r | by apply radd_zero_r].
  - intros a b [? ?] [? ?]. f_equal; [by apply lc_sub_add_neg | by apply rsub_add_neg].
  - intros a [? ?]. f_equal; [by apply lc_add_neg | by apply radd_neg_r].
  - intros [a r] [? ?]. simpl in *. f_equal; [apply lc_scale_one | by apply rmul_one].
  - intros c d a [? ?]. f_equal; [by apply lc_scale_scale | by apply rmul_rmul].
  - intros c d a [? ?]. f_equal; [by apply lc_scale_plus | by apply rmul_plus].
  - intros c a b [? ?] [? ?]. f_equal; [by apply lc_scale_add | by apply rmul_radd].
Qed.

(** ** Elimination steps on the left-hand sides *)

Lemma Qc_mul_inv (c : Qc) : c ≠ 0 → c * (1 / c) = 1.
Proof. intros Hc. unfold Qcdiv. rewrite Qcmult_1_l. by apply Qcmult_inv_r. Qed.

Lemma Qc_inv_nonzero (c : Qc) : c ≠ 0 → 1 / c ≠ 0.
Proof.
  intros Hc Hz. pose proof (Qc_mul_inv c Hc) as Hi. rewrite Hz in Hi.
  rewrite Qcmult_0_r in Hi. discriminate.
Qed.

Lemma above_scale v c a : LC.above v a → LC.above v (LC.scale c a).
Proof.
  intros Hab. unfold LC.scale. case_decide; [constructor|].
  by apply (above_map v (λ x, x * c)).
Qed.

Lemma above_sub v a b : LC.above v a → LC.above v b → LC.above v (LC.sub a b).
Proof. intros. by apply above_merge. Qed.

Lemma above_add v a b : LC.above v a → LC.above v b → LC.above v (LC.add a b).
Proof. intros. by apply above_merge. Qed.

Lemma sub_keep_head h c a b :
  LC.above h b → LC.sub ((h, c) :: a) b = (h, c) :: LC.sub a b.
Proof.
  intros Hb. unfold LC.sub. destruct b as [|[v2 c2] b].
  - by rewrite merge_cons_nil.
  - rewrite merge_cons_cons. inversion Hb; subst; simpl in *.
    by rewrite decide_True.
Qed.

Lemma scale_cons c v d a :
  c ≠ 0 → LC.scale c ((v, d) :: a) = (v, d * c) :: LC.scale c a.
Proof. intros Hc. unfold LC.scale. by rewrite !decide_False. Qed.

Lemma sub_cancel_head v c a rest :
  c ≠ 0 →
  LC.sub ((v, c) :: a) (LC.scale c ((v, 1) :: rest)) = LC.sub a (LC.scale c rest).
Proof.
  intros Hc. rewrite scale_cons by done. unfold LC.sub at 1.
  rewrite merge_cons_cons.
  rewrite decide_False, decide_False by lia.
  rewrite decide_True; [done | ring].
Qed.

Lemma in_range_map n f a :
  in_range n a → in_range n (map (λ term : nat * Qc, (term.1, f term.2)) a).
Proof.
  unfold in_range. intros Ha. apply Forall_map.
  eapply Forall_impl; [exact Ha|]. done.
Qed.

Lemma in_range_merge opl opr bin n a : in_range n a → ∀ b, in_range n b →
  in_range n (LC.merge_terms opl opr bin a b).
Proof.
  induction a as [|[v1 c1] a IHa]; intros Ha b Hb.
  - rewrite merge_nil_l. by apply in_range_map.
  - induction b as [|[v2 c2] b IHb].
    + rewrite merge_nil_r. by apply (in_range_map n opl).
    + rewrite merge_cons_cons.
      inversion Ha as [|? ? Hv1 Ha']; subst.
      inversion Hb as [|? ? Hv2 Hb']; subst.
      repeat case_decide.
      * constructor; [done|]. by apply IHa.
      * constructor; [done|]. by apply IHb.
      * by apply IHa.
      * constructor; [done|]. by apply IHa.
Qed.

Lemma in_range_add n a b : in_range n a → in_range n b → in_range n (LC.add a b).
Proof. intros. by apply in_range_merge. Qed.

Lemma in_range_sub n a b : in_range n a → in_range n b → in_range n (LC.sub a b).
Proof. intros. by apply in_range_merge. Qed.

Lemma in_range_neg n a : in_range n a → in_range n (LC.neg a).
Proof. apply (in_range_map n Qcopp). Qed.

Lemma in_range_scale n c a : in_range n a → in_range n (LC.scale c a).
Proof.
  intros Ha. unfold LC.scale. case_decide; [constructor|].
  by apply (in_range_map n (λ x, x * c)).
Qed.

Lemma in_range_weaken n m a : (n ≤ m)%nat → in_range n a → in_range m a.
Proof.
  intros Hle Ha. unfold in_range in *. eapply Forall_impl; [exact Ha|].
  intros [k c] Hk. simpl in *. lia.
Qed.

Lemma in_range_of_var n m : (n < m)%nat → in_range m (LC.of_var n).
Proof.
  intros Hlt. unfold LC.of_var, LC.single. case_decide; repeat constructor. done.
Qed.

Section combo_structure.
Context {R : Type} `{Rhs R}.
Implicit Types (e row : Equation (Equation R)) (eqs : list (Equation R * nat)).

Lemma combo_S_zero eqs : combo_S eqs (eq_zero : Equation (Equation R)).
Proof. repeat split; constructor. Qed.

Lemma combo_S_add eqs e1 e2 :
  combo_S eqs e1 → combo_S eqs e2 → combo_S eqs (eq_add e1 e2).
Proof.
  intros (?&?&?) (?&?&?). split_and!; simpl.
  - by apply wf_add.
  - by apply in_range_add.
  - by apply wf_add.
Qed.

Lemma combo_S_sub eqs e1 e2 :
  combo_S eqs e1 → combo_S eqs e2 → combo_S eqs (eq_sub e1 e2).
Proof.
  intros (?&?&?) (?&?&?). split_and!; simpl.
  - by apply wf_sub.
  - by apply in_range_sub.
  - by apply wf_sub.
Qed.

Lemma combo_S_mul eqs c e : combo_S eqs e → combo_S eqs (eq_mul c e).
Proof.
  intros (?&?&?). split_and!; simpl.
  - by apply wf_scale.
  - by apply in_range_scale.
  - by apply wf_scale.
Qed.

Lemma combo_S_neg eqs e : combo_S eqs e → combo_S eqs (eq_neg e).
Proof.
  intros (?&?&?). split_and!; simpl.
  - by apply wf_neg.
  - by apply in_range_neg.
  - by apply wf_neg.
Qed.

Lemma combo_S_ext eqs x e : combo_S eqs e → combo_S (eqs ++ [x]) e.
Proof.
  intros (?&?&?). split_and!; [done | | done].
  apply (in_range_weaken (length eqs)); [|done]. rewrite length_app. lia.
Qed.

(** One pass of [reduce_next]: the next variable is eliminated, the head
    term stays. *)
Lemma reduce_next_pass e row h w cw tail :
  lhs (rhs e) = (h, 1) :: (w, cw) :: tail →
  LC.wf (lhs (rhs e)) →
  leads w (rhs row) →
  ∃ tail', lhs (rhs (eq_sub e (eq_mul cw row))) = (h, 1) :: tail'
    ∧ LC.above w tail' ∧ LC.wf (lhs (rhs (eq_sub e (eq_mul cw row)))).
Proof.
  intros He Hwf [Hwfr [rest Hr]]. simpl. rewrite He, Hr.
  rewrite He in Hwf.
  pose proof (wf_above_tail _ _ _ Hwf) as Habh.
  pose proof (wf_tail _ _ _ Hwf) as Hwft.
  pose proof (wf_head_nonzero _ _ _ Hwft) as Hcw.
  inversion Habh as [|? ? Hhw _]; subst. simpl in Hhw.
  rewrite Hr in Hwfr.
  assert (LC.above h (LC.scale cw ((w, 1) :: rest))) as Hab.
  { apply above_scale. by apply wf_above_cons. }
  rewrite sub_keep_head by done.
  rewrite sub_cancel_head by done.
  exists (LC.sub tail (LC.scale cw rest)). split; [done|].
  assert (LC.above w (LC.sub tail (LC.scale cw rest))) as Haw.
  { apply above_sub; [by eapply wf_above_tail|].
    apply above_scale. by eapply wf_above_tail. }
  split; [done|].
  constructor; [done | | ].
  - by apply (above_weaken h w); [lia|].
  - apply wf_sub; [by eapply wf_tail | apply wf_scale; by eapply wf_tail].
Qed.

(** One pass of [ReducedEquation::reduce]: the leading variable of the
    remainder is eliminated. *)
Lemma reduce_pass (rem : Equation R) (row : Equation (Equation R)) v c tail :
  lhs rem = (v, c) :: tail →
  LC.wf (lhs rem) →
  leads v (rhs row) →
  LC.above v (lhs (eq_sub rem (eq_mul c (rhs row))))
  ∧ LC.wf (lhs (eq_sub rem (eq_mul c (rhs row)))).
Proof.
  intros He Hwf [Hwfr [rest Hr]]. simpl. rewrite He, Hr.
  rewrite He in Hwf. rewrite Hr in Hwfr.
  pose proof (wf_head_nonzero _ _ _ Hwf) as Hc.
  rewrite sub_cancel_head by done. split.
  - apply above_sub; [by eapply wf_above_tail|].
    apply above_scale. by eapply wf_above_tail.
  - apply wf_sub; [by eapply wf_tail | apply wf_scale; by eapply wf_tail].
Qed.

End combo_structure.

(** ** The measure of the elimination loops *)

Lemma pivots_from_le {A} (ech : gmap nat A) w : (pivots_from ech w ≤ size ech)%nat.
Proof.
  unfold pivots_from. rewrite <- size_dom.
  apply subseteq_size. intros k Hk. apply elem_of_filter in Hk. tauto.
Qed.

Lemma pivots_from_lt {A} (ech : gmap nat A) w w' :
  is_Some (ech !! w) → (w < w')%nat → (pivots_from ech w' < pivots_from ech w)%nat.
Proof.
  intros Hw Hlt. unfold pivots_from. apply subset_size. split.
  - intros k Hk. apply elem_of_filter in Hk as [Hk1 Hk2].
    apply elem_of_filter. split; [lia | done].
  - intros Hsub. specialize (Hsub w).
    rewrite !elem_of_filter, elem_of_dom in Hsub.
    destruct Hsub as [Hbad _]; [split; [lia | done] | lia].
Qed.

Lemma pivots_from_mono {A} (ech : gmap nat A) w w' :
  (w ≤ w')%nat → (pivots_from ech w' ≤ pivots_from ech w)%nat.
Proof.
  intros Hle. unfold pivots_from. apply subseteq_size.
  intros k Hk. apply elem_of_filter in Hk as [Hk1 Hk2].
  apply elem_of_filter. split; [lia | done].
Qed.

(** ** Invariants of the elimination, generic in the extra properties *)

Section invariants.
Context {R : Type} `{Rhs R}.
Variable E : list (Equation R * nat) → Prop.
Variable J : list (Equation R * nat) → Equation (Equation R) → Prop.
Variable K : list (Equation R * nat) → ReducedEquation R → Prop.
Hypothesis J_mul : ∀ eqs c e,
  E eqs → combo_S eqs e → J eqs e → J eqs (eq_mul c e).
Hypothesis J_sub_mul : ∀ eqs c e row,
  E eqs → combo_S eqs e → combo_S eqs row → J eqs e → J eqs row →
  J eqs (eq_sub e (eq_mul c row)).
Hypothesis J_ext : ∀ eqs x e, E (eqs ++ [x]) → combo_S eqs e → J eqs e → J (eqs ++ [x]) e.
Hypothesis K_ext : ∀ eqs x re, E (eqs ++ [x]) → red_S eqs re → K eqs re → K (eqs ++ [x]) re.
Hypothesis E_ext : ∀ eqs re pf,
  E eqs → red_S eqs re → K eqs re → E (eqs ++ [(m_original_eq re, pf)]).
Hypothesis K_new : ∀ eqs original_eq,
  E eqs → eq_valid original_eq → K eqs (ReducedEquation_new original_eq).
Hypothesis K_reduce : ∀ eqs re row v c tail,
  E eqs → red_S eqs re → K eqs re → combo_S eqs row → J eqs row →
  leads v (rhs row) → lhs (m_remainder re) = (v, c) :: tail →
  K eqs (mkReducedEquation (m_original_eq re)
           (eq_add (m_linear_combination re) (eq_mul c row))
           (eq_sub (m_remainder re) (eq_mul c (rhs row)))).
Hypothesis J_new : ∀ eqs re pf,
  E eqs → red_S eqs re → K eqs re →
  J (eqs ++ [(m_original_eq re, pf)])
    (eq_add (eq_neg (m_linear_combination re))
       (mkEquation (LC.of_var (length eqs)) (m_original_eq re))).

Implicit Types (e row : Equation (Equation R)) (eqs : list (Equation R * nat)).

Lemma row_S_leads eqs v row : row_S eqs v row → leads v (rhs row).
Proof. intros [(?&?&?) ?]. by split. Qed.

Lemma reduce_next_loop_ok eqs (ech : gmap nat (Equation (Equation R))) fuel find
    pbn found h : ∀ e,
  E eqs →
  (∀ v row, ech !! v = Some row → row_S eqs v row ∧ J eqs row) →
  (∀ e' w, (h < w)%nat → find e' w = ech !! w) →
  combo_S eqs e → J eqs e → (∃ rest, lhs (rhs e) = (h, 1) :: rest) →
  match lhs (rhs e) with
  | _ :: (w, _) :: _ => (pivots_from ech w < fuel)%nat
  | _ => (0 < fuel)%nat
  end →
  ∃ pbn' found' e',
    reduce_next_loop fuel find pbn found e = Ok (pbn', found', e')
    ∧ combo_S eqs e' ∧ J eqs e' ∧ (∃ rest, lhs (rhs e') = (h, 1) :: rest)
    ∧ (∀ D, pbn_ok D pbn → h ∈ D → pbn_ok D pbn').
Proof.
  induction fuel as [|fuel IH]; intros e HE Hech Hfind Hc HJ [rest Hrest] Hfuel.
  { rewrite Hrest in Hfuel. destruct rest as [|[w cw] tail]; lia. }
  simpl. rewrite Hrest in *. destruct rest as [|[w cw] tail].
  { exists pbn, ({[h]} ∪ found), e. split_and!; eauto. }
  destruct Hc as (Hc1 & Hc2 & Hc3).
  assert (h < w)%nat as Hhw.
  { rewrite Hrest in Hc3. apply wf_above_tail in Hc3.
    inversion Hc3; subst; done. }
  rewrite Hfind by done. destruct (ech !! w) as [row|] eqn:Hrow.
  - destruct (Hech _ _ Hrow) as [HrS HrJ].
    destruct (reduce_next_pass e row h w cw tail) as (tail' & Ht' & Hab & Hwf');
      [done | done | by eapply row_S_leads |].
    apply IH; try done.
    + apply combo_S_sub; [done|]. apply combo_S_mul. apply HrS.
    + apply J_sub_mul; try done. apply HrS.
    + by eexists.
    + rewrite Ht'. assert (is_Some (ech !! w)) as Hsome by (by eexists).
      destruct tail' as [|[w' cw'] tail''].
      * pose proof (pivots_from_lt ech w (S w) Hsome). lia.
      * inversion Hab; subst. simpl in *.
        pose proof (pivots_from_lt ech w w' Hsome). lia.
  - eexists _, found, e. split; [done|]. split_and!; try done.
    + by rewrite Hrest; eexists.
    + intros D HD Hh w' s p Hlk Hp.
      destruct (decide (w = w')) as [<- | Hne].
      * rewrite lookup_insert_eq in Hlk. injection Hlk as <-.
        apply elem_of_union in Hp as [Hp | Hp].
        -- apply elem_of_singleton in Hp. by subst.
        -- destruct (pbn !! w) as [s0|] eqn:Hs0; simpl in Hp.
           ++ by eapply HD.
           ++ set_solver.
      * rewrite lookup_insert_ne in Hlk by done. by eapply HD.
Qed.

Lemma reduce_next_local_ok (sys : LinearSystem R) e h :
  E (m_equations sys) →
  (∀ v row, m_echelon_form sys !! v = Some row →
     row_S (m_equations sys) v row ∧ J (m_equations sys) row) →
  combo_S (m_equations sys) e → J (m_equations sys) e →
  (∃ rest, lhs (rhs e) = (h, 1) :: rest) →
  ∃ pbn' found' e',
    reduce_next_local sys e =
      Ok (mkLinearSystem (m_equations sys) (m_echelon_form sys) pbn' found', e')
    ∧ combo_S (m_equations sys) e' ∧ J (m_equations sys) e'
    ∧ (∃ rest, lhs (rhs e') = (h, 1) :: rest)
    ∧ (∀ D, pbn_ok D (m_pivot_by_next sys) → h ∈ D → pbn_ok D pbn').
Proof.
  intros HE Hech Hc HJ Hlead. unfold reduce_next_local.
  destruct (reduce_next_loop_ok (m_equations sys) (m_echelon_form sys)
              (reduce_next_fuel (m_echelon_form sys))
              (λ _ w, m_echelon_form sys !! w)
              (m_pivot_by_next sys) (m_found_variables sys) h e)
    as (pbn' & found' & e' & Heq & ? & ? & ? & ?); try done.
  { unfold reduce_next_fuel. destruct (lhs (rhs e)) as [|? [|[w ?] ?]]; try lia.
    pose proof (pivots_from_le (m_echelon_form sys) w). lia. }
  rewrite Heq. by exists pbn', found', e'.
Qed.

Lemma reduce_next_in_place_ok (sys : LinearSystem R) p :
  sys_inv E J sys → is_Some (m_echelon_form sys !! p) →
  ∃ sys', reduce_next_in_place sys p = Ok sys' ∧ sys_inv E J sys'
    ∧ m_equations sys' = m_equations sys
    ∧ dom (m_echelon_form sys') = dom (m_echelon_form sys).
Proof.
  intros (HE & Hech & Hpbn) [e He]. unfold reduce_next_in_place. rewrite He.
  destruct (Hech _ _ He) as [[HcS Hlead] HJe].
  destruct (reduce_next_loop_ok (m_equations sys) (m_echelon_form sys)
              (reduce_next_fuel (m_echelon_form sys))
              (λ e' w, <[p := e']> (m_echelon_form sys) !! w)
              (m_pivot_by_next sys) (m_found_variables sys) p e)
    as (pbn' & found' & e' & Heq & HcS' & HJ' & Hlead' & Hpbn'); try done.
  { intros e' w Hw. rewrite lookup_insert_ne by lia. done. }
  { unfold reduce_next_fuel. destruct (lhs (rhs e)) as [|? [|[w ?] ?]]; try lia.
    pose proof (pivots_from_le (m_echelon_form sys) w). lia. }
  rewrite Heq. eexists. split; [done|].
  assert (dom (<[p := e']> (m_echelon_form sys)) = dom (m_echelon_form sys)) as Hdom.
  { rewrite dom_insert_L. apply elem_of_dom_2 in He. set_solver. }
  split_and!; simpl; try done.
  unfold sys_inv; simpl. split_and!; [done | | ].
  - intros v row Hrow. destruct (decide (p = v)) as [<- | Hne].
    + rewrite lookup_insert_eq in Hrow. injection Hrow as <-. by split.
    + rewrite lookup_insert_ne in Hrow by done. by apply Hech.
  - rewrite Hdom. apply Hpbn'; [done|]. by eapply elem_of_dom_2.
Qed.

Lemma back_substitute_ok pivots : ∀ (sys : LinearSystem R),
  sys_inv E J sys →
  (∀ p, p ∈ pivots → is_Some (m_echelon_form sys !! p)) →
  ∃ sys', back_substitute sys pivots = (sys', Ok ()) ∧ sys_inv E J sys'
    ∧ m_equations sys' = m_equations sys
    ∧ dom (m_echelon_form sys') = dom (m_echelon_form sys).
Proof.
  induction pivots as [|p pivots IH]; intros sys Hinv Hin; simpl.
  { by exists sys. }
  destruct (reduce_next_in_place_ok sys p) as (sys1 & Heq & Hinv1 & Heqs1 & Hdom1);
    [done | apply Hin; by left |].
  rewrite Heq.
  destruct (IH sys1) as (sys2 & Heq2 & Hinv2 & Heqs2 & Hdom2); [done | |].
  { intros q Hq. apply elem_of_dom. rewrite Hdom1. apply elem_of_dom.
    apply Hin. by right. }
  exists sys2. split_and!; [done | done | congruence | congruence].
Qed.

Lemma reduce_loop_ok eqs (ech : gmap nat (Equation (Equation R))) fuel : ∀ re,
  E eqs →
  (∀ v row, ech !! v = Some row → row_S eqs v row ∧ J eqs row) →
  red_S eqs re → K eqs re →
  match lhs (m_remainder re) with
  | (v, _) :: _ => (pivots_from ech v < fuel)%nat
  | [] => (0 < fuel)%nat
  end →
  ∃ re', reduce_loop fuel ech re = Ok re' ∧ red_S eqs re' ∧ K eqs re'
    ∧ m_original_eq re' = m_original_eq re
    ∧ match lhs (m_remainder re') with
      | (v, _) :: _ => ech !! v = None
      | [] => True
      end.
Proof.
  induction fuel as [|fuel IH]; intros re HE Hech HS HK Hfuel.
  { destruct (lhs (m_remainder re)) as [|[v c] tail]; lia. }
  simpl. destruct (lhs (m_remainder re)) as [|[v c] tail] eqn:Hrem.
  { exists re. by rewrite Hrem. }
  destruct (ech !! v) as [row|] eqn:Hrow; [|exists re; by rewrite Hrem].
  destruct (Hech _ _ Hrow) as [HrS HrJ].
  destruct HS as (HcS & Hwo & Hwr & Hid).
  destruct (reduce_pass (m_remainder re) row v c tail) as [Hab Hwf'];
    [done | done | by eapply row_S_leads |].
  edestruct (IH (mkReducedEquation (m_original_eq re)
                   (eq_add (m_linear_combination re) (eq_mul c row))
                   (eq_sub (m_remainder re) (eq_mul c (rhs row)))))
    as (re' & Heq & HS' & HK' & Ho' & Hstop); try done.
  - split_and!; try done.
    + apply combo_S_add; [done|]. apply combo_S_mul. apply HrS.
    + simpl. rewrite Hid.
      destruct HcS as (_ & _ & HwL). destruct HrS as [(_ & _ & HwR) _].
      lc_ext.
  - eapply K_reduce; try done; [apply HrS | by eapply row_S_leads].
  - simpl in *. assert (is_Some (ech !! v)) as Hsome by (by eexists).
    destruct (LC.sub (lhs (m_remainder re)) (LC.scale c (lhs (rhs row))))
      as [|[v' c'] tail'].
    + pose proof (pivots_from_lt ech v (S v) Hsome). lia.
    + inversion Hab; subst. simpl in *.
      pose proof (pivots_from_lt ech v v' Hsome). lia.
  - exists re'. split_and!; done.
Qed.

Lemma reduce_ok (sys : LinearSystem R) re :
  sys_inv E J sys → red_S (m_equations sys) re → K (m_equations sys) re →
  ∃ re', reduce sys re = Ok re' ∧ red_S (m_equations sys) re'
    ∧ K (m_equations sys) re'
    ∧ m_original_eq re' = m_original_eq re
    ∧ match lhs (m_remainder re') with
      | (v, _) :: _ => m_echelon_form sys !! v = None
      | [] => True
      end.
Proof.
  intros (HE & Hech & _) HS HK. unfold reduce. apply reduce_loop_ok; try done.
  destruct (lhs (m_remainder re)) as [|[v c] tail]; [lia|].
  pose proof (pivots_from_le (m_echelon_form sys) v). lia.
Qed.

Lemma equation_at_ok eqs k :
  (k < length eqs)%nat → ∃ e : Equation R, equation_at eqs k = Ok e.
Proof.
  intros Hk. unfold equation_at, pair_at.
  destruct (lookup_lt_is_Some_2 eqs k Hk) as [p Hp]. rewrite Hp. by eexists.
Qed.

Lemma subtract_rows_ok eqs c terms : in_range (length eqs) terms →
  ∀ acc : R, ∃ r, subtract_rows eqs c acc terms = Ok r.
Proof.
  induction 1 as [|[k v] terms Hk _ IH]; intros acc; simpl; [by eexists|].
  destruct (equation_at_ok eqs k Hk) as [e ->]. apply IH.
Qed.

Lemma is_solved_ok (sys : LinearSystem R) re :
  in_range (length (m_equations sys)) (lhs (m_linear_combination re)) →
  ∃ b l, is_solved sys re = Ok (b, l).
Proof.
  intros Hr. unfold is_solved. destruct is_add_circle; [|by eexists _, _].
  repeat case_match; try by eexists _, _.
  all: match goal with
       | Hs : subtract_rows ?eqs ?c ?acc ?t = _ |- _ =>
           destruct (subtract_rows_ok eqs c t Hr acc) as [r' Hr']; congruence
       end.
Qed.

Lemma red_S_ext eqs x re : red_S eqs re → red_S (eqs ++ [x]) re.
Proof. intros (? & ? & ? & ?). split_and!; try done. by apply combo_S_ext. Qed.

Lemma pbn_ok_mono D D' pbn : D ⊆ D' → pbn_ok D pbn → pbn_ok D' pbn.
Proof. intros Hsub Hok w s p Hw Hp. apply Hsub. by eapply Hok. Qed.

Lemma pbn_ok_delete D v pbn : pbn_ok D pbn → pbn_ok D (delete v pbn).
Proof.
  intros Hok w s p Hw Hp. apply lookup_delete_Some in Hw as [_ Hw]. by eapply Hok.
Qed.

Lemma elem_of_set_in_order p s : p ∈ set_in_order s ↔ p ∈ s.
Proof.
  unfold set_in_order. rewrite merge_sort_Permutation. apply elem_of_elements.
Qed.

(** [add_reduced_equation] keeps the invariant of the world, whatever way
    it ends, and it ends by returning or by one of its two exceptions. *)
Lemma add_reduced_equation_inv sys reds pf re sys' r :
  world_inv E J K (mkWorld sys reds) → re ∈ reds →
  add_reduced_equation sys pf (Some re) = (sys', r) →
  world_inv E J K (mkWorld sys' reds) ∧ add_shape sys pf re sys' r.
Proof.
  intros [Hsys Hreds] Hre Hadd. simpl in *.
  pose proof Hsys as (HE & Hech & Hpbn).
  pose proof Hreds as Hreds0.
  rewrite Forall_forall in Hreds0. destruct (Hreds0 _ Hre) as [HS HK].
  pose proof HS as (HcS & Hwo & Hwr & Hid).
  unfold add_reduced_equation in Hadd.
  destruct (is_solved_ok sys re) as (b & l & Hsolved); [apply HcS|].
  rewrite Hsolved in Hadd. destruct b.
  { injection Hadd as <- <-. split; [by split | left; split; [done | by left]]. }
  assert (lhs (rhs (eq_add (eq_neg (m_linear_combination re))
            (mkEquation (LC.of_var (length (m_equations sys))) (m_original_eq re))))
          = lhs (m_remainder re)) as Hlclhs.
  { simpl. rewrite Hid. destruct HcS as (_ & _ & HwL). lc_ext. }
  simpl in Hlclhs.
  destruct (lhs (m_remainder re)) as [|[v c] tail] eqn:Hrem.
  { rewrite bool_decide_eq_true_2 in Hadd by done.
    injection Hadd as <- <-. split; [by split | left; split; [done | by right]]. }
  rewrite bool_decide_eq_false_2 in Hadd by done.
  set (eqs1 := m_equations sys ++ [(m_original_eq re, pf)]) in *.
  set (lc := eq_add (eq_neg (m_linear_combination re))
               (mkEquation (LC.of_var (length (m_equations sys))) (m_original_eq re)))
    in *.
  assert (E eqs1) as HE1 by (by apply E_ext).
  assert (Forall (λ re, red_S eqs1 re ∧ K eqs1 re) reds) as Hreds1.
  { eapply Forall_impl; [exact Hreds|]. intros re0 [? ?].
    split; [by apply red_S_ext | by apply K_ext]. }
  assert (∀ v row, m_echelon_form sys !! v = Some row →
            row_S eqs1 v row ∧ J eqs1 row) as Hech1.
  { intros v0 row Hrow. destruct (Hech _ _ Hrow) as [[Hc Hl] HJr].
    split; [split; [by apply combo_S_ext | done] | apply J_ext; done]. }
  assert (combo_S eqs1 lc) as Hlc.
  { apply combo_S_add; [apply combo_S_neg; by apply combo_S_ext|].
    split_and!; simpl; [apply wf_single | | done].
    apply in_range_of_var. unfold eqs1. rewrite length_app. simpl. lia. }
  rewrite Hlclhs in Hadd.
  assert (c ≠ 0) as Hc by (by eapply wf_head_nonzero).
  rewrite decide_False in Hadd by done.
  pose proof (Qc_inv_nonzero c Hc) as Hc'.
  destruct (reduce_next_local_ok
              (mkLinearSystem eqs1 (m_echelon_form sys) (m_pivot_by_next sys)
                 (m_found_variables sys)) (eq_mul (1 / c) lc) v)
    as (pbn2 & found2 & lc' & Heq & HcS' & HJ' & Hlead' & Hpbn2); simpl; try done.
  { by apply combo_S_mul. }
  { apply J_mul; try done. by apply J_new. }
  { rewrite Hlclhs. rewrite scale_cons by done. eexists. do 2 f_equal.
    by apply Qc_mul_inv. }
  rewrite Heq in Hadd. simpl in Hadd.
  destruct (m_echelon_form sys !! v) as [old|] eqn:Hv.
  { injection Hadd as <- <-. split.
    - split; [|done]. split_and!; simpl; [done | done |].
      apply Hpbn2; [done | by eapply elem_of_dom_2].
    - right. split; [done|]. exists v, c, tail. split; [done|]. left. by eauto. }
  set (sys3 := mkLinearSystem eqs1 (<[v := lc']> (m_echelon_form sys)) pbn2 found2)
    in *.
  assert (sys_inv E J sys3) as Hinv3.
  { split_and!; simpl; [done | |].
    - intros v0 row Hrow. destruct (decide (v = v0)) as [<- | Hne].
      + rewrite lookup_insert_eq in Hrow. injection Hrow as <-. by split.
      + rewrite lookup_insert_ne in Hrow by done. by apply Hech1.
    - apply Hpbn2; [|rewrite dom_insert_L; set_solver].
      eapply pbn_ok_mono; [|exact Hpbn]. rewrite dom_insert_L. set_solver. }
  destruct (pbn2 !! v) as [pivots|] eqn:Hpiv.
  2: { injection Hadd as <- <-. split; [by split|].
       right. split; [done|]. exists v, c, tail. split; [done|]. right.
       split_and!; [done | simpl; by rewrite dom_insert_L | done]. }
  destruct (back_substitute_ok (set_in_order pivots) sys3)
    as (sys4 & Hbs & Hinv4 & Heqs4 & Hdom4); [done | |].
  { intros p Hp. apply elem_of_set_in_order in Hp. apply elem_of_dom.
    destruct Hinv3 as (_ & _ & Hp3). by eapply Hp3. }
  rewrite Hbs in Hadd. injection Hadd as <- <-. split.
  - destruct Hinv4 as (HE4 & Hech4 & Hpbn4).
    split; simpl; [|by rewrite Heqs4].
    split_and!; simpl; [done | done | by apply pbn_ok_delete].
  - right. simpl. split; [by rewrite Heqs4|]. exists v, c, tail. split; [done|].
    right. split_and!; [done | | done]. rewrite Hdom4. simpl. by rewrite dom_insert_L.
Qed.

Lemma world_inv_init : E [] → world_inv E J K (mkWorld empty_system []).
Proof.
  intros HE. split; simpl; [|constructor].
  split_and!; simpl; [done | | ].
  - intros v row Hrow. by rewrite lookup_empty in Hrow.
  - intros w s p Hw. by rewrite lookup_empty in Hw.
Qed.

Lemma red_S_new eqs original_eq :
  eq_valid original_eq → red_S eqs (ReducedEquation_new original_eq).
Proof.
  intros [Hwf _]. split_and!; simpl; try done.
  - apply combo_S_zero.
  - by rewrite lc_add_nil_l.
Qed.

Lemma world_inv_step w w' : world_inv E J K w → step w w' → world_inv E J K w'.
Proof.
  intros Hinv Hstep.
  destruct Hstep as [sys reds original_eq Hvalid | sys reds i re re' Hi Hred
                    | sys reds i re pf sys' r Hi Hadd].
  - destruct Hinv as [Hsys Hreds]. split; [done|]. simpl in *.
    apply Forall_app. split; [done|]. constructor; [|constructor].
    split; [by apply red_S_new | apply K_new; [apply Hsys | done]].
  - destruct Hinv as [Hsys Hreds]. split; [done|]. simpl in *.
    apply Forall_insert; [done|].
    pose proof (Forall_lookup_1 _ _ _ _ Hreds Hi) as [HS HK]. simpl in *.
    destruct (reduce_ok sys re Hsys HS HK) as (re'' & Heq & HS' & HK' & _).
    rewrite Heq in Hred. injection Hred as <-. done.
  - eapply add_reduced_equation_inv; [exact Hinv | | exact Hadd].
    by eapply list_elem_of_lookup_2.
Qed.

Lemma world_inv_reachable w : E [] → reachable w → world_inv E J K w.
Proof.
  intros HE. revert w. unfold reachable.
  apply (rtc_ind_r (λ w, world_inv E J K w) (mkWorld empty_system [])).
  - by apply world_inv_init.
  - intros y z _ Hstep Hy. by eapply world_inv_step.
Qed.

End invariants.

(** ** The structural invariant holds in every domain *)

Lemma reachable_world_S {R} `{Rhs R} (w : world R) : reachable w → world_S w.
Proof. intros Hw. apply world_inv_reachable; done. Qed.

(** In a reachable world [reduce] returns: the fuel of the model is never
    exhausted. *)
Lemma reachable_reduce_returns {R} `{Rhs R} (w : world R) i re :
  reachable w → w_reds w !! i = Some re →
  ∃ re', reduce (w_sys w) re = Ok re'
    ∧ m_original_eq re' = m_original_eq re
    ∧ match lhs (m_remainder re') with
      | (v, _) :: _ => m_echelon_form (w_sys w) !! v = None
      | [] => True
      end.
Proof.
  intros Hw Hi. destruct (reachable_world_S w Hw) as [Hsys Hreds].
  pose proof (Forall_lookup_1 _ _ _ _ Hreds Hi) as [HS HK].
  destruct (reduce_ok (λ _, True) (λ _ _, True) (λ _ _, True)) with (sys := w_sys w) (re := re)
    as (re' & Heq & _ & _ & Ho & Hstop); try done.
  by exists re'.
Qed.

(** In a reachable world [add_reduced_equation] returns or throws one of
    its two exceptions: no undefined step, no exhausted fuel. *)
Lemma reachable_add_returns {R} `{Rhs R} (w : world R) i re pf :
  reachable w → w_reds w !! i = Some re →
  add_shape (w_sys w) pf re
    (add_reduced_equation (w_sys w) pf (Some re)).1
    (add_reduced_equation (w_sys w) pf (Some re)).2.
Proof.
  intros Hw Hi. destruct w as [sys reds]. simpl in *.
  eapply (add_reduced_equation_inv (λ _, True) (λ _ _, True) (λ _ _, True));
    try done.
  - by apply reachable_world_S.
  - by eapply list_elem_of_lookup_2.
  - apply surjective_pairing.
Qed.

(** C3.  In every world reached by constructing reduced equations,
    reducing them and handing them to [add_reduced_equation], in every
    domain: two distinct entries of the echelon never have the same pivot,
    and the row stored under [v] has a canonical left-hand side whose
    leading term is [v] with coefficient one. *)
Theorem echelon_uniqueness {R} `{Rhs R} (w : world R) :
  reachable w →
  (∀ i j v1 row1 v2 row2,
     map_to_list (m_echelon_form (w_sys w)) !! i = Some (v1, row1) →
     map_to_list (m_echelon_form (w_sys w)) !! j = Some (v2, row2) →
     pivot_of row1 = pivot_of row2 → i = j)
  ∧ (∀ v row, m_echelon_form (w_sys w) !! v = Some row →
       LC.wf (lhs (rhs row)) ∧ pivot_of row = Some v
       ∧ LC.coeff (lhs (rhs row)) v = 1
       ∧ ∃ rest, lhs (rhs row) = (v, 1) :: rest).
Proof.
  intros Hw. destruct (reachable_world_S w Hw) as [(_ & Hech & _) _].
  assert (∀ v row, m_echelon_form (w_sys w) !! v = Some row →
            LC.wf (lhs (rhs row)) ∧ pivot_of row = Some v
            ∧ LC.coeff (lhs (rhs row)) v = 1
            ∧ ∃ rest, lhs (rhs row) = (v, 1) :: rest) as Hrows.
  { intros v row Hrow. destruct (Hech _ _ Hrow) as [[(_ & _ & Hwf) [rest Hrest]] _].
    split_and!; [done | | | by eexists].
    - unfold pivot_of. by rewrite Hrest.
    - rewrite Hrest. simpl. by rewrite decide_True. }
  split; [|done].
  intros i j v1 row1 v2 row2 Hi Hj Hpiv.
  pose proof (NoDup_fst_map_to_list (m_echelon_form (w_sys w))) as Hnd.
  assert (v1 = v2) as Hv.
  { apply list_elem_of_lookup_2, elem_of_map_to_list, Hrows in Hi as (_ & Hp1 & _).
    apply list_elem_of_lookup_2, elem_of_map_to_list, Hrows in Hj as (_ & Hp2 & _).
    congruence. }
  eapply NoDup_lookup; [exact Hnd | |].
  - rewrite list_lookup_fmap, Hi. done.
  - rewrite list_lookup_fmap, Hj. simpl. by rewrite Hv.
Qed.

(** ** Consequences of the module laws *)

Section module_laws.
Context {M : Type} `{RhsLaws M}.
Implicit Types a b c x y z : M.

Lemma rvalid_sub a b : rvalid a → rvalid b → rvalid (rsub a b).
Proof.
  intros Ha Hb. rewrite rsub_add_neg by done.
  apply rvalid_add; [done | by apply rvalid_neg].
Qed.

Lemma radd_zero_l a : rvalid a → radd rzero a = a.
Proof.
  intros Ha. rewrite radd_comm by (done || apply rvalid_zero).
  by apply radd_zero_r.
Qed.

Lemma radd_left_comm x y z :
  rvalid x → rvalid y → rvalid z → radd x (radd y z) = radd y (radd x z).
Proof.
  intros Hx Hy Hz. rewrite !radd_assoc by done. by rewrite (radd_comm x y).
Qed.

Lemma radd_interchange x y a b :
  rvalid x → rvalid y → rvalid a → rvalid b →
  radd (radd x y) (radd a b) = radd (radd x a) (radd y b).
Proof.
  intros Hx Hy Ha Hb.
  rewrite <- (radd_assoc x y (radd a b)) by (done || by apply rvalid_add).
  rewrite (radd_left_comm y a b) by done.
  rewrite (radd_assoc x a (radd y b)) by (done || by apply rvalid_add).
  done.
Qed.

Lemma rmul_zero a : rvalid a → rmul 0 a = rzero.
Proof.
  intros Ha.
  assert (rvalid (rmul 0 a)) as Hx by (by apply rvalid_mul).
  assert (rmul 0 a = radd (rmul 0 a) (rmul 0 a)) as Hdbl.
  { rewrite <- rmul_plus by done. f_equal. }
  transitivity (radd (rmul 0 a) (radd (rmul 0 a) (rneg (rmul 0 a)))).
  { rewrite radd_neg_r by done. by rewrite radd_zero_r. }
  rewrite radd_assoc by (done || by apply rvalid_neg).
  rewrite <- Hdbl. by apply radd_neg_r.
Qed.

Lemma rmul_neg_one a : rvalid a → rmul (- (1)) a = rneg a.
Proof.
  intros Ha.
  assert (rvalid (rmul (- (1)) a)) as Hy by (by apply rvalid_mul).
  assert (radd a (rmul (- (1)) a) = rzero) as Hsum.
  { rewrite <- (rmul_one a) at 1 by done. rewrite <- rmul_plus by done.
    replace (1 + - (1)) with 0 by ring. by apply rmul_zero. }
  rewrite <- (radd_zero_l (rneg a)) by (by apply rvalid_neg).
  rewrite <- Hsum.
  rewrite (radd_comm a) by done.
  rewrite <- radd_assoc by (done || by apply rvalid_neg).
  rewrite radd_neg_r by done. by rewrite radd_zero_r.
Qed.

(** Moving [x] from one summand to the other. *)
Lemma radd_shift a b x :
  rvalid a → rvalid b → rvalid x → radd a b = radd (radd a x) (rsub b x).
Proof.
  intros Ha Hb Hx. rewrite rsub_add_neg by done.
  rewrite (radd_interchange a x b (rneg x)) by (done || by apply rvalid_neg).
  rewrite radd_neg_r by done. rewrite radd_zero_r by (by apply rvalid_add). done.
Qed.

Lemma rneg_add_cancel a b :
  rvalid a → rvalid b → radd (rneg a) (radd a b) = b.
Proof.
  intros Ha Hb. rewrite radd_assoc by (done || by apply rvalid_neg).
  rewrite (radd_comm (rneg a) a) by (done || by apply rvalid_neg).
  rewrite radd_neg_r by done. by apply radd_zero_l.
Qed.

End module_laws.

(** ** Equations over a lawful domain *)

Section equation_laws.
Context {R : Type} `{RhsLaws R}.
Implicit Types a b c x y : Equation R.

Lemma eq_valid_zero : eq_valid (eq_zero : Equation R).
Proof. exact (rvalid_zero (R := Equation R)). Qed.
Lemma eq_valid_add a b : eq_valid a → eq_valid b → eq_valid (eq_add a b).
Proof. exact (rvalid_add (R := Equation R) a b). Qed.
Lemma eq_valid_neg a : eq_valid a → eq_valid (eq_neg a).
Proof. exact (rvalid_neg (R := Equation R) a). Qed.
Lemma eq_valid_mul q a : eq_valid a → eq_valid (eq_mul q a).
Proof. exact (rvalid_mul (R := Equation R) q a). Qed.
Lemma eq_valid_sub a b : eq_valid a → eq_valid b → eq_valid (eq_sub a b).
Proof. exact (rvalid_sub (M := Equation R) a b). Qed.

Lemma eq_add_assoc a b c :
  eq_valid a → eq_valid b → eq_valid c →
  eq_add a (eq_add b c) = eq_add (eq_add a b) c.
Proof. exact (radd_assoc (R := Equation R) a b c). Qed.
Lemma eq_add_comm a b : eq_valid a → eq_valid b → eq_add a b = eq_add b a.
Proof. exact (radd_comm (R := Equation R) a b). Qed.
Lemma eq_add_zero_r a : eq_valid a → eq_add a eq_zero = a.
Proof. exact (radd_zero_r (R := Equation R) a). Qed.
Lemma eq_add_zero_l a : eq_valid a → eq_add eq_zero a = a.
Proof. exact (radd_zero_l (M := Equation R) a). Qed.
Lemma eq_add_left_comm x y a :
  eq_valid x → eq_valid y → eq_valid a →
  eq_add x (eq_add y a) = eq_add y (eq_add x a).
Proof. exact (radd_left_comm (M := Equation R) x y a). Qed.
Lemma eq_add_interchange x y a b :
  eq_valid x → eq_valid y → eq_valid a → eq_valid b →
  eq_add (eq_add x y) (eq_add a b) = eq_add (eq_add x a) (eq_add y b).
Proof. exact (radd_interchange (M := Equation R) x y a b). Qed.
Lemma eq_sub_add_neg a b : eq_valid a → eq_valid b → eq_sub a b = eq_add a (eq_neg b).
Proof. exact (rsub_add_neg (R := Equation R) a b). Qed.
Lemma eq_mul_one a : eq_valid a → eq_mul 1 a = a.
Proof. exact (rmul_one (R := Equation R) a). Qed.
Lemma eq_mul_zero a : eq_valid a → eq_mul 0 a = eq_zero.
Proof. exact (rmul_zero (M := Equation R) a). Qed.
Lemma eq_mul_neg_one a : eq_valid a → eq_mul (- (1)) a = eq_neg a.
Proof. exact (rmul_neg_one (M := Equation R) a). Qed.
Lemma eq_mul_mul p q a : eq_valid a → eq_mul p (eq_mul q a) = eq_mul (q * p) a.
Proof. exact (rmul_rmul (R := Equation R) p q a). Qed.
Lemma eq_mul_plus p q a :
  eq_valid a → eq_mul (p + q) a = eq_add (eq_mul p a) (eq_mul q a).
Proof. exact (rmul_plus (R := Equation R) p q a). Qed.
Lemma eq_mul_add q a b :
  eq_valid a → eq_valid b → eq_mul q (eq_add a b) = eq_add (eq_mul q a) (eq_mul q b).
Proof. exact (rmul_radd (R := Equation R) q a b). Qed.
Lemma eq_add_shift a b x :
  eq_valid a → eq_valid b → eq_valid x →
  eq_add a b = eq_add (eq_add a x) (eq_sub b x).
Proof. exact (radd_shift (M := Equation R) a b x). Qed.
Lemma eq_neg_add_cancel a b :
  eq_valid a → eq_valid b → eq_add (eq_neg a) (eq_add a b) = b.
Proof. exact (rneg_add_cancel (M := Equation R) a b). Qed.

Implicit Types eqs : list (Equation R * nat).

Lemma row_or_zero_valid eqs k : eqs_valid eqs → eq_valid (row_or_zero eqs k).
Proof.
  intros Hv. unfold row_or_zero. destruct (eqs !! k) as [p|] eqn:Hk.
  - by apply (Forall_lookup_1 _ _ _ _ Hv Hk).
  - apply eq_valid_zero.
Qed.

Lemma combine_valid eqs terms : eqs_valid eqs → eq_valid (combine eqs terms).
Proof.
  intros Hv. induction terms as [|[k v] terms IH]; simpl.
  - apply eq_valid_zero.
  - apply eq_valid_add; [|done]. apply eq_valid_mul. by apply row_or_zero_valid.
Qed.

Lemma combine_map_id eqs (f : Qc → Qc) terms :
  (∀ q, f q = q) →
  combine eqs (map (λ term : nat * Qc, (term.1, f term.2)) terms) = combine eqs terms.
Proof.
  intros Hf. induction terms as [|[k v] terms IH]; [done|].
  cbn [map combine fst snd]. by rewrite IH, Hf.
Qed.

Lemma combine_add eqs (a : LC.t) : eqs_valid eqs → ∀ b : LC.t,
  combine eqs (LC.add a b) = eq_add (combine eqs a) (combine eqs b).
Proof.
  intros Hv. unfold LC.add.
  induction a as [|[v1 c1] a IHa]; intros b.
  - rewrite merge_nil_l, combine_map_id by done. cbn [combine].
    by rewrite eq_add_zero_l by (by apply combine_valid).
  - induction b as [|[v2 c2] b IHb].
    + rewrite merge_nil_r, combine_map_id by done.
      by rewrite (eq_add_zero_r (combine eqs ((v1, c1) :: a)))
        by (by apply combine_valid).
    + rewrite merge_cons_cons.
      pose proof (row_or_zero_valid eqs v1 Hv) as He1.
      pose proof (row_or_zero_valid eqs v2 Hv) as He2.
      pose proof (combine_valid eqs a Hv) as Ha.
      pose proof (combine_valid eqs b Hv) as Hb.
      repeat case_decide.
      * cbn [combine]. rewrite IHa. cbn [combine]. unfold id.
        rewrite eq_add_assoc; try done; try (by apply eq_valid_mul).
        apply eq_valid_add; [by apply eq_valid_mul | done].
      * cbn [combine]. rewrite IHb. cbn [combine]. unfold id.
        apply eq_add_left_comm; try (by apply eq_valid_mul); try done.
        apply eq_valid_add; [by apply eq_valid_mul | done].
      * assert (v1 = v2) as -> by lia. rewrite IHa. cbn [combine].
        rewrite (eq_add_interchange _ (combine eqs a))
          by (done || by apply eq_valid_mul).
        rewrite <- eq_mul_plus by done.
        match goal with Hz : _ = 0 |- _ => rewrite Hz end.
        rewrite eq_mul_zero by done.
        by rewrite eq_add_zero_l by (by apply eq_valid_add).
      * assert (v1 = v2) as -> by lia. cbn [combine]. rewrite IHa.
        rewrite (eq_add_interchange _ (combine eqs a))
          by (done || by apply eq_valid_mul).
        by rewrite <- eq_mul_plus by done.
Qed.

Lemma combine_scale eqs q (a : LC.t) :
  eqs_valid eqs → combine eqs (LC.scale q a) = eq_mul q (combine eqs a).
Proof.
  intros Hv. unfold LC.scale. case_decide as Hq.
  - subst. simpl. by rewrite eq_mul_zero by (by apply combine_valid).
  - induction a as [|[k v] a IH]; simpl.
    + unfold eq_mul, eq_zero. simpl. unfold LC.scale. rewrite decide_False by done.
      simpl. f_equal.
      pose proof (rmul_radd (R := R) q rzero rzero rvalid_zero rvalid_zero) as Hd.
      rewrite radd_zero_r in Hd by apply rvalid_zero.
      pose proof (rvalid_mul q rzero rvalid_zero) as Hx.
      transitivity (radd (rmul q rzero) (radd (rmul q rzero) (rneg (rmul q rzero)))).
      { rewrite radd_assoc by (done || by apply rvalid_neg).
        rewrite <- Hd. by rewrite radd_neg_r. }
      rewrite radd_neg_r by done. by rewrite radd_zero_r.
    + fold (combine eqs (map (λ term : nat * Qc, (term.1, term.2 * q)) a)).
      rewrite IH.
      rewrite eq_mul_add
        by (by apply combine_valid || (apply eq_valid_mul; by apply row_or_zero_valid)).
      rewrite eq_mul_mul by (by apply row_or_zero_valid). done.
Qed.

Lemma lc_neg_scale (a : LC.t) : LC.neg a = LC.scale (- (1)) a.
Proof.
  unfold LC.neg, LC.scale. rewrite decide_False by done.
  apply map_ext. intros [k v]. simpl. f_equal. ring.
Qed.

Lemma combine_neg eqs (a : LC.t) :
  eqs_valid eqs → combine eqs (LC.neg a) = eq_neg (combine eqs a).
Proof.
  intros Hv. rewrite lc_neg_scale, combine_scale by done.
  apply eq_mul_neg_one. by apply combine_valid.
Qed.

Lemma combine_sub eqs (a b : LC.t) :
  eqs_valid eqs → LC.wf a → LC.wf b →
  combine eqs (LC.sub a b) = eq_sub (combine eqs a) (combine eqs b).
Proof.
  intros Hv Ha Hb. rewrite lc_sub_add_neg by done.
  rewrite combine_add, combine_neg by done.
  by rewrite eq_sub_add_neg by (by apply combine_valid).
Qed.

Lemma combine_ext eqs (x : Equation R * nat) (a : LC.t) :
  in_range (length eqs) a → combine (eqs ++ [x]) a = combine eqs a.
Proof.
  induction 1 as [|[k v] a Hk _ IH]; simpl; [done|].
  rewrite IH. unfold row_or_zero. simpl in Hk. by rewrite lookup_app_l.
Qed.

Lemma combine_of_var eqs original_eq pf :
  eq_valid original_eq →
  combine (eqs ++ [(original_eq, pf)]) (LC.of_var (length eqs)) = original_eq.
Proof.
  intros Ho. unfold LC.of_var, LC.single. rewrite decide_False by done. simpl.
  unfold row_or_zero. rewrite list_lookup_middle by done. simpl.
  rewrite eq_mul_one by done. by apply eq_add_zero_r.
Qed.

Lemma evaluate_from_combine eqs terms : eqs_valid eqs →
  in_range (length eqs) terms → ∀ sum_val, eq_valid sum_val →
  evaluate_from eqs sum_val terms = Ok (eq_add sum_val (combine eqs terms)).
Proof.
  intros Hv. induction 1 as [|[k v] terms Hk _ IH]; intros sum_val Hs; simpl.
  - by rewrite eq_add_zero_r.
  - simpl in Hk. unfold equation_at, pair_at, row_or_zero.
    destruct (lookup_lt_is_Some_2 eqs k Hk) as [p Hp]. rewrite Hp.
    pose proof (Forall_lookup_1 _ _ _ _ Hv Hp) as Hpv. simpl in Hpv.
    rewrite IH by (apply eq_valid_add; [done | by apply eq_valid_mul]).
    rewrite eq_add_assoc; [done | done | by apply eq_valid_mul |].
    by apply combine_valid.
Qed.

Lemma evaluate_combine eqs terms : eqs_valid eqs →
  in_range (length eqs) terms → evaluate eqs terms = Ok (combine eqs terms).
Proof.
  intros Hv Hr. unfold evaluate.
  rewrite evaluate_from_combine by (done || apply eq_valid_zero).
  rewrite eq_add_zero_l; [done | by apply combine_valid].
Qed.

End equation_laws.

(** ** The reduction identity in the lawful domains *)

Section reduction_identity.
Context {R : Type} `{RhsLaws R}.
Implicit Types (e row : Equation (Equation R)) (eqs : list (Equation R * nat)).

Lemma sem_J_mul eqs q e :
  eqs_valid eqs → combo_S eqs e → sem_J eqs e → sem_J eqs (eq_mul q e).
Proof.
  intros Hv _ [Hval Hrhs]. split; simpl.
  - by apply eq_valid_mul.
  - rewrite combine_scale by done. by rewrite <- Hrhs.
Qed.

Lemma sem_J_sub_mul eqs q e row :
  eqs_valid eqs → combo_S eqs e → combo_S eqs row → sem_J eqs e → sem_J eqs row →
  sem_J eqs (eq_sub e (eq_mul q row)).
Proof.
  intros Hv (Hwe & _ & _) (Hwr & _ & _) [Hval Hrhs] [Hvalr Hrhsr]. split; simpl.
  - apply eq_valid_sub; [done | by apply eq_valid_mul].
  - rewrite combine_sub, combine_scale by (done || by apply wf_scale).
    by rewrite <- Hrhs, <- Hrhsr.
Qed.

Lemma sem_J_add_mul eqs q e row :
  eqs_valid eqs → sem_J eqs e → sem_J eqs row → sem_J eqs (eq_add e (eq_mul q row)).
Proof.
  intros Hv [Hval Hrhs] [Hvalr Hrhsr]. split; simpl.
  - apply eq_valid_add; [done | by apply eq_valid_mul].
  - rewrite combine_add, combine_scale by done.
    by rewrite <- Hrhs, <- Hrhsr.
Qed.

Lemma sem_J_ext eqs x e :
  eqs_valid (eqs ++ [x]) → combo_S eqs e → sem_J eqs e → sem_J (eqs ++ [x]) e.
Proof.
  intros _ (_ & Hr & _) [Hval Hrhs]. split; [done|].
  by rewrite combine_ext.
Qed.

Lemma sem_K_ext eqs x re :
  eqs_valid (eqs ++ [x]) → red_S eqs re → sem_K eqs re → sem_K (eqs ++ [x]) re.
Proof.
  intros Hv (HcS & _) (HJ & ? & ? & ?). split_and!; try done.
  by apply sem_J_ext.
Qed.

Lemma sem_E_ext eqs re pf :
  eqs_valid eqs → red_S eqs re → sem_K eqs re →
  eqs_valid (eqs ++ [(m_original_eq re, pf)]).
Proof.
  intros Hv _ (_ & Ho & _). apply Forall_app. split; [done|].
  constructor; [done | constructor].
Qed.

Lemma sem_K_new eqs original_eq :
  eqs_valid eqs → eq_valid original_eq → sem_K eqs (ReducedEquation_new original_eq).
Proof.
  intros Hv Ho. split_and!; simpl; try done.
  - split; simpl; [apply eq_valid_zero | done].
  - by rewrite eq_add_zero_l.
Qed.

Lemma sem_K_reduce eqs re row v q tail :
  eqs_valid eqs → red_S eqs re → sem_K eqs re → combo_S eqs row → sem_J eqs row →
  leads v (rhs row) → lhs (m_remainder re) = (v, q) :: tail →
  sem_K eqs (mkReducedEquation (m_original_eq re)
               (eq_add (m_linear_combination re) (eq_mul q row))
               (eq_sub (m_remainder re) (eq_mul q (rhs row)))).
Proof.
  intros Hv _ (HJ & Ho & Hr & Hid) _ HJr _ _.
  pose proof HJ as [HvL _]. pose proof HJr as [HvR _].
  split_and!; simpl; try done.
  - by apply sem_J_add_mul.
  - apply eq_valid_sub; [done | by apply eq_valid_mul].
  - rewrite Hid at 1. apply eq_add_shift; [done | done | by apply eq_valid_mul].
Qed.

Lemma sem_J_new eqs re pf :
  eqs_valid eqs → red_S eqs re → sem_K eqs re →
  sem_J (eqs ++ [(m_original_eq re, pf)])
    (eq_add (eq_neg (m_linear_combination re))
       (mkEquation (LC.of_var (length eqs)) (m_original_eq re))).
Proof.
  intros Hv HS HK.
  pose proof (sem_E_ext eqs re pf Hv HS HK) as Hv1.
  destruct HS as ((_ & Hr & _) & _). destruct HK as ([HvL HL] & Ho & _ & _).
  split; simpl.
  - apply eq_valid_add; [by apply eq_valid_neg | done].
  - rewrite combine_add, combine_neg, combine_ext, combine_of_var by done.
    by rewrite <- HL.
Qed.

Lemma reachable_world_sem (w : world R) : reachable w → world_sem w.
Proof.
  intros Hw. apply world_inv_reachable; try done.
  - apply sem_J_mul.
  - apply sem_J_sub_mul.
  - apply sem_J_ext.
  - apply sem_K_ext.
  - apply sem_E_ext.
  - apply sem_K_new.
  - apply sem_K_reduce.
  - apply sem_J_new.
  - constructor.
Qed.

Lemma world_sem_identity (w : world R) re :
  world_sem w → re ∈ w_reds w → reduction_identity (w_sys w) re.
Proof.
  intros [(Hv & _ & _) Hreds] Hre. rewrite Forall_forall in Hreds.
  destruct (Hreds _ Hre) as [((_ & Hr & _) & _) ([_ HL] & _ & _ & Hid)].
  exists (rhs (m_linear_combination re)). split; [|done].
  rewrite evaluate_combine by done. by rewrite HL.
Qed.

(** [assert(lc.rhs() == eq->remainder())] of [add_reduced_equation]: in
    these domains the assertion holds for every reduced equation of a
    reachable world. *)
Lemma add_reduced_equation_assertion (w : world R) re n :
  reachable w → re ∈ w_reds w →
  rhs (eq_add (eq_neg (m_linear_combination re))
         (mkEquation (LC.of_var n) (m_original_eq re)))
  = m_remainder re.
Proof.
  intros Hw Hre. apply reachable_world_sem in Hw as [_ Hreds].
  rewrite Forall_forall in Hreds.
  destruct (Hreds _ Hre) as [_ ([Hlc _] & _ & Hrem & Hid)].
  cbn [eq_add eq_neg rhs]. rewrite Hid.
  by apply (eq_neg_add_cancel (rhs (m_linear_combination re)) (m_remainder re)).
Qed.

End reduction_identity.

(** C1, as the code keeps it.  In a domain whose right-hand sides form a
    vector space over the rationals ([Len], [Len²] and [Ratio]: see
    [Rat_RhsLaws] and [RootRat_RhsLaws]), every reduced equation of every
    reachable world satisfies the reduction identity, [reduce] returns on
    it, and what [reduce] returns satisfies the identity again. *)
Theorem reduction_invariant {R} `{RhsLaws R} (w : world R) :
  reachable w →
  ∀ i re, w_reds w !! i = Some re →
    reduction_identity (w_sys w) re
    ∧ ∃ re', reduce (w_sys w) re = Ok re'
        ∧ reduction_identity (w_sys w) re'.
Proof.
  intros Hw i re Hi. split.
  - apply world_sem_identity; [by apply reachable_world_sem|].
    by eapply list_elem_of_lookup_2.
  - destruct (reachable_reduce_returns w i re Hw Hi) as (re' & Hred & _).
    exists re'. split; [done|].
    destruct w as [sys reds]. simpl in *.
    assert (reachable (mkWorld sys (<[i := re']> reds))) as Hw'.
    { eapply rtc_r; [exact Hw|]. by eapply step_reduce. }
    apply (world_sem_identity (mkWorld sys (<[i := re']> reds)));
      [by apply reachable_world_sem|].
    simpl. eapply list_elem_of_lookup_2.
    apply list_lookup_insert_eq. by eapply lookup_lt_Some.
Qed.

(** ** Concrete worlds *)

Lemma q_nonzero n d : n ≠ 0%Z → q n d ≠ 0.
Proof.
  intros Hn Hq. apply (f_equal this) in Hq. unfold q in Hq. simpl in Hq.
  assert (Qred (n # d) == 0)%Q as Hz by (by rewrite Hq).
  rewrite Qred_correct in Hz. unfold Qeq in Hz. simpl in Hz. lia.
Qed.

Lemma ang_world_reachable : reachable ang_world.
Proof.
  unfold reachable, ang_world.
  eapply rtc_l; [apply (step_new _ [] ang_eq0)|].
  { split; [|by vm_compute].
    apply wfb_wf. by vm_compute. }
  eapply rtc_l;
    [eapply (step_add _ _ 0%nat ang_re0 0%nat); [done | apply surjective_pairing]|].
  eapply rtc_l; [apply (step_reduce _ _ 0%nat ang_re0 ang_re1); [done|]|].
  { by vm_compute. }
  apply rtc_refl.
Qed.

(** C1 as stated fails in [Ang]: after [(1/2) x = 1/2] has entered the
    system and the same equation is reduced, the recorded combination is
    [1 * row 0] and the remainder is [0 = 1/2]; their sum is
    [(1/2) x = 0], not the original [(1/2) x = 1/2]. *)
Lemma reduction_invariant_fails_in_Ang :
  reachable ang_world
  ∧ w_reds ang_world !! 0%nat = Some ang_re1
  ∧ evaluate (m_equations ang_sys1) (lhs (m_linear_combination ang_re1))
    = Ok (mkEquation [(0%nat, q 1 2)] (mkAddCircle (q 1 2)))
  ∧ m_remainder ang_re1 = mkEquation [] (mkAddCircle (q 1 2))
  ∧ ¬ reduction_identity (w_sys ang_world) ang_re1.
Proof.
  split_and!; [apply ang_world_reachable | done | by vm_compute | by vm_compute |].
  intros (s & Hs & Hid).
  vm_compute in Hs. injection Hs as <-.
  vm_compute in Hid. discriminate Hid.
Qed.

Lemma len_world_reachable : reachable len_world.
Proof.
  unfold reachable, len_world.
  eapply rtc_l; [apply (step_new _ [] len_eq0)|].
  { split; [|done]. apply wfb_wf. by vm_compute. }
  eapply rtc_l;
    [eapply (step_add _ _ 0%nat len_re0 0%nat); [done | apply surjective_pairing]|].
  eapply rtc_l; [apply (step_new _ _ len_eq1)|].
  { split; [|done]. apply wfb_wf. by vm_compute. }
  eapply rtc_l; [apply (step_new _ _ len_eq2)|].
  { split; [|done]. apply wfb_wf. by vm_compute. }
  eapply rtc_l;
    [eapply (step_add _ _ 2%nat len_re2 1%nat); [done | apply surjective_pairing]|].
  apply rtc_refl.
Qed.

(** The second insertion rewrites the first row by back substitution: the
    echelon of [len_sys2] is [x = 1], [y = 1], both variables are found and
    no row waits for a next variable. *)
Example len_sys2_echelon :
  (rhs <$> m_echelon_form len_sys2 !! 0%nat)
    = Some (mkEquation [(0%nat, q 1 1)] (q 1 1))
  ∧ (lhs <$> m_echelon_form len_sys2 !! 0%nat)
    = Some [(0%nat, q 1 1); (1%nat, q (-2) 1)]
  ∧ (rhs <$> m_echelon_form len_sys2 !! 1%nat)
    = Some (mkEquation [(1%nat, q 1 1)] (q 1 1))
  ∧ m_found_variables len_sys2 = {[0%nat; 1%nat]}
  ∧ m_pivot_by_next len_sys2 = ∅
  ∧ (add_reduced_equation len_sys1 1 (Some len_re2)).2 = Ok ().
Proof.
  assert (∀ a b : option (Equation Qc), bool_decide (a = b) = true → a = b) as Hd
    by (intros a b Hb; by apply bool_decide_eq_true in Hb).
  assert (∀ a b : option LC.t, bool_decide (a = b) = true → a = b) as Hl
    by (intros a b Hb; by apply bool_decide_eq_true in Hb).
  split_and!.
  - apply Hd. by vm_compute.
  - apply Hl. by vm_compute.
  - apply Hd. by vm_compute.
  - apply (bool_decide_eq_true _). by vm_compute.
  - apply (bool_decide_eq_true _). by vm_compute.
  - by vm_compute.
Qed.

(** Witness of C1: the reduced equation of [2 x + 4 y = 6] in the [Len]
    system holding [x + 2 y = 3] and [y = 1]. *)
Lemma reduction_invariant_witness :
  reduction_identity (w_sys len_world) (ReducedEquation_new len_eq1)
  ∧ ∃ re', reduce (w_sys len_world) (ReducedEquation_new len_eq1) = Ok re'
      ∧ reduction_identity (w_sys len_world) re'.
Proof.
  exact (reduction_invariant len_world len_world_reachable 1%nat
           (ReducedEquation_new len_eq1) eq_refl).
Defined.

(** Witness of C3: the echelon of the [Len] system holding [x + 2 y = 3]
    and [y = 1]. *)
Lemma echelon_uniqueness_witness :
  (∀ i j v1 row1 v2 row2,
     map_to_list (m_echelon_form (w_sys len_world)) !! i = Some (v1, row1) →
     map_to_list (m_echelon_form (w_sys len_world)) !! j = Some (v2, row2) →
     pivot_of row1 = pivot_of row2 → i = j)
  ∧ (∀ v row, m_echelon_form (w_sys len_world) !! v = Some row →
       LC.wf (lhs (rhs row)) ∧ pivot_of row = Some v
       ∧ LC.coeff (lhs (rhs row)) v = 1
       ∧ ∃ rest, lhs (rhs row) = (v, 1) :: rest).
Proof. exact (echelon_uniqueness len_world len_world_reachable). Defined.

(** ** [add_reduced_equation]: what is appended, in any state *)

Section add_reduced_equation_rows.
Context {R : Type} `{Rhs R}.

Lemma reduce_next_local_fields (sys sys' : LinearSystem R) e e' :
  reduce_next_local sys e = Ok (sys', e') →
  m_equations sys' = m_equations sys ∧ m_echelon_form sys' = m_echelon_form sys.
Proof.
  unfold reduce_next_local. intros Heq.
  destruct (reduce_next_loop _ _ _ _ _) as [[[pbn found] e0]| | |]; try done.
  by injection Heq as <- <-.
Qed.

Lemma reduce_next_in_place_equations (sys sys' : LinearSystem R) p :
  reduce_next_in_place sys p = Ok sys' → m_equations sys' = m_equations sys.
Proof.
  unfold reduce_next_in_place. intros Heq.
  destruct (m_echelon_form sys !! p); [|done].
  destruct (reduce_next_loop _ _ _ _ _) as [[[pbn found] e0]| | |]; try done.
  by injection Heq as <-.
Qed.

Lemma back_substitute_equations pivots : ∀ sys : LinearSystem R,
  m_equations (back_substitute sys pivots).1 = m_equations sys.
Proof.
  induction pivots as [|p pivots IH]; intros sys; simpl; [done|].
  destruct (reduce_next_in_place sys p) as [sys'| | |] eqn:Hp; try done.
  rewrite IH. by eapply reduce_next_in_place_equations.
Qed.

Lemma add_reduced_equation_appends (sys : LinearSystem R) pf re l :
  is_solved sys re = Ok (false, l) → lhs (m_remainder re) ≠ [] →
  m_equations (add_reduced_equation sys pf (Some re)).1
  = m_equations sys ++ [(m_original_eq re, pf)].
Proof.
  intros Hs Hne. unfold add_reduced_equation. rewrite Hs.
  rewrite bool_decide_eq_false_2 by done.
  destruct (lhs (rhs (eq_add _ _))) as [|[v c] tail]; [done|].
  case_decide; [done|].
  destruct (reduce_next_local _ _) as [[sys2 lc']| | |] eqn:Hloc; try done.
  apply reduce_next_local_fields in Hloc as [Heqs Hech]. simpl in Heqs.
  destruct (m_echelon_form sys2 !! v); [done|].
  cbn [m_pivot_by_next m_equations m_echelon_form m_found_variables].
  destruct (m_pivot_by_next sys2 !! v) as [pivots|]; [|simpl; congruence].
  match goal with
  | |- context [back_substitute ?s ?p] =>
      pose proof (back_substitute_equations p s) as Hbs;
      destruct (back_substitute s p) as [sys4 r]
  end.
  simpl in Hbs. destruct r; simpl; congruence.
Qed.

End add_reduced_equation_rows.

(** ** [is_solved] *)

Lemma subtract_rows_fold {R} `{Rhs R} (eqs : list (Equation R * nat)) (c : Qc)
    (terms : LC.t) : in_range (length eqs) terms → ∀ acc : R,
  subtract_rows eqs c acc terms
  = Ok (fold_left
          (λ acc term, rsub acc (rmul (c * term.2) (rhs (row_or_zero eqs term.1))))
          terms acc).
Proof.
  induction 1 as [|[k v] terms Hk _ IH]; intros acc; simpl; [done|].
  simpl in Hk. unfold equation_at, pair_at.
  destruct (lookup_lt_is_Some_2 eqs k Hk) as [p Hp]. rewrite Hp.
  rewrite IH.
  assert (row_or_zero eqs k = p.1) as -> by (unfold row_or_zero; by rewrite Hp).
  done.
Qed.

(** C2, as the code decides it.  Outside [Ang] the fact is proved exactly
    when the remainder is [0 = 0], and nothing is logged.  In [Ang]: a
    remainder with a nonempty left-hand side is not solved; one that is
    [0 = 0] is solved; any other one with an empty left-hand side is solved
    exactly when the value recomputed from the original equation and the
    original rows, [c * original.rhs - Σ (c * v) * rhs (row k)], is zero,
    and when it is not, the warning is logged and the answer is [false].
    With all recorded indices in range the call returns. *)
Theorem is_solved_spec {R} `{Rhs R} (sys : LinearSystem R) (re : ReducedEquation R) :
  (@is_add_circle R _ = false →
     is_solved sys re
     = Ok (bool_decide (lhs (m_remainder re) = [] ∧ rhs (m_remainder re) = rzero), []))
  ∧ (@is_add_circle R _ = true →
       (lhs (m_remainder re) ≠ [] → is_solved sys re = Ok (false, []))
       ∧ (lhs (m_remainder re) = [] → rhs (m_remainder re) = rzero →
            is_solved sys re = Ok (true, []))
       ∧ (lhs (m_remainder re) = [] → rhs (m_remainder re) ≠ rzero →
            in_range (length (m_equations sys)) (lhs (m_linear_combination re)) →
            is_solved sys re
            = Ok (bool_decide (recomputed_rhs sys re = rzero),
                  if bool_decide (recomputed_rhs sys re = rzero) then []
                  else [angle_warning]))).
Proof.
  split.
  - intros Hang. unfold is_solved, is_empty. rewrite Hang. do 2 f_equal.
    destruct (decide (lhs (m_remainder re) = [])) as [Hl | Hl];
      destruct (decide (rhs (m_remainder re) = rzero)) as [Hr | Hr].
    + by rewrite !bool_decide_eq_true_2.
    + rewrite (bool_decide_eq_true_2 _ Hl), (bool_decide_eq_false_2 _ Hr).
      rewrite bool_decide_eq_false_2; [done | tauto].
    + rewrite (bool_decide_eq_false_2 _ Hl).
      rewrite (bool_decide_eq_false_2 (_ ∧ _)); [done | tauto].
    + rewrite (bool_decide_eq_false_2 _ Hl).
      rewrite (bool_decide_eq_false_2 (_ ∧ _)); [done | tauto].
  - intros Hang. unfold is_solved. rewrite Hang. split_and!.
    + intros Hl. by rewrite (bool_decide_eq_false_2 _ Hl).
    + intros Hl Hr. by rewrite (bool_decide_eq_true_2 _ Hl), (bool_decide_eq_true_2 _ Hr).
    + intros Hl Hr Hrange.
      rewrite (bool_decide_eq_true_2 _ Hl), (bool_decide_eq_false_2 _ Hr). simpl.
      rewrite subtract_rows_fold by done.
      fold (common_multiplier re). fold (recomputed_rhs sys re).
      by destruct (bool_decide (recomputed_rhs sys re = rzero)).
Qed.

(** Equalities between concrete values are decided by evaluation. *)
Ltac by_evaluation := apply (bool_decide_eq_true _); vm_compute; reflexivity.

(** C2 as stated fails in [Ang].  In the reachable [ang_world] the
    remainder of [ang_re1] is [0 = 1/2] and the common denominator is one,
    so the remainder's right-hand side multiplied through is [1/2], not
    zero; yet [is_solved] answers [true], because it recomputes the value
    from the original equation and the original row.  And for [ang_re2] the
    remainder is [0 = 0]: [is_solved] answers [true] without looking at the
    recomputed value, which is [1/2]. *)
Lemma is_solved_is_not_the_remainder_test :
  reachable ang_world
  ∧ is_solved ang_sys1 ang_re1 = Ok (true, [])
  ∧ lhs (m_remainder ang_re1) = []
  ∧ common_multiplier ang_re1 = 1
  ∧ rmul (common_multiplier ang_re1) (rhs (m_remainder ang_re1)) = mkAddCircle (q 1 2)
  ∧ rmul (common_multiplier ang_re1) (rhs (m_remainder ang_re1)) ≠ rzero
  ∧ is_solved ang_sys1 ang_re2 = Ok (true, [])
  ∧ m_remainder ang_re2 = eq_zero
  ∧ recomputed_rhs ang_sys1 ang_re2 = mkAddCircle (q 1 2).
Proof.
  split_and!.
  - apply ang_world_reachable.
  - by vm_compute.
  - by vm_compute.
  - by_evaluation.
  - by_evaluation.
  - by_evaluation.
  - by vm_compute.
  - by_evaluation.
  - by_evaluation.
Qed.

(** Witness of C2: a [Len] remainder that is [0 = 0]; in [Ang], with
    [2 x = 1/2] in the system, [x = 3/4] (solved after the multiplication by
    two) and [x = 1/2] (not solved, warning logged). *)
Lemma is_solved_spec_witness :
  is_solved len_sys1 len_dup = Ok (true, [])
  ∧ is_solved len_sys1 len_bad = Ok (false, [])
  ∧ is_solved ang_sys3 ang_re4 = Ok (true, [])
  ∧ is_solved ang_sys3 ang_re5 = Ok (false, [angle_warning]).
Proof.
  split_and!.
  - rewrite (proj1 (is_solved_spec (H := Rat_Rhs) len_sys1 len_dup) eq_refl). by vm_compute.
  - rewrite (proj1 (is_solved_spec (H := Rat_Rhs) len_sys1 len_bad) eq_refl). by vm_compute.
  - destruct (proj2 (is_solved_spec (H := AddCircle_Rhs) ang_sys3 ang_re4) eq_refl) as (_ & _ & Hc).
    rewrite Hc; [by vm_compute | by vm_compute | by_evaluation |].
    vm_compute. repeat constructor.
  - destruct (proj2 (is_solved_spec (H := AddCircle_Rhs) ang_sys3 ang_re5) eq_refl) as (_ & _ & Hc).
    rewrite Hc; [by vm_compute | by vm_compute | by_evaluation |].
    vm_compute. repeat constructor.
Defined.

(** ** The ways [add_reduced_equation] ends *)

(** [is_solved] in [Ang] on a remainder [0 = r] with [r] not zero. *)
Lemma is_solved_recomputed {R} `{Rhs R} (sys : LinearSystem R) (re : ReducedEquation R) :
  @is_add_circle R _ = true →
  lhs (m_remainder re) = [] → rhs (m_remainder re) ≠ rzero →
  in_range (length (m_equations sys)) (lhs (m_linear_combination re)) →
  is_solved sys re
  = Ok (bool_decide (recomputed_rhs sys re = rzero),
        if bool_decide (recomputed_rhs sys re = rzero) then [] else [angle_warning]).
Proof.
  intros Hang Hl Hr Hrange. unfold is_solved. rewrite Hang.
  rewrite (bool_decide_eq_true_2 _ Hl), (bool_decide_eq_false_2 _ Hr). simpl.
  rewrite subtract_rows_fold by done.
  fold (common_multiplier re). fold (recomputed_rhs sys re).
  by destruct (bool_decide (recomputed_rhs sys re = rzero)).
Qed.

(** C4.  What [add_reduced_equation] does with the reduced equation of a
    statement: a solved equation is skipped and the system is unchanged; an
    unsolved one whose remainder has an empty left-hand side raises
    "Proved contradiction in AR" and the system is unchanged; any other one
    appends the original equation to the stored equations.  Outside [Ang]
    "solved" is "the remainder is [0 = 0]", so an empty left-hand side with
    a nonzero right-hand side is the contradiction.  In [Ang] a remainder
    with a nonempty left-hand side is appended, the remainder [0 = 0] is
    skipped, and a remainder [0 = r] with [r] not zero is skipped when the
    value recomputed from the original equation and the original rows,
    multiplied by the common denominator, is zero, and is the contradiction
    when it is not.  On a reachable world, when the leading variable of the
    remainder has no pivot (the equation was reduced), the call returns
    and that variable becomes a pivot. *)
Theorem add_reduced_equation_failure_modes {R} `{Rhs R}
    (sys : LinearSystem R) (pf : nat) (re : ReducedEquation R) :
  (∀ l, is_solved sys re = Ok (true, l) →
     add_reduced_equation sys pf (Some re) = (sys, Ok ()))
  ∧ (∀ l, is_solved sys re = Ok (false, l) → lhs (m_remainder re) = [] →
       add_reduced_equation sys pf (Some re)
       = (sys, Throw "Proved contradiction in AR"))
  ∧ (∀ l, is_solved sys re = Ok (false, l) → lhs (m_remainder re) ≠ [] →
       m_equations (add_reduced_equation sys pf (Some re)).1
       = m_equations sys ++ [(m_original_eq re, pf)])
  ∧ (@is_add_circle R _ = false →
       (is_empty (m_remainder re) = true →
          add_reduced_equation sys pf (Some re) = (sys, Ok ()))
       ∧ (lhs (m_remainder re) = [] → rhs (m_remainder re) ≠ rzero →
            add_reduced_equation sys pf (Some re)
            = (sys, Throw "Proved contradiction in AR"))
       ∧ (lhs (m_remainder re) ≠ [] →
            m_equations (add_reduced_equation sys pf (Some re)).1
            = m_equations sys ++ [(m_original_eq re, pf)]))
  ∧ (@is_add_circle R _ = true →
       (is_empty (m_remainder re) = true →
          add_reduced_equation sys pf (Some re) = (sys, Ok ()))
       ∧ (lhs (m_remainder re) = [] → rhs (m_remainder re) ≠ rzero →
            in_range (length (m_equations sys)) (lhs (m_linear_combination re)) →
            add_reduced_equation sys pf (Some re)
            = (sys, if bool_decide (recomputed_rhs sys re = rzero) then Ok ()
                    else Throw "Proved contradiction in AR"))
       ∧ (lhs (m_remainder re) ≠ [] →
            m_equations (add_reduced_equation sys pf (Some re)).1
            = m_equations sys ++ [(m_original_eq re, pf)]))
  ∧ (∀ reds i l v c tail,
       reachable (mkWorld sys reds) → reds !! i = Some re →
       is_solved sys re = Ok (false, l) →
       lhs (m_remainder re) = (v, c) :: tail →
       m_echelon_form sys !! v = None →
       ∃ sys', add_reduced_equation sys pf (Some re) = (sys', Ok ())
         ∧ m_equations sys' = m_equations sys ++ [(m_original_eq re, pf)]
         ∧ dom (m_echelon_form sys') = {[v]} ∪ dom (m_echelon_form sys)).
Proof.
  split_and!.
  - intros l Hs. unfold add_reduced_equation. by rewrite Hs.
  - intros l Hs Hl. unfold add_reduced_equation. rewrite Hs.
    by rewrite bool_decide_eq_true_2.
  - intros l. apply add_reduced_equation_appends.
  - intros Hang. split_and!.
    + unfold add_reduced_equation, is_solved. rewrite Hang. by intros ->.
    + intros Hl Hr. unfold add_reduced_equation, is_solved, is_empty.
      rewrite Hang.
      rewrite (bool_decide_eq_true_2 _ Hl), (bool_decide_eq_false_2 _ Hr). done.
    + intros Hl. apply (add_reduced_equation_appends sys pf re []); [|done].
      unfold is_solved, is_empty. rewrite Hang.
      by rewrite (bool_decide_eq_false_2 _ Hl).
  - intros Hang. split_and!.
    + unfold is_empty. intros [Hl Hr]%andb_true_iff.
      apply bool_decide_eq_true in Hl, Hr.
      unfold add_reduced_equation, is_solved. rewrite Hang.
      by rewrite (bool_decide_eq_true_2 _ Hl), (bool_decide_eq_true_2 _ Hr).
    + intros Hl Hr Hrange. unfold add_reduced_equation.
      rewrite (is_solved_recomputed sys re Hang Hl Hr Hrange).
      destruct (bool_decide (recomputed_rhs sys re = rzero)); [done|].
      by rewrite (bool_decide_eq_true_2 _ Hl).
    + intros Hl. apply (add_reduced_equation_appends sys pf re []); [|done].
      unfold is_solved. rewrite Hang.
      by rewrite (bool_decide_eq_false_2 _ Hl).
  - intros reds i l v c tail Hw Hi Hs Hl Hv.
    pose proof (reachable_add_returns (mkWorld sys reds) i re pf Hw Hi) as Hshape.
    pose proof (add_reduced_equation_appends sys pf re l Hs) as Happ.
    rewrite Hl in Happ. specialize (Happ ltac:(done)).
    cbn [w_sys] in Hshape.
    destruct (add_reduced_equation sys pf (Some re)) as [sys' r].
    cbn [fst snd] in Hshape, Happ. exists sys'.
    destruct Hshape as [[-> Hr] | (Heqs & v' & c' & tail' & Hl' & Hcase)].
    + exfalso. apply (f_equal length) in Happ. rewrite length_app in Happ.
      simpl in Happ. lia.
    + rewrite Hl in Hl'. injection Hl' as <- <- <-.
      destruct Hcase as [([? ?] & _) | (_ & Hdom & ->)]; [congruence|].
      done.
Qed.

Lemma ang_sys3_returns :
  add_reduced_equation empty_system 0 (Some (ReducedEquation_new ang_eq3))
  = (ang_sys3, Ok ()).
Proof.
  assert ((add_reduced_equation empty_system 0
             (Some (ReducedEquation_new ang_eq3))).2 = Ok ()) as Hr
    by (vm_compute; reflexivity).
  rewrite <-Hr. apply surjective_pairing.
Qed.

Lemma ang_re4_reduced :
  reduce ang_sys3
    (ReducedEquation_new (mkEquation [(0%nat, q 1 1)] (mkAddCircle (q 3 4))))
  = Ok ang_re4.
Proof.
  unfold ang_re4.
  by destruct (reduce ang_sys3 _) as [re| | |] eqn:Hred; [|vm_compute in Hred..].
Qed.

(** C4 as stated fails in [Ang].  The system holds [2 x = 1/2]; the
    equation [x = 3/4], reduced against it, has the remainder [0 = 1/2]:
    an empty left-hand side and a right-hand side that is not zero.
    [add_reduced_equation] raises no error: it returns and leaves the
    system as it is, because [is_solved] recomputes [2 * 3/4 - 1/2], which
    is zero. *)
Lemma add_reduced_equation_no_contradiction_in_Ang :
  reachable (mkWorld ang_sys3 [ReducedEquation_new ang_eq3; ang_re4])
  ∧ lhs (m_remainder ang_re4) = []
  ∧ rhs (m_remainder ang_re4) = mkAddCircle (q 1 2)
  ∧ rhs (m_remainder ang_re4) ≠ rzero
  ∧ add_reduced_equation ang_sys3 7 (Some ang_re4) = (ang_sys3, Ok ()).
Proof.
  split_and!.
  - unfold reachable.
    eapply rtc_l; [apply (step_new _ [] ang_eq3)|].
    { split; [|done]. apply wfb_wf. by vm_compute. }
    eapply rtc_l;
      [eapply (step_add _ _ 0%nat (ReducedEquation_new ang_eq3) 0%nat);
         [done | apply surjective_pairing]|].
    eapply rtc_l;
      [apply (step_new _ _ (mkEquation [(0%nat, q 1 1)] (mkAddCircle (q 3 4))))|].
    { split; [|done]. apply wfb_wf. by vm_compute. }
    eapply rtc_l;
      [eapply (step_reduce _ _ 1%nat _ ang_re4); [done | apply ang_re4_reduced]|].
    apply rtc_refl.
  - by vm_compute.
  - by_evaluation.
  - by vm_compute.
  - assert (is_solved ang_sys3 ang_re4 = Ok (true, [])) as Hs by (by vm_compute).
    unfold add_reduced_equation. by rewrite Hs.
Qed.

(** Witness of C4: against the [Len] system holding [x + 2 y = 3], the
    duplicate [2 x + 4 y = 6] is skipped, [x + 2 y = 4] is the
    contradiction, and [y = 1] becomes a new row with pivot [y]; against
    the [Ang] system holding [2 x = 1/2], [x = 3/4] is skipped and
    [x = 1/2] is the contradiction. *)
Lemma add_reduced_equation_failure_modes_witness :
  add_reduced_equation len_sys1 7 (Some len_dup) = (len_sys1, Ok ())
  ∧ add_reduced_equation len_sys1 7 (Some len_bad)
    = (len_sys1, Throw "Proved contradiction in AR")
  ∧ m_equations (add_reduced_equation len_sys1 7 (Some len_re2)).1
    = m_equations len_sys1 ++ [(len_eq2, 7%nat)]
  ∧ (∃ sys', add_reduced_equation len_sys1 7 (Some len_re2) = (sys', Ok ())
      ∧ m_equations sys' = m_equations len_sys1 ++ [(len_eq2, 7%nat)]
      ∧ dom (m_echelon_form sys') = {[1%nat]} ∪ dom (m_echelon_form len_sys1))
  ∧ add_reduced_equation ang_sys3 7 (Some ang_re4) = (ang_sys3, Ok ())
  ∧ add_reduced_equation ang_sys3 7 (Some ang_re5)
    = (ang_sys3, Throw "Proved contradiction in AR").
Proof.
  assert (reachable (mkWorld len_sys1 [len_re0; len_re2])) as Hreach.
  { unfold reachable.
    eapply rtc_l; [apply (step_new _ [] len_eq0)|].
    { split; [|done]. apply wfb_wf. by vm_compute. }
    eapply rtc_l;
      [eapply (step_add _ _ 0%nat len_re0 0%nat); [done | apply surjective_pairing]|].
    eapply rtc_l; [apply (step_new _ _ len_eq2)|].
    { split; [|done]. apply wfb_wf. by vm_compute. }
    apply rtc_refl. }
  assert (∀ re : ReducedEquation AddCircle,
            bool_decide (recomputed_rhs ang_sys3 re = rzero) = true →
            (if bool_decide (recomputed_rhs ang_sys3 re = rzero)
             then Ok () else Throw "Proved contradiction in AR") = Ok ())
    as Hyes by (by intros re ->).
  assert (∀ re : ReducedEquation AddCircle,
            bool_decide (recomputed_rhs ang_sys3 re = rzero) = false →
            (if bool_decide (recomputed_rhs ang_sys3 re = rzero)
             then Ok () else Throw "Proved contradiction in AR")
            = Throw "Proved contradiction in AR")
    as Hno by (by intros re ->).
  split_and!.
  - apply (proj1 (add_reduced_equation_failure_modes len_sys1 7 len_dup) []).
    by vm_compute.
  - destruct (add_reduced_equation_failure_modes len_sys1 7 len_bad)
      as (_ & Hc & _).
    apply (Hc []); by vm_compute.
  - destruct (add_reduced_equation_failure_modes len_sys1 7 len_re2)
      as (_ & _ & Hc & _).
    apply (Hc []); by vm_compute.
  - destruct (add_reduced_equation_failure_modes len_sys1 7 len_re2)
      as (_ & _ & _ & _ & _ & Hc).
    apply (Hc [len_re0; len_re2] 1%nat [] 1%nat (q 1 1) []); done.
  - destruct (add_reduced_equation_failure_modes (H := AddCircle_Rhs)
                ang_sys3 7 ang_re4) as (_ & _ & _ & _ & Hc & _).
    destruct (Hc eq_refl) as (_ & Hrec & _).
    rewrite Hrec;
      [rewrite Hyes; [reflexivity | by vm_compute] | by vm_compute | by vm_compute |].
    vm_compute. repeat constructor.
  - destruct (add_reduced_equation_failure_modes (H := AddCircle_Rhs)
                ang_sys3 7 ang_re5) as (_ & _ & _ & _ & Hc & _).
    destruct (Hc eq_refl) as (_ & Hrec & _).
    rewrite Hrec;
      [rewrite Hno; [reflexivity | by vm_compute] | by vm_compute | by vm_compute |].
    vm_compute. repeat constructor.
Defined.

(** * The solver driver *)

(** ** Computations that can throw *)

Ltac sr_unfold :=
  unfold mbind, mret, SR_bind, SR_ret, sr_bind, sr_ret, sr_get, sr_modify,
    sr_throw, sr_undefined, sr_lift in *.

Lemma sr_bind_eq {S A B} (m : SR S A) (k : A → SR S B) s :
  (m ≫= k) s =
  match m s with
  | (s', Ok a) => k a s'
  | (s', Throw msg) => (s', Throw msg)
  | (s', Undefined) => (s', Undefined)
  | (s', OutOfFuel) => (s', OutOfFuel)
  end.
Proof. reflexivity. Qed.

Section solver_frame.
Context {Statement : Type} `{SolverEnv Statement}.
#[local] Abbreviation Solver := (DDARSolver Statement).
#[local] Abbreviation M := (SR Solver).
Implicit Types (s : Solver) (R : relation Solver).

Lemma respects_bind {A B} R (m : M A) (k : A → M B) :
  Transitive R → respects R m → (∀ a, respects R (k a)) → respects R (m ≫= k).
Proof.
  intros HR Hm Hk s. rewrite sr_bind_eq. specialize (Hm s).
  destruct (m s) as [s1 [a| | |]]; simpl in *; try done.
  etrans; [exact Hm | apply Hk].
Qed.

Lemma respects_ret {A} R (a : A) : Reflexive R → respects R (mret a : M A).
Proof. intros HR s. apply HR. Qed.

Lemma respects_get {A} R (f : Solver → A) : Reflexive R → respects R (sr_get f).
Proof. intros HR s. apply HR. Qed.

Lemma respects_throw {A} R msg : Reflexive R → respects R (sr_throw msg : M A).
Proof. intros HR s. apply HR. Qed.

Lemma respects_lift {A} R (r : result A) : Reflexive R → respects R (sr_lift r : M A).
Proof. intros HR s. apply HR. Qed.

Lemma respects_modify R (f : Solver → Solver) :
  (∀ s, R s (f s)) → respects R (sr_modify f).
Proof. intros Hf s. apply Hf. Qed.

Lemma respects_for_each {A} R (body : A → M unit) l :
  PreOrder R → (∀ a, a ∈ l → respects R (body a)) → respects R (for_each body l).
Proof.
  intros HR. induction l as [|a l IH]; intros Hbody; simpl.
  - apply respects_ret, _.
  - apply respects_bind; [apply _ | apply Hbody; left |].
    intros _. apply IH. intros b Hb. apply Hbody. by right.
Qed.

Lemma respects_impl {A} (R R' : relation Solver) (m : M A) :
  (∀ s s', R s s' → R' s s') → respects R m → respects R' m.
Proof. intros HRR Hm s. apply HRR, Hm. Qed.

#[export] Instance keeps_core_preorder : PreOrder (@keeps_core Statement).
Proof.
  split.
  - by intros s.
  - intros s1 s2 s3 (? & ? & ? & ? & ? & ? & ?) (? & ? & ? & ? & ? & ? & ?).
    split_and!; congruence.
Qed.

Lemma marks_proved ind old new :
  marks ind old new → StatementProof.m_state new ≠ NOT_PROVED.
Proof. intros [[v ->]|(i & _ & ->)]; [by destruct v | done]. Qed.

#[export] Instance evolves_preorder ind P : PreOrder (@evolves Statement ind P).
Proof.
  split.
  - intros s. split_and!; try done. by left.
  - intros s1 s2 s3 (? & ? & ? & H12) (? & ? & ? & H23).
    split_and!; try congruence. intros pf.
    destruct (H23 pf) as [Heq|(HP & Hun & Hm)].
    + rewrite Heq. apply H12.
    + destruct (H12 pf) as [Heq|(_ & _ & Hm')].
      * right. by rewrite <-Heq.
      * by apply marks_proved in Hm'.
Qed.

Lemma evolves_mono ind (P Q : nat → Prop) s s' :
  (∀ pf, P pf → Q pf) → evolves ind P s s' → evolves ind Q s s'.
Proof.
  intros HPQ (? & ? & ? & Hpf). split_and!; try done.
  intros pf. destruct (Hpf pf) as [?|(? & ? & ?)]; [by left | right; auto].
Qed.

Lemma evolves_by_engines ind P s s' : evolves None P s s' → evolves ind P s s'.
Proof.
  intros (? & ? & ? & Hpf). split_and!; try done.
  intros pf. destruct (Hpf pf) as [?|(? & ? & [Hm|(i & ? & _)])]; [by left | | done].
  right. split_and!; try done. by left.
Qed.

Lemma keeps_core_evolves ind P s s' : keeps_core s s' → evolves ind P s s'.
Proof.
  intros (? & ? & Hpf & ? & _). split_and!; try done. intros pf. left. by rewrite Hpf.
Qed.

Lemma evolves_proved ind P s s' pf : evolves ind P s s' → proved s pf → proved s' pf.
Proof.
  intros (_ & _ & _ & Hpf) Hp. unfold proved in *.
  destruct (Hpf pf) as [->|(_ & ? & _)]; done.
Qed.

Lemma evolves_frozen ind P s s' pf :
  evolves ind P s s' → proved s pf → m_statement_proofs s' pf = m_statement_proofs s pf.
Proof.
  intros (_ & _ & _ & Hpf) Hp. unfold proved in *.
  destruct (Hpf pf) as [->|(_ & ? & _)]; done.
Qed.

Lemma evolves_outside ind (P : nat → Prop) s s' pf :
  evolves ind P s s' → ¬ P pf → m_statement_proofs s' pf = m_statement_proofs s pf.
Proof. intros (_ & _ & _ & Hpf) Hp. destruct (Hpf pf) as [->|(? & _)]; done. Qed.

Lemma reduce_at_keeps v i : respects keeps_core (reduce_at v i : M unit).
Proof. intros s. unfold reduce_at. by repeat case_match. Qed.

Lemma is_solved_at_state v i s : (is_solved_at v i s).1 = s.
Proof. unfold is_solved_at. by case_match. Qed.

Lemma is_solved_at_keeps v i : respects keeps_core (is_solved_at v i : M bool).
Proof. intros s. by rewrite is_solved_at_state. Qed.

Lemma add_reduced_equation_at_keeps v pf :
  respects keeps_core (add_reduced_equation_at v pf : M unit).
Proof. intros s. unfold add_reduced_equation_at. by repeat case_match. Qed.

Lemma add_established_equations_keeps pf :
  respects keeps_core (add_established_equations pf : M unit).
Proof.
  unfold add_established_equations.
  repeat (apply respects_bind; [apply _ | apply add_reduced_equation_at_keeps | intros _]).
  apply add_reduced_equation_at_keeps.
Qed.

Lemma reduce_if_present_keeps pf v : respects keeps_core (reduce_if_present pf v : M unit).
Proof.
  unfold reduce_if_present.
  apply respects_bind; [apply _ | apply respects_get, _ |].
  intros [i|]; [apply reduce_at_keeps | apply respects_ret, _].
Qed.

(** [set_proved] on a record that is not proved: the record gets the new
    state, its address is pushed on the established statements, and the
    rest touches the engines and the cache only, however it ends. *)
Lemma set_proved_spec pf st s :
  st ≠ NOT_PROVED → ¬ proved s pf →
  keeps_core
    (push_established_statement pf
       (update_proof pf (StatementProof.with_state st) s))
    (set_proved pf st s).1.
Proof.
  intros Hst Hun. unfold proved in Hun. unfold set_proved.
  rewrite decide_False by done. rewrite sr_bind_eq. cbn [sr_get].
  rewrite decide_True by (by apply dec_stable).
  do 2 (rewrite sr_bind_eq; cbn [sr_modify]).
  match goal with
  | |- keeps_core ?s0 (?m ?s0).1 => generalize s0; change (respects keeps_core m)
  end.
  apply respects_bind; [apply _ | apply respects_get, _ | intros opt_r].
  apply respects_bind; [apply _ | | intros _].
  { destruct opt_r; [|apply respects_ret, _]. by apply respects_modify. }
  repeat (apply respects_bind; [apply _ | apply reduce_if_present_keeps | intros _]).
  apply add_established_equations_keeps.
Qed.

Lemma set_proved_again pf st s :
  st ≠ NOT_PROVED → proved s pf →
  set_proved pf st s = (s, Throw "Trying to re-prove a statement").
Proof.
  intros Hst Hp. unfold proved in Hp. unfold set_proved.
  rewrite decide_False by done. rewrite sr_bind_eq. cbn [sr_get].
  by rewrite decide_False.
Qed.

Lemma set_proved_by_engine pf v :
  respects (evolves None (eq pf)) (set_proved pf (proved_by v) : M unit).
Proof.
  intros s. destruct (decide (proved s pf)) as [Hp|Hun].
  - rewrite set_proved_again; [done | by destruct v | done].
  - pose proof (set_proved_spec pf (proved_by v) s) as (? & ? & Hpf & ? & _);
      [by destruct v | done |].
    split_and!; try done. intros pf'. rewrite Hpf. simpl.
    destruct (decide (pf = pf')) as [<-|Hne].
    + right. split_and!; [done | by apply dec_stable |].
      left. exists v. by rewrite fn_lookup_insert.
    + left. by rewrite fn_lookup_insert_ne.
Qed.

Lemma try_engine_evolves pf v (next : M unit) :
  respects (evolves None (eq pf)) next →
  respects (evolves None (eq pf)) (try_engine pf v next).
Proof.
  intros Hnext. unfold try_engine.
  apply respects_bind; [apply _ | apply respects_get, _ | intros [i|]; [|done]].
  apply respects_bind; [apply _ | | intros _].
  { eapply respects_impl; [apply keeps_core_evolves | apply reduce_at_keeps]. }
  apply respects_bind; [apply _ | | intros [|]; [|done]].
  { eapply respects_impl; [apply keeps_core_evolves | apply is_solved_at_keeps]. }
  apply set_proved_by_engine.
Qed.

(** [make_progress] changes the record of its statement only, and only
    from not proved to proved by an engine. *)
Lemma make_progress_evolves pf :
  respects (evolves None (eq pf)) (make_progress pf : M unit).
Proof.
  unfold make_progress.
  apply respects_bind; [apply _ | apply respects_get, _ | intros st].
  case_decide; [|apply respects_ret, _].
  do 4 apply try_engine_evolves. apply respects_ret, _.
Qed.

Lemma make_progress_proved pf s : proved s pf → make_progress pf s = (s, Ok ()).
Proof.
  intros Hp. unfold proved in Hp. unfold make_progress.
  rewrite sr_bind_eq. cbn [sr_get]. by rewrite decide_False.
Qed.

Lemma is_proved_eq pf s :
  is_proved pf s = (s, Ok (StatementProof.is_proved (m_statement_proofs s pf))).
Proof. reflexivity. Qed.

Lemma is_proved_true s pf :
  StatementProof.is_proved (m_statement_proofs s pf) = true ↔ proved s pf.
Proof.
  unfold StatementProof.is_proved, proved.
  rewrite negb_true_iff, bool_decide_eq_false. done.
Qed.

Lemma is_proved_false s pf :
  StatementProof.is_proved (m_statement_proofs s pf) = false ↔ ¬ proved s pf.
Proof. rewrite <-is_proved_true. by destruct (StatementProof.is_proved _). Qed.

Lemma for_each_make_progress_evolves pfs :
  respects (evolves None (.∈ pfs)) (for_each make_progress pfs : M unit).
Proof.
  apply respects_for_each; [apply _|]. intros pf Hpf.
  eapply respects_impl; [|apply make_progress_evolves].
  intros s s'. apply evolves_mono. by intros ? <-.
Qed.

(** The loop over the conclusions calls [make_progress] on each of them;
    its flag says that all of them are proved at the end (each is looked at
    right after its own call: for a list without repetition this is the
    same). *)
Lemma conclusions_loop_spec pfs acc s :
  (conclusions_loop pfs acc s).1 = (for_each make_progress pfs s).1
  ∧ match (conclusions_loop pfs acc s).2 with
    | Ok b =>
        (for_each make_progress pfs s).2 = Ok ()
        ∧ (b = true →
           acc = true ∧ Forall (proved (for_each make_progress pfs s).1) pfs)
        ∧ (acc = true → NoDup pfs →
           Forall (proved (for_each make_progress pfs s).1) pfs → b = true)
    | Throw msg => (for_each make_progress pfs s).2 = Throw msg
    | Undefined => (for_each make_progress pfs s).2 = Undefined
    | OutOfFuel => (for_each make_progress pfs s).2 = OutOfFuel
    end.
Proof.
  revert acc s. induction pfs as [|pf rest IH]; intros acc s.
  { simpl. split; [done|]. split_and!; [done | by intros -> | done]. }
  cbn [conclusions_loop for_each]. rewrite !sr_bind_eq.
  destruct (make_progress pf s) as [sa [[]| | |]] eqn:Hmp; try done.
  rewrite sr_bind_eq, is_proved_eq.
  destruct (IH (acc && StatementProof.is_proved (m_statement_proofs sa pf)) sa)
    as [Hst Hres].
  split; [done|].
  pose proof (for_each_make_progress_evolves rest sa) as Hev.
  destruct (conclusions_loop rest _ sa).2 as [b| | |]; try done.
  destruct Hres as (Hok & Htrue & Hall). split_and!; [done | |].
  - intros Hb. destruct (Htrue Hb) as [Hacc Hrest].
    apply andb_true_iff in Hacc as [-> Hp]. split; [done|].
    constructor; [|done]. eapply evolves_proved; [exact Hev|]. by apply is_proved_true.
  - intros -> Hnd Hforall.
    apply NoDup_cons in Hnd as [Hnotin Hnd].
    apply Forall_cons in Hforall as [Hpf Hforall].
    apply Hall; [|done|done]. simpl. apply is_proved_true.
    unfold proved. by rewrite <-(evolves_outside _ _ _ _ _ Hev Hnotin).
Qed.

Lemma hypotheses_loop_evolves pfs :
  respects (evolves None (.∈ pfs)) (hypotheses_loop pfs : M bool).
Proof.
  induction pfs as [|pf rest IH]; [apply respects_ret, _|].
  cbn [hypotheses_loop].
  apply respects_bind; [apply _ | | intros _].
  { eapply respects_impl; [|apply make_progress_evolves].
    intros s s'. apply evolves_mono. intros ? <-. left. }
  apply respects_bind; [apply _ | apply respects_get, _ | intros [|]].
  - eapply respects_impl; [|apply IH].
    intros s s'. apply evolves_mono. intros ??. by right.
  - apply respects_ret, _.
Qed.

(** The loop over the hypotheses answers [true] when all of them are
    proved, [false] when one is not. *)
Lemma hypotheses_loop_spec pfs s :
  match (hypotheses_loop pfs s).2 with
  | Ok true => Forall (proved (hypotheses_loop pfs s).1) pfs
  | Ok false => Exists (λ h, ¬ proved (hypotheses_loop pfs s).1 h) pfs
  | _ => True
  end.
Proof.
  revert s. induction pfs as [|pf rest IH]; intros s; [by constructor|].
  cbn [hypotheses_loop]. rewrite sr_bind_eq.
  destruct (make_progress pf s) as [sa [[]| | |]] eqn:Hmp; try done.
  rewrite sr_bind_eq, is_proved_eq.
  destruct (StatementProof.is_proved (m_statement_proofs sa pf)) eqn:Hp.
  - specialize (IH sa). pose proof (hypotheses_loop_evolves rest sa) as Hev.
    destruct (hypotheses_loop rest sa).2 as [[|]| | |]; try done.
    + constructor; [|done]. eapply evolves_proved; [exact Hev|]. by apply is_proved_true.
    + by apply Exists_cons_tl.
  - simpl. apply Exists_cons_hd. by apply is_proved_false.
Qed.

(** [establish_statement]: a statement that is not proved gets proved, by
    an engine or else by the theorem; nothing else changes. *)
Lemma establish_statement_evolves pf ind :
  respects (evolves (Some ind) (eq pf)) (establish_statement pf ind : M bool).
Proof.
  intros s. unfold establish_statement. rewrite sr_bind_eq, is_proved_eq.
  destruct (StatementProof.is_proved (m_statement_proofs s pf)) eqn:Hp; [done|].
  apply is_proved_false in Hp.
  rewrite sr_bind_eq.
  pose proof (make_progress_evolves pf s) as Hev. apply (evolves_by_engines (Some ind)) in Hev.
  destruct (make_progress pf s) as [sa [[]| | |]] eqn:Hmp; try done.
  rewrite sr_bind_eq, is_proved_eq.
  destruct (StatementProof.is_proved (m_statement_proofs sa pf)) eqn:Hp'; [done|].
  apply is_proved_false in Hp'.
  etrans; [exact Hev|]. simpl in Hev.
  assert (evolves (Some ind) (eq pf) sa (set_theorem pf ind sa).1) as Hset.
  { unfold set_theorem. rewrite sr_bind_eq. cbn [sr_modify].
    pose proof (set_proved_spec pf PROVED_BY_THEOREM
                  (update_proof pf (StatementProof.with_theorem ind) sa))
      as (? & ? & Hpf & ? & _); [done | |].
    { unfold proved in *. simpl. by rewrite fn_lookup_insert. }
    split_and!; try done. intros pf'. rewrite Hpf. simpl.
    destruct (decide (pf = pf')) as [<-|Hne].
    - right. split_and!; [done | by apply dec_stable |].
      right. exists ind. by rewrite !fn_lookup_insert.
    - left. by rewrite !fn_lookup_insert_ne. }
  rewrite sr_bind_eq.
  by destruct (set_theorem pf ind sa) as [sb [[]| | |]].
Qed.

Lemma establish_statement_proved pf ind s b :
  (establish_statement pf ind s).2 = Ok b → proved (establish_statement pf ind s).1 pf.
Proof.
  unfold establish_statement. rewrite sr_bind_eq, is_proved_eq.
  destruct (StatementProof.is_proved (m_statement_proofs s pf)) eqn:Hp.
  { intros _. by apply is_proved_true. }
  rewrite sr_bind_eq.
  destruct (make_progress pf s) as [sa [[]| | |]] eqn:Hmp; try done.
  rewrite sr_bind_eq, is_proved_eq.
  destruct (StatementProof.is_proved (m_statement_proofs sa pf)) eqn:Hp'.
  { intros _. by apply is_proved_true. }
  apply is_proved_false in Hp'.
  rewrite sr_bind_eq. intros _.
  assert (proved (set_theorem pf ind sa).1 pf) as Hset.
  { unfold set_theorem. rewrite sr_bind_eq. cbn [sr_modify].
    pose proof (set_proved_spec pf PROVED_BY_THEOREM
                  (update_proof pf (StatementProof.with_theorem ind) sa))
      as (? & ? & Hpf & ? & _); [done | |].
    { unfold proved in *. simpl. by rewrite fn_lookup_insert. }
    unfold proved. rewrite Hpf. simpl. by rewrite fn_lookup_insert. }
  by destruct (set_theorem pf ind sa) as [sb [[]| | |]].
Qed.

(** The loop of [advance_theorem] over the conclusions. *)
Lemma establish_all_spec ind pfs s :
  evolves (Some ind) (.∈ pfs) s
    (for_each (λ p, establish_statement p ind;; mret ()) pfs s).1
  ∧ ((for_each (λ p, establish_statement p ind;; mret ()) pfs s).2 = Ok () →
     Forall (proved (for_each (λ p, establish_statement p ind;; mret ()) pfs s).1) pfs).
Proof.
  revert s. induction pfs as [|pf rest IH]; intros s.
  { split; [reflexivity | by constructor]. }
  cbn [for_each]. rewrite !sr_bind_eq.
  pose proof (establish_statement_evolves pf ind s) as Hev.
  pose proof (establish_statement_proved pf ind s) as Hp.
  apply (evolves_mono _ _ (.∈ pf :: rest)) in Hev; [|intros ? <-; left].
  destruct (establish_statement pf ind s) as [sa [b| | |]]; try done.
  simpl in Hev, Hp. cbn [mret SR_ret sr_ret].
  destruct (IH sa) as [Hev' Hall].
  apply (evolves_mono _ _ (.∈ pf :: rest)) in Hev'; [|intros ??; by right].
  split; [by etrans|]. intros Hok. constructor; [|by apply Hall].
  eapply evolves_proved; [exact Hev' | by eapply Hp].
Qed.

End solver_frame.

Section theorem_application.
Context {Statement : Type} `{SolverEnv Statement}.
#[local] Abbreviation Solver := (DDARSolver Statement).
#[local] Abbreviation M := (SR Solver).

Lemma application_state_update (s : Solver) ind thm st :
  m_theorem_applications s !! ind = Some thm →
  m_theorem_applications
    (update_theorem_application ind (TheoremApplication.with_state st) s) !! ind
  = Some (TheoremApplication.with_state st thm).
Proof. intros Hthm. simpl. by rewrite list_lookup_alter_eq, Hthm. Qed.

(** X17.  [advance_theorem] on the application [ind] of a solver.  If the
    application is not pending, nothing changes: [PROVED] and [DISCARDED]
    are terminal.  If it is pending, [make_progress] is first called on
    every conclusion, in order, which leads to a state [s1] where only
    engines have proved anything; an exception ends the call there.
    When every conclusion is proved in [s1] (the list having no
    repetition), the application becomes [DISCARDED] and no proof record
    changes any more.  When some conclusion is not proved in [s1], the loop
    over the hypotheses leads to [s2]: if a hypothesis is not proved the
    application stays as it is; if all are proved it becomes [PROVED] and,
    from there, a proof record only changes if it is a conclusion that was
    not proved, which gets proved by an engine or else by this theorem,
    with the index [ind]; when the call returns, every conclusion is
    proved. *)
Theorem theorem_application_state_machine (s s' : Solver) ind thm r :
  m_theorem_applications s !! ind = Some thm →
  advance_theorem ind s = (s', r) →
  (TheoremApplication.m_state thm ≠ PENDING → s' = s ∧ r = Ok ())
  ∧ (TheoremApplication.m_state thm = PENDING →
     ∃ s1 r1,
       for_each make_progress (TheoremApplication.m_conclusions thm) s = (s1, r1)
       ∧ evolves None (.∈ TheoremApplication.m_conclusions thm) s s1
       ∧ (r1 ≠ Ok () → s' = s1 ∧ r = r1)
       ∧ (r1 = Ok () →
          (Forall (proved s1) (TheoremApplication.m_conclusions thm) →
           NoDup (TheoremApplication.m_conclusions thm) →
           s' = update_theorem_application ind
                  (TheoremApplication.with_state DISCARDED) s1
           ∧ r = Ok ())
          ∧ (¬ Forall (proved s1) (TheoremApplication.m_conclusions thm) →
             ∃ s2 r2,
               hypotheses_loop (TheoremApplication.m_hypotheses thm) s1 = (s2, r2)
               ∧ match r2 with
                 | Ok true =>
                     Forall (proved s2) (TheoremApplication.m_hypotheses thm)
                     ∧ application_state s' ind = Some PROVED
                     ∧ evolves (Some ind) (.∈ TheoremApplication.m_conclusions thm)
                         (update_theorem_application ind
                            (TheoremApplication.with_state PROVED) s2) s'
                     ∧ (r = Ok () →
                        Forall (proved s') (TheoremApplication.m_conclusions thm))
                 | Ok false =>
                     Exists (λ h, ¬ proved s2 h) (TheoremApplication.m_hypotheses thm)
                     ∧ s' = s2 ∧ r = Ok ()
                 | Throw msg => s' = s2 ∧ r = Throw msg
                 | Undefined => s' = s2 ∧ r = Undefined
                 | OutOfFuel => s' = s2 ∧ r = OutOfFuel
                 end))).
Proof.
  intros Hthm Hadv. unfold advance_theorem in Hadv.
  rewrite sr_bind_eq in Hadv. unfold theorem_application_at at 1 in Hadv.
  rewrite Hthm in Hadv.
  destruct (decide (TheoremApplication.m_state thm = PENDING)) as [Hpending|Hnot].
  2: { injection Hadv as <- <-. split; [done|]. by intros ?. }
  split; [by intros ?|]. intros _.
  rewrite sr_bind_eq in Hadv. unfold advance_proof at 1 in Hadv.
  rewrite Hthm, decide_True in Hadv by done. rewrite sr_bind_eq in Hadv.
  pose proof (conclusions_loop_spec (TheoremApplication.m_conclusions thm) true s)
    as [Hst Hres].
  pose proof (for_each_make_progress_evolves (TheoremApplication.m_conclusions thm) s)
    as Hev1.
  destruct (for_each make_progress (TheoremApplication.m_conclusions thm) s)
    as [s1 r1] eqn:Hfor.
  destruct (conclusions_loop (TheoremApplication.m_conclusions thm) true s)
    as [s1' rb] eqn:Hloop.
  simpl in Hst, Hres, Hev1. subst s1'.
  exists s1, r1. split; [done|]. split; [done|].
  assert (m_theorem_applications s1 !! ind = Some thm) as Hthm1.
  { destruct Hev1 as (_ & -> & _). done. }
  destruct rb as [[|]| | |].
  - (* every conclusion is proved *)
    destruct Hres as (-> & Htrue & _). destruct (Htrue eq_refl) as [_ Hall].
    cbn [sr_modify] in Hadv. rewrite sr_bind_eq in Hadv.
    unfold theorem_application_at in Hadv.
    rewrite (application_state_update _ _ _ _ Hthm1) in Hadv.
    rewrite decide_False in Hadv by done. injection Hadv as <- <-.
    split; [done|]. intros _. split; [done|]. by intros [].
  - (* some conclusion is not proved *)
    destruct Hres as (-> & _ & Hflag).
    split; [done|]. intros _. split.
    { intros Hall Hnd. by specialize (Hflag eq_refl Hnd Hall). }
    intros _. rewrite sr_bind_eq in Hadv.
    pose proof (hypotheses_loop_spec (TheoremApplication.m_hypotheses thm) s1) as Hhyp.
    pose proof (hypotheses_loop_evolves (TheoremApplication.m_hypotheses thm) s1) as Hev2.
    destruct (hypotheses_loop (TheoremApplication.m_hypotheses thm) s1)
      as [s2 r2] eqn:Hh.
    simpl in Hhyp, Hev2. exists s2, r2. split; [done|].
    assert (m_theorem_applications s2 !! ind = Some thm) as Hthm2.
    { destruct Hev2 as (_ & -> & _). done. }
    destruct r2 as [[|]| | |]; try (by injection Hadv as <- <-).
    + cbn [sr_modify] in Hadv. rewrite sr_bind_eq in Hadv.
      unfold theorem_application_at in Hadv.
      rewrite (application_state_update _ _ _ _ Hthm2) in Hadv.
      rewrite decide_True in Hadv by done. cbn [TheoremApplication.with_state
        TheoremApplication.m_conclusions] in Hadv.
      pose proof (establish_all_spec ind (TheoremApplication.m_conclusions thm)
                    (update_theorem_application ind
                       (TheoremApplication.with_state PROVED) s2)) as [Hev3 Hall3].
      rewrite Hadv in Hev3, Hall3. simpl in Hev3, Hall3.
      split_and!; [done | | done | done].
      unfold application_state. destruct Hev3 as (_ & -> & _).
      by rewrite (application_state_update _ _ _ _ Hthm2).
    + cbn [mret SR_ret sr_ret] in Hadv. rewrite sr_bind_eq in Hadv.
      unfold theorem_application_at in Hadv. rewrite Hthm2 in Hadv.
      rewrite decide_False in Hadv by (by rewrite Hpending).
      by injection Hadv as <- <-.
  - rewrite Hres. injection Hadv as <- <-. split; [done|]. by intros ?.
  - rewrite Hres. injection Hadv as <- <-. split; [done|]. by intros ?.
  - rewrite Hres. injection Hadv as <- <-. split; [done|]. by intros ?.
Qed.

End theorem_application.





Section solver_passes.
Context {Statement : Type} `{SolverEnv Statement}.
#[local] Abbreviation Solver := (DDARSolver Statement).
#[local] Abbreviation M := (SR Solver).







(** [nnrat2rat] changes nothing below [2^63]. *)
Lemma nnrat2rat_small (r : Qc) :
  (0 ≤ Qnum (this r) < 2 ^ 63)%Z → (Zpos (Qden (this r)) < 2 ^ 63)%Z →
  nnrat2rat r = r.
Proof.
  intros Hn Hd. unfold nnrat2rat, Int_of_Nat.
  rewrite !Z.mod_small by lia.
  replace (Qnum (this r) + 2 ^ 63 - 2 ^ 63)%Z with (Qnum (this r)) by lia.
  replace (Z.pos (Qden (this r)) + 2 ^ 63 - 2 ^ 63)%Z
    with (Z.pos (Qden (this r))) by lia.
  cbn [Z.sgn Z.abs Z.to_pos].
  apply Qc_is_canon. cbn [this Q2Qc]. rewrite Qred_correct.
  destruct r as [[n d] Hc]. cbn. unfold Qeq. cbn.
  change (Z.to_pos (Z.abs (Z.pos d))) with d. lia.
Qed.

(** The two casts undo each other on a negative number: [rat2nnrat] sends
    [-2] to [2^64 - 2], which [nnrat2rat] sends back to [-2], so that the
    equation of the ratio [2^64 - 2] between [d0] and [d1] is
    [d0 + 2 d1 = 0]. *)
Example casts_wrap_around :
  rat2nnrat (q (-2) 1) = q (2 ^ 64 - 2) 1
  ∧ nnrat2rat (q (2 ^ 64 - 2) 1) = q (-2) 1
  ∧ as_equation_squared_dist (mkRatioSquaredDist 0 1 (q (2 ^ 64 - 2) 1))
    = mkEquation [(0%nat, q 1 1); (1%nat, q 2 1)] 0.
Proof. split_and!; by_evaluation. Qed.


Lemma saturate_returns (Inv : Solver → Prop) levels max_pt (s : Solver) :
  (∀ pt s0, Inv s0 → ∃ s1 b, run_level pt s0 = (s1, Ok b) ∧ Inv s1) →
  Inv s → ∃ s', saturate levels max_pt s = (s', Ok ()) ∧ Inv s'.
Proof.
  intros Hlevel. revert s. induction levels as [|levels IH]; intros s Hs.
  { by exists s. }
  cbn [saturate]. rewrite sr_bind_eq.
  destruct (Hlevel max_pt s Hs) as (s1 & b & -> & Hs1).
  destruct b; [by apply IH | by exists s1].
Qed.

(** X22.  For a solver whose problem has no goal: if [run] returns, it
    returns [true], the flag [m_solved] is set and [print_json] reports
    the status "solved", whatever happened in the levels; and [run] does
    return whenever the calls of [run_level] do (on the states that
    satisfy an invariant [Inv] of [run_level], if one is needed).  Hence,
    after a call of [run] that returned, the status "saturated" is only
    reported for a problem with a goal. *)
Theorem run_without_goals (s : Solver) (max_levels : nat) :
  goals (m_problem s) = [] →
  (∀ b, (run max_levels s).2 = Ok b →
     b = true
     ∧ m_solved (run max_levels s).1 = true
     ∧ json_status (run max_levels s).1 = "solved"%string)
  ∧ (∀ Inv : Solver → Prop,
       (∀ pt s0, Inv s0 → ∃ s1 b, run_level pt s0 = (s1, Ok b) ∧ Inv s1) →
       Inv s →
       (run max_levels s).2 = Ok true)
  ∧ (∀ (s0 : Solver) levels b,
       (run levels s0).2 = Ok b →
       json_status (run levels s0).1 = "saturated"%string →
       goals (m_problem s0) ≠ []).
Proof.
  intros Hgoals.
  assert (∀ (s0 : Solver) levels b,
            goals (m_problem s0) = [] → (run levels s0).2 = Ok b →
            b = true ∧ m_solved (run levels s0).1 = true) as Hrun.
  { intros s0 levels b Hg. unfold run. rewrite sr_bind_eq. cbn [sr_get].
    rewrite Hg, !sr_bind_eq.
    destruct (for_each (saturate levels) (all_points (m_problem s0)) s0)
      as [s1 [[]| | |]]; try done.
    cbn [sr_modify sr_get set_solved m_solved snd fst]. by intros [= <-]. }
  split_and!.
  - intros b Hb. destruct (Hrun s max_levels b Hgoals Hb) as [-> Hsolved].
    split_and!; [done | done |]. unfold json_status. by rewrite Hsolved.
  - intros Inv Hlevel Hs. unfold run. rewrite sr_bind_eq. cbn [sr_get].
    rewrite Hgoals, !sr_bind_eq.
    assert (∀ pts s0, Inv s0 →
              ∃ s1, for_each (saturate max_levels) pts s0 = (s1, Ok ()) ∧ Inv s1)
      as Hpts.
    { induction pts as [|pt pts IH]; intros s0 Hs0; [by exists s0|].
      cbn [for_each]. rewrite sr_bind_eq.
      destruct (saturate_returns Inv max_levels pt s0 Hlevel Hs0) as (s1 & -> & Hs1).
      by apply IH. }
    destruct (Hpts (all_points (m_problem s)) s Hs) as (s1 & -> & _). done.
  - intros s0 levels b Hb Hstatus Hg.
    destruct (Hrun s0 levels b Hg Hb) as [_ Hsolved].
    unfold json_status in Hstatus. by rewrite Hsolved in Hstatus.
Qed.

End solver_passes.

(** ** The examples of the driver *)

(** An application that gets proved: with [d0 = 2 d2] and [d1 = 6 d2] assumed, the
    application whose hypotheses are these two statements and whose
    conclusion is known to no engine becomes [PROVED], and its conclusion
    is proved by the theorem number 0. *)
Lemma example_with_theorem_lookup :
  m_theorem_applications example_with_theorem !! 0%nat
  = Some (TheoremApplication.mk PENDING [65; 67] [7] 2).
Proof. vm_compute. reflexivity. Qed.

Lemma example_with_theorem_conclusions :
  (for_each make_progress [7%nat] example_with_theorem).2 = Ok ().
Proof. vm_compute. reflexivity. Qed.

Lemma example_with_theorem_unproved :
  ¬ Forall (proved (for_each make_progress [7%nat] example_with_theorem).1) [7%nat].
Proof.
  intros Hall. apply Forall_cons in Hall as [Hp _]. vm_compute in Hp. by apply Hp.
Qed.

Lemma example_with_theorem_hypotheses :
  (hypotheses_loop [65; 67]%nat
     (for_each make_progress [7%nat] example_with_theorem).1).2 = Ok true.
Proof. vm_compute. reflexivity. Qed.

Lemma example_with_theorem_returns :
  (advance_theorem 0 example_with_theorem).2 = Ok ().
Proof. vm_compute. reflexivity. Qed.

Lemma example_with_theorem_marked :
  StatementProof.m_state
    (m_statement_proofs (advance_theorem 0 example_with_theorem).1 7)
  = PROVED_BY_THEOREM.
Proof. vm_compute. reflexivity. Qed.

Lemma theorem_application_state_machine_witness :
  application_state (advance_theorem 0 example_with_theorem).1 0 = Some PROVED
  ∧ Forall (proved (advance_theorem 0 example_with_theorem).1) [7%nat]
  ∧ StatementProof.m_state
      (m_statement_proofs (advance_theorem 0 example_with_theorem).1 7)
    = PROVED_BY_THEOREM.
Proof.
  pose proof (theorem_application_state_machine example_with_theorem
                (advance_theorem 0 example_with_theorem).1 0
                (TheoremApplication.mk PENDING [65; 67] [7] 2)
                (advance_theorem 0 example_with_theorem).2
                example_with_theorem_lookup (surjective_pairing _)) as [_ Hth].
  destruct (Hth eq_refl) as (s1 & r1 & Hfor & _ & _ & Hok).
  change (TheoremApplication.m_conclusions _) with [7%nat] in Hfor, Hok.
  change (TheoremApplication.m_hypotheses _) with [65%nat; 67%nat] in Hok.
  pose proof (f_equal fst Hfor) as Hs1. pose proof (f_equal snd Hfor) as Hr1.
  change (fst (s1, r1)) with s1 in Hs1. change (snd (s1, r1)) with r1 in Hr1.
  subst s1 r1. rewrite example_with_theorem_conclusions in Hok.
  destruct (Hok eq_refl) as [_ Hhyps].
  destruct (Hhyps example_with_theorem_unproved) as (s2 & r2 & Hloop & Hres).
  pose proof (f_equal snd Hloop) as Hr2. change (snd (s2, r2)) with r2 in Hr2.
  subst r2. rewrite example_with_theorem_hypotheses in Hres.
  destruct Hres as (_ & Hstate & _ & Hall).
  split_and!;
    [exact Hstate | exact (Hall example_with_theorem_returns)
    | exact example_with_theorem_marked].
Defined.

(** A proposal inserted against the numerical check: with [d0 = 2 d2] and [d1 = 6 d2] assumed and a
    numerical check that rejects everything, the [Ratio] engine proposes
    [d0 : d1] (with the ratio one); the proposal is not in the cache; the
    pass reduces it, reads the ratio [1/3] off the remainder, inserts the
    statement [d0 : d1 = 1/3] (at the address 33), and [make_progress]
    establishes it (by squared length chasing, the first engine that
    solves it). *)
Lemma ratio_proposal_inserted_unchecked :
  generate_suspected_ratio_squared_dist SinOrDist
    (m_system SinOrDist example_two_ratios)
  = Ok [mkRatioSquaredDist 0 2 1; mkRatioSquaredDist 0 1 1; mkRatioSquaredDist 1 2 1]
  ∧ (0%nat, 1%nat) ∉ m_ratio_squared_dist_found example_two_ratios
  ∧ check_numerically (mkRatioSquaredDist 0 1 1) = false
  ∧ check_numerically (mkRatioSquaredDist 0 1 (q 1 3)) = false
  ∧ (process_ratio_squared_dist example_two_ratios).2 = Ok ()
  ∧ m_established_statements example_two_ratios = [65%nat; 67%nat]
  ∧ m_established_statements (process_ratio_squared_dist example_two_ratios).1
    = [65%nat; 67%nat; 33%nat]
  ∧ StatementProof.m_state
      (m_statement_proofs (process_ratio_squared_dist example_two_ratios).1 33)
    = PROVED_AR_SQUARE_DIST.
Proof. split_and!; by vm_compute. Qed.

(** A found value read as zero: the [Ratio] engine has found the squared
    distance [d0], with the value [2^(1/2)], which [as_nnrat] reads as
    zero; the pass raises no error, generates no statement and forgets
    the variable. *)
Lemma ratio_engine_zero_value_no_error :
  m_found_variables (m_system SinOrDist example_root) = {[0%nat]}
  ∧ is_sin 0 = false
  ∧ ((λ row, rhs (rhs row))
       <$> (m_echelon_form (m_system SinOrDist example_root) !! 0%nat))
    = Some (mkRootRat [(2%nat, q 1 2)])
  ∧ as_nnrat (mkRootRat [(2%nat, q 1 2)]) = Ok 0
  ∧ (process_squared_dist_eq example_root).2 = Ok ()
  ∧ m_established_statements (process_squared_dist_eq example_root).1 = []
  ∧ m_eqns SquaredDist (process_squared_dist_eq example_root).1 = []
  ∧ m_found_variables (m_system SinOrDist (process_squared_dist_eq example_root).1) = ∅.
Proof.
  split_and!; try by vm_compute.
  all: by_evaluation.
Qed.









Lemma example_two_ratios_run : (run 2 example_two_ratios).2 = Ok true.
Proof. vm_compute. reflexivity. Qed.

(** A run without goal: the solver with [d0 = 2 d2] and [d1 = 6 d2] assumed
    has no goal; [run] returns [true] and the status is "solved". *)
Lemma run_without_goals_witness :
  (run 2 example_two_ratios).2 = Ok true
  ∧ m_solved (run 2 example_two_ratios).1 = true
  ∧ json_status (run 2 example_two_ratios).1 = "solved"%string.
Proof.
  split; [exact example_two_ratios_run|].
  exact (proj2 (proj1 (run_without_goals example_two_ratios 2 eq_refl)
                  true example_two_ratios_run)).
Defined.

(** * Normalisation of [cong] and [rconst] *)

Lemma Qc_inv_inv (c : Qc) : c ≠ 0 → 1 / (1 / c) = c.
Proof.
  intros Hc. pose proof (Qc_inv_nonzero c Hc) as Hi.
  transitivity (c * (1 / c) * (1 / (1 / c))).
  - rewrite (Qc_mul_inv c Hc). ring.
  - rewrite <-Qcmult_assoc, (Qc_mul_inv (1 / c) Hi). ring.
Qed.

Lemma Dist_lt_irrefl (a : Dist.t) : ¬ Dist.lt a a.
Proof. unfold Dist.lt. lia. Qed.

Lemma Dist_lt_asym (a b : Dist.t) : Dist.lt a b → ¬ Dist.lt b a.
Proof. unfold Dist.lt. lia. Qed.

Lemma Dist_lt_total (a b : Dist.t) : a ≠ b → ¬ Dist.lt a b → Dist.lt b a.
Proof.
  destruct a as [l1 r1], b as [l2 r2]. unfold Dist.lt. simpl. intros Hne Hnlt.
  destruct (decide (l1 = l2)) as [->|?]; [|lia].
  destruct (decide (r1 = r2)) as [->|?]; [done | lia].
Qed.

(** X16.  [DistEqDist::normalize] is idempotent.
    For [RatioDistEquals::normalize], when it returns (it throws if it
    has to invert the ratio zero): with two different distances the
    result is normalised; with twice the same distance the ratio is
    inverted, and inverted back by the second call, which returns the
    statement one started from: the result is normalised only if the
    ratio is its own inverse. *)
Theorem normalize_twice (c : DistEqDist.t) (p : RatioDistEquals.t) :
  DistEqDist.normalize (DistEqDist.normalize c) = DistEqDist.normalize c
  ∧ (∀ n, RatioDistEquals.normalize p = Ok n →
       (RatioDistEquals.m_left p ≠ RatioDistEquals.m_right p →
        RatioDistEquals.normalize n = Ok n)
       ∧ (RatioDistEquals.m_left p = RatioDistEquals.m_right p →
          n = RatioDistEquals.mk (RatioDistEquals.m_left p)
                (RatioDistEquals.m_left p) (1 / RatioDistEquals.m_ratio p)
          ∧ RatioDistEquals.normalize n = Ok p
          ∧ (RatioDistEquals.normalize n = Ok n
             ↔ RatioDistEquals.m_ratio p = 1 / RatioDistEquals.m_ratio p)))
  ∧ ((∀ n, RatioDistEquals.normalize p ≠ Ok n)
     ↔ ¬ Dist.lt (RatioDistEquals.m_left p) (RatioDistEquals.m_right p)
       ∧ RatioDistEquals.m_ratio p = 0).
Proof.
  split_and!.
  - unfold DistEqDist.normalize. destruct c as [l r]. simpl.
    destruct (decide (Dist.lt r l)) as [Hlt|Hnlt]; simpl.
    + rewrite decide_False; [done | by apply Dist_lt_asym].
    + by rewrite decide_False.
  - intros n Hn. destruct p as [l r x]. unfold RatioDistEquals.normalize in *.
    simpl in *. split.
    + intros Hne. destruct (decide (Dist.lt l r)) as [Hlt|Hnlt].
      * injection Hn as <-. simpl. by rewrite decide_True.
      * unfold RatioDistEquals.swap in Hn. simpl in Hn.
        destruct (decide (x = 0)); [done|]. injection Hn as <-. simpl.
        rewrite decide_True; [done | by apply Dist_lt_total].
    + intros <-. rewrite decide_False in Hn by apply Dist_lt_irrefl.
      unfold RatioDistEquals.swap in *. simpl in Hn.
      destruct (decide (x = 0)) as [|Hx]; [done|]. injection Hn as <-. simpl.
      rewrite decide_False by apply Dist_lt_irrefl. simpl.
      rewrite decide_False by (by apply Qc_inv_nonzero).
      rewrite (Qc_inv_inv x Hx). split_and!; [done | done |].
      split; [by intros [= Heq] | intros Heq; do 2 f_equal; exact Heq].
  - destruct p as [l r x]. unfold RatioDistEquals.normalize, RatioDistEquals.swap.
    simpl. split.
    + intros Hno. destruct (decide (Dist.lt l r)); [by edestruct Hno|].
      destruct (decide (x = 0)); [done | by edestruct Hno].
    + intros [Hnlt ->] n. by rewrite decide_False, decide_True.
Qed.

(** Twice the same distance: [rconst A B A B 2] normalises to
    [rconst A B A B 1/2], which normalises back to [rconst A B A B 2]. *)
Example rconst_same_atoms_not_idempotent :
  RatioDistEquals.normalize RatioDistEquals.same_atoms
  = Ok (RatioDistEquals.mk (Dist.make 0 1) (Dist.make 0 1) (q 1 2))
  ∧ RatioDistEquals.normalize
      (RatioDistEquals.mk (Dist.make 0 1) (Dist.make 0 1) (q 1 2))
    = Ok RatioDistEquals.same_atoms
  ∧ RatioDistEquals.same_atoms
    ≠ RatioDistEquals.mk (Dist.make 0 1) (Dist.make 0 1) (q 1 2).
Proof. split_and!; [by_evaluation | by_evaluation | by vm_compute]. Qed.

(** * Bucketing *)

Section bucket_facts.
Context {Item : Type} (key_fun : Item → float).
Implicit Types (items current rest done : list Item) (bs : list (list Item)).

Lemma walk_group done current rest sk lk :
  Bucket.walk key_fun (done ++ current ++ rest) rest
    (length done + length current) (length done) sk lk
  = Bucket.group key_fun current rest sk lk.
Proof.
  revert done current sk lk.
  induction rest as [|item rest IH]; intros done current sk lk.
  { cbn [Bucket.walk Bucket.group]. by rewrite drop_app_length, app_nil_r. }
  cbn [Bucket.walk Bucket.group]. cbv zeta.
  destruct (Bucket.within lk (key_fun item)) eqn:Hkeep.
  - f_equal.
    specialize (IH done (current ++ [item]) sk (key_fun item)).
    rewrite length_app in IH. cbn [length] in IH.
    replace (length done + (length current + 1))%nat
      with (S (length done + length current)) in IH by lia.
    by rewrite <-(assoc_L (++)) in IH.
  - f_equal.
    + f_equal. rewrite drop_app_length.
      replace (length done + length current - length done)%nat
        with (length current) by lia.
      by rewrite take_app_length.
    + specialize (IH (done ++ current) [item] (key_fun item) (key_fun item)).
      rewrite length_app in IH. cbn [length] in IH.
      replace (length done + length current + 1)%nat
        with (S (length done + length current)) in IH by lia.
      rewrite <-IH. f_equal. by rewrite <-(assoc_L (++)).
Qed.

Lemma foreach_bucket_group first rest :
  Bucket.foreach_bucket key_fun (first :: rest)
  = Bucket.group key_fun [first] rest (key_fun first) (key_fun first).
Proof. exact (walk_group [] [first] rest (key_fun first) (key_fun first)). Qed.

Lemma callbacks_app (e1 e2 : list (Bucket.event Item)) :
  Bucket.callbacks (e1 ++ e2) = Bucket.callbacks e1 ++ Bucket.callbacks e2.
Proof. unfold Bucket.callbacks. apply omap_app. Qed.

Lemma callbacks_cons b (events : list (Bucket.event Item)) :
  Bucket.callbacks (Bucket.Callback b :: events) = b :: Bucket.callbacks events.
Proof. reflexivity. Qed.

Lemma warnings_cons b (events : list (Bucket.event Item)) :
  Bucket.warnings (Bucket.Callback b :: events) = Bucket.warnings events.
Proof. unfold Bucket.warnings. by rewrite filter_cons_False. Qed.

Lemma warnings_warning (events : list (Bucket.event Item)) :
  Bucket.warnings (Bucket.Warning :: events) = S (Bucket.warnings events).
Proof. unfold Bucket.warnings. by rewrite filter_cons_True. Qed.

Lemma warnings_nil : Bucket.warnings (@nil (Bucket.event Item)) = 0%nat.
Proof. reflexivity. Qed.

Lemma warnings_app (e1 e2 : list (Bucket.event Item)) :
  Bucket.warnings (e1 ++ e2) = (Bucket.warnings e1 + Bucket.warnings e2)%nat.
Proof. unfold Bucket.warnings. by rewrite filter_app, length_app. Qed.

Lemma Sorted_snoc {A} (R : A → A → Prop) (l : list A) x y :
  Sorted R l → last l = Some x → R x y → Sorted R (l ++ [y]).
Proof.
  intros Hs Hlast Hxy. induction Hs as [|a l Hs IH Hhd]; [done|].
  destruct l as [|b l].
  { injection Hlast as ->. repeat constructor. done. }
  cbn [app]. constructor.
  - apply IH. by rewrite last_cons_cons in Hlast.
  - constructor. by inversion Hhd.
Qed.

(** The buckets that the loop passes to the callback, from a bucket
    [current] being built (not empty, its items linked, [lk] the key of its
    last item) and the items [rest] still to come. *)
Lemma group_buckets current rest sk lk x :
  last current = Some x → lk = key_fun x →
  Sorted (Bucket.linked key_fun) current →
  ∃ more bs,
    Bucket.callbacks (Bucket.group key_fun current rest sk lk)
    = (current ++ more) :: bs
    ∧ concat ((current ++ more) :: bs) = current ++ rest
    ∧ Forall (λ b, b ≠ []) bs
    ∧ Forall (Sorted (Bucket.linked key_fun)) ((current ++ more) :: bs)
    ∧ Sorted (Bucket.split_at key_fun) ((current ++ more) :: bs).
Proof.
  revert current sk lk x.
  induction rest as [|item rest IH]; intros current sk lk x Hlast -> Hs.
  { exists [], []. cbn. rewrite !app_nil_r. split_and!; try done.
    - by repeat constructor.
    - by repeat constructor. }
  cbn [Bucket.group]. cbv zeta.
  destruct (Bucket.within (key_fun x) (key_fun item)) eqn:Hkeep.
  - rewrite callbacks_app.
    replace (Bucket.callbacks
               (if Bucket.overflow sk (key_fun item)
                then [Bucket.Warning] else []))
      with (@nil (list Item)) by (by destruct (Bucket.overflow _ _)).
    destruct (IH (current ++ [item]) sk (key_fun item) item)
      as (more & bs & Hcb & Hcat & Hne & Hlinked & Hsplit).
    + by rewrite last_snoc.
    + done.
    + by eapply Sorted_snoc.
    + exists (item :: more), bs.
      rewrite <-(assoc_L (++)) in Hcb. rewrite <-(assoc_L (++)) in Hcat.
      rewrite <-(assoc_L (++)) in Hlinked. rewrite <-(assoc_L (++)) in Hsplit.
      cbn [app] in *. split_and!; try done.
      rewrite Hcat. by rewrite <-(assoc_L (++)).
  - destruct (IH [item] (key_fun item) (key_fun item) item)
      as (more & bs & Hcb & Hcat & Hne & Hlinked & Hsplit);
      [done | done | by repeat constructor |].
    exists [], (([item] ++ more) :: bs). rewrite app_nil_r.
    rewrite callbacks_cons, Hcb. split_and!.
    + done.
    + cbn [concat] in *. by rewrite Hcat.
    + by constructor.
    + by constructor.
    + constructor; [done|]. constructor.
      intros a b Ha Hb. rewrite Hlast in Ha. injection Ha as <-.
      cbn in Hb. injection Hb as <-. unfold Bucket.linked.
      by rewrite Hkeep.
Qed.

Lemma overflows_snoc current first item :
  head current = Some first →
  Bucket.overflows key_fun (current ++ [item])
  = Nat.add (Bucket.overflows key_fun current)
      (if Bucket.overflow (key_fun first) (key_fun item)
       then 1%nat else 0%nat).
Proof.
  destruct current as [|a others]; [done|]. intros [= ->].
  cbn [app Bucket.overflows]. rewrite filter_app, length_app. f_equal.
  rewrite filter_cons.
  by destruct (Bucket.overflow (key_fun first) (key_fun item)).
Qed.

(** The warnings are the items that overflow their bucket. *)
Lemma group_warnings current rest sk lk first :
  head current = Some first → sk = key_fun first →
  (Bucket.warnings (Bucket.group key_fun current rest sk lk)
   + Bucket.overflows key_fun current)%nat
  = sum_list (Bucket.overflows key_fun
              <$> Bucket.callbacks (Bucket.group key_fun current rest sk lk)).
Proof.
  revert current lk first sk. induction rest as [|item rest IH];
    intros current lk first sk Hhead ->.
  { cbn [Bucket.group]. rewrite warnings_cons, callbacks_cons, warnings_nil.
    cbn. lia. }
  cbn [Bucket.group]. cbv zeta.
  destruct (Bucket.within lk (key_fun item)) eqn:Hkeep.
  - rewrite callbacks_app, warnings_app.
    replace (Bucket.callbacks
               (if Bucket.overflow (key_fun first) (key_fun item)
                then [Bucket.Warning] else []))
      with (@nil (list Item)) by (by destruct (Bucket.overflow _ _)).
    cbn [app].
    rewrite <-(IH (current ++ [item]) (key_fun item) first (key_fun first));
      [|by destruct current | done].
    rewrite (overflows_snoc current first item Hhead).
    destruct (Bucket.overflow (key_fun first) (key_fun item));
      rewrite ?warnings_warning, warnings_nil; lia.
  - rewrite callbacks_cons, warnings_cons, fmap_cons.
    cbn [sum_list_with].
    rewrite <-(IH [item] (key_fun item) item (key_fun item)) by done.
    cbn [Bucket.overflows filter list_filter length]. unfold id. lia.
Qed.

Lemma sum_list_elem_of (l : list nat) n : n ∈ l → (n ≤ sum_list l)%nat.
Proof.
  induction 1 as [n l|n m l _ IH]; cbn [sum_list_with]; unfold id; [lia|].
  unfold id in IH. lia.
Qed.

Lemma overflows_spans first others final :
  last others = Some final →
  Bucket.overflow (key_fun first) (key_fun final) = true →
  (0 < Bucket.overflows key_fun (first :: others))%nat.
Proof.
  intros Hlast Hspan. cbn [Bucket.overflows].
  assert (final ∈ filter (λ x, Bucket.overflow (key_fun first) (key_fun x) = true)
                    others) as Hin.
  { apply list_elem_of_filter. split; [done|].
    by apply last_Some_elem_of. }
  destruct (filter _ others); [by apply elem_of_nil in Hin | cbn; lia].
Qed.

(** X12.  [foreach_bucket] cuts the items into buckets: the spans passed
    to the callback, one after the other, are the items, in order; no span
    is empty; with no item the callback is not called and nothing is
    logged. *)
Theorem foreach_bucket_partition (items : list Item) :
  concat (Bucket.callbacks (Bucket.foreach_bucket key_fun items)) = items
  ∧ Forall (λ b, b ≠ []) (Bucket.callbacks (Bucket.foreach_bucket key_fun items))
  ∧ (Bucket.foreach_bucket key_fun items = [] ↔ items = []).
Proof.
  destruct items as [|first rest].
  { by split_and!. }
  rewrite foreach_bucket_group.
  destruct (group_buckets [first] rest (key_fun first) (key_fun first) first)
    as (more & bs & Hcb & Hcat & Hne & _); [done | done | by repeat constructor |].
  rewrite Hcb. split_and!; [done | by constructor |].
  split; [|done]. intros Hnil. by rewrite Hnil in Hcb.
Qed.

(** X13.  The rule of the buckets, in the arithmetic of [double]: inside
    a span, every item passes the test [key < last_key + EPS] against the
    key of the item before it; between the last item of a span and the
    first of the next, the test fails.  (The key at which the bucket
    started plays no part.) *)
Theorem foreach_bucket_chain (items : list Item) :
  Forall (Sorted (Bucket.linked key_fun))
    (Bucket.callbacks (Bucket.foreach_bucket key_fun items))
  ∧ Sorted (Bucket.split_at key_fun)
      (Bucket.callbacks (Bucket.foreach_bucket key_fun items)).
Proof.
  destruct items as [|first rest].
  { split; constructor. }
  rewrite foreach_bucket_group.
  destruct (group_buckets [first] rest (key_fun first) (key_fun first) first)
    as (more & bs & Hcb & _ & _ & Hlinked & Hsplit);
    [done | done | by repeat constructor |].
  by rewrite Hcb.
Qed.

(** X14.  The warnings: one is logged for every item, not the first of
    its span, that passes the test [key >= start_bucket_key + 10 * EPS]
    against the key of the first item of the span; so a span of two items
    or more whose last item passes that test has been warned about. *)
Theorem foreach_bucket_warnings (items : list Item) :
  Bucket.warnings (Bucket.foreach_bucket key_fun items)
  = sum_list (Bucket.overflows key_fun
              <$> Bucket.callbacks (Bucket.foreach_bucket key_fun items))
  ∧ (∀ first others final,
       first :: others ∈ Bucket.callbacks (Bucket.foreach_bucket key_fun items) →
       last others = Some final →
       Bucket.overflow (key_fun first) (key_fun final) = true →
       (0 < Bucket.warnings (Bucket.foreach_bucket key_fun items))%nat).
Proof.
  assert (Bucket.warnings (Bucket.foreach_bucket key_fun items)
          = sum_list (Bucket.overflows key_fun
                      <$> Bucket.callbacks (Bucket.foreach_bucket key_fun items)))
    as Hcount.
  { destruct items as [|first rest]; [done|].
    rewrite foreach_bucket_group.
    rewrite <-(group_warnings [first] rest (key_fun first) (key_fun first) first)
      by done.
    cbn [Bucket.overflows filter list_filter length]. lia. }
  split; [done|]. intros first others final Hb Hlast Hspan.
  rewrite Hcount.
  pose proof (overflows_spans first others final Hlast Hspan) as Hov.
  assert (Bucket.overflows key_fun (first :: others)
          ∈ Bucket.overflows key_fun
            <$> Bucket.callbacks (Bucket.foreach_bucket key_fun items)) as Hin.
  { by apply list_elem_of_fmap_2. }
  apply sum_list_elem_of in Hin. lia.
Qed.

End bucket_facts.

(** [EPS] is what [1 / 10^7] rounds to. *)
Example EPS_rounded : Bucket.EPS = (1 / 10000000)%float.
Proof. reflexivity. Qed.

(** Three keys with steps of [0.6 * 10^-7]: one bucket, though the third
    key fails the test against the first.  The keys [0.0] and [1e-7]: two
    buckets, [1e-7] being the sum [0.0 + EPS] itself.  Thirteen keys with
    steps of [0.9 * 10^-7]: one bucket and one warning.  A key so large
    that adding [10 * EPS] does not change it passes the test of the
    warning against itself, and a span of that one item logs nothing. *)
Example foreach_bucket_drifting :
  Bucket.callbacks (Bucket.foreach_bucket id Bucket.drifting) = [Bucket.drifting]
  ∧ Bucket.within (Bucket.e8 0) (Bucket.e8 12) = false
  ∧ Bucket.callbacks (Bucket.foreach_bucket id Bucket.at_the_bound)
    = [[Bucket.e8 0]; [Bucket.e8 10]]
  ∧ length (Bucket.callbacks
              (Bucket.foreach_bucket Bucket.e8
                 ((λ n, 9 * n)%float
                  <$> [0; 1; 2; 3; 4; 5; 6; 7; 8; 9; 10; 11; 12]%float)))
    = 1%nat
  ∧ Bucket.warnings
      (Bucket.foreach_bucket Bucket.e8
         ((λ n, 9 * n)%float <$> [0; 1; 2; 3; 4; 5; 6; 7; 8; 9; 10; 11; 12]%float))
    = 1%nat
  ∧ Bucket.overflow 0x1p+60 0x1p+60 = true
  ∧ Bucket.foreach_bucket id [0x1p+60%float] = [Bucket.Callback [0x1p+60%float]].
Proof. split_and!; vm_compute; reflexivity. Qed.

(** * More on the engines *)

(** ** Linear combinations *)

(** X1.  [operator+] and [operator-] of [LinearCombination] on two
    combinations in canonical form (variables increasing, no zero
    coefficient): the result is in canonical form, and the coefficient of
    every variable is the sum, or the difference, of its coefficients in
    the operands; a term that cancels is not stored. *)
Theorem linear_combination_add_sub (a b : LC.t) :
  LC.wf a → LC.wf b →
  LC.wf (LC.add a b) ∧ LC.wf (LC.sub a b)
  ∧ (∀ v, LC.coeff (LC.add a b) v = LC.coeff a v + LC.coeff b v)
  ∧ (∀ v, LC.coeff (LC.sub a b) v = LC.coeff a v - LC.coeff b v)
  ∧ LC.sub a a = [].
Proof.
  intros Ha Hb. split_and!.
  - by apply wf_add.
  - by apply wf_sub.
  - intros v. by apply coeff_add.
  - intros v. by apply coeff_sub.
  - rewrite lc_sub_add_neg by done. by apply lc_add_neg.
Qed.

Lemma linear_combination_add_sub_witness :
  LC.add [(0%nat, q 1 1); (1%nat, q 2 1)] [(1%nat, q (-2) 1); (2%nat, q 1 1)]
  = [(0%nat, q 1 1); (2%nat, q 1 1)]
  ∧ LC.wf (LC.add [(0%nat, q 1 1); (1%nat, q 2 1)]
             [(1%nat, q (-2) 1); (2%nat, q 1 1)]).
Proof.
  split; [by_evaluation|].
  apply (linear_combination_add_sub
           [(0%nat, q 1 1); (1%nat, q 2 1)] [(1%nat, q (-2) 1); (2%nat, q 1 1)]);
    apply wfb_wf; vm_compute; reflexivity.
Defined.

Lemma common_denominator_fold (a : LC.t) (z : Z) :
  (0 < z)%Z →
  (0 < fold_left (λ res term, Z.lcm res (Zpos (Qden (this term.2)))) a z)%Z
  ∧ (z | fold_left (λ res term, Z.lcm res (Zpos (Qden (this term.2)))) a z)%Z
  ∧ ∀ v c, (v, c) ∈ a →
      (Zpos (Qden (this c))
       | fold_left (λ res term, Z.lcm res (Zpos (Qden (this term.2)))) a z)%Z.
Proof.
  revert z. induction a as [|[w d] a IH]; intros z Hz; cbn [fold_left].
  { split_and!; [done | done |]. intros v c Hin. by apply elem_of_nil in Hin. }
  assert (0 < Z.lcm z (Z.pos (Qden (this d))))%Z as Hpos.
  { pose proof (Z.lcm_nonneg z (Z.pos (Qden (this d)))) as Hnn.
    destruct (decide (Z.lcm z (Z.pos (Qden (this d))) = 0%Z)) as [Hz0|]; [|lia].
    apply Z.lcm_eq_0 in Hz0. lia. }
  destruct (IH _ Hpos) as (Hp & Hdiv & Hall). cbn [snd] in *.
  split_and!; [done | |].
  - etrans; [|exact Hdiv]. apply Z.divide_lcm_l.
  - intros v c Hin. apply elem_of_cons in Hin as [[= -> ->]|Hin].
    + etrans; [|exact Hdiv]. apply Z.divide_lcm_r.
    + by eapply Hall.
Qed.

(** X2.  [operator*=] keeps the canonical form and multiplies every
    coefficient; multiplying by zero empties the combination.
    [common_denominator] is positive and a multiple of the denominator of
    every coefficient. *)
Theorem linear_combination_scale (m : Qc) (a : LC.t) :
  LC.wf a →
  LC.wf (LC.scale m a)
  ∧ (∀ v, LC.coeff (LC.scale m a) v = LC.coeff a v * m)
  ∧ LC.scale 0 a = []
  ∧ LC.wf (LC.neg a)
  ∧ (0 < LC.common_denominator a)%Z
  ∧ (∀ v c, (v, c) ∈ a → (Zpos (Qden (this c)) | LC.common_denominator a)%Z).
Proof.
  intros Ha. split_and!.
  - by apply wf_scale.
  - intros v. apply coeff_scale.
  - apply lc_scale_zero.
  - by apply wf_neg.
  - by apply (common_denominator_fold a 1).
  - by apply (common_denominator_fold a 1).
Qed.

Lemma linear_combination_scale_witness :
  LC.wf (LC.scale (q 1 2) [(0%nat, q 1 3); (1%nat, q 3 4)])
  ∧ LC.common_denominator [(0%nat, q 1 3); (1%nat, q 3 4)] = 12%Z.
Proof.
  split; [|by vm_compute].
  apply (linear_combination_scale (q 1 2) [(0%nat, q 1 3); (1%nat, q 3 4)]).
  apply wfb_wf. vm_compute. reflexivity.
Defined.

(** ** Reduced equations *)

(** X4.  In a world reached by constructing, reducing and adding reduced
    equations, [reduce] returns; it keeps the original equation; the
    leading variable of the remainder, if any, is no pivot of the system;
    and reducing again changes nothing. *)
Theorem reduce_is_idempotent {R} `{Rhs R} (w : world R) i re :
  reachable w → w_reds w !! i = Some re →
  ∃ re', reduce (w_sys w) re = Ok re'
    ∧ reduce (w_sys w) re' = Ok re'
    ∧ m_original_eq re' = m_original_eq re
    ∧ (∀ v c tail, lhs (m_remainder re') = (v, c) :: tail →
         m_echelon_form (w_sys w) !! v = None).
Proof.
  intros Hw Hi.
  destruct (reachable_reduce_returns w i re Hw Hi) as (re' & Hred & Ho & Hstop).
  exists re'. split_and!; [done | | done |].
  - unfold reduce. cbn [reduce_loop].
    destruct (lhs (m_remainder re')) as [|[v c] tail]; [done|]. by rewrite Hstop.
  - intros v c tail Hl. by rewrite Hl in Hstop.
Qed.

Lemma len_world_reduced_reachable : reachable len_world_reduced.
Proof.
  eapply rtc_r; [apply len_world_reachable|].
  assert (reduce len_sys2 (ReducedEquation_new len_eq1) = Ok len_solved) as Hred
    by (vm_compute; reflexivity).
  exact (step_reduce len_sys2 (w_reds len_world) 1%nat _ _ eq_refl Hred).
Qed.

Lemma reduce_is_idempotent_witness :
  ∃ re', reduce len_sys2 (ReducedEquation_new len_eq1) = Ok re'
    ∧ reduce len_sys2 re' = Ok re'
    ∧ m_original_eq re' = len_eq1
    ∧ (∀ v c tail, lhs (m_remainder re') = (v, c) :: tail →
         m_echelon_form len_sys2 !! v = None).
Proof.
  exact (reduce_is_idempotent len_world 1%nat (ReducedEquation_new len_eq1)
           len_world_reachable eq_refl).
Defined.

Section engine_soundness.
Context {R : Type} `{RhsLaws R}.

(** X5.  Soundness of a solved equation.  In a domain whose right-hand
    sides form a vector space over the rationals and that does not take
    the branch of the angles, in a reachable world: if [is_solved] answers
    [true] for a reduced equation, its original equation is the sum of
    [coefficient * equation] over the terms of its recorded combination,
    which are equations of the system. *)
Theorem solved_equation_is_combination (w : world R) i re warnings :
  is_add_circle = false →
  reachable w → w_reds w !! i = Some re →
  is_solved (w_sys w) re = Ok (true, warnings) →
  evaluate (m_equations (w_sys w)) (lhs (m_linear_combination re))
  = Ok (m_original_eq re)
  ∧ in_range (length (m_equations (w_sys w))) (lhs (m_linear_combination re)).
Proof.
  intros Hang Hw Hi Hsolved.
  pose proof (reachable_world_sem w Hw) as Hsem.
  pose proof Hsem as [(Hv & _ & _) Hreds].
  pose proof (Forall_lookup_1 _ _ _ _ Hreds Hi)
    as [((_ & Hr & _) & _) ([Hvalid HL] & _ & Hvr & Hid)].
  split; [|done].
  rewrite evaluate_combine by done. rewrite <-HL.
  unfold is_solved in Hsolved. rewrite Hang in Hsolved.
  injection Hsolved as Hempty _. unfold is_empty in Hempty.
  apply andb_true_iff in Hempty as [Hl Hrz].
  apply bool_decide_eq_true in Hl, Hrz.
  assert (m_remainder re = eq_zero) as Hz.
  { destruct (m_remainder re) as [l r0]. simpl in *. by subst. }
  rewrite Hid, Hz. f_equal. symmetry. by apply eq_add_zero_r.
Qed.

(** X6.  Soundness of the echelon form, in the same domains: the row
    stored for a pivot carries, as its right-hand side, the equation that
    its left-hand side denotes, a sum of [coefficient * equation] over
    equations of the system. *)
Theorem echelon_rows_are_combinations (w : world R) v row :
  reachable w → m_echelon_form (w_sys w) !! v = Some row →
  evaluate (m_equations (w_sys w)) (lhs row) = Ok (rhs row)
  ∧ in_range (length (m_equations (w_sys w))) (lhs row)
  ∧ eq_valid (rhs row).
Proof.
  intros Hw Hrow.
  pose proof (reachable_world_sem w Hw) as [(Hv & Hech & _) _].
  destruct (Hech v row Hrow) as [[(_ & Hr & _) _] [Hvalid HL]].
  split_and!; [|done|done]. rewrite evaluate_combine by done. by rewrite HL.
Qed.

End engine_soundness.

Lemma len_solved_is_solved : is_solved len_sys2 len_solved = Ok (true, []).
Proof. vm_compute. reflexivity. Qed.

Lemma solved_equation_is_combination_witness :
  evaluate (m_equations len_sys2) (lhs (m_linear_combination len_solved))
  = Ok (m_original_eq len_solved)
  ∧ lhs (m_linear_combination len_solved) = [(0%nat, q 2 1)].
Proof.
  split; [|by_evaluation].
  exact (proj1 (solved_equation_is_combination (R := Qc) len_world_reduced 1%nat
                  len_solved [] eq_refl len_world_reduced_reachable eq_refl
                  len_solved_is_solved)).
Defined.

Lemma len_sys2_row :
  m_echelon_form len_sys2 !! 0%nat
  = Some (mkEquation [(0%nat, q 1 1); (1%nat, q (-2) 1)]
            (mkEquation [(0%nat, q 1 1)] (q 1 1))).
Proof. by_evaluation. Qed.

Lemma echelon_rows_are_combinations_witness :
  evaluate (m_equations len_sys2) [(0%nat, q 1 1); (1%nat, q (-2) 1)]
  = Ok (mkEquation [(0%nat, q 1 1)] (q 1 1)).
Proof.
  exact (proj1 (echelon_rows_are_combinations (R := Qc) len_world 0%nat _
                  len_world_reachable len_sys2_row)).
Defined.

(** * The driver, relation by relation *)

(** ** A relation kept by the leaves is kept by the driver *)

Section solver_relation.
Context {Statement : Type} `{SolverEnv Statement}.
#[local] Abbreviation Solver := (DDARSolver Statement).
#[local] Abbreviation M := (SR Solver).
Context (R : relation Solver) `{!PreOrder R}.
Hypothesis R_reduce_at : ∀ v i, respects R (reduce_at v i : M unit).
Hypothesis R_is_solved_at : ∀ v i, respects R (is_solved_at v i : M bool).
Hypothesis R_set_proved : ∀ pf st, respects R (set_proved pf st : M unit).
Hypothesis R_with_theorem :
  ∀ pf ind s, R s (update_proof pf (StatementProof.with_theorem ind) s).
Hypothesis R_application :
  ∀ ind st s,
    R s (update_theorem_application ind (TheoremApplication.with_state st) s).

Lemma try_engine_respects pf v (next : M unit) :
  respects R next → respects R (try_engine pf v next).
Proof.
  intros Hnext. unfold try_engine.
  apply respects_bind; [apply _ | apply respects_get, _ | intros [i|]; [|done]].
  apply respects_bind; [apply _ | apply R_reduce_at | intros _].
  apply respects_bind; [apply _ | apply R_is_solved_at | intros [|]; [|done]].
  apply R_set_proved.
Qed.

Lemma make_progress_respects pf : respects R (make_progress pf : M unit).
Proof.
  unfold make_progress.
  apply respects_bind; [apply _ | apply respects_get, _ | intros st].
  case_decide; [|apply respects_ret, _].
  do 4 apply try_engine_respects. apply respects_ret, _.
Qed.

Lemma conclusions_loop_respects pfs acc :
  respects R (conclusions_loop pfs acc : M bool).
Proof.
  revert acc. induction pfs as [|pf rest IH]; intros acc; [apply respects_ret, _|].
  cbn [conclusions_loop].
  apply respects_bind; [apply _ | apply make_progress_respects | intros _].
  apply respects_bind; [apply _ | apply respects_get, _ | intros p]. apply IH.
Qed.

Lemma hypotheses_loop_respects pfs : respects R (hypotheses_loop pfs : M bool).
Proof.
  induction pfs as [|pf rest IH]; [apply respects_ret, _|].
  cbn [hypotheses_loop].
  apply respects_bind; [apply _ | apply make_progress_respects | intros _].
  apply respects_bind; [apply _ | apply respects_get, _ | intros [|]]; [done|].
  apply respects_ret, _.
Qed.

Lemma advance_proof_respects ind : respects R (advance_proof ind : M unit).
Proof.
  intros s. unfold advance_proof.
  destruct (m_theorem_applications s !! ind) as [thm|]; [|reflexivity].
  case_decide; [|reflexivity].
  match goal with |- R ?s0 (?m ?s0).1 => generalize s0; change (respects R m) end.
  apply respects_bind; [apply _ | apply conclusions_loop_respects | intros [|]].
  { by apply respects_modify. }
  apply respects_bind; [apply _ | apply hypotheses_loop_respects | intros [|]].
  - by apply respects_modify.
  - apply respects_ret, _.
Qed.

Lemma set_theorem_respects pf ind : respects R (set_theorem pf ind : M unit).
Proof.
  unfold set_theorem.
  apply respects_bind; [apply _ | by apply respects_modify | intros _].
  apply R_set_proved.
Qed.

Lemma establish_statement_respects pf ind :
  respects R (establish_statement pf ind : M bool).
Proof.
  unfold establish_statement.
  apply respects_bind; [apply _ | apply respects_get, _ | intros [|]].
  { apply respects_ret, _. }
  apply respects_bind; [apply _ | apply make_progress_respects | intros _].
  apply respects_bind; [apply _ | apply respects_get, _ | intros p].
  apply respects_bind; [apply _ | | intros _; apply respects_ret, _].
  destruct p; [apply respects_ret, _ | apply set_theorem_respects].
Qed.

Lemma theorem_application_at_respects ind :
  respects R (theorem_application_at ind : M TheoremApplication.t).
Proof. intros s. unfold theorem_application_at. by case_match. Qed.

Lemma advance_theorem_respects ind : respects R (advance_theorem ind : M unit).
Proof.
  unfold advance_theorem.
  apply respects_bind; [apply _ | apply theorem_application_at_respects | intros thm].
  case_decide; [|apply respects_ret, _].
  apply respects_bind; [apply _ | apply advance_proof_respects | intros _].
  apply respects_bind; [apply _ | apply theorem_application_at_respects | intros thm'].
  case_decide; [|apply respects_ret, _].
  apply respects_for_each; [apply _|]. intros pf _.
  apply respects_bind; [apply _ | apply establish_statement_respects | intros _].
  apply respects_ret, _.
Qed.

(** The passes of a level call [insert_statement], clear the found
    variables of the engines and change the flag and the level as well. *)
Hypothesis R_core : ∀ s s', keeps_core s s' → R s s'.
Hypothesis R_insert : ∀ p, respects R (insert_statement p).
Hypothesis R_solved : ∀ b s, R s (set_solved b s).
Hypothesis R_level : ∀ s, R s (increment_level s).

Lemma prove_generated_respects p : respects R (prove_generated p : M unit).
Proof.
  unfold prove_generated.
  apply respects_bind; [apply _ | apply R_insert | intros pf].
  apply respects_bind; [apply _ | apply make_progress_respects | intros _].
  apply respects_bind; [apply _ | apply respects_get, _ | intros [|]].
  - apply respects_ret, _.
  - apply respects_throw, _.
Qed.

Lemma found_value_respects v var : respects R (found_value v var : M (RHSType v)).
Proof. intros s. unfold found_value. by case_match. Qed.

Lemma drain_respects v (body : nat → M unit) :
  (∀ var, respects R (body var)) → respects R (drain v body).
Proof.
  intros Hbody. unfold drain.
  apply respects_bind; [apply _ | apply respects_get, _ | intros vars].
  apply respects_bind; [apply _ | | intros _].
  { apply respects_for_each; [apply _ | auto]. }
  apply respects_modify. intros s. by apply R_core.
Qed.

Lemma process_squared_dist_eq_respects :
  respects R (process_squared_dist_eq : M unit).
Proof.
  unfold process_squared_dist_eq.
  apply respects_bind; [apply _ | | intros _].
  { apply drain_respects. intros var. unfold found_dist.
    apply respects_bind; [apply _ | apply (found_value_respects Dist) | intros r].
    case_decide; [apply respects_throw, _ | apply prove_generated_respects]. }
  apply respects_bind; [apply _ | | intros _].
  { apply drain_respects. intros var. unfold found_squared_dist.
    apply respects_bind; [apply _ | apply (found_value_respects SquaredDist) | intros r].
    case_decide; [apply respects_throw, _ | apply prove_generated_respects]. }
  apply drain_respects. intros var. unfold found_sin_or_dist.
  case_match; [apply respects_ret, _|].
  apply respects_bind; [apply _ | apply (found_value_respects SinOrDist) | intros value].
  apply respects_bind; [apply _ | apply respects_lift, _ | intros r].
  case_decide; [apply respects_ret, _ | apply prove_generated_respects].
Qed.

Lemma process_proposals_respects v (body : RatioSquaredDist → M unit) :
  (∀ r, respects R (body r)) → respects R (process_proposals v body).
Proof.
  intros Hbody. unfold process_proposals.
  apply respects_bind; [apply _ | by intros s | intros proposals].
  apply respects_for_each; [apply _ | auto].
Qed.

Lemma insert_and_progress_respects p :
  respects R (pf ← insert_statement p; make_progress pf : M unit).
Proof.
  apply respects_bind; [apply _ | apply R_insert | intros pf].
  apply make_progress_respects.
Qed.

Lemma process_ratio_squared_dist_respects :
  respects R (process_ratio_squared_dist : M unit).
Proof.
  unfold process_ratio_squared_dist.
  apply respects_bind; [apply _ | | intros _].
  { apply process_proposals_respects. intros r. unfold candidate_dist.
    apply respects_bind; [apply _ | apply respects_get, _ | intros [|]].
    - apply respects_ret, _.
    - case_match; apply respects_ret, _. }
  apply respects_bind; [apply _ | | intros _].
  { apply process_proposals_respects. intros r. unfold candidate_squared_dist.
    apply respects_bind; [apply _ | apply respects_get, _ | intros [|]].
    { apply respects_ret, _. }
    case_match; [apply respects_ret, _|].
    apply respects_bind; [apply _ | by intros s | intros red_eq].
    apply respects_bind; [apply _ | by intros s | intros [|]].
    - apply insert_and_progress_respects.
    - apply respects_ret, _. }
  apply process_proposals_respects. intros r. unfold candidate_sin_or_dist.
  apply respects_bind; [apply _ | apply respects_get, _ | intros [|]].
  { apply respects_ret, _. }
  apply respects_bind; [apply _ | apply respects_lift, _ | intros eq].
  apply respects_bind; [apply _ | by intros s | intros red_eq].
  case_match; [|apply respects_ret, _].
  apply respects_bind; [apply _ | apply respects_lift, _ | intros c].
  case_decide; [apply respects_ret, _ | apply insert_and_progress_respects].
Qed.

Lemma advance_theorems_respects max_pt l :
  respects R
    (for_each
       (λ i,
          thm ← (λ s, match m_theorem_applications s !! i with
                      | Some thm => (s, Ok thm)
                      | None => (s, Undefined)
                      end);
          if (TheoremApplication.m_max_point thm <=? max_pt)%Z
          then advance_theorem i else mret ()) l : M unit).
Proof.
  apply respects_for_each; [apply _|]. intros i _.
  apply respects_bind; [apply _ | | intros thm].
  { intros s. by case_match. }
  case_match; [apply advance_theorem_respects | apply respects_ret, _].
Qed.

Lemma goals_loop_respects gs b : respects R (goals_loop gs b : M bool).
Proof.
  revert b. induction gs as [|g rest IH]; intros b; [apply respects_ret, _|].
  cbn [goals_loop].
  apply respects_bind; [apply _ | apply respects_get, _ | intros [|]]; [done|].
  apply respects_bind; [apply _ | apply make_progress_respects | intros _].
  apply respects_bind; [apply _ | apply respects_get, _ | intros p]. apply IH.
Qed.

Lemma run_level_respects max_pt : respects R (run_level max_pt : M bool).
Proof.
  unfold run_level.
  apply respects_bind; [apply _ | apply respects_get, _ | intros num].
  apply respects_bind; [apply _ | apply respects_get, _ | intros n].
  apply respects_bind; [apply _ | apply advance_theorems_respects | intros _].
  apply respects_bind; [apply _ | apply process_squared_dist_eq_respects | intros _].
  apply respects_bind; [apply _ | apply process_ratio_squared_dist_respects | intros _].
  apply respects_bind; [apply _ | apply respects_get, _ | intros gl].
  apply respects_bind; [apply _ | | intros _].
  { destruct gl; [apply respects_ret, _|].
    apply respects_bind; [apply _ | apply respects_get, _ | intros gs].
    apply respects_bind; [apply _ | apply goals_loop_respects | intros b].
    by apply respects_modify. }
  apply respects_bind; [apply _ | by apply respects_modify | intros _].
  apply respects_get, _.
Qed.

End solver_relation.

(** ** The list of the established statements *)

Section solver_ledger_facts.
Context {Statement : Type} `{SolverEnv Statement}.
#[local] Abbreviation Solver := (DDARSolver Statement).
#[local] Abbreviation M := (SR Solver).

#[export] Instance grows_preorder : PreOrder (@grows Statement).
Proof.
  split.
  - intros s. split_and!; [done | done | by intros pf ?? | by left | done].
  - intros s1 s2 s3 (Hp12 & Hm12 & Hn12 & Ho12 & Hl12)
                    (Hp23 & Hm23 & Hn23 & Ho23 & Hl23).
    split_and!.
    + by etrans.
    + auto.
    + intros pf H3 H1. destruct (decide (proved s2 pf)) as [H2|H2].
      * destruct Hp23 as [k ->]. apply elem_of_app. left. by apply Hn12.
      * by apply Hn23.
    + intros pf Hin. destruct (Ho23 pf Hin) as [Hin2|Hun2].
      * by apply Ho12.
      * right. intros H1. by apply Hun2, Hm12.
    + auto.
Qed.

Lemma keeps_core_grows (s s' : Solver) : keeps_core s s' → grows s s'.
Proof.
  intros (_ & _ & Hpf & _ & Hest & _). unfold grows, ledger, proved.
  rewrite Hest, Hpf. split_and!; [done | done | by intros pf ?? | by left | done].
Qed.

Lemma set_proved_grows pf st : respects grows (set_proved pf st : M unit).
Proof.
  intros s. destruct (decide (st = NOT_PROVED)) as [->|Hst].
  { unfold set_proved. rewrite decide_True by done. reflexivity. }
  destruct (decide (proved s pf)) as [Hp|Hun].
  { rewrite set_proved_again by done. reflexivity. }
  etrans; [|by apply keeps_core_grows, set_proved_spec].
  unfold grows, ledger, proved in *. simpl. split_and!.
  - by apply prefix_app_r.
  - intros pf' Hp'. destruct (decide (pf = pf')) as [<-|Hne].
    + by rewrite fn_lookup_insert.
    + by rewrite fn_lookup_insert_ne.
  - intros pf' Hp' Hun'. destruct (decide (pf = pf')) as [<-|Hne].
    + apply elem_of_app. right. by apply list_elem_of_singleton.
    + by rewrite fn_lookup_insert_ne in Hp'.
  - intros pf' [Hin| ->%list_elem_of_singleton]%elem_of_app; [by left | by right].
  - intros [Hnd Hall]. split.
    + apply NoDup_app. split_and!; [done | | apply NoDup_singleton].
      intros x Hx ->%list_elem_of_singleton. apply Hun.
      by apply (proj1 (Forall_forall _ _) Hall).
    + apply Forall_app. split.
      * eapply Forall_impl; [exact Hall|]. intros pf' Hp'. simpl in *.
        destruct (decide (pf = pf')) as [<-|Hne].
        -- by rewrite fn_lookup_insert.
        -- by rewrite fn_lookup_insert_ne.
      * constructor; [|constructor]. by rewrite fn_lookup_insert.
Qed.

Lemma with_theorem_grows pf ind (s : Solver) :
  grows s (update_proof pf (StatementProof.with_theorem ind) s).
Proof.
  assert (∀ pf', proved (update_proof pf (StatementProof.with_theorem ind) s) pf'
                 ↔ proved s pf') as Hsame.
  { intros pf'. unfold proved. simpl. destruct (decide (pf = pf')) as [<-|Hne].
    - by rewrite fn_lookup_insert.
    - by rewrite fn_lookup_insert_ne. }
  unfold grows, ledger. simpl. split_and!.
  - done.
  - intros pf'. apply Hsame.
  - intros pf' Hp Hun. destruct Hun. by apply Hsame.
  - by left.
  - intros [Hnd Hall]. split; [done|].
    eapply Forall_impl; [exact Hall|]. intros pf'. apply Hsame.
Qed.

Lemma application_grows ind st (s : Solver) :
  grows s (update_theorem_application ind (TheoremApplication.with_state st) s).
Proof.
  unfold grows, ledger, proved. simpl.
  split_and!; [done | done | by intros pf ?? | by left | done].
Qed.

Ltac grows_leaf :=
  first [ apply _ | apply set_proved_grows | apply with_theorem_grows
        | apply application_grows
        | intros; eapply respects_impl; [apply keeps_core_grows|];
          first [apply reduce_at_keeps | apply is_solved_at_keeps] ].

(** X18.  [set_proved], [make_progress], [establish_statement] and
    [advance_theorem], however they end: the list of the established
    statements only grows, at its end; a statement that was proved stays
    proved; a statement that gets proved is in the list, and an address
    added to the list was not proved before.  Hence, if the list had no
    repetition and held proved statements only, it still does. *)
Theorem established_statements_grow ind pf st :
  respects grows (set_proved pf st : M unit)
  ∧ respects grows (make_progress pf : M unit)
  ∧ respects grows (establish_statement pf ind : M bool)
  ∧ respects grows (advance_theorem ind : M unit).
Proof.
  split_and!.
  - apply set_proved_grows.
  - apply make_progress_respects; grows_leaf.
  - apply establish_statement_respects; grows_leaf.
  - apply advance_theorem_respects; grows_leaf.
Qed.

End solver_ledger_facts.

(** ** [run] on a problem with goals *)

Section run_goals.
Context {Statement : Type} `{SolverEnv Statement}.
#[local] Abbreviation Solver := (DDARSolver Statement).
#[local] Abbreviation M := (SR Solver).

#[export] Instance same_problem_preorder : PreOrder (@same_problem Statement).
Proof.
  split; [by intros s|]. intros s1 s2 s3. unfold same_problem. congruence.
Qed.

Lemma keeps_core_same_problem (s s' : Solver) : keeps_core s s' → same_problem s s'.
Proof. by intros (? & _). Qed.

Lemma set_proved_same_problem pf st :
  respects same_problem (set_proved pf st : M unit).
Proof.
  intros s. destruct (decide (st = NOT_PROVED)) as [->|Hst].
  { unfold set_proved. rewrite decide_True by done. reflexivity. }
  destruct (decide (proved s pf)) as [Hp|Hun].
  { rewrite set_proved_again by done. reflexivity. }
  by destruct (set_proved_spec pf st s Hst Hun) as (? & _).
Qed.

Lemma goals_loop_spec gs : ∀ b (s s' : Solver) b',
  goals_loop gs b s = (s', Ok b') →
  evolves None (.∈ gs) s s' ∧ (b' = true → b = true ∧ Forall (proved s') gs).
Proof.
  induction gs as [|g rest IH]; intros b s s' b'.
  { intros [= <- <-]. split; [reflexivity | by intros ->]. }
  cbn [goals_loop]. rewrite sr_bind_eq, is_proved_eq.
  destruct (StatementProof.is_proved (m_statement_proofs s g)) eqn:Hp.
  - intros Hrest. destruct (IH _ _ _ _ Hrest) as [Hev Hb].
    split; [eapply evolves_mono; [|exact Hev]; intros ??; by right|].
    intros Hb'. destruct (Hb Hb') as [-> Hall]. split; [done|].
    constructor; [|done]. eapply evolves_proved; [exact Hev|]. by apply is_proved_true.
  - rewrite sr_bind_eq. pose proof (make_progress_evolves g s) as Hmp.
    destruct (make_progress g s) as [sa [[]| | |]]; try done. simpl in Hmp.
    rewrite sr_bind_eq, is_proved_eq. intros Hrest.
    destruct (IH _ _ _ _ Hrest) as [Hev Hb].
    split.
    { etrans; (eapply evolves_mono; [|eassumption]); [intros ? <-; left | intros ??; by right]. }
    intros Hb'. destruct (Hb Hb') as [Hcond Hall].
    destruct (StatementProof.is_proved (m_statement_proofs sa g)) eqn:Hp'; [|done].
    split; [done|]. constructor; [|done].
    eapply evolves_proved; [exact Hev|]. by apply is_proved_true.
Qed.

Hypothesis insert_statement_same_problem :
  ∀ p, respects same_problem (insert_statement p).

Ltac same_problem_leaf :=
  first [ apply _ | apply keeps_core_same_problem | apply set_proved_same_problem
        | apply insert_statement_same_problem
        | intros; eapply respects_impl; [apply keeps_core_same_problem|];
          first [apply reduce_at_keeps | apply is_solved_at_keeps]
        | done ].

Lemma run_level_same_problem max_pt :
  respects same_problem (run_level max_pt : M bool).
Proof. apply run_level_respects; same_problem_leaf. Qed.

Lemma advance_theorems_same_problem max_pt l :
  respects same_problem
    (for_each
       (λ i,
          thm ← (λ s, match m_theorem_applications s !! i with
                      | Some thm => (s, Ok thm)
                      | None => (s, Undefined)
                      end);
          if (TheoremApplication.m_max_point thm <=? max_pt)%Z
          then advance_theorem i else mret ()) l : M unit).
Proof. apply advance_theorems_respects; same_problem_leaf. Qed.

Lemma process_squared_dist_eq_same_problem :
  respects same_problem (process_squared_dist_eq : M unit).
Proof. apply process_squared_dist_eq_respects; same_problem_leaf. Qed.

Lemma process_ratio_squared_dist_same_problem :
  respects same_problem (process_ratio_squared_dist : M unit).
Proof. apply process_ratio_squared_dist_respects; same_problem_leaf. Qed.

Lemma run_level_goals max_pt (s s' : Solver) progress :
  goals (m_problem s) ≠ [] →
  run_level max_pt s = (s', Ok progress) →
  m_problem s' = m_problem s
  ∧ (m_solved s' = true → Forall (proved s') (m_goals s')).
Proof.
  intros Hgoals Hrun. split.
  { pose proof (run_level_same_problem max_pt s) as Hpb. by rewrite Hrun in Hpb. }
  revert Hrun. unfold run_level.
  rewrite sr_bind_eq. cbn [sr_get]. rewrite sr_bind_eq. cbn [sr_get].
  rewrite sr_bind_eq.
  match goal with
  | |- context [for_each ?body ?l s] =>
      pose proof (advance_theorems_same_problem max_pt l s) as H1;
      destruct (for_each body l s) as [s1 [[]| | |]]; try done
  end.
  rewrite sr_bind_eq.
  pose proof (process_squared_dist_eq_same_problem s1) as H2.
  destruct (process_squared_dist_eq s1) as [s2 [[]| | |]]; try done.
  rewrite sr_bind_eq.
  pose proof (process_ratio_squared_dist_same_problem s2) as H3.
  destruct (process_ratio_squared_dist s2) as [s3 [[]| | |]]; try done.
  simpl in H1, H2, H3. unfold same_problem in *.
  rewrite sr_bind_eq. cbn [sr_get].
  destruct (goals (m_problem s3)) as [|g0 gl] eqn:Hg3; [congruence|].
  rewrite !sr_bind_eq. cbn [sr_get]. rewrite !sr_bind_eq.
  destruct (goals_loop (m_goals s3) true s3) as [s4 [b| | |]] eqn:Hloop; try done.
  cbn [sr_modify sr_get]. intros [= <- _]. simpl.
  destruct (goals_loop_spec _ _ _ _ _ Hloop) as [(_ & _ & Hgs & _) Hb].
  intros ->. rewrite Hgs. by apply Hb.
Qed.

Lemma solve_goals levels max_pt : ∀ (s s' : Solver),
  goals (m_problem s) ≠ [] → m_solved s = false →
  solve levels max_pt s = (s', Ok ()) →
  m_problem s' = m_problem s
  ∧ (m_solved s' = true → Forall (proved s') (m_goals s')).
Proof.
  induction levels as [|levels IH]; intros s s' Hgoals Hflag.
  { intros [= <-]. split; [done | congruence]. }
  cbn [solve]. rewrite sr_bind_eq.
  destruct (run_level max_pt s) as [s1 [progress| | |]] eqn:Hlevel; try done.
  destruct (run_level_goals _ _ _ _ Hgoals Hlevel) as [Hpb Hsolved].
  destruct progress; [|cbn [mret SR_ret sr_ret]; intros [= <-]; by split].
  rewrite sr_bind_eq. cbn [sr_get].
  destruct (m_solved s1) eqn:Hs1.
  { cbn [mret SR_ret sr_ret]. intros [= <-]. split; auto. }
  intros Hrest. destruct (IH s1 s') as [Hpb' Hsolved']; [congruence | done | done |].
  split; [congruence | auto].
Qed.

(** X23.  [run] on a problem with goals, from a solver whose flag
    [m_solved] is not set, when [insert_statement] leaves the problem
    alone: the value returned is the flag [m_solved], it is what
    [print_json] reports as "solved" or "saturated", and when it is [true]
    every goal of [m_goals] is proved. *)
Theorem run_with_goals (s s' : Solver) (max_levels : nat) (b : bool) :
  goals (m_problem s) ≠ [] →
  m_solved s = false →
  run max_levels s = (s', Ok b) →
  b = m_solved s'
  ∧ json_status s' = (if b then "solved" else "saturated")%string
  ∧ (b = true → Forall (proved s') (m_goals s')).
Proof.
  intros Hgoals Hflag. unfold run. rewrite sr_bind_eq. cbn [sr_get].
  destruct (goals (m_problem s)) as [|g0 gl] eqn:Hg; [done|].
  rewrite sr_bind_eq.
  destruct (solve max_levels _ s) as [s1 [[]| | |]] eqn:Hsolve; try done.
  cbn [sr_get]. intros [= <- <-].
  apply solve_goals in Hsolve as [_ Hsolved]; [|by rewrite Hg|done].
  unfold json_status. split_and!; [done | done | done].
Qed.

End run_goals.

Lemma example_insert_statement_same_problem p :
  respects same_problem (insert_statement p).
Proof.
  intros s. unfold insert_statement, example_env, example_insert_statement.
  by repeat case_match.
Qed.

Lemma example_with_goal_returns : (run 2 example_with_goal).2 = Ok true.
Proof. vm_compute. reflexivity. Qed.

Lemma example_with_goal_run :
  run 2 example_with_goal = ((run 2 example_with_goal).1, Ok true).
Proof. rewrite <-example_with_goal_returns. apply surjective_pairing. Qed.

Lemma run_with_goals_witness :
  Forall (proved (run 2 example_with_goal).1) (m_goals (run 2 example_with_goal).1).
Proof.
  refine (proj2 (proj2 (run_with_goals example_insert_statement_same_problem
                          example_with_goal _ 2 true _ eq_refl example_with_goal_run))
            eq_refl).
  discriminate.
Defined.

(** * [Equation::normalize] *)

(** X3.  [Equation::normalize] on an equation whose left-hand side is in
    canonical form returns a coefficient [c], not zero, and an equation
    [a'] whose left-hand side is the one of [a] multiplied by [c], with
    the same leading variable; the leading coefficient of [a'] is [1], or
    positive in the domain of the angles; [a'] is [a * c], or [a] or [-a]
    for the angles, or [a] itself if there is no variable.  Normalizing
    [a'] again gives the coefficient [1] and the same left-hand side, and
    [a'] itself for the angles and wherever multiplying the right-hand
    side by [1] changes nothing. *)
Theorem Equation_normalize_spec {R} `{Rhs R} (a : Equation R) :
  LC.wf (lhs a) →
  ∃ c a',
    Equation_normalize a = Ok (c, a')
    ∧ c ≠ 0
    ∧ lhs a' = LC.scale c (lhs a)
    ∧ LC.wf (lhs a')
    ∧ (lhs a = [] → c = 1 ∧ a' = a)
    ∧ (∀ v d rest, lhs a = (v, d) :: rest →
         ∃ d', lhs a' = (v, d') :: LC.scale c rest
           ∧ if is_add_circle
             then 0 < d' ∧ ((0 < d ∧ c = 1 ∧ a' = a)
                            ∨ (d < 0 ∧ c = -1 ∧ a' = eq_neg a))
             else d' = 1 ∧ c = 1 / d ∧ a' = eq_mul c a)
    ∧ ∃ a'',
        Equation_normalize a' = Ok (1, a'')
        ∧ lhs a'' = lhs a'
        ∧ (is_add_circle = true ∨ rmul 1 (rhs a') = rhs a' → a'' = a').
Proof.
  intros Hwf. unfold Equation_normalize at 1.
  destruct a as [l r]. simpl in *. destruct l as [|[v d] rest].
  { exists 1, (mkEquation [] r). simpl.
    split_and!; [done | done | by rewrite lc_scale_one | done | done | done |].
    exists (mkEquation [] r). split_and!; done. }
  pose proof (wf_head_nonzero _ _ _ Hwf) as Hd.
  destruct is_add_circle eqn:Hang.
  - destruct (decide (0 < d)) as [Hpos|Hneg].
    + exists 1, (mkEquation ((v, d) :: rest) r). simpl.
      split_and!; [done | done | by rewrite lc_scale_one | done | done | |].
      * intros ? ? ? [= <- <- <-]. exists d. rewrite lc_scale_one.
        split; [done|]. split; [done|]. by left.
      * exists (mkEquation ((v, d) :: rest) r).
        unfold Equation_normalize. simpl. rewrite Hang.
        by rewrite decide_True.
    + assert (d < 0) as Hlt.
      { destruct (Qclt_le_dec d 0) as [?|Hle]; [done|]. exfalso.
        apply Qcle_lt_or_eq in Hle as [?|Heq]; [done | by apply Hd]. }
      assert (0 < - d) as Hpos.
      { pose proof (proj1 (Qclt_minus_iff d 0) Hlt) as Hm. by rewrite Qcplus_0_l in Hm. }
      exists (-1), (eq_neg (mkEquation ((v, d) :: rest) r)). simpl.
      split_and!; [done | done | | by apply wf_neg in Hwf | done | |].
      * rewrite <-(lc_neg_scale ((v, d) :: rest)). done.
      * intros ? ? ? [= <- <- <-]. exists (- d).
        rewrite <-(lc_neg_scale rest). split; [done|]. split; [done|]. by right.
      * exists (eq_neg (mkEquation ((v, d) :: rest) r)).
        unfold Equation_normalize. simpl. rewrite Hang.
        by rewrite decide_True.
  - rewrite decide_False by done.
    assert (1 / d ≠ 0) as Hinv by (by apply Qc_inv_nonzero).
    assert (LC.scale (1 / d) ((v, d) :: rest) = (v, 1) :: LC.scale (1 / d) rest)
      as Hscale.
    { rewrite scale_cons by done. by rewrite Qc_mul_inv. }
    exists (1 / d), (eq_mul (1 / d) (mkEquation ((v, d) :: rest) r)).
    unfold eq_mul at 2 3 4 5. simpl.
    split_and!; [done | done | done | by apply wf_scale | done | |].
    + intros ? ? ? [= <- <- <-]. exists 1. by rewrite Hscale.
    + exists (eq_mul 1 (eq_mul (1 / d) (mkEquation ((v, d) :: rest) r))).
      unfold Equation_normalize. simpl. rewrite Hscale, Hang.
      rewrite decide_False by done.
      assert (1 / 1 = 1) as -> by done.
      split_and!; [done | apply lc_scale_one |].
      intros [?|Hone]; [done|]. unfold eq_mul. simpl.
      rewrite lc_scale_one. by rewrite Hone.
Qed.

Lemma len_eq1_canonical : LC.wf (lhs len_eq1).
Proof. apply wfb_wf. vm_compute. reflexivity. Qed.

Lemma Equation_normalize_spec_witness :
  Equation_normalize len_eq1
  = Ok (q 1 2, mkEquation [(0%nat, q 1 1); (1%nat, q 2 1)] (q 3 1))
  ∧ ∃ c a' a'',
      Equation_normalize len_eq1 = Ok (c, a')
      ∧ Equation_normalize a' = Ok (1, a'')
      ∧ lhs a'' = lhs a'.
Proof.
  split; [by_evaluation|].
  destruct (Equation_normalize_spec len_eq1 len_eq1_canonical)
    as (c & a' & Hn & _ & _ & _ & _ & _ & a'' & Hn' & Hl & _).
  exists c, a', a''. split_and!; assumption.
Defined.

(** * numbers/add_circle.cpp: arithmetic modulo one *)

Lemma Qc_this_eq (x y : Qc) : (this x == this y)%Q ↔ x = y.
Proof. split; [apply Qc_is_canon | by intros ->]. Qed.

Ltac qc_to_q :=
  repeat match goal with
  | H : @eq Qc _ _ |- _ => apply Qc_this_eq in H
  | |- @eq Qc _ _ => apply Qc_this_eq
  end;
  unfold Qcminus in *;
  unfold Qclt, Qcle, Qcplus, Qcopp, Qcmult in *;
  cbn [this Q2Qc] in *;
  rewrite ?Qred_correct in *.

Lemma is_integer_add x y : is_integer x → is_integer y → is_integer (x + y).
Proof.
  intros [k ->] [l ->]. exists (k + l)%Z. qc_to_q.
  rewrite inject_Z_plus. reflexivity.
Qed.

Lemma is_integer_opp x : is_integer x → is_integer (- x).
Proof.
  intros [k ->]. exists (- k)%Z. qc_to_q. rewrite inject_Z_opp. reflexivity.
Qed.

Lemma is_integer_sub x y : is_integer x → is_integer y → is_integer (x - y).
Proof. intros Hx Hy. apply is_integer_add; [done | by apply is_integer_opp]. Qed.

Lemma is_integer_mul x y : is_integer x → is_integer y → is_integer (x * y).
Proof.
  intros [k ->] [l ->]. exists (k * l)%Z. qc_to_q.
  rewrite inject_Z_mult. reflexivity.
Qed.

Lemma is_integer_zero : is_integer 0.
Proof. by exists 0%Z. Qed.

(** The only integer strictly between [-1] and [1] is zero. *)
Lemma is_integer_small x y :
  0 ≤ x → x < 1 → 0 ≤ y → y < 1 → is_integer (x - y) → x = y.
Proof.
  intros Hx0 Hx1 Hy0 Hy1 [k Hk].
  assert (k = 0%Z) as ->.
  { qc_to_q. 
    assert (-1 < inject_Z k ∧ inject_Z k < 1)%Q as [Hlo Hhi]
      by (rewrite <-Hk; split; lra).
    revert Hlo Hhi. unfold Qlt, inject_Z. simpl. lia. }
  qc_to_q. change (inject_Z 0) with 0%Q in Hk. lra.
Qed.

(** [mod1_reduce] as the remainder of the floored division. *)
Lemma mod1_reduce_mod (r : Qc) :
  mod1_reduce r
  = Q2Qc ((Qnum (this r) `mod` Zpos (Qden (this r)))%Z # Qden (this r)).
Proof.
  unfold mod1_reduce. destruct r as [[n d] Hc]. cbn [this Qnum Qden].
  pose proof (Z.quot_rem' n (Zpos d)) as Hqr.
  assert (- Zpos d < Z.rem n (Zpos d) < Zpos d)%Z as Hb.
  { pose proof (Z.rem_bound_abs n (Zpos d)). lia. }
  case_decide as Hneg.
  - assert (Z.rem n (Zpos d) < 0)%Z as Hlt.
    { revert Hneg. unfold Qclt. cbn [this Q2Qc]. rewrite Qred_correct.
      unfold Qlt. simpl. lia. }
    assert (n `mod` Zpos d = Z.rem n (Zpos d) + Zpos d)%Z as ->.
    { symmetry. apply (Z.mod_unique_pos n (Zpos d) (n ÷ Zpos d - 1)); lia. }
    qc_to_q. unfold Qeq, Qplus. simpl. lia.
  - assert (0 ≤ Z.rem n (Zpos d))%Z as Hge.
    { destruct (Z_le_gt_dec 0 (Z.rem n (Zpos d))) as [?|Hgt]; [done|].
      destruct Hneg. unfold Qclt. cbn [this Q2Qc]. rewrite Qred_correct.
      unfold Qlt. simpl. lia. }
    assert (n `mod` Zpos d = Z.rem n (Zpos d))%Z as ->; [|done].
    symmetry. apply (Z.mod_unique_pos n (Zpos d) (n ÷ Zpos d)); lia.
Qed.

Lemma mod1_reduce_range (r : Qc) : 0 ≤ mod1_reduce r ∧ mod1_reduce r < 1.
Proof.
  rewrite mod1_reduce_mod. destruct r as [[n d] Hc]. cbn [this Qnum Qden].
  pose proof (Z.mod_pos_bound n (Zpos d)) as Hb.
  unfold Qcle, Qclt. cbn [this Q2Qc]. rewrite !Qred_correct.
  unfold Qle, Qlt. simpl. lia.
Qed.

Lemma mod1_reduce_integer (r : Qc) : is_integer (r - mod1_reduce r).
Proof.
  rewrite mod1_reduce_mod. exists (Qnum (this r) `div` Zpos (Qden (this r)))%Z.
  destruct r as [[n d] Hc]. cbn [this Qnum Qden].
  pose proof (Z.div_mod n (Zpos d)) as Hdm.
  qc_to_q. unfold Qeq, Qminus, Qplus, Qopp, inject_Z. simpl. nia.
Qed.

Lemma mod1_reduce_unique (r u : Qc) :
  0 ≤ u → u < 1 → is_integer (r - u) → mod1_reduce r = u.
Proof.
  intros Hu0 Hu1 Hint. destruct (mod1_reduce_range r) as [H0 H1].
  apply is_integer_small; try done.
  replace (mod1_reduce r - u) with ((r - u) - (r - mod1_reduce r)) by ring.
  apply is_integer_sub; [done | apply mod1_reduce_integer].
Qed.

Lemma mod1_reduce_congruent (a b : Qc) :
  mod1_reduce a = mod1_reduce b ↔ is_integer (a - b).
Proof.
  split.
  - intros Heq.
    replace (a - b) with ((a - mod1_reduce a) - (b - mod1_reduce b))
      by (rewrite Heq; ring).
    apply is_integer_sub; apply mod1_reduce_integer.
  - intros Hint. destruct (mod1_reduce_range b) as [H0 H1].
    apply mod1_reduce_unique; try done.
    replace (a - mod1_reduce b) with ((a - b) + (b - mod1_reduce b)) by ring.
    apply is_integer_add; [done | apply mod1_reduce_integer].
Qed.

(** X9.  [mod1_reduce] picks the representative modulo one in [[0, 1)]:
    the result is in that range, differs from the argument by an integer,
    and is the only such number; two rationals have the same image
    exactly when they differ by an integer; a number of the range is left
    as it is. *)
Theorem mod1_reduce_representative (r : Qc) :
  0 ≤ mod1_reduce r ∧ mod1_reduce r < 1
  ∧ is_integer (r - mod1_reduce r)
  ∧ (∀ u, 0 ≤ u → u < 1 → is_integer (r - u) → mod1_reduce r = u)
  ∧ (∀ r', mod1_reduce r = mod1_reduce r' ↔ is_integer (r - r'))
  ∧ (0 ≤ r → r < 1 → mod1_reduce r = r)
  ∧ mod1_reduce (mod1_reduce r) = mod1_reduce r.
Proof.
  destruct (mod1_reduce_range r) as [H0 H1].
  assert (∀ x, 0 ≤ x → x < 1 → mod1_reduce x = x) as Hid.
  { intros x Hx0 Hx1. apply mod1_reduce_unique; try done.
    replace (x - x) with 0 by ring. apply is_integer_zero. }
  split_and!; [done | done | apply mod1_reduce_integer | | | apply Hid | by apply Hid].
  - intros u. apply mod1_reduce_unique.
  - intros r'. apply mod1_reduce_congruent.
Qed.

Lemma is_integer_inject (n : Z) : is_integer (Q2Qc (inject_Z n)).
Proof. by exists n. Qed.

Lemma Qc_zero_le_zero : (0 : Qc) ≤ 0.
Proof. by vm_compute. Qed.

Lemma Qc_zero_lt_one : (0 : Qc) < 1.
Proof. by vm_compute. Qed.

(** X10.  The angles form a commutative group on which the integers act.
    Every operation of [AddCircle] returns a number of [[0, 1)]; on such
    numbers, [+=] is commutative and associative with the default value
    as its zero, unary [-] gives the inverse, [-=] adds the inverse,
    multiplying by [1] changes nothing and multiplying by an integer
    distributes over [+=].  Multiplying by [1/2] does not distribute:
    [(1/2 + 1/2) * 1/2] is [0] and [1/2 * 1/2 + 1/2 * 1/2] is [1/2]. *)
Theorem add_circle_laws (x y z : AddCircle) (n : Z) (c r : Qc) :
  rvalid x → rvalid y → rvalid z →
  (rvalid (radd x y) ∧ rvalid (rsub x y) ∧ rvalid (rneg x)
   ∧ rvalid (rmul c x) ∧ rvalid (AddCircle_of r))
  ∧ radd x rzero = x
  ∧ radd x y = radd y x
  ∧ radd x (radd y z) = radd (radd x y) z
  ∧ radd x (rneg x) = rzero
  ∧ rsub x y = radd x (rneg y)
  ∧ rmul 1 x = x
  ∧ rmul (Q2Qc (inject_Z n)) (radd x y)
    = radd (rmul (Q2Qc (inject_Z n)) x) (rmul (Q2Qc (inject_Z n)) y)
  ∧ rmul (q 1 2) (radd (mkAddCircle (q 1 2)) (mkAddCircle (q 1 2)))
    ≠ radd (rmul (q 1 2) (mkAddCircle (q 1 2)))
        (rmul (q 1 2) (mkAddCircle (q 1 2))).
Proof.
  destruct x as [a], y as [b], z as [d]. simpl.
  intros [Ha0 Ha1] [Hb0 Hb1] [Hd0 Hd1].
  split_and!; try apply mod1_reduce_range.
  - f_equal. apply mod1_reduce_unique; [done | done |].
    replace (a + 0 - a) with 0 by ring. apply is_integer_zero.
  - do 2 f_equal. ring.
  - f_equal. apply mod1_reduce_congruent.
    replace (a + mod1_reduce (b + d) - (mod1_reduce (a + b) + d))
      with ((a + b - mod1_reduce (a + b)) - (b + d - mod1_reduce (b + d))) by ring.
    apply is_integer_sub; apply mod1_reduce_integer.
  - unfold AddCircle_of. simpl. f_equal.
    apply mod1_reduce_unique; [apply Qc_zero_le_zero | apply Qc_zero_lt_one |].
    replace (a + mod1_reduce (- a) - 0) with (- (- a - mod1_reduce (- a))) by ring.
    apply is_integer_opp, mod1_reduce_integer.
  - unfold AddCircle_of. simpl. f_equal. apply mod1_reduce_congruent.
    replace (a - b - (a + mod1_reduce (- b))) with (- b - mod1_reduce (- b)) by ring.
    apply mod1_reduce_integer.
  - f_equal. apply mod1_reduce_unique; [done | done |].
    replace (a * 1 - a) with 0 by ring. apply is_integer_zero.
  - f_equal. apply mod1_reduce_congruent.
    set (k := Q2Qc (inject_Z n)).
    replace (mod1_reduce (a + b) * k - (mod1_reduce (a * k) + mod1_reduce (b * k)))
      with ((a * k - mod1_reduce (a * k)) + (b * k - mod1_reduce (b * k))
            - (a + b - mod1_reduce (a + b)) * k) by ring.
    apply is_integer_sub; [apply is_integer_add; apply mod1_reduce_integer|].
    apply is_integer_mul; [apply mod1_reduce_integer | apply is_integer_inject].
  - by vm_compute.
Qed.

Lemma add_circle_laws_witness :
  radd (mkAddCircle (q 1 2)) (radd (mkAddCircle (q 3 4)) (mkAddCircle (q 2 3)))
  = radd (radd (mkAddCircle (q 1 2)) (mkAddCircle (q 3 4))) (mkAddCircle (q 2 3))
  ∧ radd (mkAddCircle (q 1 2)) (mkAddCircle (q 3 4)) = mkAddCircle (q 1 4).
Proof.
  split; [|by_evaluation].
  refine (proj1 (proj2 (proj2 (proj2
    (add_circle_laws (mkAddCircle (q 1 2)) (mkAddCircle (q 3 4))
       (mkAddCircle (q 2 3)) 3 (q 1 2) (q 5 2) _ _ _))))); by vm_compute.
Defined.

(** * matcher.cpp: [foreach_pair] *)

Lemma elem_of_concat {A} (x : A) (ls : list (list A)) :
  x ∈ concat ls ↔ ∃ l, x ∈ l ∧ l ∈ ls.
Proof.
  induction ls as [|l0 ls IH]; cbn [concat].
  { split; [by intros ?%elem_of_nil | by intros (l & _ & ?%elem_of_nil)]. }
  rewrite elem_of_app, IH. split.
  - intros [Hin|(l & Hin & Hl)]; [exists l0; split; [done | left] |].
    exists l. split; [done | by right].
  - intros (l & Hin & [->|Hl]%elem_of_cons); [by left | right; by exists l].
Qed.

Lemma Sorted_lookup_succ {A} (R : relation A) (l : list A) m a b :
  Sorted R l → l !! m = Some a → l !! S m = Some b → R a b.
Proof.
  intros Hs. revert m. induction Hs as [|x l Hs IH Hhd]; intros m Ha Hb.
  { by rewrite lookup_nil in Ha. }
  destruct m as [|m]; simpl in *.
  - injection Ha as <-. destruct l as [|y l]; [done|].
    injection Hb as <-. by inversion Hhd.
  - by apply (IH m).
Qed.

Section foreach_pair_facts.
Context {Item : Type} (key_fun : Item → float).

(** What [foreach_bucket] passes to the callback. *)
Lemma foreach_bucket_spans (items : list Item) :
  concat (Bucket.callbacks (Bucket.foreach_bucket key_fun items)) = items
  ∧ Forall (λ b, b ≠ []) (Bucket.callbacks (Bucket.foreach_bucket key_fun items))
  ∧ Forall (Sorted (Bucket.linked key_fun))
      (Bucket.callbacks (Bucket.foreach_bucket key_fun items))
  ∧ Sorted (Bucket.split_at key_fun)
      (Bucket.callbacks (Bucket.foreach_bucket key_fun items)).
Proof.
  destruct items as [|first rest].
  { split_and!; [done | constructor | constructor | constructor]. }
  rewrite foreach_bucket_group.
  destruct (group_buckets key_fun [first] rest (key_fun first) (key_fun first) first)
    as (more & bs & Hcb & Hcat & Hne & Hlinked & Hsplit);
    [done | done | by repeat constructor |].
  rewrite Hcb. split_and!; [done | by constructor | done | done].
Qed.

(** A chain shifted by the length of what comes before it. *)
Lemma chained_app_r (pre l : list Item) i j :
  chained key_fun (pre ++ l) (length pre + i) (length pre + j)
  ↔ chained key_fun l i j.
Proof.
  unfold chained. split.
  - intros Hc m Hm. destruct (Hc (length pre + m)%nat ltac:(lia))
      as (a & b & Ha & Hb & Hab).
    exists a, b. split_and!; [| | done].
    + rewrite lookup_app_r in Ha by lia.
      by replace (length pre + m - length pre)%nat with m in Ha by lia.
    + rewrite lookup_app_r in Hb by lia.
      by replace (S (length pre + m) - length pre)%nat with (S m) in Hb by lia.
  - intros Hc m Hm. destruct (Hc (m - length pre)%nat ltac:(lia))
      as (a & b & Ha & Hb & Hab).
    exists a, b. split_and!; [| | done].
    + rewrite lookup_app_r by lia. done.
    + rewrite lookup_app_r by lia.
      by replace (S m - length pre)%nat with (S (m - length pre)) by lia.
Qed.

(** Inside a span the items are chained. *)
Lemma chained_span (span post : list Item) i j :
  Sorted (Bucket.linked key_fun) span → (j < length span)%nat →
  chained key_fun (span ++ post) i j.
Proof.
  intros Hs Hj m Hm.
  destruct (lookup_lt_is_Some_2 span m ltac:(lia)) as [a Ha].
  destruct (lookup_lt_is_Some_2 span (S m) ltac:(lia)) as [b Hb].
  exists a, b. split_and!.
  - by apply lookup_app_l_Some.
  - by apply lookup_app_l_Some.
  - by eapply Sorted_lookup_succ.
Qed.

(** In a sequence cut into spans, two items that are chained are in the
    same span. *)
Lemma same_span (bs : list (list Item)) :
  Forall (λ b, b ≠ []) bs →
  Sorted (Bucket.split_at key_fun) bs →
  ∀ i j a b,
    (i < j)%nat → concat bs !! i = Some a → concat bs !! j = Some b →
    chained key_fun (concat bs) i j →
    ∃ span i' j',
      span ∈ bs ∧ (i' < j')%nat ∧ span !! i' = Some a ∧ span !! j' = Some b.
Proof.
  induction bs as [|s bs IH]; intros Hne Hsplit i j a b Hij Hi Hj Hchain.
  { done. }
  cbn [concat] in *.
  apply Forall_cons in Hne as [Hs Hne].
  apply lookup_app_Some in Hi as [Hi|[Hlen Hi]];
    apply lookup_app_Some in Hj as [Hj|[Hlen' Hj]].
  - exists s, i, j. split_and!; [left | done | done | done].
  - exfalso.
    destruct (last s) as [l|] eqn:Hlast; [|by apply last_None in Hlast].
    destruct bs as [|s' bs]; [done|].
    apply Forall_cons in Hne as [Hs' _].
    destruct s' as [|f s']; [done|].
    assert (Bucket.split_at key_fun s (f :: s')) as Hcut.
    { inversion Hsplit as [|?? _ Hhd]; subst. by inversion Hhd. }
    specialize (Hcut l f Hlast eq_refl).
    apply lookup_lt_Some in Hi.
    destruct (Hchain (pred (length s)) ltac:(lia)) as (x & y & Hx & Hy & Hxy).
    rewrite lookup_app_l in Hx by lia. rewrite last_lookup in Hlast.
    rewrite Hlast in Hx. injection Hx as <-.
    rewrite lookup_app_r in Hy by lia.
    replace (S (pred (length s)) - length s)%nat with 0%nat in Hy by lia.
    cbn in Hy. injection Hy as <-. done.
  - apply lookup_lt_Some in Hj. lia.
  - destruct (IH Hne) with (i := (i - length s)%nat) (j := (j - length s)%nat)
                           (a := a) (b := b)
      as (span & i' & j' & Hin & Hlt & Ha & Hb); try done.
    + by inversion Hsplit.
    + lia.
    + apply (chained_app_r s).
      by replace (length s + (i - length s))%nat with i by lia;
        replace (length s + (j - length s))%nat with j by lia.
    + exists span, i', j'. split_and!; [by right | done | done | done].
Qed.

End foreach_pair_facts.

Section foreach_pair_chained.
Context {V : Type}.
Implicit Types (items bucket : list (float * V)).

Lemma bucket_pairs_elem_of bucket x y :
  (x, y) ∈ bucket_pairs bucket
  ↔ ∃ i j kx ky, (i < j)%nat ∧ bucket !! i = Some (kx, x) ∧ bucket !! j = Some (ky, y).
Proof.
  revert x y. induction bucket as [|[k v] rest IH]; intros x y.
  { split; [by intros ?%elem_of_nil|]. intros (i & j & kx & ky & _ & Hi & _).
    by rewrite lookup_nil in Hi. }
  cbn [bucket_pairs]. rewrite elem_of_app, list_elem_of_fmap, IH. split.
  - intros [([ky y'] & [= -> ->] & Hin)|(i & j & kx & ky & Hij & Hi & Hj)].
    + apply list_elem_of_lookup_1 in Hin as [j Hj].
      exists 0%nat, (S j), k, ky. split_and!; [lia | done | done].
    + exists (S i), (S j), kx, ky. split_and!; [lia | done | done].
  - intros (i & j & kx & ky & Hij & Hi & Hj).
    destruct j as [|j]; [lia|]. destruct i as [|i]; simpl in *.
    + injection Hi as -> ->. left. exists (ky, y). split; [done|].
      by eapply list_elem_of_lookup_2.
    + right. exists i, j, kx, ky. split_and!; [lia | done | done].
Qed.

Lemma bucket_pairs_length bucket :
  (2 * length (bucket_pairs bucket) = length bucket * (length bucket - 1))%nat.
Proof.
  induction bucket as [|x rest IH]; [done|].
  cbn [bucket_pairs length]. rewrite length_app, length_map. nia.
Qed.

Lemma foreach_pair_length (bs : list (list (float * V))) :
  (2 * length (concat (bucket_pairs <$> bs))
   = sum_list ((λ b, length b * (length b - 1)) <$> bs))%nat.
Proof.
  induction bs as [|b bs IH]; [done|].
  cbn [fmap list_fmap concat sum_list_with]. rewrite length_app.
  rewrite Nat.mul_add_distr_l, bucket_pairs_length, IH. reflexivity.
Qed.

(** X15.  [foreach_pair] calls the callback on two items exactly when the
    first comes before the second in the list and every item from the
    first to the second passes the test [key < last_key + EPS] against the
    key of the item before it, in the arithmetic of [double]; the first of
    the two is the first argument; a span of [n] items gives
    [n (n - 1) / 2] calls. *)
Theorem foreach_pair_calls items :
  (∀ x y,
     (x, y) ∈ foreach_pair items
     ↔ ∃ i j kx ky,
         (i < j)%nat ∧ items !! i = Some (kx, x) ∧ items !! j = Some (ky, y)
         ∧ chained fst items i j)
  ∧ (2 * length (foreach_pair items)
     = sum_list ((λ b, length b * (length b - 1))
                 <$> Bucket.callbacks (Bucket.foreach_bucket fst items)))%nat.
Proof.
  destruct (foreach_bucket_spans fst items) as (Hcat & Hne & Hlinked & Hsplit).
  unfold foreach_pair. split; [|apply foreach_pair_length].
  intros x y. split.
  - intros Hin.
    apply elem_of_concat in Hin as (pairs & Hin & Hpairs).
    apply list_elem_of_fmap in Hpairs as (span & -> & Hspan).
    apply bucket_pairs_elem_of in Hin as (i & j & kx & ky & Hij & Hi & Hj).
    assert (Sorted (Bucket.linked fst) span) as Hs
      by (by apply (proj1 (Forall_forall _ _) Hlinked)).
    apply list_elem_of_split in Hspan as (pre & post & Hbs).
    rewrite Hbs, concat_app in Hcat. cbn [concat] in Hcat.
    exists (length (concat pre) + i)%nat, (length (concat pre) + j)%nat, kx, ky.
    rewrite <-Hcat. split_and!; [lia | | |].
    + rewrite lookup_app_r by lia.
      replace (length (concat pre) + i - length (concat pre))%nat with i by lia.
      by apply lookup_app_l_Some.
    + rewrite lookup_app_r by lia.
      replace (length (concat pre) + j - length (concat pre))%nat with j by lia.
      by apply lookup_app_l_Some.
    + apply chained_app_r. apply chained_span; [done|].
      by apply lookup_lt_Some in Hj.
  - intros (i & j & kx & ky & Hij & Hi & Hj & Hchain).
    rewrite <-Hcat in Hi, Hj, Hchain.
    destruct (same_span fst _ Hne Hsplit i j (kx, x) (ky, y))
      as (span & i' & j' & Hin & Hlt & Ha & Hb); try done.
    apply elem_of_concat. exists (bucket_pairs span). split.
    + apply bucket_pairs_elem_of. by exists i', j', kx, ky.
    + by apply list_elem_of_fmap_2.
Qed.

End foreach_pair_chained.

(** Of the four items, the first three are passed two by two, the first
    with the third too, whose key fails the test against the key of the
    first; the fourth is passed with none.  Of two items with the keys
    [0.0] and [1e-7], nothing is passed. *)
Example foreach_pair_example :
  foreach_pair example_pairs = [(10, 11); (10, 12); (11, 12)]%nat
  ∧ Bucket.within (Bucket.e8 0) (Bucket.e8 12) = false
  ∧ foreach_pair [(Bucket.e8 0, 10%nat); (Bucket.e8 10, 11%nat)] = [].
Proof. split_and!; vm_compute; reflexivity. Qed.

(** * What is established stays solved *)

Lemma vars_map (P : nat → Prop) (f : Qc → Qc) (a : LC.t) :
  Forall (λ term : nat * Qc, P term.1) a →
  Forall (λ term : nat * Qc, P term.1) (map (λ term : nat * Qc, (term.1, f term.2)) a).
Proof. intros Ha. apply Forall_map. eapply Forall_impl; [exact Ha|]. done. Qed.

Lemma vars_merge (P : nat → Prop) opl opr bin (a : LC.t) :
  Forall (λ term : nat * Qc, P term.1) a → ∀ b : LC.t,
  Forall (λ term : nat * Qc, P term.1) b →
  Forall (λ term : nat * Qc, P term.1) (LC.merge_terms opl opr bin a b).
Proof.
  induction a as [|[v1 c1] a IHa]; intros Ha b Hb.
  - rewrite merge_nil_l. by apply vars_map.
  - induction b as [|[v2 c2] b IHb].
    + rewrite merge_nil_r. by apply (vars_map P opl).
    + rewrite merge_cons_cons.
      inversion Ha as [|? ? Hv1 Ha']; subst.
      inversion Hb as [|? ? Hv2 Hb']; subst.
      repeat case_decide.
      * constructor; [done|]. by apply IHa.
      * constructor; [done|]. by apply IHb.
      * by apply IHa.
      * constructor; [done|]. by apply IHa.
Qed.

Lemma add_keep_head h c a b :
  LC.above h b → LC.add ((h, c) :: a) b = (h, c) :: LC.add a b.
Proof.
  intros Hb. unfold LC.add. destruct b as [|[v2 c2] b].
  - by rewrite merge_cons_nil.
  - rewrite merge_cons_cons. inversion Hb; subst; simpl in *.
    by rewrite decide_True.
Qed.

Section echelon_span_facts.
Context {R : Type} `{RhsLaws R}.
Implicit Types (ech T : gmap nat (Equation (Equation R))) (a b : Equation R).

Lemma eq_sub_add_cancel a b :
  eq_valid a → eq_valid b → eq_add (eq_sub a b) b = a.
Proof.
  intros Ha Hb. rewrite eq_sub_add_neg by done.
  rewrite <-eq_add_assoc by (done || by apply eq_valid_neg).
  assert (eq_add (eq_neg b) b = eq_zero) as ->.
  { pose proof (eq_neg_add_cancel b eq_zero Hb eq_valid_zero) as Hc.
    by rewrite eq_add_zero_r in Hc. }
  by apply eq_add_zero_r.
Qed.

Lemma row_or_zero_rows_of ech v :
  row_or_zero (rows_of ech) v = from_option rhs eq_zero (ech !! v).
Proof.
  unfold row_or_zero, rows_of. rewrite list_lookup_fmap.
  destruct (decide (v < S (max_list (elements (dom ech))))%nat) as [Hlt|Hge].
  - by rewrite lookup_seq_lt.
  - rewrite lookup_seq_ge by lia. simpl.
    destruct (ech !! v) as [row|] eqn:Hrow; [|done].
    exfalso. apply Hge.
    assert (v ∈ elements (dom ech)) as Hin.
    { apply elem_of_elements, elem_of_dom. by eexists. }
    apply max_list_elem_of_le in Hin. lia.
Qed.

Lemma rows_of_valid ech : rows_ok ech → eqs_valid (rows_of ech).
Proof.
  intros Hok. unfold eqs_valid, rows_of. apply Forall_fmap, Forall_forall.
  intros v _. simpl.
  destruct (ech !! v) as [row|] eqn:Hrow; simpl; [|apply eq_valid_zero].
  by apply (Hok v row).
Qed.

Lemma in_span_zero ech : in_span ech eq_zero.
Proof. exists []. split_and!; [constructor | constructor | done]. Qed.

Lemma in_span_valid ech e : rows_ok ech → in_span ech e → eq_valid e.
Proof. intros Hok (terms & _ & _ & ->). by apply combine_valid, rows_of_valid. Qed.

Lemma in_span_row ech v row :
  rows_ok ech → ech !! v = Some row → in_span ech (rhs row).
Proof.
  intros Hok Hrow. exists [(v, 1)]. split_and!.
  - constructor; [done | constructor | constructor].
  - constructor; [by eexists | constructor].
  - cbn [combine]. rewrite row_or_zero_rows_of, Hrow. simpl.
    destruct (Hok _ _ Hrow) as [Hv _].
    rewrite eq_mul_one by done. by rewrite eq_add_zero_r.
Qed.

Lemma in_span_add ech a b :
  rows_ok ech → in_span ech a → in_span ech b → in_span ech (eq_add a b).
Proof.
  intros Hok (ta & Hwa & Hva & ->) (tb & Hwb & Hvb & ->).
  exists (LC.add ta tb).
  split_and!; [by apply wf_add | by apply (vars_merge (λ v, is_Some (ech !! v))) |].
  by rewrite combine_add by (by apply rows_of_valid).
Qed.

Lemma in_span_mul ech c a : rows_ok ech → in_span ech a → in_span ech (eq_mul c a).
Proof.
  intros Hok (ta & Hwa & Hva & ->).
  exists (LC.scale c ta). split_and!; [by apply wf_scale | |].
  - unfold LC.scale.
    case_decide; [by apply Forall_nil | by apply (vars_map (λ v, is_Some (ech !! v)) (λ x, x * c))].
  - by rewrite combine_scale by (by apply rows_of_valid).
Qed.

Lemma in_span_neg ech a : rows_ok ech → in_span ech a → in_span ech (eq_neg a).
Proof.
  intros Hok Ha. rewrite <-eq_mul_neg_one by (by eapply in_span_valid).
  by apply in_span_mul.
Qed.

Lemma above_combine ech v (terms : LC.t) :
  rows_ok ech → LC.above v terms → LC.above v (lhs (combine (rows_of ech) terms)).
Proof.
  intros Hok Hab. induction terms as [|[w d] rest IH]; cbn [combine]; [constructor|].
  inversion Hab as [|?? Hw Hrest]; subst. simpl in Hw. simpl.
  apply above_add; [|by apply IH]. apply above_scale.
  rewrite row_or_zero_rows_of. destruct (ech !! w) as [row|] eqn:Hrow; simpl;
    [|constructor].
  destruct (Hok _ _ Hrow) as [_ [Hwf [tl Hl]]]. rewrite Hl in *.
  by apply wf_above_cons.
Qed.

(** The sum of multiples of rows starts with its first term: between the
    rows nothing cancels a pivot. *)
Lemma combine_leading ech v c rest row :
  rows_ok ech → LC.wf ((v, c) :: rest) → ech !! v = Some row →
  ∃ tl, lhs (combine (rows_of ech) ((v, c) :: rest)) = (v, c) :: tl.
Proof.
  intros Hok Hwf Hrow. cbn [combine]. rewrite row_or_zero_rows_of, Hrow. simpl.
  destruct (Hok _ _ Hrow) as [_ [Hwfr [tl Hl]]]. rewrite Hl.
  rewrite scale_cons by (by eapply wf_head_nonzero).
  rewrite add_keep_head
    by (apply above_combine; [done | by eapply wf_above_tail]).
  eexists. do 2 f_equal. ring.
Qed.

Lemma in_span_leading ech e :
  rows_ok ech → in_span ech e →
  match lhs e with
  | [] => e = eq_zero
  | (v, _) :: _ => is_Some (ech !! v)
  end.
Proof.
  intros Hok (terms & Hwf & Hvars & ->). destruct terms as [|[v c] rest]; [done|].
  inversion Hvars as [|?? [row Hrow] _]; subst. simpl in Hrow.
  destruct (combine_leading ech v c rest row) as [tl ->]; [done | done | done |].
  by eexists.
Qed.

Lemma in_span_mono ech ech' e :
  rows_ok ech' →
  (∀ v row, ech !! v = Some row → in_span ech' (rhs row)) →
  in_span ech e → in_span ech' e.
Proof.
  intros Hok' Hrows (terms & _ & Hvars & ->).
  induction terms as [|[v c] rest IH]; cbn [combine]; [apply in_span_zero|].
  inversion Hvars as [|?? [row Hrow] Hrest]; subst. simpl in Hrow.
  apply in_span_add; [done | | by apply IH].
  apply in_span_mul; [done|]. rewrite row_or_zero_rows_of, Hrow. simpl.
  by eapply Hrows.
Qed.

(** [reduce_next]: the row it returns is valid, starts with the same
    pivot, and the row it was given is the sum of that row and of
    multiples of rows of [T]. *)
Lemma reduce_next_loop_span T fuel find pbn found h : ∀ e pbn' found' e',
  (∀ e0 w row, (h < w)%nat → find e0 w = Some row →
     T !! w = Some row ∧ eq_valid (rhs row) ∧ leads w (rhs row)) →
  reduce_next_loop fuel find pbn found e = Ok (pbn', found', e') →
  eq_valid (rhs e) → leads h (rhs e) →
  eq_valid (rhs e') ∧ leads h (rhs e')
  ∧ (rows_ok T → in_span T (rhs e') → in_span T (rhs e)).
Proof.
  induction fuel as [|fuel IH]; intros e pbn' found' e' Hfind Hloop Hv Hlead;
    [done|].
  pose proof Hlead as [Hwf [rest Hrest]].
  cbn [reduce_next_loop] in Hloop. rewrite Hrest in Hloop.
  destruct rest as [|[w cw] tail].
  { by injection Hloop as <- <- <-. }
  assert (h < w)%nat as Hhw.
  { rewrite Hrest in Hwf. apply wf_above_tail in Hwf. inversion Hwf; subst; done. }
  destruct (find e w) as [row|] eqn:Hrow; [|by injection Hloop as <- <- <-].
  destruct (Hfind _ _ _ Hhw Hrow) as (HT & Hrv & Hrl).
  destruct (reduce_next_pass e row h w cw tail Hrest Hwf Hrl)
    as (tail' & Ht' & _ & Hwf').
  destruct (IH _ _ _ _ Hfind Hloop) as (Hv' & Hl' & Hspan).
  { simpl. apply eq_valid_sub; [done | by apply eq_valid_mul]. }
  { split; [done | by eexists]. }
  split_and!; [done | done |]. intros Hok He'. specialize (Hspan Hok He').
  simpl in Hspan.
  rewrite <-(eq_sub_add_cancel (rhs e) (eq_mul cw (rhs row)))
    by (done || by apply eq_valid_mul).
  apply in_span_add; [done | done |]. apply in_span_mul; [done|].
  by eapply in_span_row.
Qed.

Lemma reduce_loop_span ech fuel : ∀ re re',
  rows_ok ech → reduce_loop fuel ech re = Ok re' →
  in_span ech (rhs (m_linear_combination re)) →
  in_span ech (rhs (m_linear_combination re')).
Proof.
  induction fuel as [|fuel IH]; intros re re' Hok Hloop Hin; [done|].
  cbn [reduce_loop] in Hloop.
  destruct (lhs (m_remainder re)) as [|[v c] tl]; [by injection Hloop as <-|].
  destruct (ech !! v) as [row|] eqn:Hrow; [|by injection Hloop as <-].
  apply IH in Hloop; [done | done |]. simpl.
  apply in_span_add; [done | done |]. apply in_span_mul; [done|].
  by eapply in_span_row.
Qed.

Lemma rows_ok_insert ech v row :
  rows_ok ech → eq_valid (rhs row) → leads v (rhs row) → rows_ok (<[v := row]> ech).
Proof.
  intros Hok Hv Hl w row' Hrow'. destruct (decide (v = w)) as [<-|Hne].
  - rewrite lookup_insert_eq in Hrow'. by injection Hrow' as <-.
  - rewrite lookup_insert_ne in Hrow' by done. by apply Hok.
Qed.

Lemma reduce_next_in_place_span (sys sys' : LinearSystem R) p :
  rows_ok (m_echelon_form sys) → reduce_next_in_place sys p = Ok sys' →
  rows_ok (m_echelon_form sys')
  ∧ ∀ e, in_span (m_echelon_form sys) e → in_span (m_echelon_form sys') e.
Proof.
  intros Hok Hstep. unfold reduce_next_in_place in Hstep.
  destruct (m_echelon_form sys !! p) as [e0|] eqn:Hp; [|done].
  destruct (reduce_next_loop _ _ _ _ e0) as [[[pbn' found'] e']| | |] eqn:Hloop;
    try done.
  injection Hstep as <-. simpl.
  destruct (Hok _ _ Hp) as [Hv0 Hl0].
  pose proof (λ Hf, reduce_next_loop_span (<[p := e']> (m_echelon_form sys))
                      _ _ _ _ p e0 pbn' found' e' Hf Hloop Hv0 Hl0) as Hx.
  destruct Hx as (Hv' & Hl' & Hspan).
  { intros e1 w row Hpw Hrow. rewrite lookup_insert_ne in Hrow by lia.
    rewrite lookup_insert_ne by lia. split; [done | by apply Hok]. }
  assert (rows_ok (<[p := e']> (m_echelon_form sys))) as Hok'
    by (by apply rows_ok_insert).
  split; [done|]. intros e. apply in_span_mono; [done|].
  intros v row Hrow. destruct (decide (p = v)) as [<-|Hne].
  - rewrite Hp in Hrow. injection Hrow as <-. apply Hspan; [done|].
    eapply in_span_row; [done|]. by rewrite lookup_insert_eq.
  - eapply in_span_row; [done|]. by rewrite lookup_insert_ne.
Qed.

Lemma back_substitute_span pivots : ∀ (sys sys' : LinearSystem R) r,
  rows_ok (m_echelon_form sys) → back_substitute sys pivots = (sys', r) →
  rows_ok (m_echelon_form sys')
  ∧ ∀ e, in_span (m_echelon_form sys) e → in_span (m_echelon_form sys') e.
Proof.
  induction pivots as [|p rest IH]; intros sys sys' r Hok Hbs; cbn [back_substitute] in Hbs.
  { by injection Hbs as <- <-. }
  destruct (reduce_next_in_place sys p) as [sys1| | |] eqn:Hstep;
    try (by injection Hbs as <- <-).
  destruct (reduce_next_in_place_span _ _ _ Hok Hstep) as [Hok1 Hmono1].
  destruct (IH _ _ _ Hok1 Hbs) as [Hok' Hmono']. split; [done | auto].
Qed.

(** [add_reduced_equation], however it ends: the new echelon form entails
    what the old one did; if the call returns, it entails the equation
    that was added. *)
Lemma add_reduced_equation_span (sys sys' : LinearSystem R) pf re r :
  rows_ok (m_echelon_form sys) →
  eq_valid (m_original_eq re) → eq_valid (m_remainder re) →
  m_original_eq re = eq_add (rhs (m_linear_combination re)) (m_remainder re) →
  in_span (m_echelon_form sys) (rhs (m_linear_combination re)) →
  add_reduced_equation sys pf (Some re) = (sys', r) →
  rows_ok (m_echelon_form sys')
  ∧ (∀ e, in_span (m_echelon_form sys) e → in_span (m_echelon_form sys') e)
  ∧ (is_add_circle = false → r = Ok () →
     in_span (m_echelon_form sys') (m_original_eq re)).
Proof.
  intros Hok Hvo Hvr Hid Hin Hadd.
  pose proof (in_span_valid _ _ Hok Hin) as Hvl.
  unfold add_reduced_equation in Hadd.
  destruct (is_solved sys re) as [[[|] ws]| | |] eqn:Hsolved;
    try (injection Hadd as <- <-; by split_and!).
  { injection Hadd as <- <-. split_and!; [done | done |]. intros Hang _.
    unfold is_solved in Hsolved. rewrite Hang in Hsolved.
    injection Hsolved as Hempty _. unfold is_empty in Hempty.
    apply andb_true_iff in Hempty as [Hl Hrz].
    apply bool_decide_eq_true in Hl, Hrz.
    assert (m_remainder re = eq_zero) as Hz.
    { destruct (m_remainder re) as [l r0]. simpl in *. by subst. }
    rewrite Hid, Hz. by rewrite eq_add_zero_r. }
  case_bool_decide as Hnonempty.
  { injection Hadd as <- <-. by split_and!. }
  assert (rhs (eq_add (eq_neg (m_linear_combination re))
                 (mkEquation (LC.of_var (length (m_equations sys)))
                    (m_original_eq re)))
          = m_remainder re) as Hrhs.
  { simpl. rewrite Hid. by apply eq_neg_add_cancel. }
  rewrite Hrhs in Hadd.
  destruct (lhs (m_remainder re)) as [|[v c] tail] eqn:Hrem; [done|].
  assert (LC.wf ((v, c) :: tail)) as Hwf by (rewrite <-Hrem; apply Hvr).
  assert (c ≠ 0) as Hc by (by eapply wf_head_nonzero).
  rewrite decide_False in Hadd by done.
  pose proof (Qc_inv_nonzero c Hc) as Hc'.
  set (lc0 := eq_mul (1 / c) _) in Hadd.
  assert (rhs lc0 = eq_mul (1 / c) (m_remainder re)) as Hrhs0.
  { unfold lc0. simpl. simpl in Hrhs. by rewrite Hrhs. }
  destruct (reduce_next_local _ lc0) as [[sys2 lc']| | |] eqn:Hlocal;
    try (injection Hadd as <- <-; by split_and!).
  unfold reduce_next_local in Hlocal.
  cbn [m_equations m_echelon_form m_pivot_by_next m_found_variables] in Hlocal.
  destruct (reduce_next_loop _ _ _ _ lc0) as [[[pbn2 found2] e']| | |] eqn:Hloop;
    try done.
  injection Hlocal as <- <-. simpl in Hadd.
  assert (eq_valid (rhs lc0)) as Hv0.
  { rewrite Hrhs0. by apply eq_valid_mul. }
  assert (leads v (rhs lc0)) as Hl0.
  { rewrite Hrhs0. split; [apply wf_scale, Hvr|]. simpl. rewrite Hrem.
    rewrite scale_cons by done. rewrite Qc_mul_inv by done. by eexists. }
  pose proof (λ Hf, reduce_next_loop_span (<[v := e']> (m_echelon_form sys))
                      _ _ _ _ v lc0 pbn2 found2 e' Hf Hloop Hv0 Hl0) as Hx.
  destruct Hx as (Hv' & Hl' & Hspan).
  { intros e1 w row Hvw Hrow. rewrite lookup_insert_ne by lia.
    split; [done | by apply Hok]. }
  destruct (m_echelon_form sys !! v) as [old|] eqn:Hv.
  { injection Hadd as <- <-. by split_and!. }
  assert (rows_ok (<[v := e']> (m_echelon_form sys))) as Hok3
    by (by apply rows_ok_insert).
  assert (∀ e, in_span (m_echelon_form sys) e
               → in_span (<[v := e']> (m_echelon_form sys)) e) as Hmono3.
  { intros e. apply in_span_mono; [done|]. intros w row Hrow.
    eapply in_span_row; [done|]. rewrite lookup_insert_ne; [done|].
    intros ->. by rewrite Hv in Hrow. }
  assert (in_span (<[v := e']> (m_echelon_form sys)) (m_original_eq re)) as Hnew.
  { rewrite Hid. apply in_span_add; [done | by apply Hmono3 |].
    assert (m_remainder re = eq_mul c (rhs lc0)) as ->.
    { rewrite Hrhs0, eq_mul_mul by done.
      replace (1 / c * c) with 1 by (field; done).
      by rewrite eq_mul_one. }
    apply in_span_mul; [done|]. apply Hspan; [done|].
    eapply in_span_row; [done|]. by rewrite lookup_insert_eq. }
  destruct (pbn2 !! v) as [pivots|] eqn:Hpiv.
  2: { injection Hadd as <- <-. simpl. by split_and!. }
  destruct (back_substitute _ (set_in_order pivots)) as [sys4 r4] eqn:Hbs.
  pose proof (λ Hrows, back_substitute_span _ _ _ _ Hrows Hbs) as Hx.
  destruct Hx as [Hok4 Hmono4]; [exact Hok3|].
  simpl in Hok4, Hmono4.
  destruct r4 as [[]| | |]; injection Hadd as <- <-; simpl;
    (split_and!; [done | auto | auto]).
Qed.

Lemma rows_ok_of_sem (w : world R) :
  world_sem w → rows_ok (m_echelon_form (w_sys w)).
Proof.
  intros [(_ & Hech & _) _] v row Hrow.
  destruct (Hech _ _ Hrow) as [HS [Hv _]]. split; [done|].
  by eapply row_S_leads.
Qed.

Lemma step_span (w w' : world R) :
  reachable w → world_span w → step w w' →
  world_span w'
  ∧ ∀ e, in_span (m_echelon_form (w_sys w)) e → in_span (m_echelon_form (w_sys w')) e.
Proof.
  intros Hw Hspan Hstep.
  pose proof (reachable_world_sem w Hw) as Hsem.
  pose proof (rows_ok_of_sem w Hsem) as Hok.
  destruct Hstep as [sys reds original_eq Hvalid | sys reds i re re' Hi Hred
                    | sys reds i re pf sys' r Hi Hadd]; unfold world_span in *; simpl in *.
  - split; [|done]. apply Forall_app. split; [done|].
    constructor; [apply in_span_zero | constructor].
  - split; [|done]. apply Forall_insert; [done|].
    eapply reduce_loop_span; [done | exact Hred |].
    by apply (Forall_lookup_1 _ _ _ _ Hspan Hi).
  - destruct Hsem as [_ Hreds]. simpl in Hreds.
    pose proof (Forall_lookup_1 _ _ _ _ Hreds Hi) as [_ (_ & Hvo & Hvr & Hid)].
    pose proof (Forall_lookup_1 _ _ _ _ Hspan Hi) as Hin.
    destruct (add_reduced_equation_span _ _ _ _ _ Hok Hvo Hvr Hid Hin Hadd)
      as (_ & Hmono & _).
    split; [|done]. eapply Forall_impl; [exact Hspan|]. intros re0. apply Hmono.
Qed.

Lemma reachable_span (w : world R) : reachable w → world_span w.
Proof.
  unfold reachable. revert w. apply rtc_ind_r; [by apply Forall_nil|].
  intros w1 w2 Hw1 Hstep IH. by apply (step_span w1 w2).
Qed.

Lemma rtc_span (w w' : world R) e :
  reachable w → rtc step w w' →
  in_span (m_echelon_form (w_sys w)) e → reachable w' ∧ in_span (m_echelon_form (w_sys w')) e.
Proof.
  intros Hw Hrtc. induction Hrtc as [w|w w1 w2 Hstep Hrtc IH]; [done|].
  intros Hin.
  assert (reachable w1) as Hw1 by (by eapply rtc_r).
  apply IH; [done|].
  by apply (step_span w w1 Hw (reachable_span w Hw) Hstep).
Qed.

(** X7.  What is established stays solved.  In a domain whose right-hand
    sides form a vector space over the rationals (not the angles), in a
    world reached by constructing, reducing and adding reduced equations:
    if [add_reduced_equation] returns for a reduced equation, then from
    there on, whatever is constructed, reduced or added (even with
    exceptions), the [reduce] of a fresh reduced equation of the same
    original equation returns with the remainder [0 = 0], and [is_solved]
    answers [true] for it. *)
Theorem established_equation_stays_solved (w w' : world R) i re pf sys' :
  is_add_circle = false →
  reachable w → w_reds w !! i = Some re →
  add_reduced_equation (w_sys w) pf (Some re) = (sys', Ok ()) →
  rtc step (mkWorld sys' (w_reds w)) w' →
  ∃ re',
    reduce (w_sys w') (ReducedEquation_new (m_original_eq re)) = Ok re'
    ∧ m_remainder re' = eq_zero
    ∧ is_solved (w_sys w') re' = Ok (true, []).
Proof.
  intros Hang Hw Hi Hadd Hrtc.
  pose proof (reachable_world_sem w Hw) as Hsem.
  pose proof (rows_ok_of_sem w Hsem) as Hok.
  pose proof (reachable_span w Hw) as Hspan.
  pose proof Hsem as [_ Hreds].
  pose proof (Forall_lookup_1 _ _ _ _ Hreds Hi) as [_ (_ & Hvo & Hvr & Hid)].
  pose proof (Forall_lookup_1 _ _ _ _ Hspan Hi) as Hin.
  destruct (add_reduced_equation_span _ _ _ _ _ Hok Hvo Hvr Hid Hin Hadd)
    as (_ & _ & Hnew).
  specialize (Hnew Hang eq_refl).
  assert (reachable (mkWorld sys' (w_reds w))) as Hw1.
  { eapply rtc_r; [exact Hw|]. destruct w as [sys reds]. by eapply step_add. }
  destruct (rtc_span _ _ _ Hw1 Hrtc Hnew) as [Hw' Hin'].
  destruct w' as [sys2 reds2]. simpl in *.
  set (fresh := ReducedEquation_new (m_original_eq re)).
  assert (reachable (mkWorld sys2 (reds2 ++ [fresh]))) as Hw2.
  { eapply rtc_r; [exact Hw'|]. by apply step_new. }
  destruct (reachable_reduce_returns _ (length reds2) fresh Hw2)
    as (re' & Hred & Horig & Hstop).
  { simpl. by apply list_lookup_middle. }
  simpl in Hred.
  assert (reachable (mkWorld sys2 (<[length reds2 := re']> (reds2 ++ [fresh]))))
    as Hw3.
  { eapply rtc_r; [exact Hw2|]. eapply step_reduce; [|exact Hred].
    by apply list_lookup_middle. }
  pose proof (reachable_world_sem _ Hw3) as Hsem3.
  pose proof (rows_ok_of_sem _ Hsem3) as Hok3.
  pose proof (reachable_span _ Hw3) as Hspan3.
  destruct Hsem3 as [_ Hreds3]. simpl in *.
  assert ((<[length reds2 := re']> (reds2 ++ [fresh])) !! length reds2 = Some re')
    as Hlook.
  { apply list_lookup_insert_eq. rewrite length_app. simpl. lia. }
  pose proof (Forall_lookup_1 _ _ _ _ Hreds3 Hlook) as [_ (_ & Hvo' & Hvr' & Hid')].
  pose proof (Forall_lookup_1 _ _ _ _ Hspan3 Hlook) as Hin3. simpl in Hin3.
  assert (in_span (m_echelon_form sys2) (m_remainder re')) as Hrem.
  { pose proof (in_span_valid _ _ Hok3 Hin3) as Hvl.
    rewrite <-(eq_neg_add_cancel (rhs (m_linear_combination re')) (m_remainder re'))
      by done.
    rewrite <-Hid', Horig. apply in_span_add; [done | | done].
    by apply in_span_neg. }
  pose proof (in_span_leading _ _ Hok3 Hrem) as Hlead.
  exists re'. split; [done|].
  assert (m_remainder re' = eq_zero) as Hz.
  { destruct (lhs (m_remainder re')) as [|[v c] tl]; [done|].
    rewrite Hstop in Hlead. by destruct Hlead. }
  split; [done|]. unfold is_solved. rewrite Hang, Hz. unfold is_empty. simpl.
  by rewrite !bool_decide_eq_true_2.
Qed.

End echelon_span_facts.

Lemma len_world_before_reachable : reachable len_world_before.
Proof.
  unfold reachable, len_world_before.
  eapply rtc_l; [apply (step_new _ [] len_eq0)|].
  { split; [|done]. apply wfb_wf. by vm_compute. }
  eapply rtc_l;
    [eapply (step_add _ _ 0%nat len_re0 0%nat); [done | apply surjective_pairing]|].
  eapply rtc_l; [apply (step_new _ _ len_eq1)|].
  { split; [|done]. apply wfb_wf. by vm_compute. }
  eapply rtc_l; [apply (step_new _ _ len_eq2)|].
  { split; [|done]. apply wfb_wf. by vm_compute. }
  apply rtc_refl.
Qed.

Lemma len_sys2_result : (add_reduced_equation len_sys1 1 (Some len_re2)).2 = Ok ().
Proof. vm_compute. reflexivity. Qed.

Lemma len_sys2_returns :
  add_reduced_equation len_sys1 1 (Some len_re2) = (len_sys2, Ok ()).
Proof. rewrite <-len_sys2_result. apply surjective_pairing. Qed.

Lemma established_equation_stays_solved_witness :
  ∃ re',
    reduce len_sys2 (ReducedEquation_new len_eq2) = Ok re'
    ∧ m_remainder re' = eq_zero
    ∧ is_solved len_sys2 re' = Ok (true, []).
Proof.
  exact (established_equation_stays_solved (R := Qc) len_world_before len_world
           2%nat len_re2 1%nat len_sys2 eq_refl len_world_before_reachable eq_refl
           len_sys2_returns (rtc_refl _ _)).
Defined.

(** * The driver and the engines *)

Lemma set_world_eq v (w : world (RHSType v)) (ar : AR) : set_world v w ar v = w.
Proof.
  unfold set_world. destruct (VarT_eq_dec v v) as [e|]; [|done].
  by rewrite (proof_irrel e eq_refl).
Qed.

Lemma set_world_ne v v' (w : world (RHSType v)) (ar : AR) :
  v ≠ v' → set_world v w ar v' = ar v'.
Proof. intros Hne. unfold set_world. by destruct (VarT_eq_dec v v'). Qed.

Section solver_engines_facts.
Context {Statement : Type} `{SolverEnv Statement}.
#[local] Abbreviation Solver := (DDARSolver Statement).
#[local] Abbreviation M := (SR Solver).

#[export] Instance engines_step_preorder : PreOrder (@engines_step Statement).
Proof.
  split.
  - intros s v. reflexivity.
  - intros s1 s2 s3 H12 H23 v. etrans; [apply H12 | apply H23].
Qed.

Lemma same_engines_step (s s' : Solver) : m_ar s' = m_ar s → engines_step s s'.
Proof. intros Heq v. by rewrite Heq. Qed.

Lemma update_engine_step v (f : world (RHSType v) → world (RHSType v)) (s : Solver) :
  step (m_ar s v) (f (m_ar s v)) → engines_step s (update_engine v f s).
Proof.
  intros Hstep v'. simpl. destruct (decide (v = v')) as [<-|Hne].
  - rewrite set_world_eq. by apply rtc_once.
  - by rewrite set_world_ne.
Qed.

Lemma reduce_at_step v i : respects engines_step (reduce_at v i : M unit).
Proof.
  intros s. unfold reduce_at, m_eqns, m_system.
  destruct (w_reds (m_ar s v) !! i) as [re|] eqn:Hi; [|reflexivity].
  destruct (reduce (w_sys (m_ar s v)) re) as [re'| | |] eqn:Hred; try reflexivity.
  simpl. apply update_engine_step.
  destruct (m_ar s v) as [sys reds]. simpl in *. by eapply step_reduce.
Qed.

Lemma is_solved_at_step v i : respects engines_step (is_solved_at v i : M bool).
Proof. intros s. rewrite is_solved_at_state. reflexivity. Qed.

Lemma add_reduced_equation_at_step v pf :
  respects engines_step (add_reduced_equation_at v pf : M unit).
Proof.
  intros s. unfold add_reduced_equation_at, m_eqns, m_system.
  destruct (StatementProof.reduced_equation (m_statement_proofs s pf) v) as [i|];
    [|reflexivity].
  destruct (w_reds (m_ar s v) !! i) as [re|] eqn:Hi; [|reflexivity].
  simpl. apply update_engine_step.
  destruct (m_ar s v) as [sys reds]. simpl in *.
  eapply step_add; [exact Hi | apply surjective_pairing].
Qed.

Lemma reduce_if_present_step pf v :
  respects engines_step (reduce_if_present pf v : M unit).
Proof.
  unfold reduce_if_present.
  apply respects_bind; [apply _ | apply respects_get, _ |].
  intros [i|]; [apply reduce_at_step | apply respects_ret, _].
Qed.

Lemma set_proved_step pf st : respects engines_step (set_proved pf st : M unit).
Proof.
  unfold set_proved. case_decide; [apply respects_ret, _|].
  apply respects_bind; [apply _ | apply respects_get, _ | intros st0].
  case_decide; [|apply respects_throw, _].
  apply respects_bind; [apply _ | | intros _].
  { apply respects_modify. intros s. by apply same_engines_step. }
  apply respects_bind; [apply _ | | intros _].
  { apply respects_modify. intros s. by apply same_engines_step. }
  apply respects_bind; [apply _ | apply respects_get, _ | intros opt_r].
  apply respects_bind; [apply _ | | intros _].
  { destruct opt_r; [|apply respects_ret, _].
    apply respects_modify. intros s. by apply same_engines_step. }
  repeat (apply respects_bind; [apply _ | apply reduce_if_present_step | intros _]).
  unfold add_established_equations.
  repeat (apply respects_bind; [apply _ | apply add_reduced_equation_at_step | intros _]).
  apply add_reduced_equation_at_step.
Qed.

Ltac engines_leaf :=
  first [ apply _ | apply reduce_at_step | apply is_solved_at_step
        | apply set_proved_step
        | intros; by apply same_engines_step ].

(** X19.  The driver touches the engines through [reduce] and
    [add_reduced_equation] on the entries of their tables only:
    [set_proved], [make_progress], [establish_statement] and
    [advance_theorem], however they end, move every engine by steps of
    its world.  Hence if every engine of the solver is a reachable world
    before [advance_theorem], every engine still is after it. *)
Theorem driver_steps_engines ind pf st :
  respects engines_step (set_proved pf st : M unit)
  ∧ respects engines_step (make_progress pf : M unit)
  ∧ respects engines_step (establish_statement pf ind : M bool)
  ∧ respects engines_step (advance_theorem ind : M unit)
  ∧ ∀ s : Solver,
      (∀ v, reachable (m_ar s v)) →
      ∀ v, reachable (m_ar (advance_theorem ind s).1 v).
Proof.
  assert (respects engines_step (advance_theorem ind : M unit)) as Hadv
    by (apply advance_theorem_respects; engines_leaf).
  split_and!.
  - apply set_proved_step.
  - apply make_progress_respects; engines_leaf.
  - apply establish_statement_respects; engines_leaf.
  - done.
  - intros s Hs v. unfold reachable. etrans; [apply Hs | apply Hadv].
Qed.

End solver_engines_facts.

(** * The cache of the pivots by their next variable *)

Section pivot_by_next.
Context {R : Type} `{Rhs R}.
Implicit Types (sys : LinearSystem R) (ech : gmap nat (Equation (Equation R))).

Lemma quiet_step_step (w w' : world R) : quiet_step w w' → step w w'.
Proof.
  intros [sys reds e He | sys reds i re re' Hi Hred | sys reds i re pf sys' Hi Hadd].
  - by apply step_new.
  - by eapply step_reduce.
  - by eapply step_add.
Qed.

Lemma quiet_reachable (w : world R) : quiet w → reachable w.
Proof.
  unfold quiet, reachable. intros Hq.
  eapply rtc_subrel; [|exact Hq]. intros ??. apply quiet_step_step.
Qed.

(** What [reduce_next] leaves: a row that starts with the same pivot,
    and either has no other variable, or has a second variable that is no
    pivot and under which the pivot is now listed. *)
Lemma reduce_next_loop_cache fuel find pbn found h :
  ∀ (e : Equation (Equation R)) pbn' found' e',
  (∀ e0 w row, (h < w)%nat → find e0 w = Some row → leads w (rhs row)) →
  reduce_next_loop fuel find pbn found e = Ok (pbn', found', e') →
  leads h (rhs e) →
  leads h (rhs e')
  ∧ ((pbn' = pbn ∧ lhs (rhs e') = [(h, 1)])
     ∨ ∃ w c tail,
         lhs (rhs e') = (h, 1) :: (w, c) :: tail ∧ c ≠ 0
         ∧ find e' w = None
         ∧ pbn' = <[w := {[h]} ∪ default ∅ (pbn !! w)]> pbn).
Proof.
  induction fuel as [|fuel IH]; intros e pbn' found' e' Hfind Hloop Hlead; [done|].
  pose proof Hlead as [Hwf [rest Hrest]].
  cbn [reduce_next_loop] in Hloop. rewrite Hrest in Hloop.
  destruct rest as [|[w cw] tail].
  { injection Hloop as <- <- <-. split; [done|]. by left. }
  assert (h < w)%nat as Hhw.
  { rewrite Hrest in Hwf. apply wf_above_tail in Hwf. inversion Hwf; subst; done. }
  assert (cw ≠ 0) as Hcw.
  { rewrite Hrest in Hwf. apply wf_tail in Hwf. by eapply wf_head_nonzero. }
  destruct (find e w) as [row|] eqn:Hrow.
  - pose proof (Hfind _ _ _ Hhw Hrow) as Hrl.
    destruct (reduce_next_pass e row h w cw tail Hrest Hwf Hrl)
      as (tail' & Ht' & _ & Hwf').
    apply (IH _ _ _ _ Hfind Hloop). split; [done | by eexists].
  - injection Hloop as <- <- <-. split; [done|]. right.
    by exists w, cw, tail.
Qed.

Lemma rows_lead_insert ech v row :
  rows_lead ech → leads v (rhs row) → rows_lead (<[v := row]> ech).
Proof.
  intros Hok Hl w row' Hrow'. destruct (decide (v = w)) as [<-|Hne].
  - rewrite lookup_insert_eq in Hrow'. by injection Hrow' as <-.
  - rewrite lookup_insert_ne in Hrow' by done. by apply Hok.
Qed.

Lemma reduce_next_in_place_cache v p todo sys sys' :
  cache_during v (p :: todo) sys → p ∉ todo →
  reduce_next_in_place sys p = Ok sys' →
  cache_during v todo sys'.
Proof.
  intros (Hlead & Hv & Hkeys & Htodo) Hnotin Hstep.
  unfold reduce_next_in_place in Hstep.
  destruct (m_echelon_form sys !! p) as [e0|] eqn:Hp; [|done].
  destruct (reduce_next_loop _ _ _ _ e0) as [[[pbn' found'] e']| | |] eqn:Hloop;
    try done.
  injection Hstep as <-.
  destruct (Htodo p) as (row & c & tail & Hrow & Hsecond); [left|].
  rewrite Hp in Hrow. injection Hrow as <-.
  pose proof (λ Hf, reduce_next_loop_cache _ _ _ _ p e0 pbn' found' e' Hf Hloop
                      (Hlead _ _ Hp)) as Hx.
  destruct Hx as [Hl' Hcase].
  { intros e1 w row Hpw Hrow. rewrite lookup_insert_ne in Hrow by lia.
    by eapply Hlead. }
  assert (p ≠ v) as Hpv.
  { intros ->. destruct (Hlead _ _ Hp) as [Hwf _]. rewrite Hsecond in Hwf.
    apply wf_above_tail in Hwf. inversion Hwf; subst; simpl in *. lia. }
  split_and!; cbn [m_echelon_form m_pivot_by_next].
  - by apply rows_lead_insert.
  - by rewrite lookup_insert_ne.
  - intros w s q Hwv Hs Hq.
    assert (∀ s0, m_pivot_by_next sys !! w = Some s0 → q ∈ s0 →
              ∃ row c tail,
                <[p := e']> (m_echelon_form sys) !! q = Some row
                ∧ lhs (rhs row) = (q, 1) :: (w, c) :: tail ∧ c ≠ 0) as Hold.
    { intros s0 Hs0 Hq0.
      destruct (Hkeys w s0 q Hwv Hs0 Hq0) as (row & c0 & tail0 & Hrow & Hsec & Hc0).
      assert (q ≠ p) as Hqp.
      { intros ->. rewrite Hp in Hrow. injection Hrow as <-.
        rewrite Hsecond in Hsec. by injection Hsec as -> _. }
      exists row, c0, tail0. by rewrite lookup_insert_ne. }
    destruct Hcase as [[-> _]|(w2 & c2 & tail2 & Hsec2 & Hc2 & Hnone & ->)];
      [by eapply Hold|].
    destruct (decide (w2 = w)) as [->|Hne].
    + rewrite lookup_insert_eq in Hs. injection Hs as <-.
      apply elem_of_union in Hq as [->%elem_of_singleton|Hq].
      * exists e', c2, tail2. by rewrite lookup_insert_eq.
      * destruct (m_pivot_by_next sys !! w) as [s0|] eqn:Hs0; simpl in Hq;
          [by eapply Hold | by apply elem_of_empty in Hq].
    + rewrite lookup_insert_ne in Hs by done. by eapply Hold.
  - intros q Hq.
    destruct (Htodo q) as (row & c0 & tail0 & Hrow & Hsec); [by right|].
    exists row, c0, tail0. split; [|done]. rewrite lookup_insert_ne; [done|].
    intros ->. done.
Qed.

Lemma back_substitute_cache v pivots : ∀ sys sys',
  cache_during v pivots sys → NoDup pivots →
  back_substitute sys pivots = (sys', Ok ()) →
  cache_during v [] sys'.
Proof.
  induction pivots as [|p rest IH]; intros sys sys' Hinv Hnd Hbs;
    cbn [back_substitute] in Hbs.
  { by injection Hbs as <-. }
  apply NoDup_cons in Hnd as [Hnotin Hnd].
  destruct (reduce_next_in_place sys p) as [sys1| | |] eqn:Hstep; try done.
  eapply IH; [|done|exact Hbs].
  by eapply reduce_next_in_place_cache.
Qed.

Lemma set_in_order_NoDup (s : gset nat) : NoDup (set_in_order s).
Proof.
  unfold set_in_order. rewrite merge_sort_Permutation. apply NoDup_elements.
Qed.

(** [add_reduced_equation], when it returns, leaves the cache right. *)
Lemma add_reduced_equation_cache sys sys' pf re :
  rows_lead (m_echelon_form sys) → pivot_by_next_ok sys →
  LC.wf (lhs (m_remainder re)) →
  lhs (rhs (eq_add (eq_neg (m_linear_combination re))
              (mkEquation (LC.of_var (length (m_equations sys)))
                 (m_original_eq re))))
  = lhs (m_remainder re) →
  add_reduced_equation sys pf (Some re) = (sys', Ok ()) →
  pivot_by_next_ok sys'.
Proof.
  intros Hlead Hcache Hwf Hlclhs Hadd.
  unfold add_reduced_equation in Hadd.
  destruct (is_solved sys re) as [[[|] ws]| | |] eqn:Hsolved; try done.
  { by injection Hadd as <-. }
  case_bool_decide as Hnonempty; [done|].
  rewrite Hlclhs in Hadd.
  destruct (lhs (m_remainder re)) as [|[v c] tail] eqn:Hrem; [done|].
  assert (c ≠ 0) as Hc by (by eapply wf_head_nonzero).
  rewrite decide_False in Hadd by done.
  set (lc0 := eq_mul (1 / c) _) in Hadd.
  assert (leads v (rhs lc0)) as Hl0.
  { unfold lc0. split.
    - cbn [rhs eq_mul rmul Equation_Rhs lhs]. apply wf_scale.
      cbn [rhs eq_mul rmul Equation_Rhs lhs] in Hlclhs. rewrite Hlclhs. done.
    - cbn [rhs eq_mul rmul Equation_Rhs lhs].
      cbn [rhs eq_mul rmul Equation_Rhs lhs] in Hlclhs. rewrite Hlclhs.
      rewrite scale_cons by (by apply Qc_inv_nonzero).
      rewrite Qc_mul_inv by done. by eexists. }
  destruct (reduce_next_local _ lc0) as [[sys2 lc']| | |] eqn:Hlocal; try done.
  unfold reduce_next_local in Hlocal.
  cbn [m_equations m_echelon_form m_pivot_by_next m_found_variables] in Hlocal.
  destruct (reduce_next_loop _ _ _ _ lc0) as [[[pbn2 found2] e']| | |] eqn:Hloop;
    try done.
  injection Hlocal as <- <-.
  cbn [m_equations m_echelon_form m_pivot_by_next m_found_variables] in Hadd.
  destruct (m_echelon_form sys !! v) as [old|] eqn:Hv; [done|].
  pose proof (λ Hf, reduce_next_loop_cache _ _ _ _ v lc0 pbn2 found2 e' Hf Hloop Hl0)
    as Hx.
  destruct Hx as [Hl' Hcase].
  { intros e1 w row Hvw Hrow. by eapply Hlead. }
  set (ech3 := <[v := e']> (m_echelon_form sys)) in *.
  assert (rows_lead ech3) as Hlead3 by (by apply rows_lead_insert).
  assert (∀ w s p, pbn2 !! w = Some s → p ∈ s →
            ∃ row c tail,
              ech3 !! p = Some row
              ∧ lhs (rhs row) = (p, 1) :: (w, c) :: tail ∧ c ≠ 0) as Hcache3.
  { assert (∀ w s0 q, m_pivot_by_next sys !! w = Some s0 → q ∈ s0 →
              ∃ row c tail,
                ech3 !! q = Some row
                ∧ lhs (rhs row) = (q, 1) :: (w, c) :: tail ∧ c ≠ 0) as Hold.
    { intros w s0 q Hs0 Hq0.
      destruct (Hcache w s0 q Hs0 Hq0) as (row & c0 & tail0 & Hrow & Hsec & Hc0).
      exists row, c0, tail0. split; [|done]. unfold ech3.
      rewrite lookup_insert_ne; [done|]. intros ->. by rewrite Hv in Hrow. }
    intros w s q Hs Hq.
    destruct Hcase as [[-> _]|(w2 & c2 & tail2 & Hsec2 & Hc2 & Hnone & ->)];
      [by eapply Hold|].
    destruct (decide (w2 = w)) as [->|Hne].
    - rewrite lookup_insert_eq in Hs. injection Hs as <-.
      apply elem_of_union in Hq as [->%elem_of_singleton|Hq].
      + exists e', c2, tail2. unfold ech3. by rewrite lookup_insert_eq.
      + destruct (m_pivot_by_next sys !! w) as [s0|] eqn:Hs0; simpl in Hq;
          [by eapply Hold | by apply elem_of_empty in Hq].
    - rewrite lookup_insert_ne in Hs by done. by eapply Hold. }
  destruct (pbn2 !! v) as [pivots|] eqn:Hpiv.
  2: { injection Hadd as <-. intros w s p. apply Hcache3. }
  destruct (back_substitute _ (set_in_order pivots)) as [sys4 r4] eqn:Hbs.
  destruct r4 as [[]| | |]; try done. injection Hadd as <-.
  pose proof (λ Hinv, back_substitute_cache v (set_in_order pivots) _ sys4 Hinv
                        (set_in_order_NoDup pivots) Hbs) as Hx.
  destruct Hx as (_ & _ & Hkeys4 & _).
  { split_and!; cbn [m_echelon_form m_pivot_by_next].
    - done.
    - unfold ech3. by rewrite lookup_insert_eq.
    - intros w s p _. apply Hcache3.
    - intros p Hp. apply elem_of_set_in_order in Hp.
      destruct (Hcache3 v pivots p Hpiv Hp) as (row & c0 & tail0 & ? & ? & _).
      by exists row, c0, tail0. }
  intros w s p Hs Hp. cbn [m_echelon_form m_pivot_by_next] in *.
  destruct (decide (w = v)) as [->|Hne]; [by rewrite lookup_delete_eq in Hs|].
  rewrite lookup_delete_ne in Hs by done. by eapply Hkeys4.
Qed.

Lemma rows_lead_of_S (w : world R) :
  world_S w → rows_lead (m_echelon_form (w_sys w)).
Proof.
  intros [(_ & Hech & _) _] v row Hrow.
  destruct (Hech _ _ Hrow) as [HS _]. by eapply row_S_leads.
Qed.

Lemma quiet_cache (w : world R) : quiet w → pivot_by_next_ok (w_sys w).
Proof.
  unfold quiet. revert w. apply rtc_ind_r.
  { intros w s p Hs. cbn in Hs. by rewrite lookup_empty in Hs. }
  intros w1 w2 Hw1 Hstep IH.
  pose proof (reachable_world_S w1 (quiet_reachable w1 Hw1)) as HS.
  destruct Hstep as [sys reds e He | sys reds i re re' Hi Hred
                    | sys reds i re pf sys' Hi Hadd]; simpl in *; try done.
  pose proof HS as [_ Hreds]. simpl in Hreds.
  pose proof (Forall_lookup_1 _ _ _ _ Hreds Hi) as [(HcS & Hwo & Hwr & Hid) _].
  eapply add_reduced_equation_cache; [by apply (rows_lead_of_S _ HS) | done | done | | done].
  simpl. rewrite Hid. destruct HcS as (_ & _ & HwL). lc_ext.
Qed.

End pivot_by_next.

Section generate_suspected_facts.
Context {Statement : Type} `{SolverEnv Statement}.

(** A call ends well and, when [safe] holds, no assertion fails. *)
#[local] Abbreviation ends_as safe v r :=
  ((ends_well v r) ∧ (safe → no_assertion v r)).

Lemma ends_as_bind {A B} (safe : Prop) v (r : result A) (k : A → result B) :
  ends_as safe v r → (∀ a, r = Ok a → ends_as safe v (k a)) →
  ends_as safe v (r ≫= k).
Proof.
  destruct r as [a|msg| |]; simpl;
    [intros _ Hk; by apply Hk | | tauto | tauto].
  intros [Hw Hs] _. split; [exact Hw|].
  intros Hsafe msg' [= <-]. by apply (Hs Hsafe msg).
Qed.

Lemma ends_as_ok {A} (safe : Prop) v (a : A) : ends_as safe v (Ok a).
Proof. split; [done|]. by intros _ msg. Qed.

Lemma ends_as_impl {A} (safe safe' : Prop) v (r : result A) :
  (safe → safe') → ends_as safe' v r → ends_as safe v r.
Proof. intros Himpl [Hw Hs]. split; [done|]. intros Hsafe. by apply Hs, Himpl. Qed.

Lemma get_squared_dist_checked_ends_well (safe : Prop) n :
  ends_as safe SinOrDist (get_squared_dist_checked n).
Proof.
  unfold get_squared_dist_checked. case_match; [|apply ends_as_ok].
  split; [by left | done].
Qed.

Lemma pair_proposal_ends_well (safe : Prop) v i_var j_var ci cj :
  cj ≠ 0 → ends_as safe v (pair_proposal v i_var j_var ci cj).
Proof.
  intros Hcj. destruct v; simpl.
  - rewrite decide_False; [apply ends_as_ok|]. intros Hz.
    apply Qcmult_integral in Hz. by destruct Hz.
  - rewrite decide_False by done. case_decide; apply ends_as_ok.
  - case_decide; [|apply ends_as_ok].
    apply ends_as_bind; [apply get_squared_dist_checked_ends_well|]. intros l _.
    apply ends_as_bind; [apply get_squared_dist_checked_ends_well|]. intros r _.
    apply ends_as_ok.
  - apply ends_as_ok.
Qed.

Lemma assert_that_ends_well (v : VarT) c :
  v = Dist ∨ v = SquaredDist →
  ends_as (NDEBUG = true ∨ c < 0) v
    (assert_that (bool_decide (c < 0)) "eq_i_coeff < 0").
Proof.
  intros Hv. unfold assert_that.
  destruct NDEBUG eqn:Hbuild; [apply ends_as_ok|]. cbn [orb].
  destruct (bool_decide (c < 0)) eqn:Hc; [apply ends_as_ok|].
  apply bool_decide_eq_false in Hc. split.
  - right. by split_and!.
  - by intros [?|?].
Qed.

Lemma single_proposal_ends_well v i_var next_var b c :
  ends_as (NDEBUG = true ∨ c < 0) v (single_proposal v i_var next_var b c).
Proof.
  destruct v; simpl.
  - destruct b; [|apply ends_as_ok].
    apply ends_as_bind; [apply assert_that_ends_well; by left|]. intros _ _.
    apply ends_as_ok.
  - apply ends_as_bind; [apply assert_that_ends_well; by right|]. intros _ _.
    destruct b; apply ends_as_ok.
  - case_decide; [|apply ends_as_ok].
    apply ends_as_bind; [apply get_squared_dist_checked_ends_well|]. intros l _.
    apply ends_as_bind; [apply get_squared_dist_checked_ends_well|]. intros r _.
    apply ends_as_ok.
  - apply ends_as_ok.
Qed.

Lemma has_next_row v (sys : LinearSystem (RHSType v)) j :
  has_next sys j →
  ∃ row x w c tail,
    m_echelon_form sys !! j = Some row
    ∧ lhs (rhs row) = x :: (w, c) :: tail
    ∧ echelon_at sys j = Ok row ∧ next_coeff row = Ok c ∧ c ≠ 0.
Proof.
  intros (row & x & w & c & tail & Hrow & Hl & Hc). exists row, x, w, c, tail.
  unfold echelon_at, next_coeff. rewrite Hrow, Hl. by destruct x.
Qed.

Lemma proposals_with_ends_well (safe : Prop) v (sys : LinearSystem (RHSType v)) i_var ci js :
  Forall (has_next sys) js → ends_as safe v (proposals_with v sys i_var ci js).
Proof.
  induction 1 as [|j js Hj _ IH]; cbn [proposals_with]; [apply ends_as_ok|].
  destruct (has_next_row v sys j Hj)
    as (row & x & w & cj & tail & _ & _ & -> & Hnext & Hcj).
  simpl. rewrite Hnext. simpl.
  apply ends_as_bind; [by apply pair_proposal_ends_well|]. intros here _.
  apply ends_as_bind; [done|]. intros later _. apply ends_as_ok.
Qed.

Lemma proposals_of_bucket_ends_well v (sys : LinearSystem (RHSType v)) next_var pivots :
  Forall (has_next sys) pivots →
  ends_as (NDEBUG = true ∨ negative_next sys) v
    (proposals_of_bucket v sys next_var pivots).
Proof.
  induction 1 as [|i pivots Hi Hrest IH]; cbn [proposals_of_bucket];
    [apply ends_as_ok|].
  destruct (bool_decide (v = SinOrDist) && is_sin i) eqn:Hskip; [done|].
  destruct (has_next_row v sys i Hi)
    as (row & x & w & ci & tail & Hrow & Hl & -> & Hnext & Hci).
  simpl. rewrite Hnext. simpl.
  apply ends_as_bind.
  { destruct (decide (length (lhs (rhs row)) = 2%nat)) as [Htwo|];
      [|apply ends_as_ok].
    eapply ends_as_impl; [|apply single_proposal_ends_well].
    intros [?|Hneg]; [by left | right].
    rewrite Hl in Htwo. destruct tail; [|done].
    by apply (Hneg i row x w ci). }
  intros single _.
  apply ends_as_bind; [by apply proposals_with_ends_well|]. intros pairs _.
  apply ends_as_bind; [done|]. intros later _. apply ends_as_ok.
Qed.

Lemma proposals_of_buckets_ends_well v (sys : LinearSystem (RHSType v)) keys :
  pivot_by_next_ok sys →
  ends_as (NDEBUG = true ∨ negative_next sys) v (proposals_of_buckets v sys keys).
Proof.
  intros Hcache. induction keys as [|w keys IH]; cbn [proposals_of_buckets];
    [apply ends_as_ok|].
  apply ends_as_bind.
  { apply proposals_of_bucket_ends_well. apply Forall_forall. intros p Hp.
    apply elem_of_set_in_order in Hp.
    destruct (m_pivot_by_next sys !! w) as [s|] eqn:Hs; simpl in Hp;
      [|by apply elem_of_empty in Hp].
    destruct (Hcache w s p Hs Hp) as (row & c & tail & Hrow & Hl & Hc).
    by exists row, (p, 1), w, c, tail. }
  intros here _. apply ends_as_bind; [done|]. intros later _. apply ends_as_ok.
Qed.

(** X8.  In a world reached without an exception of
    [add_reduced_equation], [generate_suspected_ratio_squared_dist] never
    dereferences an end iterator and [at] never throws: the call returns,
    or the [Ratio] engine throws on [get_squared_dist] of a sine, or, in a
    program compiled with its assertions, [assert(eq_i_coeff < 0)] stops
    the [Len] or the [Len²] engine.  For [Len], [Len²] and the angles the
    call returns (nothing for the angles) in a program compiled with
    [NDEBUG], and in any program when the second coefficient of every row
    of two terms is negative.  With an empty cache [m_pivot_by_next] it
    returns no proposal. *)
Theorem generate_suspected_ends_well (v : VarT) (w : world (RHSType v)) :
  quiet w →
  ends_well v (generate_suspected_ratio_squared_dist v (w_sys w))
  ∧ (v ≠ SinOrDist → NDEBUG = true ∨ negative_next (w_sys w) →
     ∃ proposals, generate_suspected_ratio_squared_dist v (w_sys w) = Ok proposals)
  ∧ (v = SlopeAngle → generate_suspected_ratio_squared_dist v (w_sys w) = Ok [])
  ∧ (m_pivot_by_next (w_sys w) = ∅ →
     generate_suspected_ratio_squared_dist v (w_sys w) = Ok []).
Proof.
  intros Hq. pose proof (quiet_cache w Hq) as Hcache.
  assert (ends_as (NDEBUG = true ∨ negative_next (w_sys w)) v
            (generate_suspected_ratio_squared_dist v (w_sys w))) as [Hends Hsafe].
  { unfold generate_suspected_ratio_squared_dist.
    destruct v; try apply ends_as_ok; by apply proposals_of_buckets_ends_well. }
  split_and!; [done | | by intros -> |].
  - intros Hv Hs. specialize (Hsafe Hs).
    destruct (generate_suspected_ratio_squared_dist v (w_sys w)) as [l|msg| |];
      [by exists l | | done | done].
    by destruct (Hv (Hsafe msg eq_refl)).
  - intros Hempty. unfold generate_suspected_ratio_squared_dist.
    rewrite Hempty, dom_empty_L. by destruct v.
Qed.

End generate_suspected_facts.

Lemma len_sys1_result : (add_reduced_equation empty_system 0 (Some len_re0)).2 = Ok ().
Proof. vm_compute. reflexivity. Qed.

Lemma len_sys1_returns :
  add_reduced_equation empty_system 0 (Some len_re0) = (len_sys1, Ok ()).
Proof. rewrite <-len_sys1_result. apply surjective_pairing. Qed.

Lemma len_world_quiet : quiet len_world.
Proof.
  unfold quiet, len_world.
  eapply rtc_l; [apply (quiet_new _ [] len_eq0)|].
  { split; [|done]. apply wfb_wf. by vm_compute. }
  eapply rtc_l;
    [eapply (quiet_add _ _ 0%nat len_re0 0%nat); [done | apply len_sys1_returns]|].
  eapply rtc_l; [apply (quiet_new _ _ len_eq1)|].
  { split; [|done]. apply wfb_wf. by vm_compute. }
  eapply rtc_l; [apply (quiet_new _ _ len_eq2)|].
  { split; [|done]. apply wfb_wf. by vm_compute. }
  eapply rtc_l;
    [eapply (quiet_add _ _ 2%nat len_re2 1%nat); [done | apply len_sys2_returns]|].
  apply rtc_refl.
Qed.

Lemma positive_sys_result :
  (add_reduced_equation empty_system 0
     (Some (ReducedEquation_new positive_eq))).2 = Ok ().
Proof. vm_compute. reflexivity. Qed.

Lemma positive_world_quiet : quiet positive_world.
Proof.
  unfold quiet, positive_world.
  eapply rtc_l; [apply (quiet_new _ [] positive_eq)|].
  { split; [|done]. apply wfb_wf. by vm_compute. }
  eapply rtc_l;
    [eapply (quiet_add _ _ 0%nat (ReducedEquation_new positive_eq) 0%nat);
       [done | rewrite <-positive_sys_result; apply surjective_pairing]|].
  apply rtc_refl.
Qed.

(** The [Len] system holding [x + 2 y = 3] and [y = 1] in a program
    compiled with [NDEBUG], and the [Len²] system holding [d0 + d2 = 25]
    in a program with its assertions. *)
Lemma generate_suspected_ends_well_witness :
  (∃ proposals,
     generate_suspected_ratio_squared_dist (H := example_env_ndebug)
       Dist len_sys2 = Ok proposals)
  ∧ ends_well (H := example_env) SquaredDist
      (generate_suspected_ratio_squared_dist (H := example_env)
         SquaredDist positive_sys).
Proof.
  split.
  - refine (proj1 (proj2 (generate_suspected_ends_well (H := example_env_ndebug)
                            Dist len_world len_world_quiet)) _ _);
      [discriminate | by left].
  - exact (proj1 (generate_suspected_ends_well (H := example_env)
                    SquaredDist positive_world positive_world_quiet)).
Defined.

(** The assertion can fail in a world reached without an exception: with
    the one equation [d0 + d2 = 25] in the [Len²] engine, the program with
    its assertions stops, and the program compiled with [NDEBUG] returns
    no proposal; in the [Len] engine the assertion is not reached, the
    right-hand side not being zero. *)
Example generate_suspected_assertion :
  quiet positive_world
  ∧ generate_suspected_ratio_squared_dist (H := example_env)
      SquaredDist positive_sys
    = Throw (assertion_failed "eq_i_coeff < 0")
  ∧ generate_suspected_ratio_squared_dist (H := example_env_ndebug)
      SquaredDist positive_sys = Ok []
  ∧ generate_suspected_ratio_squared_dist (H := example_env)
      Dist positive_sys = Ok [].
Proof.
  split; [apply positive_world_quiet|]. split_and!; vm_compute; reflexivity.
Qed.

(** In a program compiled with [NDEBUG], after the exception "Trying to
    inssert a non-reduced equation" the cache lists the pivot [x] under
    [y] though the row of [x] has one term:
    [generate_suspected_ratio_squared_dist] then dereferences an end
    iterator. *)
Example generate_suspected_after_exception :
  (add_reduced_equation stale_sys1 1 (Some stale_re)).2
  = Throw "Trying to inssert a non-reduced equation"
  ∧ generate_suspected_ratio_squared_dist (H := example_env_ndebug)
      Dist stale_sys2 = Undefined.
Proof. split; vm_compute; reflexivity. Qed.

(** * A number and its factorisation *)

Section root_rat_facts.
Local Open Scope Z_scope.

Lemma Qc_inject_this (z : Z) : this (Q2Qc (inject_Z z)) = inject_Z z.
Proof.
  cbn [this Q2Qc]. apply Qred_identity. cbn. apply Z.gcd_1_r.
Qed.

Lemma Qc_inject_mul (a b : Z) :
  Q2Qc (inject_Z (a * b)) = (Q2Qc (inject_Z a) * Q2Qc (inject_Z b))%Qc.
Proof.
  apply Qc_is_canon. cbn [this Qcmult Q2Qc].
  rewrite !Qred_correct, inject_Z_mult. reflexivity.
Qed.

Lemma pos_prod_snoc data term :
  pos_prod (data ++ [term])
  = pos_prod data
    * (if 0 <? term_int term then Z.of_nat term.1 ^ term_int term else 1).
Proof.
  unfold pos_prod. induction data as [|x data IH]; cbn [foldr app].
  - lia.
  - rewrite IH. ring.
Qed.

Lemma zp_prod_snoc data term :
  zp_prod (data ++ [term])
  = zp_prod data
    * (if 0 <=? term_int term then Z.of_nat term.1 ^ term_int term else 0).
Proof.
  unfold zp_prod. induction data as [|x data IH]; cbn [foldr app].
  - lia.
  - rewrite IH. ring.
Qed.

Lemma pos_prod_pos N0 D0 data :
  Forall (term_ok N0 D0) data → 1 ≤ pos_prod data.
Proof.
  induction 1 as [|term data (_ & _ & Hb & _) _ IH]; cbn [pos_prod foldr].
  - lia.
  - fold (pos_prod data). destruct (0 <? term_int term) eqn:Hpos; [|lia].
    apply Z.ltb_lt in Hpos.
    assert (0 < Z.of_nat term.1 ^ term_int term) by (apply Z.pow_pos_nonneg; lia).
    nia.
Qed.

(** [as_nnrat] on a list of terms none of which overflows. *)
Lemma as_nnrat_loop_spec N0 D0 data acc :
  N0 < 2 ^ 64 → D0 < 2 ^ 64 → Forall (term_ok N0 D0) data →
  as_nnrat_loop data acc = Ok (acc * Q2Qc (inject_Z (zp_prod data)))%Qc.
Proof.
  intros HN HD Hdata. revert acc.
  induction Hdata as [|[b e] data (Hden & Hnz & Hb & Hpos & Hneg) _ IH];
    intros acc; cbn [as_nnrat_loop].
  - cbn. f_equal. change (Q2Qc (inject_Z 1)) with 1%Qc. ring.
  - unfold term_int in *. cbn [fst snd] in *.
    rewrite Hden. cbn [Pos.eqb negb]. unfold zpower_size_t.
    cbn [zp_prod foldr]. fold (zp_prod data). unfold term_int. cbn [fst snd].
    destruct (0 <=? Qnum (this e)) eqn:Hsign.
    + apply Z.leb_le in Hsign.
      assert (0 < Z.of_nat b ^ Qnum (this e)) by (apply Z.pow_pos_nonneg; lia).
      rewrite Z.mod_small by lia.
      cbn [mbind result_bind rbind]. rewrite IH. f_equal.
      rewrite Qc_inject_mul. ring.
    + apply Z.leb_gt in Hsign.
      assert (Z.of_nat b ^ 1 ≤ Z.of_nat b ^ (- Qnum (this e)))
        by (apply Z.pow_le_mono_r; lia).
      rewrite Z.pow_1_r in *.
      rewrite Z.mod_small by lia.
      destruct (Z.eqb_spec (Z.of_nat b ^ (- Qnum (this e))) 0); [lia|].
      rewrite Z.div_1_l by lia.
      cbn [mbind result_bind rbind]. rewrite IH. f_equal.
      rewrite Z.mul_0_l. change (Q2Qc (inject_Z 0)) with 0%Qc. ring.
Qed.

(** The inner loops divide the base out as often as it goes. *)
Lemma divide_out_spec fuel : ∀ n base exp step,
  1 ≤ n → 2 ≤ base → (Z.to_nat n ≤ fuel)%nat →
  ∃ k n', 0 ≤ k ∧ divide_out fuel n base exp step = Ok (n', exp + k * step)
    ∧ n = n' * base ^ k ∧ 1 ≤ n' ∧ n' `mod` base ≠ 0.
Proof.
  induction fuel as [|fuel IH]; intros n base exp step Hn Hbase Hfuel; [lia|].
  cbn [divide_out]. destruct (Z.eqb_spec (n `mod` base) 0) as [Hmod|Hmod];
    cbn [negb].
  - assert (Hdiv : n = base * (n `div` base)).
    { rewrite (Z.div_mod n base) at 1 by lia. lia. }
    assert (1 ≤ n `div` base) by nia.
    destruct (IH (n `div` base) base (exp + step) step) as
      (k & n' & Hk & Hrun & Hn' & Hpos & Hnd); [lia|lia|nia|].
    exists (k + 1), n'. split; [lia|]. split; [|split; [|done]].
    + rewrite Hrun. do 2 f_equal. ring.
    + rewrite Z.pow_add_r, Z.pow_1_r by lia. rewrite Hdiv at 1. rewrite Hn' at 1. ring.
  - exists 0, n. split; [lia|]. split; [|split; [|done]].
    + do 2 f_equal. ring.
    + rewrite Z.pow_0_r. ring.
Qed.

(** Adding a term above all the others appends it. *)
Lemma lc_add_snoc (data : LC.t) (b : nat) (c : Qc) :
  c ≠ 0%Qc → Forall (λ term, (term.1 < b)%nat) data →
  LC.add data (LC.single b c) = data ++ [(b, c)].
Proof.
  intros Hc Hbelow. unfold LC.single. rewrite decide_False by done.
  unfold LC.add.
  induction Hbelow as [|[v c'] data Hv _ IH]; cbn [LC.merge_terms app].
  - reflexivity.
  - cbn [fst] in Hv. rewrite decide_True by done. cbn [id]. f_equal. exact IH.
Qed.

Lemma coprime_divisors (a b a' b' : Z) :
  Z.gcd a b = 1 → (a' | a) → (b' | b) → Z.gcd a' b' = 1.
Proof.
  intros Hg Ha Hb.
  assert (Hd : (Z.gcd a' b' | 1)).
  { rewrite <-Hg. apply Z.gcd_greatest.
    - etrans; [apply Z.gcd_divide_l | exact Ha].
    - etrans; [apply Z.gcd_divide_r | exact Hb]. }
  apply Z.divide_1_r_nonneg in Hd; [done | apply Z.gcd_nonneg].
Qed.

Lemma wf_snoc (data : LC.t) (b : nat) (c : Qc) :
  c ≠ 0%Qc → Forall (λ term, (term.1 < b)%nat) data → LC.wf data →
  LC.wf (data ++ [(b, c)]).
Proof.
  intros Hc Hbelow Hwf. induction Hwf as [|v c' rest Hc' Habove Hwf IH];
    cbn [app].
  - constructor; [done | by apply Forall_nil | constructor].
  - apply Forall_cons in Hbelow as [Hv Hbelow]. cbn [fst] in Hv.
    constructor; [done | | by apply IH].
    apply Forall_app. split; [exact Habove|].
    apply Forall_cons. split; [exact Hv | by apply Forall_nil].
Qed.

Lemma Qc_inject_nonzero (z : Z) : z ≠ 0 → Q2Qc (inject_Z z) ≠ 0%Qc.
Proof.
  intros Hz Heq. apply (f_equal this) in Heq. rewrite Qc_inject_this in Heq.
  cbn in Heq. injection Heq as Heq. done.
Qed.

(** One more base: the invariant after a term with exponent [e] has been
    added for the base. *)
Lemma factoring_snoc N0 D0 numer denom base data (n1 d1 e : Z) :
  0 < N0 → 0 < D0 →
  factoring N0 D0 numer denom base data →
  1 ≤ n1 → 1 ≤ d1 → (n1 | numer) → (d1 | denom) →
  n1 `mod` base ≠ 0 → d1 `mod` base ≠ 0 → e ≠ 0 →
  (0 < e → numer = n1 * base ^ e ∧ d1 = denom) →
  (e < 0 → denom = d1 * base ^ (- e) ∧ n1 = numer) →
  factoring N0 D0 n1 d1 (base + 1)
    (data ++ [(Z.to_nat base, Q2Qc (inject_Z e))]).
Proof.
  intros HN HD [Fnumer Fdenom Fbase Fcop FN0 FD0 Fnoneg Fneg Fterms Fwf Fbelow Fdivided] Hn1 Hd1 Hdn Hdd Hmn Hmd He Hpos Hneg.
  assert (Hint : term_int (Z.to_nat base, Q2Qc (inject_Z e)) = e).
  { unfold term_int. cbn [snd]. by rewrite Qc_inject_this. }
  assert (HP : 1 ≤ pos_prod data) by (by eapply pos_prod_pos).
  assert (Hb : Z.of_nat (Z.to_nat base) = base) by lia.
  assert (Hle : d1 ≤ denom) by (apply Z.divide_pos_le; [lia | done]).
  assert (HleD : denom ≤ D0) by (apply Z.divide_pos_le; [lia | done]).
  split.
  - done.
  - done.
  - lia.
  - by eapply coprime_divisors.
  - rewrite pos_prod_snoc, Hint. cbn [fst]. rewrite Hb.
    destruct (Z.ltb_spec 0 e) as [He'|He'].
    + destruct (Hpos He') as [-> _]. rewrite FN0. ring.
    + destruct (Hneg ltac:(lia)) as [_ ->]. rewrite FN0. ring.
  - by etrans.
  - intros ->. rewrite pos_prod_snoc, zp_prod_snoc, Hint. cbn [fst].
    rewrite Hb. assert (denom = D0) as Heq by lia.
    destruct (Z.ltb_spec 0 e) as [He'|He'].
    + rewrite (proj2 (Z.leb_le 0 e)) by lia. by rewrite Fnoneg.
    + destruct (Hneg ltac:(lia)) as [Hden _].
      assert (1 ≤ - e) by lia.
      assert (base ^ 1 ≤ base ^ (- e)) by (apply Z.pow_le_mono_r; lia).
      rewrite Z.pow_1_r in *. nia.
  - intros Hne. rewrite zp_prod_snoc, Hint. cbn [fst]. rewrite Hb.
    destruct (Z.leb_spec 0 e) as [He'|He']; [|lia].
    destruct (Hpos ltac:(lia)) as [_ ->]. rewrite Fneg by done. lia.
  - apply Forall_app. split; [done|]. apply Forall_cons.
    split; [|by apply Forall_nil].
    unfold term_ok. rewrite Hint. cbn [fst snd]. rewrite Hb, Qc_inject_this.
    split; [done|]. split; [done|]. split; [lia|]. split.
    + intros He'. destruct (Hpos He') as [Hnum _].
      assert (0 < base ^ e) by (apply Z.pow_pos_nonneg; lia). nia.
    + intros He'. destruct (Hneg He') as [Hden _].
      assert (0 < base ^ (- e)) by (apply Z.pow_pos_nonneg; lia). nia.
  - apply wf_snoc; [by apply Qc_inject_nonzero | | done].
    eapply Forall_impl; [exact Fbelow|]. intros term Hterm.
    cbn beta in *. lia.
  - apply Forall_app. split.
    + eapply Forall_impl; [exact Fbelow|]. intros term Hterm.
      cbn beta in *. lia.
    + apply Forall_cons. split; [cbn [fst]; lia | by apply Forall_nil].
  - intros d Hd. destruct (decide (d = base)) as [->|Hne].
    + split; intros Hdiv; apply Z.mod_divide in Hdiv; lia.
    + destruct (Fdivided d ltac:(lia)) as [Hnn Hnd].
      split; intros Hdiv; [apply Hnn | apply Hnd]; by etrans.
Qed.

(** The same when the base divides neither. *)
Lemma factoring_next N0 D0 numer denom base data :
  factoring N0 D0 numer denom base data →
  numer `mod` base ≠ 0 → denom `mod` base ≠ 0 →
  factoring N0 D0 numer denom (base + 1) data.
Proof.
  intros [Fnumer Fdenom Fbase Fcop FN0 FD0 Fnoneg Fneg Fterms Fwf Fbelow Fdivided] Hmn Hmd. split; try done.
  - lia.
  - eapply Forall_impl; [exact Fbelow|]. intros term Hterm.
    cbn beta in *. lia.
  - intros d Hd. destruct (decide (d = base)) as [->|Hne].
    + split; intros Hdiv; apply Z.mod_divide in Hdiv; lia.
    + apply Fdivided. lia.
Qed.

(** The loop over the bases ends, with the factorisation. *)
Lemma RootRat_loop_spec N0 D0 : 0 < N0 → 0 < D0 →
  ∀ fuel numer denom base data,
  factoring N0 D0 numer denom base data →
  Z.max numer denom - base + 1 ≤ Z.of_nat fuel →
  ∃ data' base',
    RootRat_loop fuel numer denom base data = Ok data'
    ∧ factoring N0 D0 1 1 base' data'.
Proof.
  intros HN HD.
  induction fuel as [|fuel IH]; intros numer denom base data Hfa Hfuel.
  all: cbn [RootRat_loop];
    destruct ((numer =? 1) && (denom =? 1)) eqn:Hdone.
  all: try (apply andb_true_iff in Hdone as [->%Z.eqb_eq ->%Z.eqb_eq];
            by exists data, base).
  all: assert (Hbig : base ≤ Z.max numer denom).
  1, 3: apply andb_false_iff in Hdone; pose proof Hfa as [Fnumer Fdenom Fbase Fcop FN0 FD0 Fnoneg Fneg Fterms Fwf Fbelow Fdivided];
    destruct Hdone as [Hne%Z.eqb_neq|Hne%Z.eqb_neq].
  1, 3: destruct (Z.lt_ge_cases numer base); [|lia];
    destruct (Fdivided numer ltac:(lia)) as [Hno _];
    by destruct Hno.
  1, 2: destruct (Z.lt_ge_cases denom base); [|lia];
    destruct (Fdivided denom ltac:(lia)) as [_ Hno];
    by destruct Hno.
  { lia. }
  pose proof Hfa as [Fnumer Fdenom Fbase Fcop FN0 FD0 Fnoneg Fneg Fterms Fwf Fbelow Fdivided].
  destruct (divide_out_spec (Z.to_nat numer) numer base 0 1)
    as (k1 & n1 & Hk1 & -> & Hnum & Hn1 & Hmn); [lia|lia|lia|].
  cbn [mbind result_bind rbind].
  destruct (divide_out_spec (Z.to_nat denom) denom base (0 + k1 * 1) (-1))
    as (k2 & d1 & Hk2 & -> & Hden & Hd1 & Hmd); [lia|lia|lia|].
  cbn [mbind result_bind rbind].
  replace (0 + k1 * 1 + k2 * -1) with (k1 - k2) by ring.
  assert (Hpn : 0 < base ^ k1) by (apply Z.pow_pos_nonneg; lia).
  assert (Hpd : 0 < base ^ k2) by (apply Z.pow_pos_nonneg; lia).
  assert (Hdn : (n1 | numer)) by (exists (base ^ k1); lia).
  assert (Hdd : (d1 | denom)) by (exists (base ^ k2); lia).
  assert (Hnot : ¬ (0 < k1 ∧ 0 < k2)).
  { intros [H1 H2].
    assert (Hb1 : (base | numer)).
    { exists (n1 * base ^ (k1 - 1)).
      rewrite Hnum at 1. replace k1 with (k1 - 1 + 1) at 1 by lia.
      rewrite Z.pow_add_r, Z.pow_1_r by lia. ring. }
    assert (Hb2 : (base | denom)).
    { exists (d1 * base ^ (k2 - 1)).
      rewrite Hden at 1. replace k2 with (k2 - 1 + 1) at 1 by lia.
      rewrite Z.pow_add_r, Z.pow_1_r by lia. ring. }
    pose proof (Z.gcd_greatest _ _ _ Hb1 Hb2) as Hg.
    rewrite Fcop in Hg. apply Z.divide_pos_le in Hg; lia. }
  assert (n1 ≤ numer ∧ d1 ≤ denom) as [Hle1 Hle2] by nia.
  destruct (Z.eqb_spec (k1 - k2) 0) as [Hz|Hz].
  - assert (k1 = 0 ∧ k2 = 0) as [-> ->] by lia.
    rewrite Z.pow_0_r, Z.mul_1_r in Hnum, Hden. subst n1 d1.
    apply IH; [by apply factoring_next | lia].
  - rewrite lc_add_snoc.
    + apply IH; [|lia].
      apply (factoring_snoc N0 D0 numer denom); try done.
      * intros Hpos. assert (k2 = 0) as -> by lia.
        rewrite Z.sub_0_r. rewrite Z.pow_0_r, Z.mul_1_r in Hden. done.
      * intros Hneg. assert (k1 = 0) as -> by lia.
        replace (- (0 - k2)) with k2 by lia.
        rewrite Z.pow_0_r, Z.mul_1_r in Hnum. done.
    + by apply Qc_inject_nonzero.
    + eapply Forall_impl; [exact Fbelow|]. intros term Hterm.
      cbn beta in *. lia.
Qed.

End root_rat_facts.

(** X11. A positive number whose numerator and denominator fit in 64 bits
    is factored by the constructor of [RootRat]: the loops end, the result
    is canonical, and [as_nnrat] gives the number back when it is an
    integer; when it is not, [as_nnrat] gives zero, the power of a base
    with a negative exponent being computed as the quotient of integers
    [1 / d]. *)
Theorem RootRat_round_trip (number : Qc) :
  0 < number →
  (Qnum (this number) < 2 ^ 64)%Z → (Zpos (Qden (this number)) < 2 ^ 64)%Z →
  ∃ x, RootRat_of_NNRat number = Ok x ∧ LC.wf (m_data x)
    ∧ as_nnrat x
      = Ok (if decide (Qden (this number) = 1%positive) then number else 0).
Proof.
  intros Hpos HN HD. unfold RootRat_of_NNRat.
  assert (Hnum : (0 < Qnum (this number))%Z).
  { unfold Qclt, Qlt in Hpos. change (this (Q2Qc 0)) with (0 # 1)%Q in Hpos.
    cbn [Qnum Qden] in Hpos. lia. }
  rewrite decide_False by (intros Heq; by rewrite Heq in Hnum).
  destruct (RootRat_loop_spec (Qnum (this number)) (Zpos (Qden (this number)))
              Hnum ltac:(lia)
              (Z.to_nat (Z.max (Qnum (this number)) (Zpos (Qden (this number)))))
              (Qnum (this number)) (Zpos (Qden (this number))) 2 [])
    as (data & base' & -> & Hfa); [|lia|].
  { split; [lia | lia | lia | apply Qred_identity2, canon | cbn; lia
           | reflexivity | done | done | by apply Forall_nil | constructor
           | by apply Forall_nil | intros d Hd; lia]. }
  cbn [mbind result_bind rbind]. eexists. split; [reflexivity|].
  destruct Hfa as [Fnumer Fdenom Fbase Fcop FN0 FD0 Fnoneg Fneg Fterms Fwf Fbelow Fdivided]. split; [done|]. unfold as_nnrat. cbn [m_data].
  rewrite (as_nnrat_loop_spec _ _ _ _ HN HD Fterms). f_equal.
  rewrite Qcmult_1_l. case_decide as Hden.
  - rewrite Fnoneg by (by rewrite Hden).
    rewrite Z.mul_1_l in FN0. rewrite <-FN0.
    apply Qc_is_canon. cbn [this Q2Qc]. rewrite Qred_correct.
    destruct number as [[n d] Hc]. cbn in *. by subst d.
  - rewrite Fneg; [done|]. intros Heq. apply Hden. by injection Heq.
Qed.

Lemma RootRat_round_trip_witness :
  (∃ x, RootRat_of_NNRat (q 12 1) = Ok x ∧ LC.wf (m_data x)
     ∧ as_nnrat x = Ok (q 12 1))
  ∧ (∃ x, RootRat_of_NNRat (q 3 4) = Ok x ∧ LC.wf (m_data x)
     ∧ as_nnrat x = Ok 0).
Proof.
  split.
  - exact (RootRat_round_trip (q 12 1) eq_refl eq_refl eq_refl).
  - exact (RootRat_round_trip (q 3 4) eq_refl eq_refl eq_refl).
Defined.
